(** * A shallow embedding of the recurrent DQN core (dqn.hpp / dqn.cpp)

    The development follows the source region by region: preliminaries
    (machine integers, failures, loops over vectors, IEEE numbers), the
    frame preprocessor, the replay memory and its persistence, snapshot
    discovery and removal, and the agent: epsilon-greedy action selection
    and the two training updates.  Every definition carries the name of the C++
    function it transcribes; each module states its facts after the
    definitions they are about. *)

From Stdlib Require Import ZArith Lia Floats Uint63 Ascii String.
From Stdlib.Strings Require Import Byte.
From stdpp Require Import base option list strings.

Open Scope Z_scope.

(** ** Machine integers *)

(** [int] is a 32-bit two's complement integer.  Conversions into it
    (from [size_t], or the result of a compound assignment computed in
    a wider unsigned type) keep the low 32 bits. *)
Definition INT_MAX : Z := 2147483647.
Definition INT_MIN : Z := -2147483648.

Definition wrap32 (z : Z) : Z := (z + 2147483648) mod 4294967296 - 2147483648.

Definition in_int (z : Z) : Prop := INT_MIN <= z <= INT_MAX.

Lemma wrap32_id z : in_int z -> wrap32 z = z.
Proof.
  unfold in_int, INT_MIN, INT_MAX, wrap32. intros H.
  rewrite Z.mod_small; lia.
Qed.

Lemma wrap32_range z : in_int (wrap32 z).
Proof.
  unfold in_int, INT_MIN, INT_MAX, wrap32.
  pose proof (Z.mod_pos_bound (z + 2147483648) 4294967296). lia.
Qed.

(** ** Failures

    A call either returns, or leaves the function abnormally: a glog
    [CHECK] (or [assert]) that terminates the process, a C++ exception
    that propagates to the caller, or an operation whose behaviour the
    language leaves undefined. *)
Inductive exn :=
| length_error        (* thrown by resize *)
| out_of_range        (* thrown by std::stoi and substr *)
| invalid_argument.   (* thrown by std::stoi *)

Inductive failure :=
| CheckFailed         (* CHECK / CHECK_xx / assert failed: process aborts *)
| Thrown (e : exn)    (* a C++ exception leaves the function *)
| Undefined           (* undefined behaviour *)
| OutOfFuel.          (* a loop of the model used up its step budget *)

Inductive outcome (A : Type) :=
| Done (a : A)
| Fatal (f : failure).
Arguments Done {A} a.
Arguments Fatal {A} f.

#[global] Instance outcome_ret : MRet outcome := fun A a => Done a.
#[global] Instance outcome_bind : MBind outcome := fun A B k m =>
  match m with
  | Done a => k a
  | Fatal f => Fatal f
  end.

Definition CHECK (b : bool) : outcome unit :=
  if b then Done tt else Fatal CheckFailed.

(** ** Containers and loops *)

Definition as_size_t (z : Z) : Z := z mod 18446744073709551616.

Definition zrange (first count : Z) : list Z :=
  map (fun k => first + Z.of_nat k) (seq 0 (Z.to_nat count)).

(** A [for] loop over a state that may fail. *)
Fixpoint for_each {A S : Type} (body : S -> A -> outcome S) (l : list A) (st : S)
  : outcome S :=
  match l with
  | [] => Done st
  | x :: l' => st' ← body st x; for_each body l' st'
  end.

(** [v[idx]] on a vector: outside the bounds the behaviour is undefined. *)
Definition vload {A : Type} (v : list A) (idx : Z) : outcome A :=
  if (0 <=? idx) && (idx <? Z.of_nat (length v)) then
    match v !! Z.to_nat idx with
    | Some x => Done x
    | None => Fatal Undefined
    end
  else Fatal Undefined.

Definition vstore {A : Type} (v : list A) (idx : Z) (x : A) : outcome (list A) :=
  if (0 <=? idx) && (idx <? Z.of_nat (length v))
  then Done (<[Z.to_nat idx := x]> v) else Fatal Undefined.

(** [std::fill(v.begin(), v.end(), x)] *)
Definition fill {A : Type} (v : list A) (x : A) : list A := replicate (length v) x.


(** ** Reasoning about the loops *)

Lemma bind_Done {A B} (m : outcome A) (k : A -> outcome B) y :
  (m ≫= k) = Done y -> exists x, m = Done x /\ k x = Done y.
Proof. destruct m as [x|f]; [|done]. intros E. by exists x. Qed.

Lemma Done_inj {A} (x y : A) : Done x = Done y -> x = y.
Proof. by intros [= ->]. Qed.

Lemma Done_pair_inj {A B} (a a' : A) (b b' : B) :
  Done (a, b) = Done (a', b') -> a = a' /\ b = b'.
Proof. by intros [= -> ->]. Qed.

Lemma CHECK_Done b u : CHECK b = Done u -> b = true.
Proof. by destruct b. Qed.

Lemma vload_Done {A} (v : list A) idx x :
  vload v idx = Done x -> 0 <= idx /\ v !! Z.to_nat idx = Some x.
Proof.
  unfold vload. destruct (Z.leb_spec 0 idx); [|done].
  destruct (Z.ltb_spec idx (Z.of_nat (length v))); [|done]. simpl.
  destruct (v !! Z.to_nat idx) eqn:E; [|done]. intros [= ->]. split; [lia|done].
Qed.

Lemma vload_lookup {A} (v : list A) (k : nat) x :
  v !! k = Some x -> vload v (Z.of_nat k) = Done x.
Proof.
  intros E. unfold vload. pose proof (lookup_lt_Some _ _ _ E).
  destruct (Z.leb_spec 0 (Z.of_nat k)); [|lia].
  destruct (Z.ltb_spec (Z.of_nat k) (Z.of_nat (length v))); [|lia].
  simpl. by rewrite Nat2Z.id, E.
Qed.

Lemma vstore_Done {A} (v : list A) idx x v' :
  vstore v idx x = Done v' ->
  0 <= idx < Z.of_nat (length v) /\ v' = <[Z.to_nat idx := x]> v.
Proof.
  unfold vstore. destruct (Z.leb_spec 0 idx); [|done].
  destruct (Z.ltb_spec idx (Z.of_nat (length v))); [|done].
  intros [= <-]. split; [lia|done].
Qed.

Lemma length_zrange first count : length (zrange first count) = Z.to_nat count.
Proof. unfold zrange. by rewrite length_map, length_seq. Qed.

Lemma lookup_zrange first count (k : nat) :
  (k < Z.to_nat count)%nat -> zrange first count !! k = Some (first + Z.of_nat k).
Proof.
  intros Hk. unfold zrange.
  change (map ?f ?l) with (f <$> l). rewrite list_lookup_fmap.
  rewrite lookup_seq_lt by done. done.
Qed.

Lemma lookup_zrange_Some first count (k : nat) x :
  zrange first count !! k = Some x -> x = first + Z.of_nat k /\ (k < Z.to_nat count)%nat.
Proof.
  intros E. pose proof (lookup_lt_Some _ _ _ E) as Hlt. rewrite length_zrange in Hlt.
  rewrite lookup_zrange in E by done. split; [congruence|done].
Qed.

(** An invariant indexed by the number of passes made. *)
Lemma for_each_invariant {A S} (body : S -> A -> outcome S) (P : nat -> S -> Prop) l :
  forall st0 st',
  P 0%nat st0 ->
  (forall k x s s', l !! k = Some x -> P k s -> body s x = Done s' -> P (Datatypes.S k) s') ->
  for_each body l st0 = Done st' -> P (length l) st'.
Proof.
  revert P. induction l as [|x l IH]; intros P st0 st' H0 Hstep E.
  - injection E as <-. done.
  - cbn [for_each] in E. apply bind_Done in E as (s1 & E1 & E).
    apply (IH (fun k => P (Datatypes.S k)) s1 st'); [|intros|done].
    + by apply (Hstep 0%nat x st0).
    + by apply (Hstep (Datatypes.S k) x0 s).
Qed.

(** The same for a loop whose passes cannot fail under the invariant. *)
Lemma for_each_total {A S} (body : S -> A -> outcome S) (P : nat -> S -> Prop) l :
  forall st0,
  P 0%nat st0 ->
  (forall k x s, l !! k = Some x -> P k s ->
     exists s', body s x = Done s' /\ P (Datatypes.S k) s') ->
  exists st', for_each body l st0 = Done st' /\ P (length l) st'.
Proof.
  revert P. induction l as [|x l IH]; intros P st0 H0 Hstep.
  - by exists st0.
  - destruct (Hstep 0%nat x st0) as (s1 & E1 & H1); [done|done|].
    destruct (IH (fun k => P (Datatypes.S k)) s1) as (st' & E & H'); [done| |].
    + intros k y s Hk Hs. by apply (Hstep (Datatypes.S k)).
    + exists st'. cbn [for_each]. rewrite E1. done.
Qed.

(** ** IEEE numbers

    [double] is the primitive binary64 type.  Conversions to and from
    integers are written out with the specification of the format. *)

(** [int] to [double]: exact. *)
Definition double_of_int (z : Z) : float :=
  if z <? 0 then PrimFloat.opp (PrimFloat.of_uint63 (Uint63.of_Z (- z)))
  else PrimFloat.of_uint63 (Uint63.of_Z z).

(** The integer part of a finite [double], rounded towards zero and
    towards minus infinity. *)
Definition truncate (d : float) : option Z :=
  match Prim2SF d with
  | S754_zero _ => Some 0
  | S754_finite s m e =>
      let mag := if 0 <=? e then Z.shiftl (Zpos m) e else Z.shiftr (Zpos m) (- e) in
      Some (if s then - mag else mag)
  | _ => None
  end.

Definition floor (d : float) : option Z :=
  match Prim2SF d with
  | S754_zero _ => Some 0
  | S754_finite s m e =>
      if 0 <=? e then Some (if s then - Z.shiftl (Zpos m) e else Z.shiftl (Zpos m) e)
      else Some (Z.shiftr (if s then Zneg m else Zpos m) (- e))
  | _ => None
  end.

(** [static_cast<int>(d)] and the conversion to [uint8_t]: the value is
    truncated; the behaviour is undefined when the result does not fit. *)
Definition int_of_double (d : float) : outcome Z :=
  match truncate d with
  | Some z => if (INT_MIN <=? z) && (z <=? INT_MAX) then Done z else Fatal Undefined
  | None => Fatal Undefined
  end.

Definition uint8_of_double (d : float) : outcome Z :=
  match truncate d with
  | Some z => if (0 <=? z) && (z <=? 255) then Done z else Fatal Undefined
  | None => Fatal Undefined
  end.

(** [static_cast<int>(std::floor(d))] *)
Definition int_of_floor (d : float) : outcome Z :=
  match floor d with
  | Some z => if (INT_MIN <=? z) && (z <=? INT_MAX) then Done z else Fatal Undefined
  | None => Fatal Undefined
  end.

(** ** Data model (dqn.hpp) *)

Definition kRawFrameHeight : Z := 210.
Definition kRawFrameWidth : Z := 160.
Definition kCroppedFrameSize : Z := 84.
Definition kCroppedFrameDataSize : Z := kCroppedFrameSize * kCroppedFrameSize.
Definition kOutputCount : Z := 18.

(** [uint8_t] values as bytes. *)
Definition byte_of_Z (z : Z) : byte :=
  default x00 (Byte.of_N (Z.to_N (z mod 256))).
Definition Z_of_byte (b : byte) : Z := Z.of_N (Byte.to_N b).

(** [float] (binary32) values are kept as their four-byte object
    representation, lowest address first; this is what [write] and
    [read] copy.  Arithmetic goes through [widen] and [narrow] below. *)
Definition float32 : Type := byte * byte * byte * byte.

(** *** binary32 *)

Definition f32_zero : float32 := (x00, x00, x00, x00).
Definition f32_one : float32 := (x00, x00, x80, x3f).

Definition f32_bits (x : float32) : Z :=
  let '(b0, b1, b2, b3) := x in
  Z_of_byte b0 + 256 * Z_of_byte b1 + 65536 * Z_of_byte b2 + 16777216 * Z_of_byte b3.

Definition f32_of_bits (z : Z) : float32 :=
  (byte_of_Z z, byte_of_Z (z / 256), byte_of_Z (z / 65536), byte_of_Z (z / 16777216)).

(** The value of a binary32 pattern, as a spec float. *)
Definition f32_decode (x : float32) : spec_float :=
  let bits := f32_bits x in
  let s := Z.testbit bits 31 in
  let e := Z.land (Z.shiftr bits 23) 255 in
  let m := Z.land bits 8388607 in
  if e =? 255 then (if m =? 0 then S754_infinity s else S754_nan)
  else if e =? 0 then
    match m with Zpos p => S754_finite s p (-149) | _ => S754_zero s end
  else
    match m + 8388608 with Zpos p => S754_finite s p (e - 150) | _ => S754_zero s end.

Definition f32_encode (x : spec_float) : float32 :=
  let sign (s : bool) := if s then 2147483648 else 0 in
  f32_of_bits
    match x with
    | S754_zero s => sign s
    | S754_infinity s => sign s + 2139095040
    | S754_nan => 2143289344
    | S754_finite s m e =>
        if 8388608 <=? Zpos m then sign s + (e + 150) * 8388608 + (Zpos m - 8388608)
        else sign s + Zpos m
    end.

(** [float] to [double] (exact) and [double] to [float] (to nearest, ties to even). *)
Definition widen (x : float32) : float := SF2Prim (f32_decode x).

Definition narrow (d : float) : float32 :=
  f32_encode
    match Prim2SF d with
    | S754_finite s m e => binary_normalize 24 128 (cond_Zopp s (Zpos m)) e s
    | other => other
    end.

Definition f32_ltb (x y : float32) : bool := (widen x <? widen y)%float.
Definition f32_isnan (x : float32) : bool := PrimFloat.is_nan (widen x).

Definition f32_of_bool (b : bool) : float32 := if b then f32_one else f32_zero.


(** A numeric key that orders the spec floats which are not NaN. *)
Definition sf_key (x : spec_float) : Z * Z * Z :=
  match x with
  | S754_infinity true => (-2, 0, 0)
  | S754_finite true m e => (-1, - e, - Zpos m)
  | S754_zero _ => (0, 0, 0)
  | S754_finite false m e => (1, e, Zpos m)
  | S754_infinity false => (2, 0, 0)
  | S754_nan => (3, 0, 0)
  end.

Definition key_lt (k1 k2 : Z * Z * Z) : Prop :=
  let '(a1, b1, c1) := k1 in
  let '(a2, b2, c2) := k2 in
  a1 < a2 \/ (a1 = a2 /\ (b1 < b2 \/ (b1 = b2 /\ c1 < c2))).

Lemma SFltb_key x y :
  x <> S754_nan -> y <> S754_nan ->
  (SFltb x y = true <-> key_lt (sf_key x) (sf_key y)).
Proof.
  intros Hx Hy. unfold SFltb.
  destruct x as [sx|sx| |sx mx ex], y as [sy|sy| |sy my ey]; try done;
    try destruct sx; try destruct sy; cbn; try (split; [done|lia]); try (split; [lia|done]);
    try (split; intros; [lia|done]).
  - destruct (Z.compare_spec ex ey); cbn.
    + rewrite Pos.compare_cont_spec. cbn. destruct (Pos.compare_spec mx my); cbn;
        split; (done || lia).
    + split; (done || lia).
    + split; (done || lia).
  - destruct (Z.compare_spec ex ey); cbn.
    + rewrite Pos.compare_cont_spec. cbn. destruct (Pos.compare_spec mx my); cbn;
        split; (done || lia).
    + split; (done || lia).
    + split; (done || lia).
Qed.


Lemma key_lt_trans k1 k2 k3 : key_lt k1 k2 -> key_lt k2 k3 -> key_lt k1 k3.
Proof. destruct k1 as [[? ?] ?], k2 as [[? ?] ?], k3 as [[? ?] ?]. unfold key_lt. lia. Qed.

Lemma key_lt_weak k1 k2 k3 : key_lt k1 k2 -> key_lt k1 k3 \/ key_lt k3 k2.
Proof. destruct k1 as [[? ?] ?], k2 as [[? ?] ?], k3 as [[? ?] ?]. unfold key_lt. lia. Qed.

Lemma is_nan_Prim2SF d : PrimFloat.is_nan d = false -> Prim2SF d <> S754_nan.
Proof.
  intros H. unfold Prim2SF. rewrite H.
  destruct (PrimFloat.is_zero d); [done|]. destruct (PrimFloat.is_infinity d); [done|].
  destruct (Z.frexp d) as [r e]. destruct (shr_fexp _ _ _ _ _) as [s e'].
  by destruct (shr_m s).
Qed.

Lemma ltb_trans (a b c : float) :
  PrimFloat.is_nan a = false -> PrimFloat.is_nan b = false -> PrimFloat.is_nan c = false ->
  (a <? b)%float = true -> (b <? c)%float = true -> (a <? c)%float = true.
Proof.
  intros Ha Hb Hc. rewrite !FloatAxioms.ltb_spec.
  apply is_nan_Prim2SF in Ha, Hb, Hc.
  rewrite !SFltb_key by done. apply key_lt_trans.
Qed.

Lemma ltb_weak (a b c : float) :
  PrimFloat.is_nan a = false -> PrimFloat.is_nan b = false -> PrimFloat.is_nan c = false ->
  (a <? b)%float = true -> (a <? c)%float = true \/ (c <? b)%float = true.
Proof.
  intros Ha Hb Hc. rewrite !FloatAxioms.ltb_spec.
  apply is_nan_Prim2SF in Ha, Hb, Hc.
  rewrite !SFltb_key by done. apply key_lt_weak.
Qed.

Lemma ltb_irrefl (a : float) : PrimFloat.is_nan a = false -> (a <? a)%float = false.
Proof.
  intros Ha. rewrite FloatAxioms.ltb_spec. apply is_nan_Prim2SF in Ha.
  destruct (SFltb (Prim2SF a) (Prim2SF a)) eqn:E; [|done].
  apply SFltb_key in E; [|done|done].
  destruct (sf_key (Prim2SF a)) as [[? ?] ?]. unfold key_lt in E. lia.
Qed.

(** [std::max_element]: the first of the largest elements. *)
Fixpoint max_element_from {A : Type} (lt : A -> A -> bool)
    (largest : nat) (largest_val : A) (i : nat) (l : list A) : nat :=
  match l with
  | [] => largest
  | x :: l' =>
      if lt largest_val x then max_element_from lt i x (S i) l'
      else max_element_from lt largest largest_val (S i) l'
  end.

Definition max_element {A : Type} (lt : A -> A -> bool) (l : list A) : nat :=
  match l with
  | [] => 0%nat
  | x :: l' => max_element_from lt 0 x 1 l'
  end.

Section MaxElement.
Context {A : Type} (lt : A -> A -> bool) (ok : A -> Prop).
Hypothesis lt_irrefl : forall a, ok a -> lt a a = false.
Hypothesis lt_trans : forall a b c, ok a -> ok b -> ok c ->
  lt a b = true -> lt b c = true -> lt a c = true.
Hypothesis lt_weak : forall a b c, ok a -> ok b -> ok c ->
  lt a b = true -> lt a c = true \/ lt c b = true.

Definition first_maximum (l : list A) (m : nat) : Prop :=
  exists v, l !! m = Some v
    /\ (forall j w, l !! j = Some w -> lt v w = false)
    /\ (forall j w, (j < m)%nat -> l !! j = Some w -> lt w v = true).

Lemma max_element_from_spec rest : forall pre largest largest_val,
  Forall ok (pre ++ rest) ->
  pre !! largest = Some largest_val ->
  (forall j w, pre !! j = Some w -> lt largest_val w = false) ->
  (forall j w, (j < largest)%nat -> pre !! j = Some w -> lt w largest_val = true) ->
  first_maximum (pre ++ rest) (max_element_from lt largest largest_val (length pre) rest).
Proof.
  induction rest as [|x rest IH]; intros pre largest v Hok Hl Hmax Hfirst.
  - rewrite app_nil_r. exists v. done.
  - cbn [max_element_from].
    assert (Hokpre : forall j w, pre !! j = Some w -> ok w).
    { intros j w Hj. rewrite Forall_forall in Hok. apply Hok, elem_of_app. left.
      by eapply list_elem_of_lookup_2. }
    assert (Hokv : ok v) by eauto.
    assert (Hokx : ok x).
    { rewrite Forall_forall in Hok. apply Hok, elem_of_app. right. by left. }
    assert (Hlt : (largest < length pre)%nat) by (by eapply lookup_lt_Some).
    replace (pre ++ x :: rest) with ((pre ++ [x]) ++ rest) in * by (by rewrite <- app_assoc).
    replace (S (length pre)) with (length (pre ++ [x])) by (rewrite length_app; simpl; lia).
    destruct (lt v x) eqn:Hvx.
    + apply IH; [done| | |].
      * by rewrite lookup_app_r, Nat.sub_diag.
      * intros j w Hj. apply lookup_app_Some in Hj as [Hj|[_ Hj]].
        -- destruct (lt x w) eqn:Hxw; [|done].
           assert (lt v w = true) by (apply (lt_trans v x w); eauto).
           specialize (Hmax j w Hj). congruence.
        -- destruct (j - length pre)%nat; [|done]. injection Hj as <-. by apply lt_irrefl.
      * intros j w Hj Hw. rewrite lookup_app_l in Hw by done.
        destruct (lt_weak v x w) as [H|H]; eauto.
        specialize (Hmax j w Hw). congruence.
    + apply IH; [done| | |].
      * by apply lookup_app_l_Some.
      * intros j w Hj. apply lookup_app_Some in Hj as [Hj|[_ Hj]]; [by eapply Hmax|].
        destruct (j - length pre)%nat; [|done]. by injection Hj as <-.
      * intros j w Hj Hw. rewrite lookup_app_l in Hw by lia. by eapply Hfirst.
Qed.

Lemma max_element_spec l :
  l <> [] -> Forall ok l -> first_maximum l (max_element lt l).
Proof.
  intros Hne Hok. destruct l as [|x l]; [done|].
  assert (Hokx : ok x) by (by inversion Hok).
  apply (max_element_from_spec l [x] 0%nat x); [done|done| |].
  - intros [|j] w Hj; [|done]. injection Hj as <-. by apply lt_irrefl.
  - intros j w Hj. lia.
Qed.

End MaxElement.


(** [FrameData = std::array<uint8_t, 7056>].  Frames are never written
    after they are shared, so a [FrameDataSp] is modelled by the value
    it points to. *)
Abbreviation FrameData := (list byte) (only parsing).

(** [Action] is the emulator's enum, stored as an [int]. *)
Abbreviation Action := Z (only parsing).

(** [Transition = tuple<FrameDataSp, Action, float, optional<FrameDataSp>>] *)
Record Transition := mkTransition {
  tr_frame : FrameData;            (* std::get<0> *)
  tr_action : Action;              (* std::get<1> *)
  tr_reward : float32;             (* std::get<2> *)
  tr_next : option FrameData       (* std::get<3> *)
}.

Abbreviation Episode := (list Transition) (only parsing).
(** [std::deque<Episode>], front first. *)
Abbreviation ReplayMemory := (list (list Transition)) (only parsing).

(** ** The frame preprocessor: PixelToRGB, RGBToGrayscale, PreprocessScreen *)

Module Preprocess.

(** [ALEScreen]: the dimensions, and what reading [getArray()] at an
    offset yields.  The array proper is the offsets below
    [width * height]; the loops below also read the row after the last
    one (with weight zero), that is, whatever follows the array. *)
Record ALEScreen := mkScreen {
  width : Z;
  height : Z;
  getArray : Z -> Z
}.

Definition ntsc_to_rgb : list Z := [
  0x000000; 0; 0x4a4a4a; 0; 0x6f6f6f; 0; 0x8e8e8e; 0;
  0xaaaaaa; 0; 0xc0c0c0; 0; 0xd6d6d6; 0; 0xececec; 0;
  0x484800; 0; 0x69690f; 0; 0x86861d; 0; 0xa2a22a; 0;
  0xbbbb35; 0; 0xd2d240; 0; 0xe8e84a; 0; 0xfcfc54; 0;
  0x7c2c00; 0; 0x904811; 0; 0xa26221; 0; 0xb47a30; 0;
  0xc3903d; 0; 0xd2a44a; 0; 0xdfb755; 0; 0xecc860; 0;
  0x901c00; 0; 0xa33915; 0; 0xb55328; 0; 0xc66c3a; 0;
  0xd5824a; 0; 0xe39759; 0; 0xf0aa67; 0; 0xfcbc74; 0;
  0x940000; 0; 0xa71a1a; 0; 0xb83232; 0; 0xc84848; 0;
  0xd65c5c; 0; 0xe46f6f; 0; 0xf08080; 0; 0xfc9090; 0;
  0x840064; 0; 0x97197a; 0; 0xa8308f; 0; 0xb846a2; 0;
  0xc659b3; 0; 0xd46cc3; 0; 0xe07cd2; 0; 0xec8ce0; 0;
  0x500084; 0; 0x68199a; 0; 0x7d30ad; 0; 0x9246c0; 0;
  0xa459d0; 0; 0xb56ce0; 0; 0xc57cee; 0; 0xd48cfc; 0;
  0x140090; 0; 0x331aa3; 0; 0x4e32b5; 0; 0x6848c6; 0;
  0x7f5cd5; 0; 0x956fe3; 0; 0xa980f0; 0; 0xbc90fc; 0;
  0x000094; 0; 0x181aa7; 0; 0x2d32b8; 0; 0x4248c8; 0;
  0x545cd6; 0; 0x656fe4; 0; 0x7580f0; 0; 0x8490fc; 0;
  0x001c88; 0; 0x183b9d; 0; 0x2d57b0; 0; 0x4272c2; 0;
  0x548ad2; 0; 0x65a0e1; 0; 0x75b5ef; 0; 0x84c8fc; 0;
  0x003064; 0; 0x185080; 0; 0x2d6d98; 0; 0x4288b0; 0;
  0x54a0c5; 0; 0x65b7d9; 0; 0x75cceb; 0; 0x84e0fc; 0;
  0x004030; 0; 0x18624e; 0; 0x2d8169; 0; 0x429e82; 0;
  0x54b899; 0; 0x65d1ae; 0; 0x75e7c2; 0; 0x84fcd4; 0;
  0x004400; 0; 0x1a661a; 0; 0x328432; 0; 0x48a048; 0;
  0x5cba5c; 0; 0x6fd26f; 0; 0x80e880; 0; 0x90fc90; 0;
  0x143c00; 0; 0x355f18; 0; 0x527e2d; 0; 0x6e9c42; 0;
  0x87b754; 0; 0x9ed065; 0; 0xb4e775; 0; 0xc8fc84; 0;
  0x303800; 0; 0x505916; 0; 0x6d762b; 0; 0x88923e; 0;
  0xa0ab4f; 0; 0xb7c25f; 0; 0xccd86e; 0; 0xe0ec7c; 0;
  0x482c00; 0; 0x694d14; 0; 0x866a26; 0; 0xa28638; 0;
  0xbb9f47; 0; 0xd2b656; 0; 0xe8cc63; 0; 0xfce070; 0
].

(** [PixelToRGB]: [pixel_t] is an unsigned char, so the index is within
    the 256 entries. *)
Definition PixelToRGB (pixel : Z) : Z * Z * Z :=
  let rgb := nth (Z.to_nat pixel) ntsc_to_rgb 0 in
  (Z.shiftr rgb 16, Z.land (Z.shiftr rgb 8) 255, Z.land rgb 255).

Definition in_byte (z : Z) : bool := (0 <=? z) && (z <=? 255).

(** [RGBToGrayscale]: the weighted sum is a [double], returned as [uint8_t]. *)
Definition RGBToGrayscale (rgb : Z * Z * Z) : outcome Z :=
  let '(r, g, b) := rgb in
  _ ← CHECK (in_byte r);
  _ ← CHECK (in_byte g);
  _ ← CHECK (in_byte b);
  uint8_of_double (double_of_int r * 0.21 + double_of_int g * 0.72
                   + double_of_int b * 0.07)%float.

Definition PixelToGrayscale (pixel : Z) : outcome Z :=
  RGBToGrayscale (PixelToRGB pixel).

(** [for (auto x = first; x <= last; ++x)] *)
Definition range (first last : Z) : list Z :=
  map (fun k => first + Z.of_nat k) (seq 0 (Z.to_nat (last - first + 1))).

Definition in_unit (d : float) : bool := ((0 <=? d) && (d <=? 1))%float.

Section Screen.

Variable raw_screen : ALEScreen.

Definition raw_pixels (idx : Z) : Z := getArray raw_screen idx.

Definition start_x : Z := 8.

(** One destination pixel: the body of the two outer loops. *)
Definition resulting_pixel (start_y : Z) (x_ratio y_ratio : float) (i j : Z) : outcome Z :=
  let raw_screen_width := width raw_screen in
  first_x' ← int_of_floor (double_of_int j * x_ratio)%float;
  last_x' ← int_of_floor (double_of_int (j + 1) * x_ratio)%float;
  first_y' ← int_of_floor (double_of_int i * y_ratio)%float;
  last_y' ← int_of_floor (double_of_int (i + 1) * y_ratio)%float;
  let first_x := start_x + first_x' in
  let last_x := start_x + last_x' in
  let first_y := start_y + first_y' in
  let last_y := start_y + last_y' in
  for_each (fun resulting_color x =>
    let x_ratio_in_resulting_pixel :=
      if x =? first_x then
        (double_of_int (x + 1) - double_of_int j * x_ratio - double_of_int start_x)%float
      else if x =? last_x then
        (x_ratio * double_of_int (j + 1) - double_of_int x + double_of_int start_x)%float
      else 1%float in
    _ ← CHECK (in_unit x_ratio_in_resulting_pixel);
    for_each (fun resulting_color y =>
      let y_ratio_in_resulting_pixel :=
        if y =? first_y then
          (double_of_int (y + 1) - double_of_int i * y_ratio - double_of_int start_y)%float
        else if y =? last_y then
          (y_ratio * double_of_int (i + 1) - double_of_int y + double_of_int start_y)%float
        else 1%float in
      _ ← CHECK (in_unit y_ratio_in_resulting_pixel);
      grayscale ← PixelToGrayscale (raw_pixels (y * raw_screen_width + x));
      (* resulting_color += ...: the sum is a double, stored back into a uint8_t *)
      uint8_of_double
        (double_of_int resulting_color
         + (x_ratio_in_resulting_pixel / x_ratio)
           * (y_ratio_in_resulting_pixel / y_ratio) * double_of_int grayscale)%float)
      (range first_y last_y) resulting_color)
    (range first_x last_x) 0.

Definition PreprocessScreen : outcome FrameData :=
  let raw_screen_width := width raw_screen in
  let raw_screen_height := height raw_screen in
  _ ← CHECK (raw_screen_width <? raw_screen_height);
  cropped_screen_height ← int_of_double (0.85 * double_of_int raw_screen_height)%float;
  let start_y := raw_screen_height - cropped_screen_height in
  let cropped_screen_width := raw_screen_width - start_x in
  let x_ratio := (double_of_int cropped_screen_width / double_of_int kCroppedFrameSize)%float in
  let y_ratio := (double_of_int cropped_screen_height / double_of_int kCroppedFrameSize)%float in
  for_each (fun screen i =>
    for_each (fun screen j =>
      resulting_color ← resulting_pixel start_y x_ratio y_ratio i j;
      Done (<[Z.to_nat (i * kCroppedFrameSize + j) := byte_of_Z resulting_color]> screen))
      (range 0 (kCroppedFrameSize - 1)) screen)
    (range 0 (kCroppedFrameSize - 1))
    (replicate (Z.to_nat kCroppedFrameDataSize) x00).

End Screen.

(** A screen filled with one colour; [beyond] is the memory after it. *)
Definition uniform_screen (pixel : Z) (beyond : Z -> Z) : ALEScreen :=
  mkScreen kRawFrameWidth kRawFrameHeight
    (fun idx => if idx <? kRawFrameWidth * kRawFrameHeight then pixel else beyond idx).


(** The frame is made of the destination pixels, row by row. *)
Lemma PreprocessScreen_pixels raw_screen frame :
  PreprocessScreen raw_screen = Done frame ->
  exists cropped_screen_height,
    int_of_double (0.85 * double_of_int (height raw_screen))%float = Done cropped_screen_height
    /\ forall i j : nat, (i < 84)%nat -> (j < 84)%nat ->
         exists resulting_color,
           resulting_pixel raw_screen (height raw_screen - cropped_screen_height)
             (double_of_int (width raw_screen - start_x) / double_of_int kCroppedFrameSize)%float
             (double_of_int cropped_screen_height / double_of_int kCroppedFrameSize)%float
             (Z.of_nat i) (Z.of_nat j) = Done resulting_color
           /\ frame !! (i * 84 + j)%nat = Some (byte_of_Z resulting_color).
Proof.
  unfold PreprocessScreen. intros E.
  apply bind_Done in E as (u & _ & E).
  apply bind_Done in E as (cropped_screen_height & Eh & E).
  exists cropped_screen_height. split; [done|].
  set (pixel := resulting_pixel raw_screen (height raw_screen - cropped_screen_height)
         (double_of_int (width raw_screen - start_x) / double_of_int kCroppedFrameSize)%float
         (double_of_int cropped_screen_height / double_of_int kCroppedFrameSize)%float) in *.
  set (filled := fun (rows cols : nat) (screen : list byte) =>
         Z.of_nat (length screen) = kCroppedFrameDataSize
         /\ forall i j : nat, (i < rows \/ i = rows /\ j < cols)%nat -> (j < 84)%nat ->
              exists resulting_color,
                pixel (Z.of_nat i) (Z.of_nat j) = Done resulting_color
                /\ screen !! (i * 84 + j)%nat = Some (byte_of_Z resulting_color)).
  assert (Hrows : filled 84%nat 0%nat frame).
  { change (range 0 (kCroppedFrameSize - 1)) with (zrange 0 84) in E.
    refine (for_each_invariant _ (fun n screen => filled n 0%nat screen) _ _ _ _ _ E).
    - split; [rewrite length_replicate; reflexivity|]. intros i j Hi. lia.
    - intros i x screen screen' Hx Hprev Erow.
      apply lookup_zrange_Some in Hx as [-> Hi]. rewrite Z.add_0_l in Erow.
      assert (Hcols : filled i 84%nat screen').
      { refine (for_each_invariant _ (fun m screen => filled i m screen) _ _ _ _ _ Erow).
        - done.
        - intros j y s s' Hy [Hlen Hs] Epx.
          apply lookup_zrange_Some in Hy as [-> Hj]. rewrite Z.add_0_l in Epx.
          apply bind_Done in Epx as (c & Ec & Epx). injection Epx as <-.
          replace (Z.to_nat (Z.of_nat i * kCroppedFrameSize + Z.of_nat j))
            with (i * 84 + j)%nat by (unfold kCroppedFrameSize; lia).
          change (Z.to_nat 84) with 84%nat in Hi, Hj.
          split; [by rewrite length_insert|].
          intros i' j' Hij Hj'. destruct (decide (i' = i /\ j' = j)) as [[-> ->]|Hne].
          + exists c. split; [done|]. apply list_lookup_insert_eq.
            unfold kCroppedFrameDataSize, kCroppedFrameSize in Hlen. lia.
          + destruct (Hs i' j') as (c' & Ec' & Hl); [lia|done|].
            exists c'. split; [done|]. rewrite list_lookup_insert_ne; [done|]. lia. }
      destruct Hcols as [Hlen Hcols]. split; [done|].
      intros i' j' Hij Hj'. apply Hcols; [lia|done]. }
  destruct Hrows as [_ Hrows]. intros i j Hi Hj. apply Hrows; [lia|done].
Qed.

(** C7, at a screen of colour 14 (RGB 0xececec, grayscale 236): every
    addition to [resulting_color] is stored back into a [uint8_t], so the
    fractions of the weighted contributions are lost one by one.  The
    destination pixel at index 0 comes out as 232 and the one at index 4
    as 230: the frame is neither uniform nor equal to 236. *)
Theorem PreprocessScreen_uniform_truncates :
  let raw_screen := uniform_screen 14 (fun _ => 0) in
  let x_ratio := (152 / 84)%float in
  let y_ratio := (178 / 84)%float in
  PixelToGrayscale 14 = Done 236
  /\ resulting_pixel raw_screen 32 x_ratio y_ratio 0 0 = Done 232
  /\ resulting_pixel raw_screen 32 x_ratio y_ratio 0 4 = Done 230
  /\ forall frame, PreprocessScreen raw_screen = Done frame ->
       Z_of_byte <$> frame !! 0%nat = Some 232 /\ Z_of_byte <$> frame !! 4%nat = Some 230.
Proof.
  intros raw_screen x_ratio y_ratio.
  assert (E0 : resulting_pixel raw_screen 32 x_ratio y_ratio 0 0 = Done 232) by reflexivity.
  assert (E4 : resulting_pixel raw_screen 32 x_ratio y_ratio 0 4 = Done 230) by reflexivity.
  split; [reflexivity|]. split; [done|]. split; [done|].
  intros frame E. apply PreprocessScreen_pixels in E as (h & Eh & Hpx).
  assert (h = 178) as -> by (apply Done_inj; rewrite <- Eh; reflexivity).
  destruct (Hpx 0%nat 0%nat) as (c0 & Ec0 & Hl0); [lia..|].
  destruct (Hpx 0%nat 4%nat) as (c4 & Ec4 & Hl4); [lia..|].
  change (resulting_pixel raw_screen 32 x_ratio y_ratio 0 0 = Done c0) in Ec0.
  change (resulting_pixel raw_screen 32 x_ratio y_ratio 0 4 = Done c4) in Ec4.
  rewrite E0 in Ec0. rewrite E4 in Ec4.
  apply Done_inj in Ec0 as <-. apply Done_inj in Ec4 as <-.
  change (0 * 84 + 0)%nat with 0%nat in Hl0. change (0 * 84 + 4)%nat with 4%nat in Hl4.
  rewrite Hl0, Hl4. split; reflexivity.
Qed.

(** The weights themselves are right where no truncation can bite: on a
    black screen the first pixel is black. *)
Example resulting_pixel_black :
  resulting_pixel (uniform_screen 0 (fun _ => 0)) 32 (152 / 84)%float (178 / 84)%float 0 0
  = Done 0.
Proof. reflexivity. Qed.

(** *** The grayscale of a pixel *)

(** The luminosity of pixel value [pixel], in hundredths, and the check
    that [PixelToGrayscale] returns a byte within one unit below it. *)
Definition luminosity (pixel : Z) : Z :=
  let '(r, g, b) := PixelToRGB pixel in 21 * r + 72 * g + 7 * b.

Definition grayscale_ok (pixel : Z) : bool :=
  match PixelToGrayscale pixel with
  | Done v =>
      in_byte v && (100 * v <=? luminosity pixel) && (luminosity pixel <=? 100 * (v + 1))
  | Fatal _ => false
  end.

Lemma range_elem first last x : x ∈ range first last <-> first <= x <= last.
Proof.
  unfold range. rewrite list_elem_of_fmap. split.
  - intros (k & -> & Hk). apply elem_of_seq in Hk. lia.
  - intros Hx. exists (Z.to_nat (x - first)). split; [lia|]. apply elem_of_seq. lia.
Qed.

Lemma forallb_range (f : Z -> bool) first last x :
  forallb f (range first last) = true -> first <= x <= last -> f x = true.
Proof.
  intros Hall Hx. rewrite forallb_forall in Hall. apply Hall.
  apply list_elem_of_In. by apply range_elem.
Qed.

(** X1: every pixel value of [pixel_t] has a grayscale: the three CHECKs
    of RGBToGrayscale pass, and the byte returned is the luminosity
    0.21 r + 0.72 g + 0.07 b cut to an integer, or one less where the
    sum in doubles falls just short of an integer (pixel 12, the grey
    214, yields 213). *)
Theorem PixelToGrayscale_luminosity pixel :
  0 <= pixel <= 255 ->
  exists v, PixelToGrayscale pixel = Done v
    /\ 0 <= v <= 255
    /\ 100 * v <= luminosity pixel <= 100 * (v + 1).
Proof.
  intros Hp.
  assert (Hall : forallb grayscale_ok (range 0 255) = true) by (vm_compute; reflexivity).
  pose proof (forallb_range _ _ _ _ Hall Hp) as Hok. unfold grayscale_ok, in_byte in Hok.
  destruct (PixelToGrayscale pixel) as [v|]; [|done]. exists v. split; [done|]. lia.
Qed.

Lemma PixelToGrayscale_luminosity_witness :
  exists v, PixelToGrayscale 12 = Done v
    /\ 0 <= v <= 255
    /\ 100 * v <= luminosity 12 <= 100 * (v + 1).
Proof. apply PixelToGrayscale_luminosity. lia. Defined.

Example PixelToGrayscale_grey_214 : PixelToGrayscale 12 = Done 213 /\ luminosity 12 = 21400.
Proof. split; reflexivity. Qed.

(** *** The crop *)

Lemma for_each_ext {A S} (body1 body2 : S -> A -> outcome S) l :
  (forall st x, x ∈ l -> body1 st x = body2 st x) ->
  forall st, for_each body1 l st = for_each body2 l st.
Proof.
  induction l as [|x l IH]; intros Hext st; [done|]. cbn [for_each].
  rewrite Hext by constructor. destruct (body2 st x) as [st'|]; [|done].
  cbn [mbind outcome_bind]. apply IH. intros st0 y Hy. apply Hext. by constructor.
Qed.

Lemma for_each_ext_inv {A S} (P : S -> Prop) (body1 body2 : S -> A -> outcome S) l :
  (forall st x, x ∈ l -> P st ->
     body1 st x = body2 st x /\ forall st', body1 st x = Done st' -> P st') ->
  forall st, P st -> for_each body1 l st = for_each body2 l st.
Proof.
  induction l as [|x l IH]; intros Hext st Hst; [done|]. cbn [for_each].
  destruct (Hext st x) as [E Hnext]; [by constructor|done|]. rewrite <- E.
  destruct (body1 st x) as [st'|]; [|done]. cbn [mbind outcome_bind].
  apply IH; [|by apply Hnext]. intros st0 y Hy. apply Hext. by constructor.
Qed.

Lemma for_each_preserves {A S} (P : S -> Prop) (body : S -> A -> outcome S) l :
  (forall st x st', x ∈ l -> P st -> body st x = Done st' -> P st') ->
  forall st st', P st -> for_each body l st = Done st' -> P st'.
Proof.
  induction l as [|x l IH]; intros Hstep st st' Hst E; cbn [for_each] in E.
  - by injection E as <-.
  - destruct (body st x) as [st1|] eqn:E1; [|done]. cbn [mbind outcome_bind] in E.
    apply (IH (fun s y s' Hy => Hstep s y s' (list_elem_of_further _ _ _ Hy)) st1 st');
      [|done]. apply (Hstep st x st1); [constructor|done|done].
Qed.

Lemma guarded_ext {S} (P : S -> Prop) b (m1 m2 : outcome S) :
  m1 = m2 /\ (forall st', m1 = Done st' -> P st') ->
  (_ ← CHECK b; m1) = (_ ← CHECK b; m2)
  /\ forall st', (_ ← CHECK b; m1) = Done st' -> P st'.
Proof. intros [-> Hp]. split; [done|]. by destruct b. Qed.

(** The weight of source column [x] and of source row [y] in the
    destination pixel of column [j] and row [i]. *)
Definition x_weight (x_ratio : float) (j x first_x last_x : Z) : float :=
  if x =? first_x then
    (double_of_int (x + 1) - double_of_int j * x_ratio - double_of_int start_x)%float
  else if x =? last_x then
    (x_ratio * double_of_int (j + 1) - double_of_int x + double_of_int start_x)%float
  else 1%float.

Definition y_weight (start_y : Z) (y_ratio : float) (i y first_y last_y : Z) : float :=
  if y =? first_y then
    (double_of_int (y + 1) - double_of_int i * y_ratio - double_of_int start_y)%float
  else if y =? last_y then
    (y_ratio * double_of_int (i + 1) - double_of_int y + double_of_int start_y)%float
  else 1%float.

Lemma resulting_pixel_weights raw_screen start_y x_ratio y_ratio i j :
  resulting_pixel raw_screen start_y x_ratio y_ratio i j
  = (first_x' ← int_of_floor (double_of_int j * x_ratio)%float;
     last_x' ← int_of_floor (double_of_int (j + 1) * x_ratio)%float;
     first_y' ← int_of_floor (double_of_int i * y_ratio)%float;
     last_y' ← int_of_floor (double_of_int (i + 1) * y_ratio)%float;
     for_each (fun resulting_color x =>
       _ ← CHECK (in_unit (x_weight x_ratio j x (start_x + first_x') (start_x + last_x')));
       for_each (fun resulting_color y =>
         _ ← CHECK (in_unit (y_weight start_y y_ratio i y (start_y + first_y')
                               (start_y + last_y')));
         grayscale ← PixelToGrayscale (getArray raw_screen (y * width raw_screen + x));
         uint8_of_double
           (double_of_int resulting_color
            + (x_weight x_ratio j x (start_x + first_x') (start_x + last_x') / x_ratio)
              * (y_weight start_y y_ratio i y (start_y + first_y') (start_y + last_y')
                 / y_ratio)
              * double_of_int grayscale)%float)
         (range (start_y + first_y') (start_y + last_y')) resulting_color)
       (range (start_x + first_x') (start_x + last_x')) 0).
Proof. reflexivity. Qed.

Definition is_pos_zero (f : float) : bool :=
  match Prim2SF f with
  | S754_zero false => true
  | _ => false
  end.

Lemma is_pos_zero_eq f : is_pos_zero f = true -> f = 0%float.
Proof.
  unfold is_pos_zero. intros Hz. rewrite <- (FloatAxioms.SF2Prim_Prim2SF f).
  destruct (Prim2SF f) as [[|]| | |]; try done.
Qed.

(** A sample of weight zero leaves the colour as it is. *)
Lemma zero_weight_step (w : float) resulting_color grayscale :
  w = 0%float -> 0 <= resulting_color <= 255 -> 0 <= grayscale <= 255 ->
  uint8_of_double (double_of_int resulting_color + w * double_of_int grayscale)%float
  = Done resulting_color.
Proof.
  intros -> Hc Hg.
  assert (Hmul : forallb (fun g => is_pos_zero (0 * double_of_int g)%float) (range 0 255)
                 = true) by (vm_compute; reflexivity).
  assert (Hadd : forallb (fun c => match uint8_of_double (double_of_int c + 0)%float with
                                   | Done v => v =? c
                                   | Fatal _ => false
                                   end) (range 0 255) = true) by (vm_compute; reflexivity).
  pose proof (forallb_range _ _ _ _ Hmul Hg) as Hz. apply is_pos_zero_eq in Hz. rewrite Hz.
  pose proof (forallb_range _ _ _ _ Hadd Hc) as Hs. cbv beta in Hs.
  destruct (uint8_of_double _) as [v|]; [|done]. apply Z.eqb_eq in Hs. by subst.
Qed.

Lemma uint8_of_double_byte d v : uint8_of_double d = Done v -> 0 <= v <= 255.
Proof.
  unfold uint8_of_double. destruct (truncate d) as [z|]; [|done].
  destruct (Z.leb_spec 0 z), (Z.leb_spec z 255); cbn [andb]; try done.
  intros [= <-]. lia.
Qed.

Lemma PixelToGrayscale_byte pixel :
  0 <= pixel <= 255 -> exists v, PixelToGrayscale pixel = Done v /\ 0 <= v <= 255.
Proof.
  intros Hp.
  assert (Hall : forallb grayscale_ok (range 0 255) = true) by (vm_compute; reflexivity).
  pose proof (forallb_range _ _ _ _ Hall Hp) as Hok. unfold grayscale_ok, in_byte in Hok.
  destruct (PixelToGrayscale pixel) as [v|]; [|done]. exists v. split; [done|]. lia.
Qed.

(** Where the source intervals lie: inside the crop, but for the last
    destination column and row, whose interval ends one pixel after
    it. *)
Definition interval_in (ratio : float) (limit k : Z) : bool :=
  match int_of_floor (double_of_int k * ratio)%float,
        int_of_floor (double_of_int (k + 1) * ratio)%float with
  | Done a, Done b => (0 <=? a) && ((b <? limit) || ((k =? 83) && (b =? limit)))
  | _, _ => true
  end.

(** The column after the crop has weight 0 in every row, ... *)
Definition column_160_ok (i : Z) : bool :=
  match int_of_floor (double_of_int i * (178 / 84))%float,
        int_of_floor (double_of_int (i + 1) * (178 / 84))%float with
  | Done fy, Done ly =>
      forallb (fun y =>
          is_pos_zero
            ((x_weight (152 / 84) 83 160 (start_x + 150) (start_x + 152) / (152 / 84))
             * (y_weight 32 (178 / 84) i y (32 + fy) (32 + ly) / (178 / 84)))%float)
        (range (32 + fy) (32 + ly))
  | _, _ => true
  end.

(** ... and the row after it in every column. *)
Definition row_210_ok (j : Z) : bool :=
  match int_of_floor (double_of_int j * (152 / 84))%float,
        int_of_floor (double_of_int (j + 1) * (152 / 84))%float with
  | Done fx, Done lx =>
      forallb (fun x =>
          is_pos_zero
            ((x_weight (152 / 84) j x (start_x + fx) (start_x + lx) / (152 / 84))
             * (y_weight 32 (178 / 84) 83 210 (32 + 175) (32 + 178) / (178 / 84)))%float)
        (range (start_x + fx) (start_x + lx))
  | _, _ => true
  end.

Lemma resulting_pixel_crop f1 f2 i j :
  0 <= i <= 83 -> 0 <= j <= 83 ->
  (forall idx, 0 <= f1 idx <= 255) -> (forall idx, 0 <= f2 idx <= 255) ->
  (forall x y, 8 <= x <= 159 -> 32 <= y <= 209 -> f1 (y * 160 + x) = f2 (y * 160 + x)) ->
  resulting_pixel (mkScreen 160 210 f1) 32 (152 / 84)%float (178 / 84)%float i j
  = resulting_pixel (mkScreen 160 210 f2) 32 (152 / 84)%float (178 / 84)%float i j.
Proof.
  intros Hi Hj Hb1 Hb2 Hagree.
  assert (Hxs : forallb (interval_in (152 / 84)%float 152) (range 0 83) = true)
    by (vm_compute; reflexivity).
  assert (Hys : forallb (interval_in (178 / 84)%float 178) (range 0 83) = true)
    by (vm_compute; reflexivity).
  assert (Hcols : forallb column_160_ok (range 0 83) = true) by (vm_compute; reflexivity).
  assert (Hrows : forallb row_210_ok (range 0 83) = true) by (vm_compute; reflexivity).
  pose proof (forallb_range _ _ _ _ Hxs Hj) as Hx.
  pose proof (forallb_range _ _ _ _ Hys Hi) as Hy.
  pose proof (forallb_range _ _ _ _ Hcols Hi) as Hcol.
  pose proof (forallb_range _ _ _ _ Hrows Hj) as Hrow.
  unfold interval_in in Hx, Hy. unfold column_160_ok in Hcol. unfold row_210_ok in Hrow.
  rewrite !resulting_pixel_weights. cbn [width getArray].
  destruct (int_of_floor (double_of_int j * (152 / 84))%float) as [fx|] eqn:Efx; [|done].
  destruct (int_of_floor (double_of_int (j + 1) * (152 / 84))%float) as [lx|]; [|done].
  destruct (int_of_floor (double_of_int i * (178 / 84))%float) as [fy|] eqn:Efy; [|done].
  destruct (int_of_floor (double_of_int (i + 1) * (178 / 84))%float) as [ly|]; [|done].
  cbn [mbind outcome_bind]. unfold start_x in Hx |- * at 1 2 3 4.
  rewrite forallb_forall in Hcol, Hrow.
  assert (Hstep : forall x y c,
            x ∈ range (8 + fx) (8 + lx) -> y ∈ range (32 + fy) (32 + ly) ->
            0 <= c <= 255 ->
            (grayscale ← PixelToGrayscale (f1 (y * 160 + x));
             uint8_of_double
               (double_of_int c
                + (x_weight (152 / 84) j x (8 + fx) (8 + lx) / (152 / 84))
                  * (y_weight 32 (178 / 84) i y (32 + fy) (32 + ly) / (178 / 84))
                  * double_of_int grayscale)%float)
            = (grayscale ← PixelToGrayscale (f2 (y * 160 + x));
               uint8_of_double
                 (double_of_int c
                  + (x_weight (152 / 84) j x (8 + fx) (8 + lx) / (152 / 84))
                    * (y_weight 32 (178 / 84) i y (32 + fy) (32 + ly) / (178 / 84))
                    * double_of_int grayscale)%float)).
  { intros x y c Hinx Hiny Hc.
    pose proof Hinx as Hxr. apply range_elem in Hxr.
    pose proof Hiny as Hyr. apply range_elem in Hyr.
    destruct (decide (x = 160)) as [->|Hx160].
    - assert (j = 83) as -> by lia.
      assert (fx = 150) as -> by (vm_compute in Efx; by injection Efx as <-).
      assert (lx = 152) as -> by lia.
      pose proof (Hcol y ltac:(by apply list_elem_of_In)) as Hz. apply is_pos_zero_eq in Hz.
      destruct (PixelToGrayscale_byte _ (Hb1 (y * 160 + 160))) as (g1 & -> & Hg1).
      destruct (PixelToGrayscale_byte _ (Hb2 (y * 160 + 160))) as (g2 & -> & Hg2).
      cbn [mbind outcome_bind]. by rewrite !zero_weight_step.
    - destruct (decide (y = 210)) as [->|Hy210].
      + assert (i = 83) as -> by lia.
        assert (fy = 175) as -> by (vm_compute in Efy; by injection Efy as <-).
        assert (ly = 178) as -> by lia.
        pose proof (Hrow x ltac:(by apply list_elem_of_In)) as Hz. apply is_pos_zero_eq in Hz.
        destruct (PixelToGrayscale_byte _ (Hb1 (210 * 160 + x))) as (g1 & -> & Hg1).
        destruct (PixelToGrayscale_byte _ (Hb2 (210 * 160 + x))) as (g2 & -> & Hg2).
        cbn [mbind outcome_bind]. by rewrite !zero_weight_step.
      + by rewrite Hagree by lia. }
  assert (Hbyte : forall (f : Z -> Z) x y c c',
            (grayscale ← PixelToGrayscale (f (y * 160 + x));
             uint8_of_double
               (double_of_int c
                + (x_weight (152 / 84) j x (8 + fx) (8 + lx) / (152 / 84))
                  * (y_weight 32 (178 / 84) i y (32 + fy) (32 + ly) / (178 / 84))
                  * double_of_int grayscale)%float) = Done c' ->
            0 <= c' <= 255).
  { intros f x y c c' E. apply bind_Done in E as (g & _ & E).
    by apply uint8_of_double_byte in E. }
  apply (for_each_ext_inv (fun c => 0 <= c <= 255)); [|lia].
  intros c x Hinx Hc. apply guarded_ext. split.
  - apply (for_each_ext_inv (fun c => 0 <= c <= 255)); [|done].
    intros c' y Hiny Hc'. apply guarded_ext. split; [by apply Hstep|]. apply Hbyte.
  - intros c' E. refine (for_each_preserves (fun c0 => 0 <= c0 <= 255) _ _ _ c c' Hc E).
    intros s y s' _ Hs Eb. apply bind_Done in Eb as (u' & _ & Eb). by apply Hbyte in Eb.
Qed.

(** X2: PreprocessScreen depends on the 152 x 178 crop only.  Its loops
    also read the pixel after each row of the crop and the row after
    the last one (which lies beyond a 160 x 210 array), but with weight
    0: two screens of byte pixels that agree on the columns 8..159 of
    the rows 32..209 give the same result, whatever the top 32 rows,
    the left 8 columns and the memory after the array hold. *)
Theorem PreprocessScreen_crop f1 f2 :
  (forall idx, 0 <= f1 idx <= 255) -> (forall idx, 0 <= f2 idx <= 255) ->
  (forall x y, 8 <= x <= 159 -> 32 <= y <= 209 -> f1 (y * 160 + x) = f2 (y * 160 + x)) ->
  PreprocessScreen (mkScreen 160 210 f1) = PreprocessScreen (mkScreen 160 210 f2).
Proof.
  intros Hb1 Hb2 Hagree. unfold PreprocessScreen. cbn [width height].
  change (CHECK (160 <? 210)) with (Done tt). cbn [mbind outcome_bind].
  change (int_of_double (0.85 * double_of_int 210)%float) with (Done 178).
  cbn [mbind outcome_bind]. cbv zeta.
  change (210 - 178) with 32.
  change (double_of_int (160 - start_x) / double_of_int kCroppedFrameSize)%float
    with (152 / 84)%float.
  change (double_of_int 178 / double_of_int kCroppedFrameSize)%float with (178 / 84)%float.
  change (kCroppedFrameSize - 1) with 83.
  apply for_each_ext. intros screen i Hi. apply range_elem in Hi.
  apply for_each_ext. intros screen' j Hj. apply range_elem in Hj.
  by rewrite (resulting_pixel_crop f1 f2 i j).
Qed.

(** A screen of colour 14 below a band of colour 3 over the top rows,
    with other bytes after the array. *)
Definition banded_screen (idx : Z) : Z :=
  if idx <? 32 * 160 then 3 else if idx <? 160 * 210 then 14 else 200.

Lemma PreprocessScreen_crop_witness :
  PreprocessScreen (mkScreen 160 210 banded_screen)
  = PreprocessScreen (mkScreen 160 210 (getArray (uniform_screen 14 (fun _ => 0)))).
Proof.
  apply PreprocessScreen_crop.
  - intros idx. unfold banded_screen. repeat destruct (_ <? _); lia.
  - intros idx. unfold uniform_screen. cbn [getArray]. destruct (_ <? _); lia.
  - intros x y Hx Hy.
    unfold banded_screen, uniform_screen, kRawFrameWidth, kRawFrameHeight. cbn [getArray].
    destruct (Z.ltb_spec (y * 160 + x) (32 * 160)); [lia|].
    destruct (Z.ltb_spec (y * 160 + x) (160 * 210)); [done|lia].
Defined.

(** The last row of the result reads row 210, which a 160 x 210 screen
    does not have. *)
Example PreprocessScreen_reads_row_210 :
  int_of_floor (double_of_int (83 + 1) * (178 / 84))%float = Done 178
  /\ y_weight 32 (178 / 84) 83 (32 + 178) (32 + 175) (32 + 178) = 0%float.
Proof. split; reflexivity. Qed.

End Preprocess.

(** ** The replay memory: RememberEpisode *)

Module Replay.

(** The two members of [DQN] the replay operations touch. *)
Record state := mkState {
  replay_memory_ : ReplayMemory;
  replay_memory_size_ : Z
}.

(** The constructor leaves the deque empty and the counter at 0. *)
Definition init : state := mkState [] 0.

Definition size (ep : Episode) : Z := Z.of_nat (length ep).

Definition total (mem : ReplayMemory) : Z :=
  foldr (fun ep acc => size ep + acc) 0 mem.

(** The eviction loop of [RememberEpisode]:
<<
  while (replay_memory_size_ >= replay_memory_capacity_) {
    replay_memory_size_ -= replay_memory_.front().size();
    replay_memory_.pop_front();
  }
>>
    [front()] of an empty deque is undefined. *)
Fixpoint evict (capacity : Z) (mem : ReplayMemory) (sz : Z) : outcome state :=
  if capacity <=? sz then
    match mem with
    | [] => Fatal Undefined
    | ep :: rest => evict capacity rest (wrap32 (sz - size ep))
    end
  else Done (mkState mem sz).

Definition RememberEpisode (capacity : Z) (st : state) (episode : Episode)
  : outcome state :=
  let sz := wrap32 (replay_memory_size_ st + size episode) in
  let mem := replay_memory_ st ++ [episode] in
  evict capacity mem sz.

(** A sequence of calls, first episode first. *)
Fixpoint remember_all (capacity : Z) (st : state) (eps : list Episode)
  : outcome state :=
  match eps with
  | [] => Done st
  | ep :: rest => st' ← RememberEpisode capacity st ep; remember_all capacity st' rest
  end.

Definition ClearReplayMemory (st : state) : state := mkState [] 0.

(** The counter agrees with the stored episodes. *)
Definition counted (st : state) : Prop :=
  replay_memory_size_ st = total (replay_memory_ st).

(** *** Persistence: SnapshotReplayMemory and LoadReplayMemory

    The gzip filters are transparent: what is written through the
    compressor is what the decompressor delivers.  A file is therefore
    the sequence of bytes handed to [out.write]. *)

(** Object representation of an [int] (little-endian, two's complement). *)
Definition int_bytes (z : Z) : list byte :=
  [byte_of_Z z; byte_of_Z (z / 256); byte_of_Z (z / 65536); byte_of_Z (z / 16777216)].

Definition int_of_bytes (bs : list byte) : Z :=
  match bs with
  | [b0; b1; b2; b3] =>
      wrap32 (Z_of_byte b0 + 256 * Z_of_byte b1 + 65536 * Z_of_byte b2
              + 16777216 * Z_of_byte b3)
  | _ => 0
  end.

Definition f32_bytes (x : float32) : list byte :=
  let '(b0, b1, b2, b3) := x in [b0; b1; b2; b3].

Definition f32_of_bytes (bs : list byte) : float32 :=
  match bs with
  | [b0; b1; b2; b3] => (b0, b1, b2, b3)
  | _ => (x00, x00, x00, x00)
  end.

Definition frame_bytes : nat := Z.to_nat kCroppedFrameDataSize.

(** [std::istream::read(buf, n)].  On a stream that is no longer good
    nothing is extracted and [buf] keeps its contents.  Otherwise the
    available bytes, at most [n], overwrite the beginning of [buf]; when
    fewer than [n] are available the stream goes bad (eofbit|failbit).
    Nothing is thrown: the exception mask is the default one. *)
Record istream := mkIstream {
  is_data : list byte;
  is_good : bool
}.

Definition read (n : nat) (buf : list byte) (s : istream) : list byte * istream :=
  if is_good s then
    if (n <=? length (is_data s))%nat
    then (take n (is_data s) ++ drop n buf, mkIstream (drop n (is_data s)) true)
    else (is_data s ++ drop (length (is_data s)) buf, mkIstream [] false)
  else (buf, s).

(** [for (int i = 0; i < n; ++i) body] over a state that may fail. *)
Fixpoint for_loop {S : Type} (i count : nat) (body : nat -> S -> outcome S) (st : S)
  : outcome S :=
  match count with
  | O => Done st
  | Datatypes.S c => st' ← body i st; for_loop (Datatypes.S i) c body st'
  end.

(** [SnapshotReplayMemory]: the bytes written to [out]. *)
Definition transition_bytes (t : Transition) : list byte :=
  tr_frame t ++ int_bytes (tr_action t) ++ f32_bytes (tr_reward t).

Definition SnapshotReplayMemory (st : state) : list byte :=
  let num_episodes := wrap32 (Z.of_nat (length (replay_memory_ st))) in
  int_bytes num_episodes
  ++ concat (map (fun ep => int_bytes (wrap32 (size ep))) (replay_memory_ st))
  ++ concat (map (fun ep => concat (map transition_bytes ep)) (replay_memory_ st)).

(** What [resize] value-initialises: a null frame pointer (it is always
    replaced before use, so the empty frame stands for it), action 0,
    reward 0.0f and no next frame. *)
Definition default_transition : Transition :=
  mkTransition [] 0 (x00, x00, x00, x00) None.

(** [replay_memory_.resize(n)] / [replay_memory_[i].resize(n)] on an
    empty container, with [n] an [int] converted to [size_t]: a negative
    [n] exceeds [max_size()] and [std::length_error] is thrown. *)
Definition resize {A : Type} (n : Z) (x : A) : outcome (list A) :=
  if n <? 0 then Fatal (Thrown length_error) else Done (replicate (Z.to_nat n) x).

Definition set_frame (f : FrameData) (t : Transition) : Transition :=
  mkTransition f (tr_action t) (tr_reward t) (tr_next t).
Definition set_action (a : Action) (t : Transition) : Transition :=
  mkTransition (tr_frame t) a (tr_reward t) (tr_next t).
Definition set_reward (r : float32) (t : Transition) : Transition :=
  mkTransition (tr_frame t) (tr_action t) r (tr_next t).
Definition set_next (n : option FrameData) (t : Transition) : Transition :=
  mkTransition (tr_frame t) (tr_action t) (tr_reward t) n.

(** First loop of [LoadReplayMemory]:
<<
  for (int i = 0; i < num_episodes; ++i) {
    int ep_len;
    in.read(&ep_len, sizeof(int));
    replay_memory_[i].resize(ep_len);
    replay_memory_size_ += ep_len;
  }
>>
    [ep_len] has no initialiser: when the read is short its value is
    indeterminate and using it is undefined. *)
Definition load_length (i : nat) (acc : state * istream) : outcome (state * istream) :=
  let '(st, s) := acc in
  let '(buf, s) := read 4 [] s in
  if is_good s then
    let ep_len := int_of_bytes buf in
    ep ← resize ep_len default_transition;
    Done (mkState (<[i := ep]> (replay_memory_ st))
                  (wrap32 (replay_memory_size_ st + ep_len)), s)
  else Fatal Undefined.

(** Body of the second loop, for transition [j] of episode [i]:
<<
      Transition& t = ep[j];
      FrameDataSp frame = std::make_shared<FrameData>();
      in.read(frame->begin(), kCroppedFrameDataSize * sizeof(uint8_t));
      std::get<0>(t) = frame;
      if (j > 0) {
        std::get<3>(ep[j-1]) = frame;
      }
      in.read(&std::get<1>(t), sizeof(Action));
      in.read(&std::get<2>(t), sizeof(float));
      std::get<3>(t) == boost::none;
>>
    The last statement is a comparison and changes nothing. *)
Definition load_transition (j : nat) (acc : Episode * istream)
  : outcome (Episode * istream) :=
  let '(ep, s) := acc in
  let '(frame, s) := read frame_bytes (replicate frame_bytes x00) s in
  let ep := alter (set_frame frame) j ep in
  let ep := if (0 <? j)%nat then alter (set_next (Some frame)) (j - 1)%nat ep else ep in
  let t := default default_transition (ep !! j) in
  let '(abuf, s) := read 4 (int_bytes (tr_action t)) s in
  let ep := alter (set_action (int_of_bytes abuf)) j ep in
  let '(rbuf, s) := read 4 (f32_bytes (tr_reward t)) s in
  let ep := alter (set_reward (f32_of_bytes rbuf)) j ep in
  Done (ep, s).

Definition load_episode (i : nat) (acc : state * istream) : outcome (state * istream) :=
  let '(st, s) := acc in
  let ep := default [] (replay_memory_ st !! i) in
  '(ep, s) ← for_loop 0 (length ep) load_transition (ep, s);
  Done (mkState (<[i := ep]> (replay_memory_ st)) (replay_memory_size_ st), s).

Definition LoadReplayMemory (st : state) (file : list byte) : outcome state :=
  let st := ClearReplayMemory st in
  let s := mkIstream file true in
  (* int num_episodes = memory_size(); in.read(&num_episodes, sizeof(int)); *)
  let '(buf, s) := read 4 (int_bytes (replay_memory_size_ st)) s in
  let num_episodes := int_of_bytes buf in
  mem ← resize num_episodes ([] : Episode);
  let st := mkState mem (replay_memory_size_ st) in
  acc ← for_loop 0 (Z.to_nat num_episodes) load_length (st, s);
  '(st, _) ← for_loop 0 (Z.to_nat num_episodes) load_episode acc;
  Done st.

(** What a reload makes of an episode: the same frames, actions and
    rewards, with every next-frame link pointing at the successor's frame
    and none on the last transition. *)
Fixpoint relink (ep : Episode) : Episode :=
  match ep with
  | [] => []
  | t :: rest => set_next (tr_frame <$> head rest) t :: relink rest
  end.

(** An episode whose transitions are still value-initialised. *)
Definition blank (ep : Episode) : Episode := replicate (length ep) default_transition.

(** What the C++ types guarantee of a memory: frames are arrays of 7056
    bytes, actions are [int]s, and the container sizes and their sum are
    representable as [int]. *)
Definition wf_transition (t : Transition) : Prop :=
  length (tr_frame t) = frame_bytes /\ in_int (tr_action t).
Definition wf_episode (ep : Episode) : Prop :=
  size ep <= INT_MAX /\ Forall wf_transition ep.
Definition wf_memory (mem : ReplayMemory) : Prop :=
  Z.of_nat (length mem) <= INT_MAX /\ total mem <= INT_MAX /\ Forall wf_episode mem.

(** Length of the header of a snapshot: the count and one length per episode. *)
Definition header_bytes (mem : ReplayMemory) : nat := (4 + 4 * length mem)%nat.

(** Sample data: an all-zero frame and a one-step (terminal) transition. *)
Definition blank_frame : FrameData := replicate (Z.to_nat kCroppedFrameDataSize) x00.
Definition step0 : Transition := mkTransition blank_frame 0 f32_zero None.
Definition step1 : Transition := mkTransition blank_frame 1 f32_zero (Some blank_frame).
Definition grey_frame : FrameData := replicate (Z.to_nat kCroppedFrameDataSize) x07.
Definition step2 : Transition := mkTransition grey_frame 3 f32_one None.

Lemma total_nonneg mem : 0 <= total mem.
Proof. induction mem as [|ep mem IH]; simpl; unfold size in *; lia. Qed.

Lemma total_app mem1 mem2 : total (mem1 ++ mem2) = total mem1 + total mem2.
Proof. induction mem1 as [|ep mem1 IH]; simpl; lia. Qed.

(** Eviction from a consistent state stops strictly below a positive
    capacity, on a consistent state. *)
Lemma evict_counted capacity mem sz :
  1 <= capacity -> sz = total mem -> sz <= INT_MAX ->
  exists st, evict capacity mem sz = Done st
    /\ 0 <= replay_memory_size_ st < capacity /\ counted st
    /\ exists k, replay_memory_ st = drop k mem.
Proof.
  intros Hc. revert sz. induction mem as [|ep mem IH]; intros sz Hsz Hmax.
  - simpl in *. subst sz. destruct (Z.leb_spec capacity 0); [lia|].
    eexists; split; [reflexivity|]. unfold counted; simpl.
    repeat split; try lia. by exists 0%nat.
  - simpl. destruct (Z.leb_spec capacity sz) as [Hge|Hlt].
    + simpl in Hsz. pose proof (total_nonneg mem).
      assert (0 <= size ep) by (unfold size; lia).
      rewrite wrap32_id by (unfold in_int, INT_MIN, INT_MAX in *; lia).
      destruct (IH (sz - size ep)) as (st & -> & Hb & Hcnt & k & Hk); [lia|lia|].
      exists st. repeat split; try done; try lia. by exists (S k).
    + eexists; split; [reflexivity|]. unfold counted; simpl.
      pose proof (total_nonneg (ep :: mem)). simpl in *.
      repeat split; try lia. by exists 0%nat.
Qed.

(** One call, from any consistent state whose counter cannot overflow. *)
Lemma RememberEpisode_counted capacity st episode :
  1 <= capacity -> counted st ->
  replay_memory_size_ st + size episode <= INT_MAX ->
  exists st', RememberEpisode capacity st episode = Done st'
    /\ 0 <= replay_memory_size_ st' < capacity /\ counted st'.
Proof.
  intros Hc Hcnt Hmax. unfold RememberEpisode, counted in *.
  pose proof (total_nonneg (replay_memory_ st)).
  assert (0 <= size episode) by (unfold size; lia).
  rewrite wrap32_id by (unfold in_int, INT_MIN, INT_MAX in *; lia).
  destruct (evict_counted capacity (replay_memory_ st ++ [episode])
              (replay_memory_size_ st + size episode)) as (st' & E & Hb & Hc' & _);
    [done| |done|].
  - rewrite total_app. simpl. lia.
  - exists st'. done.
Qed.

Lemma remember_all_counted capacity eps : forall st,
  1 <= capacity -> counted st -> 0 <= replay_memory_size_ st < capacity ->
  Forall (fun ep => size ep <= INT_MAX - capacity) eps ->
  exists st', remember_all capacity st eps = Done st'
    /\ 0 <= replay_memory_size_ st' < capacity /\ counted st'.
Proof.
  induction eps as [|ep eps IH]; intros st Hc Hcnt Hb Hall.
  - exists st. done.
  - inversion Hall as [|? ? Hep Heps]; subst. simpl.
    destruct (RememberEpisode_counted capacity st ep) as (st1 & -> & Hb1 & Hc1);
      [done|done|lia|].
    simpl. by apply IH.
Qed.

(** C1 (as amended): for every capacity [C >= 1] and every sequence of
    RememberEpisode calls on a fresh memory whose episodes are short
    enough for the 32-bit counter ([size <= INT_MAX - C]), the sequence
    runs to completion, the stored transition count is at most [C], and
    the counter is exactly the sum of the lengths of the episodes still
    stored.  Every prefix of such a sequence is such a sequence, so this
    holds after each call. *)
Theorem remember_all_within_capacity capacity eps :
  1 <= capacity ->
  Forall (fun ep => size ep <= INT_MAX - capacity) eps ->
  exists st, remember_all capacity init eps = Done st
    /\ replay_memory_size_ st <= capacity
    /\ replay_memory_size_ st = total (replay_memory_ st).
Proof.
  intros Hc Hall.
  destruct (remember_all_counted capacity eps init) as (st & E & Hb & Hcnt);
    try done.
  - simpl. lia.
  - exists st. unfold counted in Hcnt. repeat split; try done. lia.
Qed.

Lemma remember_all_within_capacity_witness :
  1 <= 10 /\
  Forall (fun ep => size ep <= INT_MAX - 10)
    [replicate 4 step1; replicate 4 step1; replicate 4 step1] /\
  exists st,
    remember_all 10 init [replicate 4 step1; replicate 4 step1; replicate 4 step1]
      = Done st
    /\ replay_memory_size_ st <= 10
    /\ replay_memory_size_ st = total (replay_memory_ st).
Proof.
  assert (H1 : 1 <= 10) by lia.
  assert (H2 : Forall (fun ep => size ep <= INT_MAX - 10)
                 [replicate 4 step1; replicate 4 step1; replicate 4 step1]).
  { repeat constructor; vm_compute; discriminate. }
  exact (conj H1 (conj H2 (remember_all_within_capacity 10 _ H1 H2))).
Defined.

(** The end-to-end scenario of the specification: capacity 10 and three
    episodes of four transitions leave the last two, eight transitions. *)
Example remember_4_4_4 :
  exists st,
    remember_all 10 init [replicate 4 step0; replicate 4 step1; replicate 4 step1]
      = Done st
    /\ replay_memory_ st = [replicate 4 step1; replicate 4 step1]
    /\ replay_memory_size_ st = 8.
Proof. eexists. split; [reflexivity|]. split; reflexivity. Qed.

(** C1 as stated fails at capacity 0: the loop condition [0 >= 0] still
    holds once the deque is empty, and [front()] is then undefined. *)
Lemma remember_capacity_zero_undefined :
  remember_all 0 init [[step0]] = Fatal Undefined
  /\ ~ (exists st, remember_all 0 init [[step0]] = Done st
          /\ replay_memory_size_ st <= 0
          /\ replay_memory_size_ st = total (replay_memory_ st)).
Proof.
  split; [reflexivity|]. intros (st & E & _). vm_compute in E. discriminate.
Qed.

(** *** Facts about persistence *)

Arguments int_of_bytes : simpl never.
Arguments int_bytes : simpl never.
Arguments f32_of_bytes : simpl never.
Arguments f32_bytes : simpl never.

Lemma Z_of_byte_of_Z z : Z_of_byte (byte_of_Z z) = z mod 256.
Proof.
  unfold Z_of_byte, byte_of_Z.
  pose proof (Z.mod_pos_bound z 256 ltac:(lia)) as Hb.
  destruct (Byte.of_N (Z.to_N (z mod 256))) as [b|] eqn:E; simpl.
  - apply Byte.to_of_N in E. rewrite E. lia.
  - apply Byte.of_N_None_iff in E. lia.
Qed.

Lemma int_of_int_bytes z : in_int z -> int_of_bytes (int_bytes z) = z.
Proof.
  intros Hz. unfold int_of_bytes, int_bytes. rewrite !Z_of_byte_of_Z.
  rewrite <- (wrap32_id z Hz) at 5. unfold wrap32. f_equal.
  unfold in_int, INT_MIN, INT_MAX in Hz.
  Z.div_mod_to_equations. lia.
Qed.

Lemma f32_of_f32_bytes x : f32_of_bytes (f32_bytes x) = x.
Proof. by destruct x as [[[b0 b1] b2] b3]. Qed.

Lemma length_int_bytes z : length (int_bytes z) = 4%nat.
Proof. done. Qed.

Lemma length_f32_bytes x : length (f32_bytes x) = 4%nat.
Proof. by destruct x as [[[b0 b1] b2] b3]. Qed.

Lemma read_exact n buf bs rest :
  length bs = n -> (length buf <= n)%nat ->
  read n buf (mkIstream (bs ++ rest) true) = (bs, mkIstream rest true).
Proof.
  intros Hn Hbuf. unfold read. simpl.
  rewrite length_app. destruct (Nat.leb_spec n (length bs + length rest)); [|lia].
  rewrite take_app_length' by done. rewrite drop_app_length' by done.
  rewrite drop_ge by lia. by rewrite app_nil_r.
Qed.

Lemma length_relink ep : length (relink ep) = length ep.
Proof. induction ep; simpl; congruence. Qed.

Lemma relink_snoc done t :
  relink (done ++ [t]) =
  alter (set_next (Some (tr_frame t))) (length done - 1)%nat (relink done)
  ++ [set_next None t].
Proof.
  induction done as [|d done IH]; [done|].
  simpl. rewrite IH. destruct done as [|d' done]; [done|].
  simpl. by rewrite Nat.sub_0_r.
Qed.

Lemma load_transition_step done t k rest :
  wf_transition t ->
  load_transition (length done)
    (relink done ++ default_transition :: replicate k default_transition,
     mkIstream (transition_bytes t ++ rest) true)
  = Done (relink (done ++ [t]) ++ replicate k default_transition,
          mkIstream rest true).
Proof.
  intros [Hf Ha]. unfold load_transition, transition_bytes.
  rewrite <- !app_assoc.
  rewrite read_exact by (rewrite ?length_replicate; done).
  rewrite (alter_app_r_alt _ (relink done)) by (rewrite length_relink; lia).
  rewrite length_relink, Nat.sub_diag. simpl alter.
  set (ep1 := if (0 <? length done)%nat then _ else _).
  assert (Hep1 : ep1 = alter (set_next (Some (tr_frame t))) (length done - 1)%nat (relink done)
                 ++ set_frame (tr_frame t) default_transition
                    :: replicate k default_transition).
  { subst ep1. destruct (Nat.ltb_spec 0 (length done)) as [Hlt|Hge].
    - rewrite alter_app_l by (rewrite length_relink; lia). done.
    - destruct done; [done|simpl in Hge; lia]. }
  rewrite Hep1. clear ep1 Hep1.
  set (pre := alter _ _ (relink done)).
  assert (Hpre : length pre = length done) by (subst pre; by rewrite length_alter, length_relink).
  rewrite <- Hpre. rewrite list_lookup_middle by done. simpl default.
  rewrite read_exact by done.
  rewrite alter_app_r_alt by lia. rewrite Nat.sub_diag. simpl alter.
  rewrite read_exact by (rewrite ?length_f32_bytes; done).
  rewrite alter_app_r_alt by lia. rewrite Nat.sub_diag. simpl alter.
  rewrite int_of_int_bytes by done. rewrite f32_of_f32_bytes.
  rewrite relink_snoc. rewrite <- app_assoc. subst pre. simpl.
  by destruct t.
Qed.

Lemma load_transitions todo : forall done rest,
  Forall wf_transition todo ->
  for_loop (length done) (length todo) load_transition
    (relink done ++ replicate (length todo) default_transition,
     mkIstream (concat (map transition_bytes todo) ++ rest) true)
  = Done (relink (done ++ todo), mkIstream rest true).
Proof.
  induction todo as [|t todo IH]; intros done rest Hwf.
  - simpl. by rewrite !app_nil_r.
  - inversion Hwf; subst. cbn [for_loop length concat map replicate]. rewrite <- app_assoc.
    rewrite load_transition_step by done. cbn [mbind outcome_bind].
    specialize (IH (done ++ [t]) rest). rewrite length_app in IH. simpl in IH.
    rewrite Nat.add_1_r in IH. rewrite IH by done. by rewrite <- app_assoc.
Qed.

Arguments transition_bytes : simpl never.

Lemma load_length_step done ep k sz rest :
  size ep <= INT_MAX -> 0 <= sz -> sz + size ep <= INT_MAX ->
  load_length (length done)
    (mkState (done ++ [] :: replicate k []) sz,
     mkIstream (int_bytes (wrap32 (size ep)) ++ rest) true)
  = Done (mkState (done ++ blank ep :: replicate k []) (sz + size ep),
          mkIstream rest true).
Proof.
  intros Hep Hsz Hmax.
  assert (Hsize : 0 <= size ep) by (unfold size; lia).
  assert (Hin : in_int (size ep)) by (unfold in_int, INT_MIN, INT_MAX in *; lia).
  unfold load_length.
  rewrite read_exact by (simpl; done || lia). cbn [is_good].
  rewrite (wrap32_id (size ep)) by done.
  rewrite int_of_int_bytes by done.
  unfold resize. destruct (Z.ltb_spec (size ep) 0); [lia|].
  cbn [mbind outcome_bind replay_memory_ replay_memory_size_].
  rewrite insert_app_r_alt by lia. rewrite Nat.sub_diag. cbn [insert list_insert].
  rewrite wrap32_id by (unfold in_int, INT_MIN, INT_MAX in *; lia).
  unfold blank, size. by rewrite Nat2Z.id.
Qed.

Lemma load_lengths todo : forall done sz rest,
  Forall (fun ep => size ep <= INT_MAX) todo -> 0 <= sz -> sz + total todo <= INT_MAX ->
  for_loop (length done) (length todo) load_length
    (mkState (done ++ replicate (length todo) []) sz,
     mkIstream (concat (map (fun ep => int_bytes (wrap32 (size ep))) todo) ++ rest) true)
  = Done (mkState (done ++ map blank todo) (sz + total todo), mkIstream rest true).
Proof.
  induction todo as [|ep todo IH]; intros done sz rest Hall Hsz Hmax.
  - simpl. by rewrite Z.add_0_r.
  - inversion Hall as [|? ? Hep Htodo]; subst.
    pose proof (total_nonneg todo) as Ht. simpl in Hmax.
    assert (Hsize : 0 <= size ep) by (unfold size; lia).
    cbn [for_loop length concat map replicate]. rewrite <- app_assoc.
    rewrite load_length_step by (done || lia).
    cbn [mbind outcome_bind].
    specialize (IH (done ++ [blank ep]) (sz + size ep) rest).
    rewrite length_app in IH. simpl length in IH. rewrite Nat.add_1_r in IH.
    rewrite <- !app_assoc in IH. simpl app in IH.
    rewrite IH by (done || lia). cbn [total foldr map]. by rewrite Z.add_assoc.
Qed.

Lemma load_episode_step done ep later sz rest :
  Forall wf_transition ep ->
  load_episode (length done)
    (mkState (done ++ blank ep :: later) sz,
     mkIstream (concat (map transition_bytes ep) ++ rest) true)
  = Done (mkState (done ++ relink ep :: later) sz, mkIstream rest true).
Proof.
  intros Hep. unfold load_episode. cbn [replay_memory_ replay_memory_size_].
  rewrite list_lookup_middle by done. cbn [default from_option id].
  pose proof (load_transitions ep [] rest Hep) as Hl.
  simpl in Hl. change (replicate (length ep) default_transition) with (blank ep) in Hl.
  assert (length (blank ep) = length ep) as -> by apply length_replicate.
  rewrite Hl.
  cbn [mbind outcome_bind].
  rewrite insert_app_r_alt by lia. rewrite Nat.sub_diag. done.
Qed.

Lemma load_episodes todo : forall done sz rest,
  Forall wf_episode todo ->
  for_loop (length done) (length todo) load_episode
    (mkState (done ++ map blank todo) sz,
     mkIstream (concat (map (fun ep => concat (map transition_bytes ep)) todo) ++ rest) true)
  = Done (mkState (done ++ map relink todo) sz, mkIstream rest true).
Proof.
  induction todo as [|ep todo IH]; intros done sz rest Hall.
  - done.
  - inversion Hall as [|? ? [_ Hep] Htodo]; subst.
    cbn [for_loop length concat map]. rewrite <- app_assoc.
    rewrite load_episode_step by done.
    cbn [mbind outcome_bind].
    specialize (IH (done ++ [relink ep]) sz rest).
    rewrite length_app in IH. simpl length in IH. rewrite Nat.add_1_r in IH.
    rewrite <- !app_assoc in IH. simpl app in IH. by rewrite IH.
Qed.

Lemma LoadReplayMemory_Snapshot st0 mem sz :
  wf_memory mem ->
  LoadReplayMemory st0 (SnapshotReplayMemory (mkState mem sz))
  = Done (mkState (map relink mem) (total mem)).
Proof.
  intros (Hn & Htot & Hall).
  unfold LoadReplayMemory, SnapshotReplayMemory, ClearReplayMemory.
  cbn [replay_memory_ replay_memory_size_].
  assert (Hin : in_int (Z.of_nat (length mem))) by (unfold in_int, INT_MIN, INT_MAX in *; lia).
  rewrite wrap32_id by done.
  rewrite read_exact by done.
  rewrite int_of_int_bytes by done.
  unfold resize. destruct (Z.ltb_spec (Z.of_nat (length mem)) 0); [lia|].
  cbn [mbind outcome_bind]. rewrite Nat2Z.id.
  pose proof (load_lengths mem [] 0
    (concat (map (fun ep => concat (map transition_bytes ep)) mem))) as H1.
  cbn [app length] in H1. rewrite H1; [|by eapply Forall_impl; [exact Hall|intros ? []]|lia|lia].
  cbn [mbind outcome_bind].
  pose proof (load_episodes mem [] (0 + total mem) []) as H2.
  cbn [app length] in H2. rewrite app_nil_r in H2. rewrite H2 by done. done.
Qed.

Lemma lookup_relink ep j :
  relink ep !! j = (fun t => set_next (tr_frame <$> ep !! S j) t) <$> ep !! j.
Proof.
  revert j. induction ep as [|t ep IH]; intros j; [done|].
  destruct j as [|j]; simpl.
  - by destruct ep.
  - apply IH.
Qed.

Lemma length_map_relink mem : map length (map relink mem) = map length mem.
Proof. rewrite map_map. apply map_ext. intros; apply length_relink. Qed.

(** C4: writing a memory with SnapshotReplayMemory and reading the file
    back with LoadReplayMemory (into any state) returns; the episode
    count, every episode length, and every transition's frame bytes,
    action and reward are those of the original, the counter is the
    number of stored transitions, and the next-frame links follow
    adjacency: the next frame of transition [j] is the frame of
    transition [j+1] of the reloaded episode, and there is none on the
    final transition.  The memory is any memory the C++ types admit, in
    particular any non-empty one. *)
Theorem snapshot_load_roundtrip st0 mem sz :
  wf_memory mem ->
  exists st',
    LoadReplayMemory st0 (SnapshotReplayMemory (mkState mem sz)) = Done st'
    /\ length (replay_memory_ st') = length mem
    /\ replay_memory_size_ st' = total mem
    /\ forall i ep, mem !! i = Some ep ->
       exists ep', replay_memory_ st' !! i = Some ep'
         /\ length ep' = length ep
         /\ forall j t, ep !! j = Some t ->
            exists t', ep' !! j = Some t'
              /\ tr_frame t' = tr_frame t
              /\ tr_action t' = tr_action t
              /\ tr_reward t' = tr_reward t
              /\ tr_next t' = tr_frame <$> ep' !! S j.
Proof.
  intros Hwf. eexists. split; [by apply LoadReplayMemory_Snapshot|].
  cbn [replay_memory_ replay_memory_size_].
  split; [by rewrite length_map|]. split; [done|].
  intros i ep Hi. exists (relink ep). split.
  { change (map relink mem) with (relink <$> mem). by rewrite list_lookup_fmap, Hi. }
  split; [apply length_relink|].
  intros j t Hj. rewrite !lookup_relink, Hj. simpl.
  eexists. split; [reflexivity|]. simpl. repeat split; try done.
  destruct (ep !! S j) as [t1|] eqn:E1; simpl; [|done].
  by destruct (ep !! S (S j)).
Qed.

(** The body loops return on every stream and keep the episode lengths. *)
Lemma load_transition_total j ep s :
  exists ep' s', load_transition j (ep, s) = Done (ep', s') /\ length ep' = length ep.
Proof.
  unfold load_transition.
  destruct (read frame_bytes _ s) as [frame s1].
  set (ep1 := alter (set_frame frame) j ep).
  set (ep2 := if (0 <? j)%nat then _ else ep1).
  destruct (read 4 _ s1) as [abuf s2].
  destruct (read 4 _ s2) as [rbuf s3].
  eexists _, _. split; [reflexivity|].
  rewrite !length_alter. subst ep2 ep1.
  destruct (0 <? j)%nat; by rewrite ?length_alter.
Qed.

Lemma load_transitions_total count : forall j ep s,
  exists ep' s', for_loop j count load_transition (ep, s) = Done (ep', s')
    /\ length ep' = length ep.
Proof.
  induction count as [|count IH]; intros j ep s.
  - by exists ep, s.
  - destruct (load_transition_total j ep s) as (ep1 & s1 & E1 & L1).
    destruct (IH (S j) ep1 s1) as (ep2 & s2 & E2 & L2).
    exists ep2, s2. cbn [for_loop]. rewrite E1. cbn [mbind outcome_bind].
    split; [done|congruence].
Qed.

Lemma load_episode_total i st s :
  exists st' s', load_episode i (st, s) = Done (st', s')
    /\ map length (replay_memory_ st') = map length (replay_memory_ st)
    /\ replay_memory_size_ st' = replay_memory_size_ st.
Proof.
  unfold load_episode.
  destruct (load_transitions_total
              (length (default [] (replay_memory_ st !! i))) 0
              (default [] (replay_memory_ st !! i)) s) as (ep' & s' & E & L).
  rewrite E. cbn [mbind outcome_bind]. eexists _, _. split; [reflexivity|].
  cbn [replay_memory_ replay_memory_size_]. split; [|done].
  change (map length ?l) with (length <$> l).
  rewrite list_fmap_insert. apply list_insert_id'. intros Hlt.
  rewrite list_lookup_fmap.
  destruct (replay_memory_ st !! i) as [ep|] eqn:Hi; simpl in *; [by rewrite L|].
  apply lookup_ge_None in Hi. rewrite length_fmap in Hlt. lia.
Qed.

Lemma load_episodes_total count : forall i st s,
  exists st' s', for_loop i count load_episode (st, s) = Done (st', s')
    /\ map length (replay_memory_ st') = map length (replay_memory_ st)
    /\ replay_memory_size_ st' = replay_memory_size_ st.
Proof.
  induction count as [|count IH]; intros i st s.
  - by exists st, s.
  - destruct (load_episode_total i st s) as (st1 & s1 & E1 & L1 & Z1).
    destruct (IH (S i) st1 s1) as (st2 & s2 & E2 & L2 & Z2).
    exists st2, s2. cbn [for_loop]. rewrite E1. cbn [mbind outcome_bind].
    split; [done|]. split; congruence.
Qed.

Lemma length_headers (mem : list (list Transition)) :
  length (concat (map (fun ep => int_bytes (wrap32 (size ep))) mem)) = (4 * length mem)%nat.
Proof. induction mem as [|ep mem IH]; simpl; [done|]. rewrite IH. lia. Qed.

Lemma length_blank ep : length (blank ep) = length ep.
Proof. apply length_replicate. Qed.

(** *** Loading a file that ends early

    [cut_stream s a D]: the stream as it stands when [D] is what a
    complete file would still deliver and only [a] bytes of it are
    left in the file; either good with those bytes ahead, or already
    failed, with nothing left. *)
Definition cut_stream (s : istream) (a : nat) (D : list byte) : Prop :=
  s = mkIstream (take a D) true \/ (s = mkIstream [] false /\ a = 0%nat).

(** Bytes a transition takes in a file. *)
Definition transition_len : nat := (frame_bytes + 4 + 4)%nat.

(** What the second loop makes of the stored transition [t] when [a]
    bytes of it are left in the file: of each field, the bytes that are
    there, in front of the bytes of the value-initialised field (a
    zeroed frame, action 0, reward 0.0f). *)
Definition cut_transition (a : nat) (t : Transition) : Transition :=
  mkTransition
    (take a (tr_frame t) ++ drop a (replicate frame_bytes x00))
    (int_of_bytes (take (a - frame_bytes) (int_bytes (tr_action t))
                   ++ drop (a - frame_bytes) (int_bytes 0)))
    (f32_of_bytes (take (a - frame_bytes - 4) (f32_bytes (tr_reward t))
                   ++ drop (a - frame_bytes - 4) (f32_bytes f32_zero)))
    (tr_next t).

Fixpoint cut_episode (a : nat) (ep : Episode) : Episode :=
  match ep with
  | [] => []
  | t :: ep => cut_transition a t :: cut_episode (a - transition_len) ep
  end.

Fixpoint cut_memory (a : nat) (mem : ReplayMemory) : ReplayMemory :=
  match mem with
  | [] => []
  | ep :: mem => cut_episode a ep :: cut_memory (a - transition_len * length ep) mem
  end.

Lemma read_cut n buf bs rest s a :
  cut_stream s a (bs ++ rest) -> length bs = n -> length buf = n -> (0 < n)%nat ->
  exists s', read n buf s = (take a bs ++ drop a buf, s')
    /\ cut_stream s' (a - n) rest.
Proof.
  intros [->|[-> ->]] Hbs Hbuf Hn; unfold read; cbn [is_good is_data].
  - rewrite length_take, length_app.
    destruct (Nat.leb_spec n (a `min` (length bs + length rest))) as [Hle|Hgt].
    + eexists. split; [|left; reflexivity].
      rewrite take_take, Nat.min_l by lia.
      rewrite take_app_length' by done.
      rewrite (take_ge bs a), (drop_ge buf a), (drop_ge buf n) by lia.
      f_equal. f_equal.
      rewrite skipn_firstn_comm. by rewrite drop_app_length' by done.
    + eexists. split; [|right; split; [reflexivity|lia]].
      rewrite take_app_le by lia. by rewrite Nat.min_l by lia.
  - eexists. split; [|right; done]. by rewrite take_0, drop_0.
Qed.

Lemma load_transition_cut done t k rest s a :
  length (tr_frame t) = frame_bytes ->
  cut_stream s a (transition_bytes t ++ rest) ->
  exists s',
    load_transition (length done)
      (relink done ++ default_transition :: replicate k default_transition, s)
    = Done (relink (done ++ [cut_transition a t]) ++ replicate k default_transition, s')
    /\ cut_stream s' (a - transition_len) rest.
Proof.
  intros Hf Hs. unfold load_transition, transition_bytes in *.
  rewrite <- !app_assoc in Hs.
  destruct (read_cut frame_bytes (replicate frame_bytes x00) _ _ _ _ Hs)
    as (s1 & -> & Hs1); [done|by rewrite length_replicate|vm_compute; lia|].
  set (frame := take a (tr_frame t) ++ _).
  rewrite (alter_app_r_alt _ (relink done)) by (rewrite length_relink; lia).
  rewrite length_relink, Nat.sub_diag. simpl alter.
  set (ep1 := if (0 <? length done)%nat then _ else _).
  assert (Hep1 : ep1 = alter (set_next (Some frame)) (length done - 1)%nat (relink done)
                 ++ set_frame frame default_transition
                    :: replicate k default_transition).
  { subst ep1. destruct (Nat.ltb_spec 0 (length done)) as [Hlt|Hge].
    - rewrite alter_app_l by (rewrite length_relink; lia). done.
    - destruct done; [done|simpl in Hge; lia]. }
  rewrite Hep1. clear ep1 Hep1.
  set (pre := alter _ _ (relink done)).
  assert (Hpre : length pre = length done) by (subst pre; by rewrite length_alter, length_relink).
  rewrite <- Hpre. rewrite list_lookup_middle by done. simpl default.
  change (tr_action (set_frame frame default_transition)) with 0.
  destruct (read_cut 4 (int_bytes 0) _ _ _ _ Hs1) as (s2 & -> & Hs2); [done|done|lia|].
  rewrite alter_app_r_alt by lia. rewrite Nat.sub_diag. simpl alter.
  destruct (read_cut 4 (f32_bytes f32_zero) (f32_bytes (tr_reward t)) rest s2
              (a - frame_bytes - 4))
    as (s3 & E3 & Hs3); [exact Hs2|apply length_f32_bytes|done|lia|].
  change (tr_reward (set_frame frame default_transition)) with f32_zero.
  rewrite E3.
  rewrite alter_app_r_alt by lia. rewrite Nat.sub_diag. simpl alter.
  exists s3. split.
  - rewrite relink_snoc. rewrite <- app_assoc. subst pre. done.
  - unfold transition_len.
    by replace (a - (frame_bytes + 4 + 4))%nat with (a - frame_bytes - 4 - 4)%nat by lia.
Qed.

Lemma load_transitions_cut todo : forall done rest s a,
  Forall wf_transition todo ->
  cut_stream s a (concat (map transition_bytes todo) ++ rest) ->
  exists s',
    for_loop (length done) (length todo) load_transition
      (relink done ++ replicate (length todo) default_transition, s)
    = Done (relink (done ++ cut_episode a todo), s')
    /\ cut_stream s' (a - transition_len * length todo) rest.
Proof.
  induction todo as [|t todo IH]; intros done rest s a Hwf Hs.
  - exists s. cbn [length for_loop cut_episode replicate].
    rewrite !app_nil_r, Nat.mul_0_r, Nat.sub_0_r. split; [done|exact Hs].
  - inversion Hwf as [|? ? [Hf _] Htodo]; subst.
    cbn [for_loop length concat map replicate cut_episode] in *.
    rewrite <- app_assoc in Hs.
    destruct (load_transition_cut done t (length todo) _ s a Hf Hs) as (s1 & -> & Hs1).
    cbn [mbind outcome_bind].
    destruct (IH (done ++ [cut_transition a t]) rest s1 _ Htodo Hs1) as (s2 & E2 & Hs2).
    rewrite length_app in E2. simpl in E2. rewrite Nat.add_1_r in E2.
    exists s2. rewrite E2, <- app_assoc. split; [done|].
    by replace (a - transition_len * S (length todo))%nat
      with (a - transition_len - transition_len * length todo)%nat by lia.
Qed.

Lemma load_episode_cut done ep later sz rest s a :
  Forall wf_transition ep ->
  cut_stream s a (concat (map transition_bytes ep) ++ rest) ->
  exists s',
    load_episode (length done) (mkState (done ++ blank ep :: later) sz, s)
    = Done (mkState (done ++ relink (cut_episode a ep) :: later) sz, s')
    /\ cut_stream s' (a - transition_len * length ep) rest.
Proof.
  intros Hep Hs. unfold load_episode. cbn [replay_memory_ replay_memory_size_].
  rewrite list_lookup_middle by done. cbn [default from_option id].
  destruct (load_transitions_cut ep [] rest s a Hep Hs) as (s' & Hl & Hs').
  simpl in Hl. change (replicate (length ep) default_transition) with (blank ep) in Hl.
  assert (length (blank ep) = length ep) as -> by apply length_replicate.
  rewrite Hl. cbn [mbind outcome_bind].
  rewrite insert_app_r_alt by lia. rewrite Nat.sub_diag.
  exists s'. done.
Qed.

Lemma load_episodes_cut todo : forall done sz rest s a,
  Forall wf_episode todo ->
  cut_stream s a (concat (map (fun ep => concat (map transition_bytes ep)) todo) ++ rest) ->
  exists s',
    for_loop (length done) (length todo) load_episode
      (mkState (done ++ map blank todo) sz, s)
    = Done (mkState (done ++ map relink (cut_memory a todo)) sz, s').
Proof.
  induction todo as [|ep todo IH]; intros done sz rest s a Hall Hs.
  - by exists s.
  - inversion Hall as [|? ? [_ Hep] Htodo]; subst.
    cbn [for_loop length concat map cut_memory] in *. rewrite <- app_assoc in Hs.
    destruct (load_episode_cut done ep (map blank todo) sz _ s a Hep Hs) as (s1 & -> & Hs1).
    cbn [mbind outcome_bind].
    destruct (IH (done ++ [relink (cut_episode a ep)]) sz rest s1 _ Htodo Hs1) as (s2 & E2).
    rewrite length_app in E2. simpl length in E2. rewrite Nat.add_1_r in E2.
    rewrite <- !app_assoc in E2. simpl app in E2. by exists s2.
Qed.

(** A snapshot cut after its header loads as what the cut leaves of it. *)
Lemma LoadReplayMemory_cut st0 mem sz k :
  wf_memory mem -> (header_bytes mem <= k)%nat ->
  LoadReplayMemory st0 (take k (SnapshotReplayMemory (mkState mem sz)))
  = Done (mkState (map relink (cut_memory (k - header_bytes mem) mem)) (total mem)).
Proof.
  intros (Hn & Htot & Hall) Hk. unfold header_bytes in *.
  unfold LoadReplayMemory, SnapshotReplayMemory, ClearReplayMemory.
  cbn [replay_memory_ replay_memory_size_].
  assert (Hin : in_int (Z.of_nat (length mem))) by (unfold in_int, INT_MIN, INT_MAX in *; lia).
  rewrite wrap32_id by done.
  rewrite take_app_ge by (rewrite length_int_bytes; lia).
  rewrite length_int_bytes.
  rewrite take_app_ge by (rewrite length_headers; lia).
  rewrite length_headers.
  set (body := take _ _).
  rewrite read_exact by done.
  rewrite int_of_int_bytes by done.
  unfold resize. destruct (Z.ltb_spec (Z.of_nat (length mem)) 0); [lia|].
  cbn [mbind outcome_bind]. rewrite Nat2Z.id.
  pose proof (load_lengths mem [] 0 body) as H1.
  cbn [app length] in H1. rewrite H1; [|by eapply Forall_impl; [exact Hall|intros ? []]|lia|lia].
  cbn [mbind outcome_bind].
  destruct (load_episodes_cut mem [] (0 + total mem) [] (mkIstream body true)
              (k - (4 + 4 * length mem)) Hall) as (s' & E).
  { left. subst body. rewrite app_nil_r. do 2 f_equal. lia. }
  cbn [app length] in E. rewrite E. done.
Qed.

(** The failures LoadReplayMemory can end in. *)
Lemma load_lengths_failure count : forall i acc f,
  for_loop i count load_length acc = Fatal f -> f = Thrown length_error \/ f = Undefined.
Proof.
  induction count as [|count IH]; intros i [st s] f E; [done|].
  cbn [for_loop] in E.
  destruct (load_length i (st, s)) as [acc'|f'] eqn:E1; cbn [mbind outcome_bind] in E.
  - by eapply IH.
  - injection E as <-. unfold load_length in E1.
    destruct (read 4 [] s) as [buf s1]. destruct (is_good s1); [|right; congruence].
    unfold resize in E1. destruct (int_of_bytes buf <? 0); [left|]; simpl in E1; congruence.
Qed.

Lemma LoadReplayMemory_failure st file f :
  LoadReplayMemory st file = Fatal f -> f = Thrown length_error \/ f = Undefined.
Proof.
  unfold LoadReplayMemory. destruct (read 4 _ _) as [buf s]. unfold resize at 1.
  destruct (int_of_bytes buf <? 0); cbn [mbind outcome_bind]; [left; congruence|].
  destruct (for_loop 0 _ load_length _) as [[st1 s1]|f1] eqn:E1; cbn [mbind outcome_bind].
  - destruct (load_episodes_total (Z.to_nat (int_of_bytes buf)) 0 st1 s1)
      as (st' & s' & -> & _). done.
  - intros [= <-]. by eapply load_lengths_failure.
Qed.

(** A transition the cut leaves whole is as stored; one that starts at
    or after the cut is value-initialised, with a zeroed frame. *)
Lemma cut_transition_whole a t :
  wf_transition t -> (transition_len <= a)%nat -> cut_transition a t = t.
Proof.
  intros [Hf Ha] Hlen. unfold cut_transition, transition_len in *.
  rewrite !take_ge, !drop_ge, !app_nil_r
    by (rewrite ?length_replicate, ?length_int_bytes, ?length_f32_bytes; lia).
  rewrite int_of_int_bytes, f32_of_f32_bytes by done. by destruct t.
Qed.

Lemma cut_transition_none t :
  cut_transition 0 t = mkTransition blank_frame 0 f32_zero (tr_next t).
Proof. done. Qed.


Definition sample_memory : ReplayMemory := [[step1; step2]; [step0]].

Lemma sample_memory_wf : wf_memory sample_memory.
Proof.
  assert (Hint : forall z, (INT_MIN <=? z) && (z <=? INT_MAX) = true -> in_int z).
  { intros z Hz. unfold in_int. apply andb_prop in Hz as [H1 H2].
    apply Z.leb_le in H1, H2. done. }
  split; [vm_compute; discriminate|]. split; [vm_compute; discriminate|].
  repeat constructor; try (vm_compute; discriminate); try (vm_compute; reflexivity);
    apply Hint; reflexivity.
Defined.

Lemma snapshot_load_roundtrip_witness :
  wf_memory sample_memory /\
  exists st',
    LoadReplayMemory init (SnapshotReplayMemory (mkState sample_memory 3)) = Done st'
    /\ length (replay_memory_ st') = length sample_memory
    /\ replay_memory_size_ st' = total sample_memory
    /\ forall i ep, sample_memory !! i = Some ep ->
       exists ep', replay_memory_ st' !! i = Some ep'
         /\ length ep' = length ep
         /\ forall j t, ep !! j = Some t ->
            exists t', ep' !! j = Some t'
              /\ tr_frame t' = tr_frame t
              /\ tr_action t' = tr_action t
              /\ tr_reward t' = tr_reward t
              /\ tr_next t' = tr_frame <$> ep' !! S j.
Proof.
  split; [exact sample_memory_wf|].
  exact (snapshot_load_roundtrip init sample_memory 3 sample_memory_wf).
Defined.



(** A cut right after the frame of the second of three transitions:
    the first is as stored, the second has its frame and the zero
    defaults, the third is all defaults. *)
Example LoadReplayMemory_cut_after_frame :
  LoadReplayMemory init
    (take (Z.to_nat 14132) (SnapshotReplayMemory (mkState [[step2; step2]; [step2]] 3)))
  = Done (mkState [[set_next (Some grey_frame) step2;
                    mkTransition grey_frame 0 f32_zero None];
                   [mkTransition blank_frame 0 f32_zero None]] 3).
Proof. by vm_compute. Qed.


(** The failures LoadReplayMemory does surface come from [resize]: a
    negative episode count is refused with [std::length_error]. *)
Example load_negative_count :
  LoadReplayMemory init (int_bytes (-1)) = Fatal (Thrown length_error).
Proof. reflexivity. Qed.

(** A stream that ends inside the header leaves [ep_len] unset. *)
Example load_truncated_header :
  LoadReplayMemory init (take 7 (SnapshotReplayMemory (mkState [[step2]] 1)))
  = Fatal Undefined.
Proof. by vm_compute. Qed.

(** C10: LoadReplayMemory takes no account of the capacity.  Whatever
    [capacity] is, reloading a snapshot keeps every episode and leaves
    the counter at the sum of the loaded episode lengths, which is the
    sum stored in the file, also when that sum exceeds [capacity]; the
    eviction happens in the next RememberEpisode call, which brings the
    counter back below [capacity]. *)
Theorem load_keeps_all_episodes capacity st0 mem sz :
  wf_memory mem ->
  exists st',
    LoadReplayMemory st0 (SnapshotReplayMemory (mkState mem sz)) = Done st'
    /\ map length (replay_memory_ st') = map length mem
    /\ replay_memory_size_ st' = total (replay_memory_ st')
    /\ replay_memory_size_ st' = total mem
    /\ (capacity < total mem -> capacity < replay_memory_size_ st')
    /\ forall episode,
         1 <= capacity -> total mem + size episode <= INT_MAX ->
         exists st'', RememberEpisode capacity st' episode = Done st''
           /\ replay_memory_size_ st'' < capacity
           /\ replay_memory_size_ st'' = total (replay_memory_ st'').
Proof.
  intros Hwf. eexists. split; [by apply LoadReplayMemory_Snapshot|].
  cbn [replay_memory_ replay_memory_size_].
  assert (Ht : total (map relink mem) = total mem).
  { clear. induction mem as [|ep mem IH]; [done|].
    cbn [map total foldr]. fold (total (map relink mem)). fold (total mem).
    rewrite IH. unfold size. by rewrite length_relink. }
  split; [apply length_map_relink|]. split; [done|]. split; [done|].
  split; [done|]. intros episode Hc Hmax.
  destruct (RememberEpisode_counted capacity (mkState (map relink mem) (total mem)) episode)
    as (st'' & E & Hb & Hcnt); [done|done|simpl; lia|].
  exists st''. split; [done|]. split; [lia|done].
Qed.

Lemma load_keeps_all_episodes_witness :
  wf_memory sample_memory /\
  exists st',
    LoadReplayMemory init (SnapshotReplayMemory (mkState sample_memory 3)) = Done st'
    /\ map length (replay_memory_ st') = map length sample_memory
    /\ replay_memory_size_ st' = total (replay_memory_ st')
    /\ replay_memory_size_ st' = total sample_memory
    /\ (2 < total sample_memory -> 2 < replay_memory_size_ st')
    /\ forall episode,
         1 <= 2 -> total sample_memory + size episode <= INT_MAX ->
         exists st'', RememberEpisode 2 st' episode = Done st''
           /\ replay_memory_size_ st'' < 2
           /\ replay_memory_size_ st'' = total (replay_memory_ st'').
Proof.
  split; [exact sample_memory_wf|].
  exact (load_keeps_all_episodes 2 init sample_memory 3 sample_memory_wf).
Defined.

(** Three transitions are reloaded into a memory of capacity 2; the next
    append evicts both old episodes and then the new one as well. *)
Example load_then_remember :
  exists st' st'',
    LoadReplayMemory init (SnapshotReplayMemory (mkState sample_memory 3)) = Done st'
    /\ replay_memory_size_ st' = 3 /\ length (replay_memory_ st') = 2%nat
    /\ RememberEpisode 2 st' [step0; step0] = Done st''
    /\ replay_memory_size_ st'' = 0 /\ replay_memory_ st'' = [].
Proof.
  eexists _, _. split; [by vm_compute|]. split; [done|]. split; [done|].
  split; [by vm_compute|]. done.
Qed.

(** *** Which episodes a call keeps *)

(** Eviction drops episodes from the front until the total is below the
    capacity, and no further. *)
Lemma evict_longest_suffix capacity mem sz :
  1 <= capacity -> sz = total mem -> sz <= INT_MAX ->
  exists k : nat,
    evict capacity mem sz = Done (mkState (drop k mem) (total (drop k mem)))
    /\ total (drop k mem) < capacity
    /\ forall k' : nat, (k' < k)%nat -> capacity <= total (drop k' mem).
Proof.
  intros Hc. revert sz. induction mem as [|ep mem IH]; intros sz -> Hmax.
  - exists 0%nat. cbn. destruct (Z.leb_spec capacity 0); [lia|].
    split; [done|]. split; [lia|]. intros k' Hk'. lia.
  - cbn [evict]. destruct (Z.leb_spec capacity (total (ep :: mem))) as [Hge|Hlt].
    + cbn [total foldr] in *. fold (total mem) in *.
      pose proof (total_nonneg mem). assert (0 <= size ep) by (unfold size; lia).
      rewrite wrap32_id by (unfold in_int, INT_MIN, INT_MAX in *; lia).
      replace (size ep + total mem - size ep) with (total mem) by lia.
      destruct (IH (total mem)) as (k & E & Hlt & Hmin); [done|lia|].
      exists (S k). cbn [drop]. split; [done|]. split; [done|].
      intros [|k'] Hk'; [cbn [drop total foldr]; fold (total mem); lia|].
      cbn [drop]. apply Hmin. lia.
    + exists 0%nat. rewrite drop_0. split; [done|]. split; [done|]. intros k' Hk'. lia.
Qed.

(** X3: of the stored episodes followed by the new one, RememberEpisode
    keeps the longest suffix that holds fewer transitions than the
    capacity: the oldest episodes go first, whole, and no more of them
    than needed. *)
Theorem RememberEpisode_longest_suffix capacity st episode :
  let all := replay_memory_ st ++ [episode] in
  1 <= capacity -> counted st ->
  replay_memory_size_ st + size episode <= INT_MAX ->
  exists k : nat,
    RememberEpisode capacity st episode = Done (mkState (drop k all) (total (drop k all)))
    /\ total (drop k all) < capacity
    /\ forall k' : nat, (k' < k)%nat -> capacity <= total (drop k' all).
Proof.
  intros all Hc Hcnt Hmax. subst all. unfold RememberEpisode, counted in *.
  pose proof (total_nonneg (replay_memory_ st)).
  assert (0 <= size episode) by (unfold size; lia).
  rewrite wrap32_id by (unfold in_int, INT_MIN, INT_MAX in *; lia).
  apply evict_longest_suffix; [done| |lia].
  rewrite total_app. cbn. lia.
Qed.

Lemma RememberEpisode_longest_suffix_witness :
  exists k : nat,
    RememberEpisode 10 (mkState [replicate 4 step1; replicate 4 step1] 8) (replicate 4 step1)
    = Done (mkState (drop k [replicate 4 step1; replicate 4 step1; replicate 4 step1])
                    (total (drop k [replicate 4 step1; replicate 4 step1; replicate 4 step1])))
    /\ total (drop k [replicate 4 step1; replicate 4 step1; replicate 4 step1]) < 10
    /\ forall k' : nat, (k' < k)%nat ->
         10 <= total (drop k' [replicate 4 step1; replicate 4 step1; replicate 4 step1]).
Proof.
  apply (RememberEpisode_longest_suffix 10
           (mkState [replicate 4 step1; replicate 4 step1] 8) (replicate 4 step1)).
  - lia.
  - reflexivity.
  - vm_compute. discriminate.
Defined.

(** X4: an episode shorter than the capacity is always stored, as the
    newest one; an episode with as many transitions as the capacity, or
    more, is stored and evicted in the same call together with all the
    others: the memory is left empty. *)
Theorem RememberEpisode_newest capacity st episode :
  1 <= capacity -> counted st ->
  replay_memory_size_ st + size episode <= INT_MAX ->
  exists st', RememberEpisode capacity st episode = Done st'
    /\ (size episode < capacity -> last (replay_memory_ st') = Some episode)
    /\ (capacity <= size episode -> st' = mkState [] 0).
Proof.
  intros Hc Hcnt Hmax.
  unfold RememberEpisode, counted in *.
  pose proof (total_nonneg (replay_memory_ st)).
  assert (0 <= size episode) by (unfold size; lia).
  rewrite wrap32_id in * by (unfold in_int, INT_MIN, INT_MAX in *; lia).
  destruct (evict_longest_suffix capacity (replay_memory_ st ++ [episode])
              (replay_memory_size_ st + size episode)) as (k & E & Hlt & Hmin);
    [done|rewrite total_app; cbn; lia|lia|].
  rewrite E. eexists. split; [done|]. cbn [replay_memory_].
  assert (Htail : forall j : nat, (j <= length (replay_memory_ st))%nat ->
            size episode <= total (drop j (replay_memory_ st ++ [episode]))).
  { intros j Hj. rewrite drop_app_le by done. rewrite total_app. cbn.
    pose proof (total_nonneg (drop j (replay_memory_ st))). lia. }
  split.
  - intros Hsmall.
    assert (k <= length (replay_memory_ st))%nat.
    { destruct (Nat.le_gt_cases k (length (replay_memory_ st))) as [|Hgt]; [done|].
      specialize (Hmin _ Hgt). rewrite drop_app_length in Hmin. cbn in Hmin. lia. }
    rewrite drop_app_le by done. apply last_snoc.
  - intros Hbig.
    assert (length (replay_memory_ st) < k)%nat.
    { destruct (Nat.le_gt_cases k (length (replay_memory_ st))) as [Hle|]; [|done].
      specialize (Htail k Hle). lia. }
    rewrite drop_ge by (rewrite length_app; cbn; lia). done.
Qed.

Lemma RememberEpisode_newest_witness :
  exists st', RememberEpisode 4 (mkState [[step1]] 1) (replicate 4 step1) = Done st'
    /\ (size (replicate 4 step1) < 4 -> last (replay_memory_ st') = Some (replicate 4 step1))
    /\ (4 <= size (replicate 4 step1) -> st' = mkState [] 0).
Proof.
  apply (RememberEpisode_newest 4 (mkState [[step1]] 1) (replicate 4 step1)).
  - lia.
  - reflexivity.
  - vm_compute. discriminate.
Defined.

(** *** What a snapshot holds *)

(** X5: the file has four bytes for the count, four per episode for its
    length and 7064 per transition (the frame, the action, the reward). *)
Theorem SnapshotReplayMemory_length st :
  Forall (Forall (fun t => length (tr_frame t) = frame_bytes)) (replay_memory_ st) ->
  Z.of_nat (length (SnapshotReplayMemory st))
  = 4 + 4 * Z.of_nat (length (replay_memory_ st)) + 7064 * total (replay_memory_ st).
Proof.
  intros Hwf. unfold SnapshotReplayMemory. rewrite !length_app, length_int_bytes.
  assert (Hlens : forall mem : ReplayMemory,
            Z.of_nat (length (concat (map (fun ep => int_bytes (wrap32 (size ep))) mem)))
            = 4 * Z.of_nat (length mem)).
  { induction mem as [|ep mem IH]; [done|].
    cbn [map concat length]. rewrite length_app, length_int_bytes. lia. }
  assert (Hep : forall ep : Episode,
            Forall (fun t => length (tr_frame t) = frame_bytes) ep ->
            Z.of_nat (length (concat (map transition_bytes ep))) = 7064 * size ep).
  { induction 1 as [|t ep Ht _ IH]; [done|].
    cbn [map concat]. unfold size in *. rewrite length_app, Nat2Z.inj_add, IH. cbn [length].
    unfold transition_bytes. rewrite !length_app, Ht, length_int_bytes, length_f32_bytes.
    assert (Hfb : Z.of_nat frame_bytes = 7056) by reflexivity.
    rewrite !Nat2Z.inj_add, Hfb. lia. }
  assert (Hbody : Z.of_nat (length (concat (map (fun ep => concat (map transition_bytes ep))
                                                (replay_memory_ st))))
                  = 7064 * total (replay_memory_ st)).
  { induction Hwf as [|ep mem Hwf_ep _ IH]; [done|].
    cbn [map concat total foldr]. fold (total mem). rewrite length_app.
    rewrite Nat2Z.inj_add, (Hep ep Hwf_ep), IH. lia. }
  rewrite !Nat2Z.inj_add, Hlens, Hbody. lia.
Qed.

Lemma SnapshotReplayMemory_length_witness :
  Z.of_nat (length (SnapshotReplayMemory (mkState [[step1; step2]; [step0]] 3)))
  = 4 + 4 * Z.of_nat (length [[step1; step2]; [step0]])
    + 7064 * total [[step1; step2]; [step0]].
Proof.
  apply (SnapshotReplayMemory_length (mkState [[step1; step2]; [step0]] 3)).
  repeat constructor.
Defined.

(** What of a transition reaches the file. *)
Definition stored (t : Transition) : list byte * Z * float32 :=
  (tr_frame t, tr_action t, tr_reward t).

(** The bytes written, as a function of what is stored. *)
Definition written (eps : list (list (list byte * Z * float32))) : list byte :=
  int_bytes (wrap32 (Z.of_nat (length eps)))
  ++ concat (map (fun ep => int_bytes (wrap32 (Z.of_nat (length ep)))) eps)
  ++ concat (map (fun ep => concat (map (fun '(f, a, r) => f ++ int_bytes a ++ f32_bytes r) ep))
                 eps).

Lemma SnapshotReplayMemory_written st :
  SnapshotReplayMemory st = written (map (map stored) (replay_memory_ st)).
Proof.
  unfold SnapshotReplayMemory, written. rewrite length_map. f_equal. f_equal.
  - f_equal. rewrite map_map. apply map_ext. intros ep. unfold size. by rewrite length_map.
  - f_equal. rewrite map_map. apply map_ext. intros ep. f_equal.
    rewrite map_map. by apply map_ext.
Qed.

(** X6: the file records neither the next-frame links nor the counter:
    two states whose episodes hold the same frames, actions and rewards
    are written as the same bytes.  Whether the last transition of an
    episode was terminal cannot be read back. *)
Theorem SnapshotReplayMemory_stored st st' :
  map (map stored) (replay_memory_ st) = map (map stored) (replay_memory_ st') ->
  SnapshotReplayMemory st = SnapshotReplayMemory st'.
Proof. intros Hsame. by rewrite !SnapshotReplayMemory_written, Hsame. Qed.

Lemma SnapshotReplayMemory_stored_witness :
  SnapshotReplayMemory (mkState [[step1; step2]] 2)
  = SnapshotReplayMemory (mkState [[set_next None step1; step2]] 7).
Proof. apply SnapshotReplayMemory_stored. reflexivity. Defined.

(** *** What LoadReplayMemory makes of a bad header *)

Lemma for_loop_app {S : Type} (body : nat -> S -> outcome S) (a b : nat) : forall i st,
  for_loop i (a + b) body st = (st' ← for_loop i a body st; for_loop (i + a) b body st').
Proof.
  induction a as [|a IH]; intros i st.
  - cbn. by rewrite Nat.add_0_r.
  - cbn [Nat.add for_loop]. destruct (body i st) as [st1|]; [|done].
    cbn [mbind outcome_bind]. rewrite IH. by rewrite Nat.add_succ_r.
Qed.

Lemma load_length_next done ep later sz rest :
  size ep <= INT_MAX -> 0 <= sz -> sz + size ep <= INT_MAX ->
  load_length (length done)
    (mkState (done ++ [] :: later) sz,
     mkIstream (int_bytes (wrap32 (size ep)) ++ rest) true)
  = Done (mkState (done ++ blank ep :: later) (sz + size ep), mkIstream rest true).
Proof.
  intros Hep Hsz Hmax.
  assert (Hsize : 0 <= size ep) by (unfold size; lia).
  assert (Hin : in_int (size ep)) by (unfold in_int, INT_MIN, INT_MAX in *; lia).
  unfold load_length.
  rewrite read_exact by (simpl; done || lia). cbn [is_good].
  rewrite (wrap32_id (size ep)) by done.
  rewrite int_of_int_bytes by done.
  unfold resize. destruct (Z.ltb_spec (size ep) 0); [lia|].
  cbn [mbind outcome_bind replay_memory_ replay_memory_size_].
  rewrite insert_app_r_alt by lia. rewrite Nat.sub_diag. cbn [insert list_insert].
  rewrite wrap32_id by (unfold in_int, INT_MIN, INT_MAX in *; lia).
  unfold blank, size. by rewrite Nat2Z.id.
Qed.

(** The lengths of the leading episodes are read; the rest of the deque
    is still empty. *)
Lemma load_lengths_prefix todo : forall done tail sz rest,
  Forall (fun ep => size ep <= INT_MAX) todo -> 0 <= sz -> sz + total todo <= INT_MAX ->
  for_loop (length done) (length todo) load_length
    (mkState (done ++ replicate (length todo) [] ++ tail) sz,
     mkIstream (concat (map (fun ep => int_bytes (wrap32 (size ep))) todo) ++ rest) true)
  = Done (mkState (done ++ map blank todo ++ tail) (sz + total todo), mkIstream rest true).
Proof.
  induction todo as [|ep todo IH]; intros done tail sz rest Hall Hsz Hmax.
  - simpl. by rewrite Z.add_0_r.
  - inversion Hall as [|? ? Hep Htodo]; subst.
    pose proof (total_nonneg todo) as Ht. simpl in Hmax.
    assert (Hsize : 0 <= size ep) by (unfold size; lia).
    cbn [for_loop length concat map replicate app]. rewrite <- app_assoc.
    rewrite load_length_next by (done || lia).
    cbn [mbind outcome_bind].
    specialize (IH (done ++ [blank ep]) tail (sz + size ep) rest).
    rewrite length_app in IH. simpl length in IH. rewrite Nat.add_1_r in IH.
    rewrite <- !app_assoc in IH. simpl app in IH.
    rewrite IH by (done || lia). cbn [total foldr map]. by rewrite Z.add_assoc.
Qed.

(** X7: a negative episode count, or a negative length for one of the
    announced episodes after lengths that were in order, makes
    LoadReplayMemory throw [std::length_error] out of [resize]. *)
Theorem LoadReplayMemory_negative st :
  (forall n rest, in_int n -> n < 0 ->
     LoadReplayMemory st (int_bytes n ++ rest) = Fatal (Thrown length_error))
  /\ (forall n (eps : list Episode) l rest,
        in_int n -> Z.of_nat (length eps) < n ->
        Forall (fun ep => size ep <= INT_MAX) eps -> total eps <= INT_MAX ->
        in_int l -> l < 0 ->
        LoadReplayMemory st
          (int_bytes n ++ concat (map (fun ep => int_bytes (wrap32 (size ep))) eps)
           ++ int_bytes l ++ rest)
        = Fatal (Thrown length_error)).
Proof.
  split.
  - intros n rest Hin Hneg. unfold LoadReplayMemory, ClearReplayMemory.
    rewrite read_exact by done. rewrite (int_of_int_bytes _ Hin).
    unfold resize. destruct (Z.ltb_spec n 0); [done|lia].
  - intros n eps l rest Hin Hlen Heps Htotal Hl Hneg.
    unfold LoadReplayMemory, ClearReplayMemory.
    rewrite read_exact by done. rewrite (int_of_int_bytes _ Hin).
    unfold resize at 1. destruct (Z.ltb_spec n 0); [lia|].
    cbn [mbind outcome_bind replay_memory_size_].
    replace (Z.to_nat n) with (length eps + Datatypes.S (Z.to_nat n - length eps - 1))%nat by lia.
    rewrite for_loop_app.
    rewrite replicate_add.
    pose proof (load_lengths_prefix eps [] (replicate (Datatypes.S (Z.to_nat n - length eps - 1)) [])
                  0 (int_bytes l ++ rest) Heps ltac:(lia) ltac:(lia)) as E.
    cbn [length app Nat.add] in E. cbn [Nat.add]. rewrite E.
    cbn [mbind outcome_bind for_loop]. unfold load_length.
    rewrite read_exact by (simpl; done || lia). cbn [is_good]. rewrite (int_of_int_bytes _ Hl).
    unfold resize. destruct (Z.ltb_spec l 0); [done|lia].
Qed.

Lemma LoadReplayMemory_negative_witness :
  LoadReplayMemory (mkState [[step0]] 1) (int_bytes (-1) ++ []) = Fatal (Thrown length_error)
  /\ LoadReplayMemory (mkState [[step0]] 1)
       (int_bytes 2 ++ concat (map (fun ep => int_bytes (wrap32 (size ep))) [[step0]])
        ++ int_bytes (-5) ++ [])
     = Fatal (Thrown length_error).
Proof.
  destruct (LoadReplayMemory_negative (mkState [[step0]] 1)) as [Hcount Hlen]. split.
  - apply Hcount; [unfold in_int, INT_MIN, INT_MAX; lia|lia].
  - apply Hlen.
    + unfold in_int, INT_MIN, INT_MAX; lia.
    + simpl; lia.
    + repeat constructor. vm_compute. discriminate.
    + vm_compute. discriminate.
    + unfold in_int, INT_MIN, INT_MAX; lia.
    + lia.
Defined.

(** X8: a stream that ends inside the list of episode lengths, after a
    count and lengths that were in order, leaves [ep_len] without a
    value: what LoadReplayMemory does next is undefined. *)
Theorem LoadReplayMemory_header_cut st n (eps : list Episode) tail :
  in_int n -> Z.of_nat (length eps) < n ->
  Forall (fun ep => size ep <= INT_MAX) eps -> total eps <= INT_MAX ->
  (length tail < 4)%nat ->
  LoadReplayMemory st
    (int_bytes n ++ concat (map (fun ep => int_bytes (wrap32 (size ep))) eps) ++ tail)
  = Fatal Undefined.
Proof.
  intros Hin Hlen Heps Htotal Htail.
  unfold LoadReplayMemory, ClearReplayMemory.
  rewrite read_exact by done. rewrite (int_of_int_bytes _ Hin).
  unfold resize at 1. destruct (Z.ltb_spec n 0); [lia|].
  cbn [mbind outcome_bind replay_memory_size_].
  replace (Z.to_nat n) with (length eps + Datatypes.S (Z.to_nat n - length eps - 1))%nat by lia.
  rewrite for_loop_app, replicate_add.
  pose proof (load_lengths_prefix eps [] (replicate (Datatypes.S (Z.to_nat n - length eps - 1)) [])
                0 tail Heps ltac:(lia) ltac:(lia)) as E.
  cbn [length app Nat.add] in E. cbn [Nat.add]. rewrite E.
  cbn [mbind outcome_bind for_loop]. unfold load_length, read. cbn [is_good is_data].
  destruct (Nat.leb_spec 4 (length tail)); [lia|done].
Qed.

Lemma LoadReplayMemory_header_cut_witness :
  LoadReplayMemory (mkState [] 0)
    (int_bytes 2 ++ concat (map (fun ep => int_bytes (wrap32 (size ep))) [[step0]])
     ++ [x01; x00])
  = Fatal Undefined.
Proof.
  apply LoadReplayMemory_header_cut.
  - unfold in_int, INT_MIN, INT_MAX; lia.
  - simpl; lia.
  - repeat constructor. vm_compute. discriminate.
  - vm_compute. discriminate.
  - simpl; lia.
Defined.

Lemma Z_of_byte_bounds b : 0 <= Z_of_byte b < 256.
Proof.
  unfold Z_of_byte. pose proof (Byte.to_N_bounded b) as Hb. lia.
Qed.

(** Once the stream has failed, the first length that is asked for has
    no value. *)
Lemma load_length_failed n st :
  0 < n ->
  for_loop 0 (Z.to_nat n) load_length (st, mkIstream [] false) = Fatal Undefined.
Proof.
  intros Hn. destruct (Z.to_nat n) as [|k] eqn:E; [lia|]. reflexivity.
Qed.

(** X9: on a stream too short to hold the episode count, the bytes that
    are there overwrite the low end of the count, which was 0.  When
    they are all zero (or there is none) LoadReplayMemory returns
    normally with an empty memory, and what was stored before is gone;
    otherwise the count is positive and the first episode length is used
    without a value, which is undefined. *)
Theorem LoadReplayMemory_short_count st file :
  (length file < 4)%nat ->
  LoadReplayMemory st file
  = if forallb (fun b => Z_of_byte b =? 0) file
    then Done (mkState [] 0) else Fatal Undefined.
Proof.
  intros Hlen.
  assert (Hw : forall z, 0 <= z < 16777216 -> wrap32 z = z).
  { intros z Hz. apply wrap32_id. unfold in_int, INT_MIN, INT_MAX. lia. }
  destruct file as [|b0 [|b1 [|b2 [|b3 file]]]]; [reflexivity| | | |simpl in Hlen; lia].
  - pose proof (Z_of_byte_bounds b0).
    unfold LoadReplayMemory, ClearReplayMemory, read.
    cbn [is_good is_data length Nat.leb drop app replay_memory_size_ int_bytes].
    change (int_of_bytes _)
      with (wrap32 (Z_of_byte b0 + 256 * 0 + 65536 * 0 + 16777216 * 0)).
    rewrite Hw by lia. replace (Z_of_byte b0 + 256 * 0 + 65536 * 0 + 16777216 * 0)
      with (Z_of_byte b0) by lia.
    cbn [forallb andb]. unfold resize.
    destruct (Z.ltb_spec (Z_of_byte b0) 0); [lia|]. cbn [mbind outcome_bind].
    destruct (Z.eqb_spec (Z_of_byte b0) 0) as [->|Hnz]; [reflexivity|].
    by rewrite load_length_failed by lia.
  - pose proof (Z_of_byte_bounds b0). pose proof (Z_of_byte_bounds b1).
    unfold LoadReplayMemory, ClearReplayMemory, read.
    cbn [is_good is_data length Nat.leb drop app replay_memory_size_ int_bytes].
    change (int_of_bytes _)
      with (wrap32 (Z_of_byte b0 + 256 * Z_of_byte b1 + 65536 * 0 + 16777216 * 0)).
    rewrite Hw by lia. cbn [forallb]. unfold resize.
    destruct (Z.ltb_spec (Z_of_byte b0 + 256 * Z_of_byte b1 + 65536 * 0 + 16777216 * 0) 0);
      [lia|]. cbn [mbind outcome_bind].
    destruct (Z.eqb_spec (Z_of_byte b0) 0) as [E0|Hnz];
      [destruct (Z.eqb_spec (Z_of_byte b1) 0) as [E1|Hnz]|].
    + rewrite E0, E1. reflexivity.
    + cbn [andb]. by rewrite load_length_failed by lia.
    + cbn [andb]. by rewrite load_length_failed by lia.
  - pose proof (Z_of_byte_bounds b0). pose proof (Z_of_byte_bounds b1).
    pose proof (Z_of_byte_bounds b2).
    unfold LoadReplayMemory, ClearReplayMemory, read.
    cbn [is_good is_data length Nat.leb drop app replay_memory_size_ int_bytes].
    change (int_of_bytes _)
      with (wrap32 (Z_of_byte b0 + 256 * Z_of_byte b1 + 65536 * Z_of_byte b2
                    + 16777216 * 0)).
    rewrite Hw by lia. cbn [forallb]. unfold resize.
    destruct (Z.ltb_spec (Z_of_byte b0 + 256 * Z_of_byte b1 + 65536 * Z_of_byte b2
                          + 16777216 * 0) 0); [lia|]. cbn [mbind outcome_bind].
    destruct (Z.eqb_spec (Z_of_byte b0) 0) as [E0|Hnz];
      [destruct (Z.eqb_spec (Z_of_byte b1) 0) as [E1|Hnz];
       [destruct (Z.eqb_spec (Z_of_byte b2) 0) as [E2|Hnz]|]|].
    + rewrite E0, E1, E2. reflexivity.
    + cbn [andb]. by rewrite load_length_failed by lia.
    + cbn [andb]. by rewrite load_length_failed by lia.
    + cbn [andb]. by rewrite load_length_failed by lia.
Qed.

Lemma LoadReplayMemory_short_count_witness :
  LoadReplayMemory (mkState [[step0]] 1) [x01; x00]
  = if forallb (fun b => Z_of_byte b =? 0) [x01; x00]
    then Done (mkState [] 0) else Fatal Undefined.
Proof. apply LoadReplayMemory_short_count. simpl. lia. Defined.

(** A stream without a single byte, and one that holds a lone byte 1. *)
Example LoadReplayMemory_no_count st :
  LoadReplayMemory st [] = Done (mkState [] 0)
  /\ LoadReplayMemory st [x01] = Fatal Undefined.
Proof. split; reflexivity. Qed.

End Replay.

(** ** Snapshot discovery: ParseIterFromSnapshot, FilesMatchingRegexp,
    FindLatestSnapshot *)

Module Snapshots.

(** Paths and file names are sequences of characters. *)

Abbreviation text := (list ascii).

(** A string literal. *)
Definition str (s : string) : text := list_ascii_of_string s.

Definition is_digit (a : ascii) : bool :=
  (48 <=? nat_of_ascii a)%nat && (nat_of_ascii a <=? 57)%nat.

(** [isspace] in the C locale. *)
Definition is_space (a : ascii) : bool :=
  (nat_of_ascii a =? 32)%nat || ((9 <=? nat_of_ascii a)%nat && (nat_of_ascii a <=? 13)%nat).

(** [std::string::find_last_of] with a one-character set: the index of
    the last occurrence, or [npos]. *)
Fixpoint find_last (c : ascii) (s : text) : option nat :=
  match s with
  | [] => None
  | a :: s' =>
      match find_last c s' with
      | Some i => Some (S i)
      | None => if Ascii.eqb a c then Some 0%nat else None
      end
  end.

Definition npos : Z := 18446744073709551615.

Definition find_last_of (c : ascii) (s : text) : Z :=
  match find_last c s with
  | Some i => Z.of_nat i
  | None => npos
  end.

(** The positions are kept in [unsigned] variables. *)
Definition to_unsigned (z : Z) : Z := z mod 4294967296.

(** [std::string::substr(pos, n)]. *)
Definition substr (s : text) (pos n : Z) : outcome text :=
  if Z.of_nat (length s) <? pos then Fatal (Thrown out_of_range)
  else Done (take (Z.to_nat (Z.min n (Z.of_nat (length s) - pos))) (drop (Z.to_nat pos) s)).

Fixpoint skip_spaces (s : text) : text :=
  match s with
  | a :: s' => if is_space a then skip_spaces s' else s
  | [] => []
  end.

Fixpoint digits_value (acc : Z) (s : text) : Z :=
  match s with
  | a :: s' =>
      if is_digit a then digits_value (10 * acc + (Z.of_nat (nat_of_ascii a) - 48)) s'
      else acc
  | [] => acc
  end.

(** [std::stoi] in base 10: leading white space, an optional sign, then
    the longest run of digits. *)
Definition stoi (s : text) : outcome Z :=
  let s := skip_spaces s in
  let '(negative, s) :=
    match s with
    | a :: s' =>
        if Ascii.eqb a "-" then (true, s')
        else if Ascii.eqb a "+" then (false, s') else (false, s)
    | [] => (false, s)
    end in
  match s with
  | a :: _ =>
      if is_digit a then
        let v := digits_value 0 s in
        let v := if negative : bool then - v else v in
        if (INT_MIN <=? v) && (v <=? INT_MAX) then Done v
        else Fatal (Thrown out_of_range)
      else Fatal (Thrown invalid_argument)
  | [] => Fatal (Thrown invalid_argument)
  end.

(**
<<
  unsigned start = snapshot.find_last_of("_");
  unsigned end = snapshot.find_last_of(".");
  return std::stoi(snapshot.substr(start+1, end-start-1));
>> *)
Definition ParseIterFromSnapshot (snapshot : text) : outcome Z :=
  let start := to_unsigned (find_last_of "_" snapshot) in
  let end_ := to_unsigned (find_last_of "." snapshot) in
  sub ← substr snapshot (to_unsigned (start + 1)) (to_unsigned (end_ - start - 1));
  stoi sub.


Fixpoint strip_prefix (p s : text) : option text :=
  match p, s with
  | [], _ => Some s
  | a :: p', b :: s' => if Ascii.eqb a b then strip_prefix p' s' else None
  | _ :: _, [] => None
  end.

Fixpoint span_digits (s : text) : text * text :=
  match s with
  | a :: s' => if is_digit a then let '(d, r) := span_digits s' in (a :: d, r) else ([], s)
  | [] => ([], [])
  end.

(** [path::filename()]: what follows the last separator. *)
Definition path_filename (p : text) : text :=
  match find_last "/" p with
  | Some i => drop (S i) p
  | None => p
  end.

(** The characters that do not stand for themselves in a [boost::regex]
    of the default (Perl) syntax. *)
Definition regex_special (c : ascii) : bool :=
  bool_decide (c ∈ str ".[{}()\*+?|^$").

(** A stem that, compiled into a regular expression, matches itself and
    nothing else. *)
Definition literal (stem : text) : Prop :=
  Forall (fun c => regex_special c = false) stem.

(** The regular expression library, as far as this file uses it:
    [regex_match pattern name] is
    [boost::regex_match(name, what, boost::regex(pattern))], with the
    default (Perl) syntax. *)
Class Regex := {
  regex_match : text -> text -> bool
}.

(** The names of the form [stem_iter_<digits>.ext]: the stem, [_iter_],
    one or more digits, a dot and the extension. *)
Definition regex_match_snapshot (stem ext name : text) : bool :=
  match strip_prefix (stem ++ str "_iter_") name with
  | Some rest =>
      let '(digits, rest) := span_digits rest in
      negb (bool_decide (digits = [])) && bool_decide (rest = str "." ++ ext)
  | None => false
  end.

(** The names of the artifacts of the snapshots of a stem. *)
Definition regex_match_artifact (stem name : text) : bool :=
  regex_match_snapshot stem (str "caffemodel") name
  || regex_match_snapshot stem (str "solverstate") name
  || regex_match_snapshot stem (str "replaymemory") name.

(** What the library's documentation says of the two expressions that
    are compiled here, when the stem put in front of them is [literal]:
    the characters of the stem match themselves, [[0-9]+] matches one or
    more digits, the escaped dot matches a dot, and a group of
    alternatives matches any one of them.  Nothing is assumed of a stem
    with a metacharacter. *)
Class RegexLaws `{Regex} := {
  regex_solverstate : forall stem name, literal stem ->
    regex_match (stem ++ str "_iter_[0-9]+\.solverstate") name
    = regex_match_snapshot stem (str "solverstate") name;
  regex_artifacts : forall stem name, literal stem ->
    regex_match (stem ++ str "_iter_[0-9]+\.(caffemodel|solverstate|replaymemory)") name
    = regex_match_artifact stem name
}.

(** The file system is seen through the directory that is searched:
    [fs] lists the native paths of its regular files in the order the
    directory iterator yields them.  [FilesMatchingRegexp] compiles the
    file-name part of [regexp] and keeps the files whose file name
    matches; [is_regular_file] of a sibling path is membership in the
    listing.
<<
  path search_stem(regexp);
  if (search_stem.has_parent_path()) {
    search_dir = search_stem.parent_path();
    search_stem = search_stem.filename();
  }
  const boost::regex expression(search_stem.native());
  ...
      if (boost::regex_match(p.filename().native(), what, expression)) {
        matching_files.push_back(p.native());
>> *)
Definition FilesMatchingRegexp `{Regex} (fs : list text) (regexp : text) : list text :=
  filter (fun p => regex_match (path_filename regexp) (path_filename p) = true) fs.

(** The files a literal prefix selects: the solver states, or the files
    of another extension, of its snapshots. *)
Definition snapshot_files (fs : list text) (snapshot_prefix ext : text) : list text :=
  filter (fun p => regex_match_snapshot (path_filename snapshot_prefix) ext (path_filename p) = true) fs.

(** The artifacts of the snapshots of a literal prefix. *)
Definition artifact_files (fs : list text) (snapshot_prefix : text) : list text :=
  filter (fun p => regex_match_artifact (path_filename snapshot_prefix) (path_filename p) = true)
         fs.

Definition is_regular_file (fs : list text) (p : text) : bool := bool_decide (p ∈ fs).

(** [p.parent_path() / p.stem()], as a native string: the path without
    the last extension of its file name. *)
Definition without_extension (p : text) : text :=
  match find_last "." (path_filename p) with
  | Some i => take (length p - (length (path_filename p) - i)) p
  | None => p
  end.

(** Body of the loop of [FindLatestSnapshot]:
<<
    int iter = ParseIterFromSnapshot(f);
    if (iter > max_iter) {
      path p(f);
      p = p.parent_path() / p.stem();
      std::string caffemodel = p.native() + ".caffemodel";
      std::string replaymemory = p.native() + ".replaymemory";
      if (is_regular_file(caffemodel) && is_regular_file(replaymemory)) {
        max_iter = iter;
        latest = f;
      }
    }
>> *)
Definition consider (fs : list text) (acc : Z * text) (f : text) : outcome (Z * text) :=
  let '(max_iter, latest) := acc in
  iter ← ParseIterFromSnapshot f;
  if max_iter <? iter then
    let p := without_extension f in
    let caffemodel := p ++ str ".caffemodel" in
    let replaymemory := p ++ str ".replaymemory" in
    if is_regular_file fs caffemodel && is_regular_file fs replaymemory
    then Done (iter, f) else Done acc
  else Done acc.

Definition FindLatestSnapshot `{Regex} (fs : list text) (snapshot_prefix : text)
  : outcome text :=
  let regexp := snapshot_prefix ++ str "_iter_[0-9]+\.solverstate" in
  let matching_files := FilesMatchingRegexp fs regexp in
  '(_, latest) ← for_each (consider fs) matching_files (-1, []);
  Done latest.


(** *** Specification vocabulary *)

(** [prefix_iter_<digits>] inside directory [dir]. *)
Definition tag (dir stem digits : text) : text := dir ++ stem ++ str "_iter_" ++ digits.

Definition all_digits (digits : text) : Prop :=
  digits <> [] /\ Forall (fun a => is_digit a = true) digits.

(** The solver state of tag [dir, digits] is listed and is a file of the
    searched directory. *)
Definition candidate (fs : list text) (stem dir digits : text) : Prop :=
  all_digits digits
  /\ tag dir stem digits ++ str ".solverstate" ∈ fs
  /\ path_filename (tag dir stem digits ++ str ".solverstate")
     = stem ++ str "_iter_" ++ digits ++ str ".solverstate".

(** The other two artifacts of the tag exist. *)
Definition complete (fs : list text) (base : text) : Prop :=
  base ++ str ".caffemodel" ∈ fs /\ base ++ str ".replaymemory" ∈ fs.

(** *** Facts *)

Arguments is_digit : simpl never.
Arguments is_space : simpl never.
Arguments str : simpl never.

Lemma find_last_None c s : c ∉ s -> find_last c s = None.
Proof.
  induction s as [|a s IH]; [done|]. intros Hn. simpl.
  rewrite IH by (intros ?; apply Hn; by right).
  destruct (Ascii.eqb_spec a c) as [->|]; [|done]. exfalso. apply Hn. by left.
Qed.

Lemma find_last_app c l1 l2 :
  c ∉ l2 -> find_last c (l1 ++ c :: l2) = Some (length l1).
Proof.
  intros Hn. induction l1 as [|a l1 IH]; simpl.
  - rewrite find_last_None by done. by rewrite Ascii.eqb_refl.
  - by rewrite IH.
Qed.

Lemma find_last_Some c s i :
  find_last c s = Some i -> s !! i = Some c /\ c ∉ drop (S i) s.
Proof.
  revert i. induction s as [|a s IH]; intros i; [done|]. simpl.
  destruct (find_last c s) as [j|] eqn:E.
  - intros [= <-]. by apply IH.
  - destruct (Ascii.eqb_spec a c) as [->|]; [|done]. intros [= <-].
    split; [done|]. simpl. rewrite drop_0.
    intros Hin. clear IH. induction s as [|b s IHs]; [by inversion Hin|].
    simpl in E. destruct (find_last c s) eqn:E'; [done|].
    destruct (Ascii.eqb_spec b c) as [->|Hne]; [done|].
    inversion Hin; subst; [done|]. by apply IHs.
Qed.

Lemma strip_prefix_Some p s r : strip_prefix p s = Some r <-> s = p ++ r.
Proof.
  revert s. induction p as [|a p IH]; intros s; simpl.
  - split; congruence.
  - destruct s as [|b s]; [split; [done|discriminate]|].
    destruct (Ascii.eqb_spec a b) as [->|Hne].
    + rewrite IH. split; congruence.
    + split; [done|]. intros [= ? ?]. done.
Qed.

Lemma span_digits_app ds rest :
  Forall (fun a => is_digit a = true) ds ->
  match rest with a :: _ => is_digit a = false | [] => True end ->
  span_digits (ds ++ rest) = (ds, rest).
Proof.
  intros Hds Hrest. induction Hds as [|a ds Ha Hds IH]; simpl.
  - destruct rest as [|a rest]; [done|]. simpl. by rewrite Hrest.
  - by rewrite Ha, IH.
Qed.

Lemma span_digits_spec s ds rest :
  span_digits s = (ds, rest) ->
  s = ds ++ rest /\ Forall (fun a => is_digit a = true) ds.
Proof.
  revert ds rest. induction s as [|a s IH]; intros ds rest; simpl.
  - intros [= <- <-]. done.
  - destruct (is_digit a) eqn:Ha.
    + destruct (span_digits s) as [d r]. intros [= <- <-].
      destruct (IH d r eq_refl) as [-> Hd]. split; [done|]. by constructor.
    + intros [= <- <-]. done.
Qed.

Lemma regex_match_snapshot_true stem ext name :
  regex_match_snapshot stem ext name = true ->
  exists digits, all_digits digits
    /\ name = stem ++ str "_iter_" ++ digits ++ str "." ++ ext.
Proof.
  unfold regex_match_snapshot.
  destruct (strip_prefix _ name) as [rest|] eqn:E; [|done].
  apply strip_prefix_Some in E.
  destruct (span_digits rest) as [ds r] eqn:Es.
  apply span_digits_spec in Es as [-> Hds].
  intros H. apply andb_prop in H as [H1 H2].
  apply negb_true_iff, bool_decide_eq_false in H1.
  apply bool_decide_eq_true in H2. subst r.
  exists ds. split; [done|]. by rewrite E, <- !app_assoc.
Qed.

Lemma regex_match_snapshot_digits stem ext digits :
  all_digits digits ->
  regex_match_snapshot stem ext (stem ++ str "_iter_" ++ digits ++ str "." ++ ext) = true.
Proof.
  intros [Hne Hds]. unfold regex_match_snapshot.
  assert (E : strip_prefix (stem ++ str "_iter_")
                (stem ++ str "_iter_" ++ digits ++ str "." ++ ext)
              = Some (digits ++ str "." ++ ext)).
  { apply strip_prefix_Some. by rewrite <- !app_assoc. }
  rewrite E. rewrite span_digits_app by done.
  apply andb_true_intro. split.
  - by apply negb_true_iff, bool_decide_eq_false.
  - by apply bool_decide_eq_true.
Qed.

Lemma path_filename_suffix p : exists dir, p = dir ++ path_filename p.
Proof.
  unfold path_filename. destruct (find_last "/" p) as [i|].
  - exists (take (S i) p). by rewrite take_drop.
  - by exists [].
Qed.

Lemma digit_not c a : is_digit c = false -> is_digit a = true -> a <> c.
Proof. congruence. Qed.

Lemma not_in_digits c digits rest :
  is_digit c = false -> Forall (fun a => is_digit a = true) digits ->
  c ∉ rest -> c ∉ digits ++ rest.
Proof.
  intros Hc Hds Hrest Hin. apply elem_of_app in Hin as [Hin|Hin]; [|done].
  rewrite Forall_forall in Hds. apply Hds in Hin. congruence.
Qed.

Lemma digits_value_nonneg s : forall acc, 0 <= acc -> 0 <= digits_value acc s.
Proof.
  induction s as [|a s IH]; intros acc Hacc; simpl; [done|].
  destruct (is_digit a) eqn:Ha; [|done]. apply IH.
  unfold is_digit in Ha. apply andb_prop in Ha as [H1 H2].
  apply Nat.leb_le in H1, H2. lia.
Qed.

Lemma stoi_digits digits :
  all_digits digits -> digits_value 0 digits <= INT_MAX ->
  stoi digits = Done (digits_value 0 digits).
Proof.
  intros [Hne Hds] Hmax. destruct digits as [|a ds]; [done|].
  inversion Hds as [|? ? Ha Hds']; subst.
  pose proof (digits_value_nonneg (a :: ds) 0 ltac:(lia)) as Hpos.
  unfold stoi.
  assert (Hsp : is_space a = false).
  { unfold is_digit in Ha. unfold is_space.
    apply andb_prop in Ha as [H1 H2]. apply Nat.leb_le in H1, H2.
    apply orb_false_intro; [apply Nat.eqb_neq; lia|].
    apply andb_false_intro2. apply Nat.leb_gt. lia. }
  cbn [skip_spaces]. rewrite Hsp.
  assert (Hm : Ascii.eqb a "-" = false).
  { apply Ascii.eqb_neq. intros ->. done. }
  assert (Hp : Ascii.eqb a "+" = false).
  { apply Ascii.eqb_neq. intros ->. done. }
  rewrite Hm, Hp, Ha.
  destruct (Z.leb_spec INT_MIN (digits_value 0 (a :: ds))); [|unfold INT_MIN in *; lia].
  destruct (Z.leb_spec (digits_value 0 (a :: ds)) INT_MAX); [done|lia].
Qed.

Definition solverstate_of (dir stem digits : text) : text :=
  tag dir stem digits ++ str ".solverstate".

Lemma to_unsigned_small z : 0 <= z < 4294967296 -> to_unsigned z = z.
Proof. intros H. unfold to_unsigned. by rewrite Z.mod_small. Qed.

Lemma ParseIterFromSnapshot_shape pre digits ext :
  "_"%char ∉ digits ++ "."%char :: ext -> "."%char ∉ ext ->
  Z.of_nat (length (pre ++ "_"%char :: digits ++ "."%char :: ext)) < 4294967296 ->
  ParseIterFromSnapshot (pre ++ "_"%char :: digits ++ "."%char :: ext) = stoi digits.
Proof.
  intros Hu Hd Hlen.
  assert (E1 : find_last "_" (pre ++ "_"%char :: digits ++ "."%char :: ext)
               = Some (length pre)) by (by apply find_last_app).
  assert (E2 : find_last "." (pre ++ "_"%char :: digits ++ "."%char :: ext)
               = Some (length pre + S (length digits))%nat).
  { replace (pre ++ "_"%char :: digits ++ "."%char :: ext)
      with ((pre ++ "_"%char :: digits) ++ "."%char :: ext)
      by (by rewrite <- app_assoc).
    rewrite find_last_app by done. by rewrite length_app. }
  assert (E3 : drop (S (length pre)) (pre ++ "_"%char :: digits ++ "."%char :: ext)
               = digits ++ "."%char :: ext).
  { replace (pre ++ "_"%char :: digits ++ "."%char :: ext)
      with ((pre ++ ["_"%char]) ++ digits ++ "."%char :: ext)
      by (by rewrite <- app_assoc).
    apply drop_app_length'. rewrite length_app. simpl. lia. }
  assert (Hl : length (pre ++ "_"%char :: digits ++ "."%char :: ext)
               = (length pre + S (length digits + S (length ext)))%nat).
  { rewrite length_app. cbn [length]. rewrite length_app. done. }
  unfold ParseIterFromSnapshot, find_last_of. rewrite E1, E2.
  set (f := pre ++ _) in *. rewrite Hl in Hlen.
  rewrite (to_unsigned_small (Z.of_nat (length pre))) by lia.
  rewrite (to_unsigned_small (Z.of_nat (length pre + S (length digits)))) by lia.
  rewrite (to_unsigned_small (Z.of_nat (length pre) + 1)) by lia.
  rewrite to_unsigned_small by lia.
  unfold substr. rewrite Hl.
  destruct (Z.ltb_spec (Z.of_nat (length pre + S (length digits + S (length ext))))
              (Z.of_nat (length pre) + 1)); [lia|].
  cbn [mbind outcome_bind].
  replace (Z.to_nat (Z.of_nat (length pre) + 1)) with (S (length pre)) by lia.
  rewrite E3. rewrite take_app_length' by lia. done.
Qed.

Lemma solverstate_no_underscore digits :
  Forall (fun a => is_digit a = true) digits ->
  "_"%char ∉ digits ++ "."%char :: str "solverstate".
Proof.
  intros Hds. apply not_in_digits; [done|done|].
  rewrite list_elem_of_In. vm_compute. intuition discriminate.
Qed.

Lemma solverstate_no_dot : "."%char ∉ str "solverstate".
Proof.
  rewrite list_elem_of_In. vm_compute. intuition discriminate.
Qed.

Lemma solverstate_of_split dir stem digits :
  solverstate_of dir stem digits
  = (dir ++ stem ++ str "_iter") ++ "_"%char :: digits ++ "."%char :: str "solverstate".
Proof. unfold solverstate_of, tag. by rewrite <- !app_assoc. Qed.

Lemma ParseIterFromSnapshot_candidate fs stem dir digits :
  candidate fs stem dir digits ->
  Z.of_nat (length (solverstate_of dir stem digits)) < 4294967296 ->
  digits_value 0 digits <= INT_MAX ->
  ParseIterFromSnapshot (solverstate_of dir stem digits) = Done (digits_value 0 digits).
Proof.
  intros (Hd & _ & _) Hlen Hmax. rewrite solverstate_of_split in *.
  rewrite ParseIterFromSnapshot_shape;
    [by apply stoi_digits|apply solverstate_no_underscore, Hd|apply solverstate_no_dot|done].
Qed.

Lemma without_extension_candidate fs stem dir digits :
  candidate fs stem dir digits ->
  without_extension (solverstate_of dir stem digits) = tag dir stem digits.
Proof.
  intros ((_ & Hds) & _ & Hname). unfold without_extension.
  fold (solverstate_of dir stem digits) in Hname. rewrite Hname.
  unfold solverstate_of, tag.
  change (str ".solverstate") with ("."%char :: str "solverstate").
  replace (stem ++ str "_iter_" ++ digits ++ "."%char :: str "solverstate")
    with ((stem ++ str "_iter_" ++ digits) ++ "."%char :: str "solverstate")
    by (by rewrite <- !app_assoc).
  rewrite find_last_app by apply solverstate_no_dot.
  replace ((dir ++ stem ++ str "_iter_" ++ digits) ++ "."%char :: str "solverstate")
    with (dir ++ (stem ++ str "_iter_" ++ digits) ++ "."%char :: str "solverstate")
    by (by rewrite <- !app_assoc).
  set (name := stem ++ str "_iter_" ++ digits).
  rewrite !length_app. cbn [length].
  replace (length dir + (length name + S (length (str "solverstate")))
           - (length name + S (length (str "solverstate")) - length name))%nat
    with (length (dir ++ name)) by (rewrite length_app; lia).
  rewrite app_assoc. by rewrite take_app_length.
Qed.

Lemma candidate_unique fs stem dir digits dir' digits' :
  candidate fs stem dir digits -> candidate fs stem dir' digits' ->
  solverstate_of dir stem digits = solverstate_of dir' stem digits' ->
  dir = dir' /\ digits = digits'.
Proof.
  intros (_ & _ & Hn) (_ & _ & Hn') E.
  fold (solverstate_of dir stem digits) in Hn.
  fold (solverstate_of dir' stem digits') in Hn'.
  rewrite E, Hn' in Hn.
  apply app_inv_head, app_inv_head, app_inv_tail in Hn. subst digits'.
  split; [|done]. unfold solverstate_of, tag in E.
  rewrite <- !app_assoc in E. by apply app_inv_tail in E.
Qed.

Lemma find_last_app_r c l1 l2 : c ∉ l2 -> find_last c (l1 ++ l2) = find_last c l1.
Proof.
  intros Hn. induction l1 as [|a l1 IH]; simpl.
  - by apply find_last_None.
  - by rewrite IH.
Qed.

Lemma find_last_bound c s i : find_last c s = Some i -> (i < length s)%nat.
Proof.
  intros E. apply find_last_Some in E as [E _]. by apply lookup_lt_Some in E.
Qed.

(** A suffix without a separator stays in the file name. *)
Lemma path_filename_app p suffix :
  "/"%char ∉ suffix -> path_filename (p ++ suffix) = path_filename p ++ suffix.
Proof.
  intros Hn. unfold path_filename. rewrite find_last_app_r by done.
  destruct (find_last "/" p) as [i|] eqn:E; [|done].
  apply find_last_bound in E. by rewrite drop_app_le by lia.
Qed.

(** For a literal prefix the two expressions select the snapshot files. *)
Lemma FilesMatchingRegexp_solverstate `{RegexLaws} fs snapshot_prefix :
  literal (path_filename snapshot_prefix) ->
  FilesMatchingRegexp fs (snapshot_prefix ++ str "_iter_[0-9]+\.solverstate")
  = snapshot_files fs snapshot_prefix (str "solverstate").
Proof.
  intros Hlit. unfold FilesMatchingRegexp, snapshot_files.
  rewrite path_filename_app by (apply (bool_decide_unpack _); vm_compute; exact I).
  apply list_filter_iff. intros p. by rewrite regex_solverstate.
Qed.

Lemma FilesMatchingRegexp_artifacts `{RegexLaws} fs snapshot_prefix :
  literal (path_filename snapshot_prefix) ->
  FilesMatchingRegexp fs
    (snapshot_prefix ++ str "_iter_[0-9]+\.(caffemodel|solverstate|replaymemory)")
  = artifact_files fs snapshot_prefix.
Proof.
  intros Hlit. unfold FilesMatchingRegexp, artifact_files.
  rewrite path_filename_app by (apply (bool_decide_unpack _); vm_compute; exact I).
  apply list_filter_iff. intros p. by rewrite regex_artifacts.
Qed.

Lemma matching_candidate fs snapshot_prefix f :
  f ∈ snapshot_files fs snapshot_prefix (str "solverstate") <->
  exists dir digits, f = solverstate_of dir (path_filename snapshot_prefix) digits
    /\ candidate fs (path_filename snapshot_prefix) dir digits.
Proof.
  unfold snapshot_files. rewrite list_elem_of_filter. split.
  - intros [Hm Hin]. apply regex_match_snapshot_true in Hm as (digits & Hd & Hname).
    destruct (path_filename_suffix f) as [dir Hf].
    assert (E : f = solverstate_of dir (path_filename snapshot_prefix) digits).
    { rewrite Hf at 1. rewrite Hname. unfold solverstate_of, tag.
      by rewrite <- !app_assoc. }
    exists dir, digits. split; [done|]. unfold candidate.
    fold (solverstate_of dir (path_filename snapshot_prefix) digits).
    rewrite <- E. done.
  - intros (dir & digits & -> & Hd & Hin & Hname). split; [|done].
    fold (solverstate_of dir (path_filename snapshot_prefix) digits) in Hname.
    rewrite Hname. by apply (regex_match_snapshot_digits _ (str "solverstate")).
Qed.

Section Discovery.
Variables (fs : list text) (stem : text).
Hypothesis short_paths : forall f, f ∈ fs -> Z.of_nat (length f) < 4294967296.
Hypothesis int_iterations :
  forall dir digits, candidate fs stem dir digits -> digits_value 0 digits <= INT_MAX.

Definition best_so_far (seen : text -> Prop) (acc : Z * text) : Prop :=
  (acc = (-1, []) /\
   forall dir digits, seen (solverstate_of dir stem digits) ->
     candidate fs stem dir digits -> ~ complete fs (tag dir stem digits))
  \/ (exists dir digits,
       acc = (digits_value 0 digits, solverstate_of dir stem digits)
       /\ candidate fs stem dir digits /\ complete fs (tag dir stem digits)
       /\ forall dir' digits', seen (solverstate_of dir' stem digits') ->
            candidate fs stem dir' digits' -> complete fs (tag dir' stem digits') ->
            digits_value 0 digits' <= digits_value 0 digits).

Lemma best_so_far_ext (seen seen' : text -> Prop) acc :
  (forall f, seen' f -> seen f) -> best_so_far seen acc -> best_so_far seen' acc.
Proof.
  intros Hs [[-> H]|(dir & digits & -> & Hc & Hk & H)]; [left|right].
  - split; [done|]. intros ? ? ?. apply H. by apply Hs.
  - exists dir, digits. do 3 (split; [done|]). intros ? ? ?. apply H. by apply Hs.
Qed.

Lemma consider_candidate dir digits max_iter latest :
  candidate fs stem dir digits ->
  consider fs (max_iter, latest) (solverstate_of dir stem digits)
  = Done (if (max_iter <? digits_value 0 digits)
             && bool_decide (complete fs (tag dir stem digits))
          then (digits_value 0 digits, solverstate_of dir stem digits)
          else (max_iter, latest)).
Proof.
  intros Hc. unfold consider.
  assert (Hlen : Z.of_nat (length (solverstate_of dir stem digits)) < 4294967296)
    by (apply short_paths, Hc).
  assert (Hmax : digits_value 0 digits <= INT_MAX) by (by apply int_iterations with dir).
  rewrite (ParseIterFromSnapshot_candidate fs) by done.
  cbn [mbind outcome_bind].
  rewrite (without_extension_candidate fs) by done.
  unfold is_regular_file, complete.
  destruct (max_iter <? digits_value 0 digits); [|done]. cbn [andb].
  rewrite bool_decide_and. by destruct (_ && _).
Qed.

Lemma consider_best seen acc dir digits :
  candidate fs stem dir digits -> best_so_far seen acc ->
  exists acc', consider fs acc (solverstate_of dir stem digits) = Done acc'
    /\ best_so_far (fun f => seen f \/ f = solverstate_of dir stem digits) acc'.
Proof.
  intros Hc Hinv. destruct acc as [max_iter latest].
  rewrite consider_candidate by done. eexists. split; [reflexivity|].
  pose proof (digits_value_nonneg digits 0 ltac:(lia)) as Hpos.
  destruct Hinv as [[[= -> ->] Hnone]|(dir0 & digits0 & [= -> ->] & Hc0 & Hk0 & Hmax)].
  - destruct (Z.ltb_spec (-1) (digits_value 0 digits)); [|lia]. cbn [andb].
    destruct (bool_decide_reflect (complete fs (tag dir stem digits))) as [Hk|Hk].
    + right. exists dir, digits. do 3 (split; [done|]).
      intros dir' digits' [Hs|E] Hc' Hk'; [by destruct (Hnone dir' digits')|].
      destruct (candidate_unique _ _ _ _ _ _ Hc' Hc E) as [-> ->]. lia.
    + left. split; [done|]. intros dir' digits' [Hs|E] Hc'; [by apply (Hnone dir' digits')|].
      by destruct (candidate_unique _ _ _ _ _ _ Hc' Hc E) as [-> ->].
  - destruct (Z.ltb_spec (digits_value 0 digits0) (digits_value 0 digits)) as [Hlt|Hge];
      cbn [andb].
    + destruct (bool_decide_reflect (complete fs (tag dir stem digits))) as [Hk|Hk].
      * right. exists dir, digits. do 3 (split; [done|]).
        intros dir' digits' [Hs|E] Hc' Hk'.
        -- specialize (Hmax dir' digits' Hs Hc' Hk'). lia.
        -- destruct (candidate_unique _ _ _ _ _ _ Hc' Hc E) as [-> ->]. lia.
      * right. exists dir0, digits0. do 3 (split; [done|]).
        intros dir' digits' [Hs|E] Hc' Hk'; [by apply (Hmax dir' digits')|].
        by destruct (candidate_unique _ _ _ _ _ _ Hc' Hc E) as [-> ->].
    + right. exists dir0, digits0. do 3 (split; [done|]).
      intros dir' digits' [Hs|E] Hc' Hk'; [by apply (Hmax dir' digits')|].
      destruct (candidate_unique _ _ _ _ _ _ Hc' Hc E) as [-> ->]. lia.
Qed.

Lemma for_each_consider l : forall seen acc,
  (forall f, f ∈ l -> exists dir digits,
      f = solverstate_of dir stem digits /\ candidate fs stem dir digits) ->
  best_so_far seen acc ->
  exists acc', for_each (consider fs) l acc = Done acc'
    /\ best_so_far (fun f => seen f \/ f ∈ l) acc'.
Proof.
  induction l as [|f l IH]; intros seen acc Hl Hinv.
  - exists acc. split; [done|]. eapply best_so_far_ext; [|done].
    intros g [?|Hg]; [done|by inversion Hg].
  - destruct (Hl f) as (dir & digits & -> & Hc); [by left|].
    destruct (consider_best seen acc dir digits Hc Hinv) as (acc1 & E1 & Hinv1).
    destruct (IH _ acc1 (fun g Hg => Hl g (list_elem_of_further _ _ _ Hg)) Hinv1)
      as (acc2 & E2 & Hinv2).
    exists acc2. cbn [for_each]. rewrite E1. cbn [mbind outcome_bind].
    split; [done|]. eapply best_so_far_ext; [|done].
    intros g [?|Hg]; [by left; left|].
    inversion Hg; subst; [by left; right|by right].
Qed.

End Discovery.

(** C5 (as amended): for a prefix whose file name has no regular
    expression metacharacter, FindLatestSnapshot returns; what it returns
    is the solver state [prefix_iter_<N>.solverstate] of a tag whose three
    artifacts all exist and whose iteration [N] is the highest among the
    tags with all three artifacts, and it is the empty string when no tag
    has all three.  File names are shorter than 2^32 characters and the
    iteration numbers of the solver states are [int]s, as the solver
    writes them. *)
Theorem FindLatestSnapshot_highest_complete `{RegexLaws} fs snapshot_prefix :
  let stem := path_filename snapshot_prefix in
  literal stem ->
  (forall f, f ∈ fs -> Z.of_nat (length f) < 4294967296) ->
  (forall dir digits, candidate fs stem dir digits -> digits_value 0 digits <= INT_MAX) ->
  exists latest, FindLatestSnapshot fs snapshot_prefix = Done latest
    /\ ((latest = [] /\
         forall dir digits, candidate fs stem dir digits ->
           ~ complete fs (tag dir stem digits))
        \/ (exists dir digits,
              latest = tag dir stem digits ++ str ".solverstate"
              /\ candidate fs stem dir digits
              /\ complete fs (tag dir stem digits)
              /\ forall dir' digits', candidate fs stem dir' digits' ->
                   complete fs (tag dir' stem digits') ->
                   digits_value 0 digits' <= digits_value 0 digits)).
Proof.
  intros stem Hlit Hlen Hint. unfold FindLatestSnapshot.
  rewrite FilesMatchingRegexp_solverstate by done.
  destruct (for_each_consider fs stem Hlen Hint
              (snapshot_files fs snapshot_prefix (str "solverstate"))
              (fun _ => False) (-1, []))
    as ([max_iter latest] & E & Hinv).
  - intros f Hf. by apply matching_candidate in Hf.
  - left. split; [done|]. intros ? ? [].
  - rewrite E. cbn [mbind outcome_bind]. exists latest. split; [done|].
    assert (Hseen : forall dir digits, candidate fs stem dir digits ->
              False \/ solverstate_of dir stem digits
                       ∈ snapshot_files fs snapshot_prefix (str "solverstate")).
    { intros dir digits Hc. right. apply matching_candidate. by exists dir, digits. }
    destruct Hinv as [[[= -> ->] Hnone]|(dir & digits & [= -> ->] & Hc & Hk & Hmax)].
    + left. split; [done|]. intros dir digits Hc. apply (Hnone dir digits); [by apply Hseen|done].
    + right. exists dir, digits. do 3 (split; [done|]).
      intros dir' digits' Hc' Hk'. apply (Hmax dir' digits'); [by apply Hseen|done|done].
Qed.

(** The iteration number read off a matching file name. *)
Definition iteration_of (stem f : text) : Z :=
  digits_value 0 (fst (span_digits (drop (length stem + 6) (path_filename f)))).

Lemma iteration_of_candidate fs stem dir digits :
  candidate fs stem dir digits ->
  iteration_of stem (solverstate_of dir stem digits) = digits_value 0 digits.
Proof.
  intros ((_ & Hds) & _ & Hname). unfold iteration_of.
  fold (solverstate_of dir stem digits) in Hname. rewrite Hname.
  replace (stem ++ str "_iter_" ++ digits ++ str ".solverstate")
    with ((stem ++ str "_iter_") ++ digits ++ str ".solverstate")
    by (by rewrite <- !app_assoc).
  rewrite drop_app_length' by (rewrite length_app; simpl; lia).
  by rewrite span_digits_app.
Qed.

Lemma int_iterations_by_listing fs snapshot_prefix :
  Forall (fun f => iteration_of (path_filename snapshot_prefix) f <= INT_MAX)
    (snapshot_files fs snapshot_prefix (str "solverstate")) ->
  forall dir digits, candidate fs (path_filename snapshot_prefix) dir digits ->
    digits_value 0 digits <= INT_MAX.
Proof.
  intros Hall dir digits Hc. rewrite Forall_forall in Hall.
  rewrite <- (iteration_of_candidate fs _ dir) by done.
  apply Hall. apply matching_candidate. by exists dir, digits.
Qed.

(** The scenario of the specification: iteration 10 has its three
    artifacts, iteration 20 lacks the replay memory. *)
Definition listing_10_20 : list text :=
  map str ["/run/dqn_iter_20.solverstate"; "/run/dqn_iter_20.caffemodel";
           "/run/dqn_iter_10.caffemodel"; "/run/dqn_iter_10.solverstate";
           "/run/dqn_iter_10.replaymemory"]%string.

(** *** A matcher to run the examples

    It serves the expressions of this file: a pattern is cut at its
    first [_iter_[0-9]+\.], and what precedes is taken as a literal
    stem. *)
Definition marker : text := str "_iter_[0-9]+\.".

Fixpoint split_marker (pattern : text) : option (text * text) :=
  match strip_prefix marker pattern with
  | Some rest => Some ([], rest)
  | None =>
      match pattern with
      | [] => None
      | c :: pattern' =>
          match split_marker pattern' with
          | Some (stem, rest) => Some (c :: stem, rest)
          | None => None
          end
      end
  end.

Definition sample_regex : Regex := {|
  regex_match := fun pattern name =>
    match split_marker pattern with
    | Some (stem, rest) =>
        if bool_decide (rest = str "(caffemodel|solverstate|replaymemory)")
        then regex_match_artifact stem name
        else regex_match_snapshot stem rest name
    | None => bool_decide (pattern = name)
    end
|}.

Lemma split_marker_unfold pattern :
  split_marker pattern
  = match strip_prefix marker pattern with
    | Some rest => Some ([], rest)
    | None =>
        match pattern with
        | [] => None
        | c :: pattern' =>
            match split_marker pattern' with
            | Some (stem, rest) => Some (c :: stem, rest)
            | None => None
            end
        end
    end.
Proof. by destruct pattern. Qed.

Lemma split_marker_literal stem rest :
  literal stem -> split_marker (stem ++ marker ++ rest) = Some (stem, rest).
Proof.
  induction 1 as [|c stem Hc Hlit IH]; rewrite split_marker_unfold.
  - assert (E : strip_prefix marker ([] ++ marker ++ rest) = Some rest)
      by (by apply strip_prefix_Some).
    by rewrite E.
  - destruct (strip_prefix marker ((c :: stem) ++ marker ++ rest)) as [r|] eqn:E.
    + exfalso. apply strip_prefix_Some in E.
      assert (H6 : ((c :: stem) ++ marker ++ rest) !! 6%nat = Some "["%char)
        by (by rewrite E).
      destruct (decide (6 < length (c :: stem))%nat) as [Hlt|Hge].
      * rewrite lookup_app_l in H6 by done. apply list_elem_of_lookup_2 in H6.
        assert (Hall : literal (c :: stem)) by (by constructor).
        unfold literal in Hall. rewrite Forall_forall in Hall.
        specialize (Hall _ H6). vm_compute in Hall. discriminate.
      * rewrite lookup_app_r in H6 by lia.
        assert (Hm : (6 - length (c :: stem) < 6)%nat) by (cbn [length]; lia).
        rewrite lookup_app_l in H6 by (change (length marker) with 14%nat; lia).
        destruct (6 - length (c :: stem))%nat as [|[|[|[|[|[|n]]]]]];
          try (vm_compute in H6; discriminate). lia.
    + cbn [app] in *. by rewrite IH.
Qed.

Lemma sample_regex_laws : @RegexLaws sample_regex.
Proof.
  split; intros stem name Hlit; cbn [regex_match sample_regex].
  - change (str "_iter_[0-9]+\.solverstate") with (marker ++ str "solverstate").
    rewrite split_marker_literal by done.
    by rewrite bool_decide_eq_false_2 by discriminate.
  - change (str "_iter_[0-9]+\.(caffemodel|solverstate|replaymemory)")
      with (marker ++ str "(caffemodel|solverstate|replaymemory)").
    rewrite split_marker_literal by done.
    by rewrite bool_decide_eq_true_2 by done.
Qed.

#[local] Existing Instances sample_regex sample_regex_laws.

Lemma dqn_literal : literal (path_filename (str "/run/dqn")).
Proof. repeat constructor. Qed.

Lemma FindLatestSnapshot_highest_complete_witness :
  let fs := listing_10_20 in
  let stem := path_filename (str "/run/dqn") in
  literal stem /\
  (forall f, f ∈ fs -> Z.of_nat (length f) < 4294967296) /\
  (forall dir digits, candidate fs stem dir digits -> digits_value 0 digits <= INT_MAX) /\
  exists latest, FindLatestSnapshot fs (str "/run/dqn") = Done latest
    /\ ((latest = [] /\
         forall dir digits, candidate fs stem dir digits ->
           ~ complete fs (tag dir stem digits))
        \/ (exists dir digits,
              latest = tag dir stem digits ++ str ".solverstate"
              /\ candidate fs stem dir digits
              /\ complete fs (tag dir stem digits)
              /\ forall dir' digits', candidate fs stem dir' digits' ->
                   complete fs (tag dir' stem digits') ->
                   digits_value 0 digits' <= digits_value 0 digits)).
Proof.
  intros fs stem.
  assert (H1 : forall f, f ∈ fs -> Z.of_nat (length f) < 4294967296).
  { apply Forall_forall. repeat constructor. }
  assert (H2 : forall dir digits, candidate fs stem dir digits ->
                 digits_value 0 digits <= INT_MAX).
  { apply int_iterations_by_listing.
    assert (E : snapshot_files fs (str "/run/dqn") (str "solverstate")
                = map str ["/run/dqn_iter_20.solverstate";
                           "/run/dqn_iter_10.solverstate"]%string)
      by (vm_compute; reflexivity).
    rewrite E. repeat constructor; vm_compute; discriminate. }
  split; [exact dqn_literal|]. split; [exact H1|]. split; [exact H2|].
  exact (FindLatestSnapshot_highest_complete fs (str "/run/dqn") dqn_literal H1 H2).
Defined.

(** C5 as stated fails when a solver state carries an iteration number
    that is no [int]: [std::stoi] throws [std::out_of_range], and the
    complete snapshot of iteration 10 is not returned. *)
Lemma FindLatestSnapshot_out_of_range :
  let fs := map str ["/run/dqn_iter_10.solverstate"; "/run/dqn_iter_10.caffemodel";
                     "/run/dqn_iter_10.replaymemory";
                     "/run/dqn_iter_99999999999.solverstate"]%string in
  complete fs (str "/run/dqn_iter_10")
  /\ str "/run/dqn_iter_10.solverstate" ∈ fs
  /\ FindLatestSnapshot fs (str "/run/dqn") = Fatal (Thrown out_of_range)
  /\ ~ (exists latest, FindLatestSnapshot fs (str "/run/dqn") = Done latest).
Proof.
  cbv zeta.
  assert (E : FindLatestSnapshot
                (map str ["/run/dqn_iter_10.solverstate"; "/run/dqn_iter_10.caffemodel";
                          "/run/dqn_iter_10.replaymemory";
                          "/run/dqn_iter_99999999999.solverstate"]%string)
                (str "/run/dqn") = Fatal (Thrown out_of_range))
    by (vm_compute; reflexivity).
  split; [split; apply (bool_decide_unpack _); vm_compute; exact I|].
  split; [apply (bool_decide_unpack _); vm_compute; exact I|].
  split; [exact E|]. intros [latest Hl]. rewrite E in Hl. discriminate.
Qed.

Example FindLatestSnapshot_10_20 :
  FindLatestSnapshot listing_10_20 (str "/run/dqn") = Done (str "/run/dqn_iter_10.solverstate")
  /\ FindLatestSnapshot (map str ["/run/dqn_iter_20.solverstate"]%string) (str "/run/dqn")
     = Done [].
Proof. split; by vm_compute. Qed.

(** *** ParseIterFromSnapshot on any name *)

(** The characters ParseIterFromSnapshot hands to [std::stoi]: what lies
    between the last underscore and the last dot.  Without an underscore
    [start + 1] wraps around to 0; without a dot after the underscore
    the length wraps around to a number larger than the string, and
    [substr] stops at its end. *)
Definition segment (snapshot : text) : text :=
  match find_last "_" snapshot, find_last "." snapshot with
  | Some i, Some e =>
      if (i <? e)%nat then take (e - i - 1) (drop (S i) snapshot) else drop (S i) snapshot
  | Some i, None => drop (S i) snapshot
  | None, Some e => take e snapshot
  | None, None => snapshot
  end.

Lemma find_last_lt c s i : find_last c s = Some i -> (i < length s)%nat.
Proof. intros E. apply find_last_Some in E as [E _]. by eapply lookup_lt_Some. Qed.

(** X10: ParseIterFromSnapshot never fails in [substr]; on every name
    shorter than 2^32 characters it is [std::stoi] of the segment
    between the last underscore and the last dot, with the whole tail or
    the whole head taken when one of the two is missing or they come in
    the other order. *)
Theorem ParseIterFromSnapshot_segment snapshot :
  Z.of_nat (length snapshot) < 4294967296 ->
  ParseIterFromSnapshot snapshot = stoi (segment snapshot).
Proof.
  intros Hlen. unfold ParseIterFromSnapshot, find_last_of, segment, substr, npos.
  destruct (find_last "_" snapshot) as [i|] eqn:Ei;
    destruct (find_last "." snapshot) as [e|] eqn:Ee;
    try (pose proof (find_last_lt _ _ _ Ei) as Hi);
    try (pose proof (find_last_lt _ _ _ Ee) as He).
  - rewrite (to_unsigned_small (Z.of_nat i)) by lia.
    rewrite (to_unsigned_small (Z.of_nat e)) by lia.
    rewrite (to_unsigned_small (Z.of_nat i + 1)) by lia.
    destruct (Z.ltb_spec (Z.of_nat (length snapshot)) (Z.of_nat i + 1)); [lia|].
    cbn [mbind outcome_bind].
    replace (Z.to_nat (Z.of_nat i + 1)) with (S i) by lia.
    destruct (Nat.ltb_spec i e).
    + rewrite to_unsigned_small by lia. do 2 f_equal. lia.
    + assert (Ew : to_unsigned (Z.of_nat e - Z.of_nat i - 1)
                   = 4294967296 + (Z.of_nat e - Z.of_nat i - 1)).
      { unfold to_unsigned.
        rewrite <- (Z.mod_add _ 1) by lia. rewrite Z.mul_1_l, Z.mod_small; lia. }
      rewrite Ew. f_equal. apply take_ge. rewrite length_drop. lia.
  - rewrite (to_unsigned_small (Z.of_nat i)) by lia.
    change (to_unsigned 18446744073709551615) with 4294967295.
    rewrite (to_unsigned_small (Z.of_nat i + 1)) by lia.
    destruct (Z.ltb_spec (Z.of_nat (length snapshot)) (Z.of_nat i + 1)); [lia|].
    cbn [mbind outcome_bind].
    replace (Z.to_nat (Z.of_nat i + 1)) with (S i) by lia.
    rewrite to_unsigned_small by lia. f_equal. apply take_ge. rewrite length_drop. lia.
  - change (to_unsigned 18446744073709551615) with 4294967295.
    change (to_unsigned (4294967295 + 1)) with 0.
    rewrite (to_unsigned_small (Z.of_nat e)) by lia.
    destruct (Z.ltb_spec (Z.of_nat (length snapshot)) 0); [lia|].
    cbn [mbind outcome_bind]. rewrite drop_0.
    assert (Ew : to_unsigned (Z.of_nat e - 4294967295 - 1) = Z.of_nat e).
    { unfold to_unsigned.
      rewrite <- (Z.mod_add _ 1) by lia. rewrite Z.mul_1_l, Z.mod_small; lia. }
    rewrite Ew. do 2 f_equal. lia.
  - change (to_unsigned 18446744073709551615) with 4294967295.
    change (to_unsigned (4294967295 + 1)) with 0.
    change (to_unsigned (4294967295 - 4294967295 - 1)) with 4294967295.
    destruct (Z.ltb_spec (Z.of_nat (length snapshot)) 0); [lia|].
    cbn [mbind outcome_bind]. rewrite drop_0. f_equal. apply take_ge. lia.
Qed.

Lemma ParseIterFromSnapshot_segment_witness :
  ParseIterFromSnapshot (str "dqn.v2_iter_10") = stoi (segment (str "dqn.v2_iter_10")).
Proof. apply ParseIterFromSnapshot_segment. vm_compute. reflexivity. Defined.

(** A name without underscore and dot is read whole; one whose segment
    does not start with a number throws. *)
Example ParseIterFromSnapshot_edges :
  ParseIterFromSnapshot (str "42") = Done 42
  /\ ParseIterFromSnapshot (str "dqn.v2_iter_10") = Done 10
  /\ ParseIterFromSnapshot (str "7.solverstate") = Done 7
  /\ ParseIterFromSnapshot (str "model.solverstate") = Fatal (Thrown invalid_argument)
  /\ ParseIterFromSnapshot (str "dqn_iter_99999999999.solverstate")
     = Fatal (Thrown out_of_range).
Proof. repeat split; reflexivity. Qed.

(** *** RemoveSnapshots *)


(** [boost::filesystem::remove]. *)
Definition remove (fs : list text) (f : text) : list text := filter (fun p => p <> f) fs.

(** Body of the loop of [RemoveSnapshots]:
<<
    int iter = ParseIterFromSnapshot(f);
    if (iter < min_iter) {
      CHECK(boost::filesystem::is_regular_file(f));
      boost::filesystem::remove(f);
    }
>> *)
Definition remove_outdated (min_iter : Z) (fs : list text) (f : text) : outcome (list text) :=
  iter ← ParseIterFromSnapshot f;
  if iter <? min_iter then
    _ ← CHECK (is_regular_file fs f);
    Done (remove fs f)
  else Done fs.

(**
<<
  std::string regexp(snapshot_prefix +
                     "_iter_[0-9]+\\.(caffemodel|solverstate|replaymemory)");
  for (const std::string& f : FilesMatchingRegexp(regexp)) { ... }
>> *)
Definition RemoveSnapshots `{Regex} (fs : list text) (snapshot_prefix : text) (min_iter : Z)
  : outcome (list text) :=
  let regexp :=
    snapshot_prefix ++ str "_iter_[0-9]+\.(caffemodel|solverstate|replaymemory)" in
  for_each (remove_outdated min_iter) (FilesMatchingRegexp fs regexp) fs.

(** The files RemoveSnapshots deletes. *)
Definition outdated (stem : text) (min_iter : Z) (p : text) : Prop :=
  regex_match_artifact stem (path_filename p) = true /\ iteration_of stem p < min_iter.

Lemma artifact_shape stem p :
  regex_match_artifact stem (path_filename p) = true ->
  exists dir digits ext,
    all_digits digits
    /\ p = (dir ++ stem ++ str "_iter") ++ "_"%char :: digits ++ "."%char :: ext
    /\ path_filename p = (stem ++ str "_iter_") ++ digits ++ "."%char :: ext
    /\ ("_"%char ∉ digits ++ "."%char :: ext) /\ ("."%char ∉ ext).
Proof.
  unfold regex_match_artifact. intros Hm.
  destruct (path_filename_suffix p) as [dir Hp].
  assert (Hext : exists ext, regex_match_snapshot stem ext (path_filename p) = true
                   /\ ("_"%char ∉ ext) /\ ("."%char ∉ ext)).
  { apply orb_prop in Hm as [Hm|Hm]; [apply orb_prop in Hm as [Hm|Hm]|];
      eexists; (split; [exact Hm|]); rewrite !list_elem_of_In;
      vm_compute; intuition discriminate. }
  destruct Hext as (ext & Hm' & Hu & Hd).
  apply regex_match_snapshot_true in Hm' as (digits & Hds & Hname).
  exists dir, digits, ext. split; [done|]. split; [|split; [|split; [|done]]].
  - rewrite Hp at 1. rewrite Hname. by rewrite <- !app_assoc.
  - rewrite Hname. by rewrite <- !app_assoc.
  - apply not_in_digits; [done|apply Hds|].
    intros Hin. inversion Hin; subst; done.
Qed.

Lemma ParseIterFromSnapshot_artifact stem p :
  regex_match_artifact stem (path_filename p) = true ->
  Z.of_nat (length p) < 4294967296 ->
  iteration_of stem p <= INT_MAX ->
  ParseIterFromSnapshot p = Done (iteration_of stem p).
Proof.
  intros Hm Hlen Hmax.
  destruct (artifact_shape stem p Hm) as (dir & digits & ext & Hds & Hp & Hname & Hu & Hd).
  assert (Hit : iteration_of stem p = digits_value 0 digits).
  { unfold iteration_of. rewrite Hname.
    rewrite drop_app_length' by (rewrite length_app; simpl; lia).
    rewrite span_digits_app; [done|apply Hds|done]. }
  rewrite Hit in *. rewrite Hp in Hlen |- *.
  rewrite ParseIterFromSnapshot_shape by done. by apply stoi_digits.
Qed.

Lemma remove_filter (P : text -> Prop) `{!forall p, Decision (P p)} fs f :
  remove (filter P fs) f = filter (fun p => P p /\ p <> f) fs.
Proof.
  unfold remove. rewrite list_filter_filter. apply list_filter_iff. tauto.
Qed.

Lemma remove_outdated_step min_iter fs f iter :
  ParseIterFromSnapshot f = Done iter -> f ∈ fs ->
  remove_outdated min_iter fs f = Done (if iter <? min_iter then remove fs f else fs).
Proof.
  intros Hparse Hin. unfold remove_outdated. rewrite Hparse. cbn [mbind outcome_bind].
  destruct (iter <? min_iter); [|done].
  unfold is_regular_file. by rewrite bool_decide_eq_true_2.
Qed.

(** One pass over the matching files. *)
Lemma RemoveSnapshots_loop stem min_iter fs l : forall gone : list text,
  NoDup l ->
  (forall f, f ∈ l -> (f ∈ fs) /\ (f ∉ gone)
     /\ ParseIterFromSnapshot f = Done (iteration_of stem f)) ->
  for_each (remove_outdated min_iter) l (filter (fun p => p ∉ gone) fs)
  = Done (filter (fun p => (p ∉ gone) /\ ~ ((p ∈ l) /\ iteration_of stem p < min_iter)) fs).
Proof.
  induction l as [|f l IH]; intros gone Hnd Hl.
  - cbn. f_equal. apply list_filter_iff. intros p. split; [|tauto].
    intros Hp. split; [done|]. intros [Hin _]. by inversion Hin.
  - inversion Hnd as [|? ? Hf Hnd']; subst.
    destruct (Hl f) as (Hin & Hgone & Hparse); [by left|].
    cbn [for_each].
    rewrite (remove_outdated_step _ _ _ _ Hparse) by (apply list_elem_of_filter; done).
    cbn [mbind outcome_bind].
    destruct (Z.ltb_spec (iteration_of stem f) min_iter) as [Hlt|Hge].
    + rewrite remove_filter.
      rewrite (list_filter_iff _ (fun p => p ∉ f :: gone) fs)
        by (intros p; rewrite not_elem_of_cons; tauto).
      rewrite IH; [|done|].
      * f_equal. apply list_filter_iff. intros p. rewrite not_elem_of_cons.
        split.
        -- intros [[Hne Hg] Hno]. split; [done|]. intros [Hp Hit].
           inversion Hp; subst; [done|]. apply Hno. done.
        -- intros [Hg Hno]. split; [split; [|done]|].
           ++ intros ->. apply Hno. split; [by left|done].
           ++ intros [Hp Hit]. apply Hno. split; [by right|done].
      * intros g Hg. destruct (Hl g) as (? & ? & ?); [by right|].
        split; [done|]. split; [|done]. rewrite not_elem_of_cons. split; [|done].
        intros ->. done.
    + rewrite IH; [|done|].
      * f_equal. apply list_filter_iff. intros p. split.
        -- intros [Hg Hno]. split; [done|]. intros [Hp Hit].
           inversion Hp; subst; [lia|]. apply Hno. done.
        -- intros [Hg Hno]. split; [done|]. intros [Hp Hit]. apply Hno.
           split; [by right|done].
      * intros g Hg. apply Hl. by right.
Qed.

Lemma filter_keeps_all (P : text -> Prop) `{!forall p, Decision (P p)} (fs : list text) :
  (forall p, p ∈ fs -> P p) -> filter P fs = fs.
Proof.
  induction fs as [|p fs IH]; intros Hall; [done|].
  rewrite filter_cons_True by (apply Hall; by left).
  f_equal. apply IH. intros q Hq. apply Hall. by right.
Qed.

Lemma filter_iff_elem (P Q : text -> Prop) `{!forall p, Decision (P p)}
    `{!forall p, Decision (Q p)} (fs : list text) :
  (forall p, p ∈ fs -> P p <-> Q p) -> filter P fs = filter Q fs.
Proof.
  induction fs as [|p fs IH]; intros Hiff; [done|].
  rewrite !filter_cons.
  rewrite IH by (intros q Hq; apply Hiff; by right).
  destruct (decide (P p)) as [Hp|Hp], (decide (Q p)) as [Hq|Hq]; try done;
    exfalso; apply (Hiff p) in Hp || apply (Hiff p) in Hq; try done; by left.
Qed.

Lemma RemoveSnapshots_filter `{RegexLaws} fs snapshot_prefix min_iter :
  let stem := path_filename snapshot_prefix in
  literal stem ->
  NoDup fs ->
  (forall f, f ∈ fs -> Z.of_nat (length f) < 4294967296) ->
  (forall f, f ∈ fs -> regex_match_artifact stem (path_filename f) = true ->
     iteration_of stem f <= INT_MAX) ->
  RemoveSnapshots fs snapshot_prefix min_iter
  = Done (filter (fun p => ~ outdated stem min_iter p) fs).
Proof.
  intros stem Hlit Hnd Hlen Hint. unfold RemoveSnapshots.
  rewrite FilesMatchingRegexp_artifacts by done.
  pose proof (RemoveSnapshots_loop stem min_iter fs
                (artifact_files fs snapshot_prefix) []) as Hloop.
  rewrite (filter_keeps_all (fun p => p ∉ []) fs) in Hloop
    by (intros p _ Hin; inversion Hin).
  rewrite Hloop.
  - f_equal. apply filter_iff_elem. intros p Hin. unfold outdated, artifact_files.
    fold stem. split.
    + intros [_ Hno] [Hm Hit]. apply Hno. split; [|done]. by apply list_elem_of_filter.
    + intros Hno. split; [intros Hx; inversion Hx|].
      intros [Hl Hit]. apply list_elem_of_filter in Hl as [Hm _]. by apply Hno.
  - by apply NoDup_filter.
  - intros f Hf. unfold artifact_files in Hf.
    apply list_elem_of_filter in Hf as [Hm Hin]. split; [done|].
    split; [intros Hx; inversion Hx|].
    apply ParseIterFromSnapshot_artifact; [done|by apply Hlen|by apply Hint].
Qed.

(** X11: for a prefix whose file name has no regular expression
    metacharacter, RemoveSnapshots deletes exactly the files of the
    directory whose name is an artifact of the prefix (a caffemodel,
    solverstate or replaymemory file) with an iteration below
    [min_iter]; every other file stays, in place. *)
Theorem RemoveSnapshots_outdated `{RegexLaws} fs snapshot_prefix min_iter :
  let stem := path_filename snapshot_prefix in
  literal stem ->
  NoDup fs ->
  (forall f, f ∈ fs -> Z.of_nat (length f) < 4294967296) ->
  (forall f, f ∈ fs -> regex_match_artifact stem (path_filename f) = true ->
     iteration_of stem f <= INT_MAX) ->
  RemoveSnapshots fs snapshot_prefix min_iter
  = Done (filter (fun p => ~ outdated stem min_iter p) fs).
Proof. exact (RemoveSnapshots_filter fs snapshot_prefix min_iter). Qed.

Lemma listing_10_20_ok :
  NoDup listing_10_20
  /\ (forall f, f ∈ listing_10_20 -> Z.of_nat (length f) < 4294967296)
  /\ (forall f, f ∈ listing_10_20 ->
        regex_match_artifact (path_filename (str "/run/dqn")) (path_filename f) = true ->
        iteration_of (path_filename (str "/run/dqn")) f <= INT_MAX).
Proof.
  split; [|split].
  - apply (bool_decide_unpack _). vm_compute. exact I.
  - apply Forall_forall. repeat constructor.
  - intros f Hf _. revert f Hf. apply Forall_forall.
    repeat constructor; vm_compute; discriminate.
Qed.

Lemma RemoveSnapshots_outdated_witness :
  literal (path_filename (str "/run/dqn")) /\
  RemoveSnapshots listing_10_20 (str "/run/dqn") 20
  = Done (filter (fun p => ~ outdated (path_filename (str "/run/dqn")) 20 p) listing_10_20).
Proof.
  split; [exact dqn_literal|].
  apply RemoveSnapshots_outdated; [exact dqn_literal|apply listing_10_20_ok..].
Defined.

Example RemoveSnapshots_10_20 :
  RemoveSnapshots listing_10_20 (str "/run/dqn") 20
  = Done (map str ["/run/dqn_iter_20.solverstate"; "/run/dqn_iter_20.caffemodel"]%string).
Proof. vm_compute. reflexivity. Qed.

(** X12: for a prefix whose file name has no regular expression
    metacharacter, after RemoveSnapshots with bound [min_iter],
    FindLatestSnapshot finds nothing or a solver state of an iteration
    that is at least [min_iter]. *)
Theorem FindLatestSnapshot_after_RemoveSnapshots `{RegexLaws} fs snapshot_prefix min_iter :
  let stem := path_filename snapshot_prefix in
  literal stem ->
  NoDup fs ->
  (forall f, f ∈ fs -> Z.of_nat (length f) < 4294967296) ->
  (forall f, f ∈ fs -> regex_match_artifact stem (path_filename f) = true ->
     iteration_of stem f <= INT_MAX) ->
  exists fs' latest,
    RemoveSnapshots fs snapshot_prefix min_iter = Done fs'
    /\ FindLatestSnapshot fs' snapshot_prefix = Done latest
    /\ (latest = []
        \/ (latest ∈ fs) /\ ParseIterFromSnapshot latest = Done (iteration_of stem latest)
           /\ min_iter <= iteration_of stem latest).
Proof.
  intros stem Hlit Hnd Hlen Hint.
  set (fs' := filter (fun p => ~ outdated stem min_iter p) fs).
  exists fs'. 
  assert (Hsub : forall f, f ∈ fs' -> (f ∈ fs) /\ ~ outdated stem min_iter f).
  { intros f Hf. apply list_elem_of_filter in Hf. tauto. }
  assert (Hart : forall dir digits, candidate fs' stem dir digits ->
            regex_match_artifact stem (path_filename (solverstate_of dir stem digits)) = true).
  { intros dir digits (Hd & _ & Hname). unfold regex_match_artifact.
    fold (solverstate_of dir stem digits) in Hname. rewrite Hname.
    rewrite (regex_match_snapshot_digits stem (str "solverstate")) by done.
    by rewrite orb_true_r. }
  assert (Hint' : forall dir digits, candidate fs' stem dir digits ->
            digits_value 0 digits <= INT_MAX).
  { intros dir digits Hc. rewrite <- (iteration_of_candidate fs' stem dir) by done.
    apply Hint; [|by apply Hart]. apply Hsub, Hc. }
  destruct (for_each_consider fs' stem (fun f Hf => Hlen f (proj1 (Hsub f Hf))) Hint'
              (snapshot_files fs' snapshot_prefix (str "solverstate"))
              (fun _ => False) (-1, []))
    as ([max_iter latest] & E & Hbest).
  - intros f Hf. by apply matching_candidate in Hf.
  - left. split; [done|]. intros ? ? [].
  - exists latest. split; [by apply RemoveSnapshots_filter|].
    unfold FindLatestSnapshot. rewrite FilesMatchingRegexp_solverstate by done.
    rewrite E. cbn [mbind outcome_bind]. split; [done|].
    destruct Hbest as [[[= -> ->] _]|(dir & digits & [= -> ->] & Hc & _)]; [by left|].
    right. pose proof Hc as (_ & Hin & _).
    fold (solverstate_of dir stem digits) in Hin.
    destruct (Hsub _ Hin) as [Hfs Hkeep]. split; [done|].
    assert (Hm := Hart dir digits Hc). split.
    + apply ParseIterFromSnapshot_artifact; [done|by apply Hlen|by apply Hint].
    + destruct (Z.le_gt_cases min_iter (iteration_of stem (solverstate_of dir stem digits)))
        as [|Hlt]; [done|].
      exfalso. apply Hkeep. split; [done|lia].
Qed.

Lemma FindLatestSnapshot_after_RemoveSnapshots_witness :
  literal (path_filename (str "/run/dqn")) /\
  exists fs' latest,
    RemoveSnapshots listing_10_20 (str "/run/dqn") 5 = Done fs'
    /\ FindLatestSnapshot fs' (str "/run/dqn") = Done latest
    /\ (latest = []
        \/ (latest ∈ listing_10_20)
           /\ ParseIterFromSnapshot latest
              = Done (iteration_of (path_filename (str "/run/dqn")) latest)
           /\ 5 <= iteration_of (path_filename (str "/run/dqn")) latest).
Proof.
  split; [exact dqn_literal|].
  apply FindLatestSnapshot_after_RemoveSnapshots; [exact dqn_literal|apply listing_10_20_ok..].
Defined.

End Snapshots.

(** ** Action selection and the training updates *)

Module Agent.

Abbreviation InputFrames := (list (list byte)) (only parsing).
Abbreviation InputFramesBatch := (list (list (list byte))) (only parsing).
Abbreviation ActionValue := (Z * float32)%type (only parsing).

(** [caffe::Blob::offset(n, c, h, w)] for a blob with the given
    channels, height and width. *)
Definition offset (channels height width : Z) (n c h w : Z) : Z :=
  ((n * channels + c) * height + h) * width + w.

(** The constant members of [DQN]. *)
Record Config := mkConfig {
  unroll_ : Z;
  minibatch_size_ : Z;
  frames_per_timestep_ : Z;
  legal_actions_ : list Action;
  replay_memory_capacity_ : Z;
  gamma_ : float;
  clone_frequency_ : Z
}.

Definition frames_per_forward_ (cfg : Config) : Z :=
  unroll_ cfg + frames_per_timestep_ cfg - 1.

(** The numeric engine, as far as this file uses it.  A [Net] holds the
    parameters and the recurrent state; [ForwardPrefilled] reads the two
    staging buffers handed to the memory data layers and yields
    [q_values_blob->data_at(0, i, a, 0)].  The solver owns the training
    net and the test net that shares its parameters. *)
Class Caffe := {
  Net : Type;
  Solver : Type;
  ForwardPrefilled : Net -> list float32 -> list float32 -> Net * (Z -> Z -> float32);
  Step : Solver -> list float32 -> list float32 -> list float32 -> list float32 -> Solver;
  solver_iter : Solver -> Z;
  loss_ok : Solver -> bool;
  get_test_net : Solver -> Net;
  set_test_net : Solver -> Net -> Solver;
  CopyTrainedLayers : Net -> option Net -> Net
}.

(** The two sources of randomness: the [std::mt19937] member behind the
    two distributions, and the C library generator behind
    [std::random_shuffle]. *)
Class Random := {
  RandomEngine : Type;
  LibcRand : Type;
  uniform_real : RandomEngine -> float * RandomEngine;
  uniform_int : Z -> Z -> RandomEngine -> Z * RandomEngine;
  random_shuffle : list Z -> LibcRand -> list Z * LibcRand
}.

(** What the standard promises of them. *)
Class RandomLaws `{Random} := {
  uniform_real_range : forall g,
    (0 <=? fst (uniform_real g))%float = true /\ (fst (uniform_real g) <? 1)%float = true;
  uniform_int_range : forall a b g, a <= b -> a <= fst (uniform_int a b g) <= b;
  random_shuffle_perm : forall l g, fst (random_shuffle l g) ≡ₚ l
}.

Inductive net_ref := test_net_ | clone_net_.

(** Calls into the engine, in the order they are made. *)
Inductive call :=
| Forward (net : net_ref) (frames cont : list float32)
| SolverStep (frames cont target filter : list float32).

Section Model.
Context `{Caffe} `{Random}.

(** The mutable members of [DQN] (the replay memory is passed along). *)
Record DQN := mkDQN {
  frame_input_ : list float32;
  target_input_ : list float32;
  filter_input_ : list float32;
  cont_input_ : list float32;
  solver_ : Solver;
  clone : option Net;
  last_clone_iter_ : Z;
  random_engine : RandomEngine;
  libc_rand : LibcRand;
  trace : list call
}.

Definition f32_of_uint8 (b : byte) : float32 := narrow (double_of_int (Z_of_byte b)).

(** [std::copy(frame->begin(), frame->end(), v.begin() + off)] *)
Definition copy_frame (frame : list byte) (v : list float32) (off : Z)
  : outcome (list float32) :=
  if (0 <=? off) && (off + Z.of_nat (length frame) <=? Z.of_nat (length v))
  then Done (take (Z.to_nat off) v ++ map f32_of_uint8 frame
             ++ drop (Z.to_nat off + length frame) v)
  else Fatal Undefined.

Definition deref (net : net_ref) (st : DQN) : outcome Net :=
  match net with
  | test_net_ => Done (get_test_net (solver_ st))
  | clone_net_ =>
      match clone st with
      | Some n => Done n
      | None => Fatal Undefined
      end
  end.

Definition assign (net : net_ref) (n : Net) (st : DQN) : DQN :=
  match net with
  | test_net_ =>
      mkDQN (frame_input_ st) (target_input_ st) (filter_input_ st) (cont_input_ st)
            (set_test_net (solver_ st) n) (clone st) (last_clone_iter_ st)
            (random_engine st) (libc_rand st) (trace st)
  | clone_net_ =>
      mkDQN (frame_input_ st) (target_input_ st) (filter_input_ st) (cont_input_ st)
            (solver_ st) (Some n) (last_clone_iter_ st)
            (random_engine st) (libc_rand st) (trace st)
  end.

Definition set_buffers (frames target filter cont : list float32) (st : DQN) : DQN :=
  mkDQN frames target filter cont (solver_ st) (clone st) (last_clone_iter_ st)
        (random_engine st) (libc_rand st) (trace st).

Definition log (c : call) (st : DQN) : DQN :=
  mkDQN (frame_input_ st) (target_input_ st) (filter_input_ st) (cont_input_ st)
        (solver_ st) (clone st) (last_clone_iter_ st)
        (random_engine st) (libc_rand st) (trace st ++ [c]).

(** *** SelectActionGreedily *)

(** The frames of batch item [n] go to [frames_blob->offset(n,i,0,0)] of
    the test-phase blob, of shape (minibatch, frames_per_timestep, 84, 84). *)
Definition stage_frames (cfg : Config) (frames_batch : InputFramesBatch)
    (frame_input : list float32) : outcome (list float32) :=
  for_each (fun buf n =>
      input_frames ← vload frames_batch n;
      for_each (fun buf i =>
          frame_data ← vload input_frames i;
          copy_frame frame_data buf
            (offset (frames_per_timestep_ cfg) kCroppedFrameSize kCroppedFrameSize n i 0 0))
        (zrange 0 (frames_per_timestep_ cfg)) buf)
    (zrange 0 (Z.of_nat (length frames_batch))) frame_input.

(** The lambda [action_evaluator] mapped over the legal actions. *)
Fixpoint evaluate_actions (q : Z -> Z -> float32) (i : Z) (actions : list Action)
  : outcome (list float32) :=
  match actions with
  | [] => Done []
  | a :: rest =>
      let v := q i a in
      _ ← CHECK (negb (f32_isnan v));
      vs ← evaluate_actions q i rest;
      Done (v :: vs)
  end.

Definition SelectActionGreedily (cfg : Config) (net : net_ref)
    (frames_batch : InputFramesBatch) (cont : bool) (st : DQN)
  : outcome (list ActionValue * DQN) :=
  match frames_batch with
  | [] => Done ([], st)
  | _ =>
      the_net ← deref net st;
      _ ← CHECK (Z.of_nat (length frames_batch) <=? as_size_t (minibatch_size_ cfg));
      let frames0 := fill (frame_input_ st) f32_zero in
      let cont_in := fill (cont_input_ st) (f32_of_bool cont) in
      frames ← stage_frames cfg frames_batch frames0;
      let st := set_buffers frames (target_input_ st) (filter_input_ st) cont_in st in
      let '(the_net, q_values_blob) := ForwardPrefilled the_net frames cont_in in
      let st := log (Forward net frames cont_in) (assign net the_net st) in
      results ← for_each (fun results i =>
          q_values ← evaluate_actions q_values_blob i (legal_actions_ cfg);
          let max_idx := Z.of_nat (max_element f32_ltb q_values) in
          a ← vload (legal_actions_ cfg) max_idx;
          q ← vload q_values max_idx;
          Done (results ++ [(a, q)]))
        (zrange 0 (Z.of_nat (length frames_batch))) [];
      Done (results, st)
  end.

(** *** SelectActions *)

Definition set_random_engine (g : RandomEngine) (st : DQN) : DQN :=
  mkDQN (frame_input_ st) (target_input_ st) (filter_input_ st) (cont_input_ st)
        (solver_ st) (clone st) (last_clone_iter_ st) g (libc_rand st) (trace st).

Definition SelectActions (cfg : Config) (frames_batch : InputFramesBatch)
    (epsilon : float) (cont : bool) (st : DQN) : outcome (list Action * DQN) :=
  _ ← CHECK ((epsilon <=? 1) && (0 <=? epsilon))%float;
  _ ← CHECK (Z.of_nat (length frames_batch) <=? as_size_t (minibatch_size_ cfg));
  let '(u, g) := uniform_real (random_engine st) in
  let st := set_random_engine g st in
  if (u <? epsilon)%float then
    (* Select randomly *)
    for_each (fun '(actions, st) _ =>
        let hi := wrap32 (as_size_t (Z.of_nat (length (legal_actions_ cfg)) - 1)) in
        if hi <? 0 then Fatal Undefined else
        let '(random_idx, g) := uniform_int 0 hi (random_engine st) in
        a ← vload (legal_actions_ cfg) random_idx;
        Done (actions ++ [a], set_random_engine g st))
      (zrange 0 (Z.of_nat (length frames_batch))) ([], st)
  else
    (* Select greedily *)
    '(actions_and_values, st) ← SelectActionGreedily cfg test_net_ frames_batch cont st;
    _ ← CHECK (bool_decide (length actions_and_values = length frames_batch));
    Done (map fst actions_and_values, st).

(** *** The parts both updates share *)

Definition set_clone (n : option Net) (iter : Z) (st : DQN) : DQN :=
  mkDQN (frame_input_ st) (target_input_ st) (filter_input_ st) (cont_input_ st)
        (solver_ st) n iter (random_engine st) (libc_rand st) (trace st).

Definition set_libc_rand (r : LibcRand) (st : DQN) : DQN :=
  mkDQN (frame_input_ st) (target_input_ st) (filter_input_ st) (cont_input_ st)
        (solver_ st) (clone st) (last_clone_iter_ st) (random_engine st) r (trace st).

Definition set_solver (s : Solver) (st : DQN) : DQN :=
  mkDQN (frame_input_ st) (target_input_ st) (filter_input_ st) (cont_input_ st)
        s (clone st) (last_clone_iter_ st) (random_engine st) (libc_rand st) (trace st).

(**
<<
  if (!clone_net_ || current_iteration() >= last_clone_iter_ + clone_frequency_) {
    CloneNet( *test_net_);
    last_clone_iter_ = current_iteration();
  }
>>
    The sum is an [int] sum; it is taken here in [Z], which is its value
    whenever the C++ sum is defined (signed overflow is undefined). *)
Definition refresh_clone (cfg : Config) (st : DQN) : DQN :=
  let stale :=
    match clone st with
    | None => true
    | Some _ => last_clone_iter_ st + clone_frequency_ cfg <=? solver_iter (solver_ st)
    end in
  if stale then
    set_clone (Some (CopyTrainedLayers (get_test_net (solver_ st)) (clone st)))
              (solver_iter (solver_ st)) st
  else st.

(**
<<
  std::vector<int> ep_inds(replay_memory_.size());
  std::iota(ep_inds.begin(), ep_inds.end(), 0);
  std::random_shuffle(ep_inds.begin(), ep_inds.end());
  if (ep_inds.size() > minibatch_size_) {
    ep_inds.resize(minibatch_size_);
  }
>> *)
Definition select_episodes (cfg : Config) (mem : list (list Transition)) (st : DQN)
  : list Z * DQN :=
  let ep_inds := zrange 0 (Z.of_nat (length mem)) in
  let '(ep_inds, r) := random_shuffle ep_inds (libc_rand st) in
  let ep_inds :=
    if as_size_t (minibatch_size_ cfg) <? Z.of_nat (length ep_inds)
    then take (Z.to_nat (as_size_t (minibatch_size_ cfg))) ep_inds else ep_inds in
  (ep_inds, set_libc_rand r st).

(** The right-hand side of
<<
  const float target = std::get<3>(transition) ?
      reward + gamma_ * actions_and_values[target_value_idx++].second :
      reward;
>>
    The sum is computed in [double] and converted to [float]; a [float]
    passing through [double] unchanged keeps its value. *)
Definition bootstrap (cfg : Config) (transition : Transition)
    (actions_and_values : list ActionValue) (target_value_idx : Z)
  : outcome (float32 * Z) :=
  match tr_next transition with
  | Some _ =>
      av ← vload actions_and_values target_value_idx;
      Done (narrow (widen (tr_reward transition) + gamma_ cfg * widen (snd av))%float,
            target_value_idx + 1)
  | None => Done (tr_reward transition, target_value_idx)
  end.

(** The block both updates run for batch slot [n] at unroll position
    [slot], on the transition they selected:
<<
  const int action = static_cast<int>(std::get<1>(transition));
  CHECK_LT(action, kOutputCount);
  const float reward = std::get<2>(transition);
  CHECK(reward >= -1.0 && reward <= 1.0);
  const float target = ...;
  CHECK(!std::isnan(target));
  filter_input_[filter_blob->offset(slot,n,action,0)] = 1;
  target_input_[target_blob->offset(slot,n,action,0)] = target;
  const auto& frame = std::get<0>(transition);
  std::copy(frame->begin(), frame->end(),
            frame_input_.begin() + frames_blob->offset(n,frame_idx,0,0));
>> *)
Definition emit_target (cfg : Config) (slot n frame_idx : Z) (transition : Transition)
    (actions_and_values : list ActionValue) (acc : Z * DQN) : outcome (Z * DQN) :=
  let '(target_value_idx, st) := acc in
  let action := tr_action transition in
  _ ← CHECK (action <? kOutputCount);
  let reward := tr_reward transition in
  _ ← CHECK ((-1 <=? widen reward) && (widen reward <=? 1))%float;
  '(target, target_value_idx) ← bootstrap cfg transition actions_and_values target_value_idx;
  _ ← CHECK (negb (f32_isnan target));
  let off := offset (minibatch_size_ cfg) kOutputCount 1 slot n action 0 in
  filter ← vstore (filter_input_ st) off f32_one;
  target_in ← vstore (target_input_ st) off target;
  frames ← copy_frame (tr_frame transition) (frame_input_ st)
             (offset (frames_per_forward_ cfg) kCroppedFrameSize kCroppedFrameSize
                     n frame_idx 0 0);
  Done (target_value_idx, set_buffers frames target_in filter (cont_input_ st) st).

(** [cont_input_[cont_blob->offset(0,n,0,0)] = 0.0f] for every [n]. *)
Definition zero_first_cont (cfg : Config) (cont : list float32) : outcome (list float32) :=
  for_each (fun cont n => vstore cont (offset (minibatch_size_ cfg) 1 1 0 n 0 0) f32_zero)
    (zrange 0 (minibatch_size_ cfg)) cont.

(** [InputDataIntoLayers( *net_, ...); solver_->Step(1);] *)
Definition train_step (st : DQN) : DQN :=
  let s := Step (solver_ st) (frame_input_ st) (cont_input_ st)
             (target_input_ st) (filter_input_ st) in
  log (SolverStep (frame_input_ st) (cont_input_ st) (target_input_ st) (filter_input_ st))
      (set_solver s st).

(** *** UpdateRandom *)

(**
<<
  for (int n = 0; n < batch_size; ++n) {
    int ep_size = replay_memory_[ep_inds[n]].size();
    int last_valid_frame = ep_size-1 - (frames_per_timestep_-1) - (unroll_-1);
    ep_starts[n] = std::uniform_int_distribution<int>
        (0, last_valid_frame)(random_engine);
  }
>>
    A distribution whose upper bound is below its lower bound has
    undefined behaviour. *)
Definition sample_starts (cfg : Config) (mem : list (list Transition)) (ep_inds : list Z)
    (st : DQN) : outcome (list Z * DQN) :=
  let batch_size := wrap32 (Z.of_nat (length ep_inds)) in
  for_each (fun '(ep_starts, st) n =>
      ind ← vload ep_inds n;
      episode ← vload mem ind;
      let ep_size := wrap32 (Z.of_nat (length episode)) in
      let last_valid_frame :=
        ep_size - 1 - (frames_per_timestep_ cfg - 1) - (unroll_ cfg - 1) in
      if last_valid_frame <? 0 then Fatal Undefined else
      let '(start, g) := uniform_int 0 last_valid_frame (random_engine st) in
      ep_starts ← vstore ep_starts n start;
      Done (ep_starts, set_random_engine g st))
    (zrange 0 batch_size) (replicate (Z.to_nat batch_size) 0, st).

(** The next-state windows of unroll position [u]. *)
Definition gather_windows (cfg : Config) (mem : list (list Transition))
    (ep_inds ep_starts : list Z) (u : Z) : outcome InputFramesBatch :=
  for_each (fun past_frames_vec n =>
      ind ← vload ep_inds n;
      episode ← vload mem ind;
      start ← vload ep_starts n;
      let last_frame_ts := start + u + (frames_per_timestep_ cfg - 1) in
      _ ← CHECK (as_size_t last_frame_ts <? Z.of_nat (length episode));
      last ← vload episode last_frame_ts;
      match tr_next last with
      | Some _ =>
          input_frames ← for_each (fun input_frames i =>
              tr ← vload episode (start + u + i);
              match tr_next tr with
              | Some next => Done (input_frames ++ [next])
              | None => Fatal Undefined      (* optional::get() on an empty optional *)
              end)
            (zrange 0 (frames_per_timestep_ cfg)) [];
          Done (past_frames_vec ++ [input_frames])
      | None => Done past_frames_vec
      end)
    (zrange 0 (Z.of_nat (length ep_inds))) [].

Definition random_targets (cfg : Config) (mem : list (list Transition))
    (ep_inds ep_starts : list Z) (u : Z) (actions_and_values : list ActionValue)
    (st : DQN) : outcome (Z * DQN) :=
  for_each (fun acc n =>
      ind ← vload ep_inds n;
      episode ← vload mem ind;
      start ← vload ep_starts n;
      let ts := start + u + (frames_per_timestep_ cfg - 1) in
      _ ← CHECK (as_size_t ts <? Z.of_nat (length episode));
      transition ← vload episode ts;
      emit_target cfg u n (u + (frames_per_timestep_ cfg - 1)) transition
        actions_and_values acc)
    (zrange 0 (Z.of_nat (length ep_inds))) (0, st).

(** One pass of [for (int u = 0; u < unroll_; ++u)]. *)
Definition random_unroll (cfg : Config) (mem : list (list Transition))
    (ep_inds ep_starts : list Z) (st : DQN) (u : Z) : outcome DQN :=
  past_frames_vec ← gather_windows cfg mem ep_inds ep_starts u;
  '(actions_and_values, st) ←
    SelectActionGreedily cfg clone_net_ past_frames_vec (0 <? u) st;
  '(target_value_idx, st) ← random_targets cfg mem ep_inds ep_starts u actions_and_values st;
  _ ← CHECK (target_value_idx =? Z.of_nat (length actions_and_values));
  Done st.

(** "Copy in the pre-input frames". *)
Definition copy_history (cfg : Config) (mem : list (list Transition))
    (ep_inds ep_starts : list Z) (st : DQN) : outcome DQN :=
  for_each (fun st n =>
      for_each (fun st i =>
          ind ← vload ep_inds n;
          episode ← vload mem ind;
          start ← vload ep_starts n;
          tr ← vload episode (start + i);
          frames ← copy_frame (tr_frame tr) (frame_input_ st)
                     (offset (frames_per_forward_ cfg) kCroppedFrameSize kCroppedFrameSize
                             n i 0 0);
          Done (set_buffers frames (target_input_ st) (filter_input_ st) (cont_input_ st) st))
        (zrange 0 (frames_per_timestep_ cfg - 1)) st)
    (zrange 0 (Z.of_nat (length ep_inds))) st.

Definition UpdateRandom (cfg : Config) (mem : list (list Transition)) (st : DQN)
  : outcome (Z * DQN) :=
  let st := refresh_clone cfg st in
  cont ← zero_first_cont cfg (fill (cont_input_ st) f32_one);
  let st := set_buffers (fill (frame_input_ st) f32_zero) (fill (target_input_ st) f32_zero)
                        (fill (filter_input_ st) f32_zero) cont st in
  let '(ep_inds, st) := select_episodes cfg mem st in
  '(ep_starts, st) ← sample_starts cfg mem ep_inds st;
  st ← for_each (random_unroll cfg mem ep_inds ep_starts) (zrange 0 (unroll_ cfg)) st;
  st ← copy_history cfg mem ep_inds ep_starts st;
  let st := train_step st in
  _ ← CHECK (loss_ok (solver_ st));
  Done (1, st).

(** *** UpdateSequential *)

(** [while (frame_deque.size() > frames_per_timestep_) frame_deque.pop_front();] *)
Definition pop_front_while_longer (limit : Z) (frame_deque : list (list byte))
  : list (list byte) :=
  drop (Z.to_nat (Z.of_nat (length frame_deque) - as_size_t limit)) frame_deque.

(** The first inner loop of a time step: every episode slides its window
    or clears it.  [active_episodes] is a [bool]. *)
Definition advance_windows (cfg : Config) (mem : list (list Transition)) (ep_inds : list Z)
    (t : Z) (past_frames : list (list (list byte)))
  : outcome (bool * list (list (list byte))) :=
  for_each (fun '(active_episodes, past_frames) n =>
      ind ← vload ep_inds n;
      episode ← vload mem ind;
      frame_deque ← vload past_frames n;
      next ← (if as_size_t t <? Z.of_nat (length episode)
              then tr ← vload episode t; Done (tr_next tr) else Done None);
      match next with
      | Some frame =>
          past_frames ← vstore past_frames n
            (pop_front_while_longer (frames_per_timestep_ cfg) (frame_deque ++ [frame]));
          Done (true, past_frames)
      | None =>
          past_frames ← vstore past_frames n [];
          Done (active_episodes, past_frames)
      end)
    (zrange 0 (Z.of_nat (length ep_inds))) (false, past_frames).

Definition collect_windows (cfg : Config) (ep_inds : list Z)
    (past_frames : list (list (list byte))) : outcome InputFramesBatch :=
  for_each (fun past_frames_vec n =>
      frame_deque ← vload past_frames n;
      match frame_deque with
      | [] => Done past_frames_vec
      | _ =>
          _ ← CHECK (Z.of_nat (length frame_deque) =? as_size_t (frames_per_timestep_ cfg));
          Done (past_frames_vec ++ [frame_deque])
      end)
    (zrange 0 (Z.of_nat (length ep_inds))) [].

Definition sequential_targets (cfg : Config) (mem : list (list Transition))
    (ep_inds : list Z) (i t : Z) (actions_and_values : list ActionValue)
    (st : DQN) : outcome (Z * DQN) :=
  for_each (fun acc n =>
      ind ← vload ep_inds n;
      episode ← vload mem ind;
      if as_size_t t <? Z.of_nat (length episode) then
        transition ← vload episode t;
        emit_target cfg i n i transition actions_and_values acc
      else Done acc)
    (zrange 0 (Z.of_nat (length ep_inds))) (0, st).

(** One pass of [for (int i = 0; i < unroll_; ++i, ++t)], at time [t]. *)
Definition sequential_step (cfg : Config) (mem : list (list Transition)) (ep_inds : list Z)
    (i t : Z) (past_frames : list (list (list byte))) (st : DQN)
  : outcome (bool * list (list (list byte)) * DQN) :=
  '(active_episodes, past_frames) ← advance_windows cfg mem ep_inds t past_frames;
  if t <? frames_per_timestep_ cfg then Done (active_episodes, past_frames, st)  (* continue *)
  else
    past_frames_vec ← collect_windows cfg ep_inds past_frames;
    '(actions_and_values, st) ←
      SelectActionGreedily cfg clone_net_ past_frames_vec (0 <? t) st;
    '(target_value_idx, st) ← sequential_targets cfg mem ep_inds i t actions_and_values st;
    _ ← CHECK (target_value_idx =? Z.of_nat (length actions_and_values));
    Done (active_episodes, past_frames, st).

(** One pass of the [while] loop: it starts at time [t] and ends with a
    solver step. *)
Definition sequential_window (cfg : Config) (mem : list (list Transition)) (ep_inds : list Z)
    (active_episodes : bool) (t : Z) (past_frames : list (list (list byte))) (st : DQN)
  : outcome (bool * Z * list (list (list byte)) * DQN) :=
  let cont := fill (cont_input_ st) f32_zero in
  cont ← (if t =? 0 then zero_first_cont cfg cont else Done cont);
  let st := set_buffers (fill (frame_input_ st) f32_zero) (fill (target_input_ st) f32_zero)
                        (fill (filter_input_ st) f32_zero) cont st in
  '(active_episodes, past_frames, st) ←
    for_each (fun '(_, past_frames, st) i => sequential_step cfg mem ep_inds i (t + i) past_frames st)
      (zrange 0 (unroll_ cfg)) (active_episodes, past_frames, st);
  Done (active_episodes, t + Z.max 0 (unroll_ cfg), past_frames, train_step st).

(** The [while (active_episodes > 0)] loop, for at most [fuel] passes. *)
Fixpoint sequential_loop (fuel : nat) (cfg : Config) (mem : list (list Transition))
    (ep_inds : list Z) (active_episodes : bool) (t update_step : Z)
    (past_frames : list (list (list byte))) (st : DQN) : outcome (Z * DQN) :=
  if active_episodes then
    match fuel with
    | O => Fatal OutOfFuel
    | S fuel' =>
        '(active_episodes, t, past_frames, st) ←
          sequential_window cfg mem ep_inds active_episodes t past_frames st;
        sequential_loop fuel' cfg mem ep_inds active_episodes t (update_step + 1)
          past_frames st
    end
  else Done (update_step, st).

Definition UpdateSequential (fuel : nat) (cfg : Config) (mem : list (list Transition))
    (st : DQN) : outcome (Z * DQN) :=
  let st := refresh_clone cfg st in
  let '(ep_inds, st) := select_episodes cfg mem st in
  let active_episodes := negb (Z.of_nat (length ep_inds) =? 0) in
  sequential_loop fuel cfg mem ep_inds active_episodes 0 0
    (replicate (length ep_inds) []) st.

End Model.

(** ** Facts about float comparisons *)

Lemma SFleb_key x y :
  SFleb x y = true ->
  x <> S754_nan /\ y <> S754_nan /\ ~ key_lt (sf_key y) (sf_key x).
Proof.
  unfold SFleb.
  destruct x as [sx|sx| |sx mx ex], y as [sy|sy| |sy my ey]; try done;
    try destruct sx; try destruct sy; cbn; try done;
    try (intros _; split; [done|]; split; [done|]; lia).
  - destruct (Z.compare_spec ex ey); cbn;
      [rewrite Pos.compare_cont_spec; cbn; destruct (Pos.compare_spec mx my); cbn|..];
      try done; intros _; (split; [done|]; split; [done|]; lia).
  - destruct (Z.compare_spec ex ey); cbn;
      [rewrite Pos.compare_cont_spec; cbn; destruct (Pos.compare_spec mx my); cbn|..];
      try done; intros _; (split; [done|]; split; [done|]; lia).
Qed.

Lemma leb_not_ltb (x y : float) : (x <=? y)%float = true -> (y <? x)%float = false.
Proof.
  rewrite FloatAxioms.leb_spec, FloatAxioms.ltb_spec. intros Hle.
  apply SFleb_key in Hle as (Hx & Hy & Hn).
  destruct (SFltb (Prim2SF y) (Prim2SF x)) eqn:E; [|done].
  apply SFltb_key in E; done.
Qed.

Lemma f32_isnan_ok x : f32_isnan x = false -> PrimFloat.is_nan (widen x) = false.
Proof. done. Qed.

Lemma f32_ltb_irrefl a : f32_isnan a = false -> f32_ltb a a = false.
Proof. apply ltb_irrefl. Qed.

Lemma f32_ltb_trans a b c :
  f32_isnan a = false -> f32_isnan b = false -> f32_isnan c = false ->
  f32_ltb a b = true -> f32_ltb b c = true -> f32_ltb a c = true.
Proof. apply ltb_trans. Qed.

Lemma f32_ltb_weak a b c :
  f32_isnan a = false -> f32_isnan b = false -> f32_isnan c = false ->
  f32_ltb a b = true -> f32_ltb a c = true \/ f32_ltb c b = true.
Proof. apply ltb_weak. Qed.

Section Facts.
Context `{Caffe} `{Random}.

(** [a] is the greedy choice for batch item [i]: no legal action has a
    larger value, and every legal action listed before it has a smaller one. *)
Definition best_action (cfg : Config) (q : Z -> Z -> float32) (i : Z) (a : Action) : Prop :=
  exists m, legal_actions_ cfg !! m = Some a
    /\ (forall j a', legal_actions_ cfg !! j = Some a' -> f32_ltb (q i a) (q i a') = false)
    /\ (forall j a', (j < m)%nat -> legal_actions_ cfg !! j = Some a' ->
          f32_ltb (q i a') (q i a) = true).

Lemma evaluate_actions_Done q i actions vs :
  evaluate_actions q i actions = Done vs ->
  vs = map (q i) actions /\ Forall (fun v => f32_isnan v = false) vs.
Proof.
  revert vs. induction actions as [|a actions IH]; intros vs E; cbn [evaluate_actions] in E.
  - injection E as <-. done.
  - apply bind_Done in E as (u & Hc & E). apply CHECK_Done in Hc.
    apply bind_Done in E as (vs' & E' & E). injection E as <-.
    destruct (IH vs' E') as [-> Hall]. split; [done|].
    constructor; [|done]. by apply negb_true_iff in Hc.
Qed.

Lemma greedy_choice cfg q i q_values a v :
  evaluate_actions q i (legal_actions_ cfg) = Done q_values ->
  vload (legal_actions_ cfg) (Z.of_nat (max_element f32_ltb q_values)) = Done a ->
  vload q_values (Z.of_nat (max_element f32_ltb q_values)) = Done v ->
  v = q i a /\ best_action cfg q i a.
Proof.
  intros Ev Ea Evl.
  apply evaluate_actions_Done in Ev as [-> Hok].
  apply vload_Done in Ea as [_ Ea]. apply vload_Done in Evl as [_ Evl].
  rewrite Nat2Z.id in Ea, Evl.
  assert (Hne : map (q i) (legal_actions_ cfg) <> []).
  { intros Hnil. rewrite Hnil in Evl. done. }
  destruct (max_element_spec f32_ltb (fun v => f32_isnan v = false)
              f32_ltb_irrefl f32_ltb_trans f32_ltb_weak _ Hne Hok)
    as (v' & Hv' & Hmax & Hfirst).
  rewrite Evl in Hv'. injection Hv' as <-.
  change (map (q i) ?l) with (q i <$> l) in *.
  rewrite list_lookup_fmap, Ea in Evl. injection Evl as <-.
  split; [done|]. exists (max_element f32_ltb (q i <$> legal_actions_ cfg)).
  split; [done|]. split.
  - intros j a' Hj. apply (Hmax j). by rewrite list_lookup_fmap, Hj.
  - intros j a' Hlt Hj. apply (Hfirst j); [done|]. by rewrite list_lookup_fmap, Hj.
Qed.

(** What a call that returns has done: one forward pass of the net on
    the staged buffers, and one greedy choice per batch item. *)
Lemma SelectActionGreedily_Done cfg net frames_batch cont st actions_and_values st' :
  frames_batch <> [] ->
  SelectActionGreedily cfg net frames_batch cont st = Done (actions_and_values, st') ->
  exists the_net frames the_net' q,
    let cont_in := fill (cont_input_ st) (f32_of_bool cont) in
    deref net st = Done the_net
    /\ stage_frames cfg frames_batch (fill (frame_input_ st) f32_zero) = Done frames
    /\ ForwardPrefilled the_net frames cont_in = (the_net', q)
    /\ st' = log (Forward net frames cont_in)
               (assign net the_net'
                  (set_buffers frames (target_input_ st) (filter_input_ st) cont_in st))
    /\ length actions_and_values = length frames_batch
    /\ forall (k : nat) a v, actions_and_values !! k = Some (a, v) ->
         v = q (Z.of_nat k) a /\ best_action cfg q (Z.of_nat k) a.
Proof.
  intros Hne E. unfold SelectActionGreedily in E.
  destruct frames_batch as [|fb0 fbs]; [done|]. set (frames_batch := fb0 :: fbs) in *.
  apply bind_Done in E as (the_net & Ed & E).
  apply bind_Done in E as (u & _ & E).
  apply bind_Done in E as (frames & Es & E).
  destruct (ForwardPrefilled the_net frames _) as [the_net' q] eqn:Ef.
  apply bind_Done in E as (results & Er & E). injection E as <- <-.
  exists the_net, frames, the_net', q. cbv zeta.
  do 4 (split; [done|]).
  apply (for_each_invariant _
           (fun k results => length results = k /\
              forall (j : nat) a v, results !! j = Some (a, v) ->
                v = q (Z.of_nat j) a /\ best_action cfg q (Z.of_nat j) a)) in Er.
  - rewrite length_zrange, Nat2Z.id in Er. done.
  - split; [done|]. intros j a v Hj. done.
  - intros k x res res' Hk [Hlen Hprev] Eb.
    apply lookup_zrange_Some in Hk as [-> _]. rewrite Z.add_0_l in Eb.
    apply bind_Done in Eb as (q_values & Ev & Eb). cbv zeta in Eb.
    apply bind_Done in Eb as (a & Ea & Eb). apply bind_Done in Eb as (v & Evl & Eb).
    injection Eb as <-. split; [rewrite length_app; simpl; lia|].
    intros j a' v' Hj. apply lookup_app_Some in Hj as [Hj|[Hge Hj]]; [by apply Hprev|].
    rewrite Hlen in Hj, Hge. destruct (j - k)%nat eqn:Hjk; [|done].
    injection Hj as <- <-. assert (j = k) as -> by lia.
    by eapply greedy_choice.
Qed.

(** With probability one the draw is in [0, 1). *)
Section Laws.
Context `{!RandomLaws}.

Lemma draw_below_one g : (fst (uniform_real g) <? 1)%float = true.
Proof. apply uniform_real_range. Qed.

Lemma draw_not_below_zero g : (fst (uniform_real g) <? 0)%float = false.
Proof. apply leb_not_ltb, uniform_real_range. Qed.

End Laws.


(** *** Targets *)

Definition lookupZ {A : Type} (l : list A) (z : Z) : option A :=
  if 0 <=? z then l !! Z.to_nat z else None.

Lemma vload_lookupZ {A} (v : list A) idx x : vload v idx = Done x -> lookupZ v idx = Some x.
Proof.
  intros E. apply vload_Done in E as [Hidx E]. unfold lookupZ.
  by destruct (Z.leb_spec 0 idx); [|lia].
Qed.

Lemma lookupZ_of_nat {A} (l : list A) (k : nat) : lookupZ l (Z.of_nat k) = l !! k.
Proof.
  unfold lookupZ. destruct (Z.leb_spec 0 (Z.of_nat k)); [|lia]. by rewrite Nat2Z.id.
Qed.

(** The number of batch slots before [n] whose transition has a next frame:
    the position of slot [n] in the batch handed to the target clone. *)
Definition rank (slot : nat -> option Transition) (n : nat) : nat :=
  length (filter (fun m => is_Some (slot m ≫= tr_next)) (seq 0 n)).

Lemma rank_S slot n :
  rank slot (S n) = (rank slot n + if decide (is_Some (slot n ≫= tr_next)) then 1 else 0)%nat.
Proof.
  unfold rank. rewrite seq_S, filter_app, length_app. cbn [Nat.add].
  rewrite filter_cons, filter_nil. by destruct (decide _).
Qed.

(** [target] is what the source computes for [transition] when the value
    at its position in [actions_and_values] is [q]. *)
Definition is_target (cfg : Config) (transition : Transition) (q : option float32)
    (target : float32) : Prop :=
  match tr_next transition with
  | None => target = tr_reward transition
  | Some _ => exists qv, q = Some qv
      /\ target = narrow (widen (tr_reward transition) + gamma_ cfg * widen qv)%float
  end.

Definition target_offset (cfg : Config) (slot n : Z) (transition : Transition) : Z :=
  offset (minibatch_size_ cfg) kOutputCount 1 slot n (tr_action transition) 0.

Lemma emit_target_Done cfg slot n frame_idx transition avs idx st idx' st' :
  emit_target cfg slot n frame_idx transition avs (idx, st) = Done (idx', st') ->
  exists target,
    tr_action transition < kOutputCount
    /\ is_target cfg transition (snd <$> lookupZ avs idx) target
    /\ idx' = idx + match tr_next transition with Some _ => 1 | None => 0 end
    /\ 0 <= target_offset cfg slot n transition < Z.of_nat (length (target_input_ st))
    /\ target_input_ st'
       = <[Z.to_nat (target_offset cfg slot n transition) := target]> (target_input_ st).
Proof.
  unfold emit_target. intros E.
  apply bind_Done in E as (u1 & Ha & E). apply CHECK_Done, Z.ltb_lt in Ha.
  apply bind_Done in E as (u2 & _ & E).
  apply bind_Done in E as ([target idx1] & Eb & E).
  apply bind_Done in E as (u3 & _ & E).
  apply bind_Done in E as (filter & Ef & E).
  apply bind_Done in E as (target_in & Et & E).
  apply bind_Done in E as (frames & Ec & E). apply Done_pair_inj in E as [<- <-].
  apply vstore_Done in Et as [Hoff ->].
  exists target. split; [done|]. unfold is_target, bootstrap in *.
  destruct (tr_next transition) as [next|].
  - apply bind_Done in Eb as (av & Eav & Eb). apply Done_pair_inj in Eb as [<- <-].
    apply vload_lookupZ in Eav. rewrite Eav.
    split; [by exists (snd av)|]. done.
  - apply Done_pair_inj in Eb as [<- <-]. split; [done|]. split; [lia|]. done.
Qed.

Lemma target_offset_inj cfg slot n n' tr tr' :
  0 <= tr_action tr < kOutputCount -> 0 <= tr_action tr' < kOutputCount ->
  n <> n' -> target_offset cfg slot n tr <> target_offset cfg slot n' tr'.
Proof. unfold target_offset, offset, kOutputCount. lia. Qed.

(** What one unroll position [u] does to the target buffer: the slot of
    every transition receives a target related to it by [R], and nothing
    else changes. *)
Definition step_targets (cfg : Config) (slot : nat -> option Transition) (batch_size : nat)
    (u : Z) (R : nat -> Transition -> float32 -> Prop) (before after : list float32) : Prop :=
  (forall (k : nat) tr, (k < batch_size)%nat -> slot k = Some tr ->
     tr_action tr < kOutputCount
     /\ exists target,
          after !! Z.to_nat (target_offset cfg u (Z.of_nat k) tr) = Some target
          /\ R k tr target)
  /\ (forall j : nat,
        (forall (k : nat) tr, (k < batch_size)%nat -> slot k = Some tr ->
           j <> Z.to_nat (target_offset cfg u (Z.of_nat k) tr)) ->
        after !! j = before !! j).

Lemma step_targets_weaken cfg slot batch_size u (R R' : nat -> Transition -> float32 -> Prop)
    before after :
  (forall (k : nat) tr target, (k < batch_size)%nat -> slot k = Some tr ->
     R k tr target -> R' k tr target) ->
  step_targets cfg slot batch_size u R before after ->
  step_targets cfg slot batch_size u R' before after.
Proof.
  intros HR [Hw Hf]. split; [|done].
  intros k tr Hk Hs. destruct (Hw k tr Hk Hs) as (Ha & target & Hl & Ht).
  split; [done|]. exists target. split; [done|]. by apply HR.
Qed.

Lemma step_targets_none cfg batch_size u R buf :
  step_targets cfg (fun _ => None) batch_size u R buf buf.
Proof. split; [intros k tr _ Hs; discriminate Hs|done]. Qed.

(** A loop over the batch slots in which slot [k] either runs
    [emit_target] on its transition or is skipped. *)
Lemma targets_loop cfg (slot : nat -> option Transition) unroll_pos frame_idx avs
    (body : Z * DQN -> Z -> outcome (Z * DQN)) batch_size st idx' st' :
  (forall (k : nat) acc acc', body acc (Z.of_nat k) = Done acc' ->
     match slot k with
     | Some tr => emit_target cfg unroll_pos (Z.of_nat k) (frame_idx k) tr avs acc = Done acc'
     | None => acc' = acc
     end) ->
  (forall k tr, slot k = Some tr -> 0 <= tr_action tr) ->
  for_each body (zrange 0 (Z.of_nat batch_size)) (0, st) = Done (idx', st') ->
  idx' = Z.of_nat (rank slot batch_size)
  /\ step_targets cfg slot batch_size unroll_pos
       (fun k tr target => is_target cfg tr (snd <$> avs !! rank slot k) target)
       (target_input_ st) (target_input_ st').
Proof.
  intros Hbody Hact E.
  apply (for_each_invariant _
    (fun n '(idx, st1) =>
       idx = Z.of_nat (rank slot n)
       /\ (forall (k : nat) tr, (k < n)%nat -> slot k = Some tr ->
            tr_action tr < kOutputCount /\
            0 <= target_offset cfg unroll_pos (Z.of_nat k) tr /\
            exists target,
              target_input_ st1 !! Z.to_nat (target_offset cfg unroll_pos (Z.of_nat k) tr)
                = Some target
              /\ is_target cfg tr (snd <$> avs !! rank slot k) target)
       /\ (forall j : nat,
             (forall (k : nat) tr, (k < n)%nat -> slot k = Some tr ->
                j <> Z.to_nat (target_offset cfg unroll_pos (Z.of_nat k) tr)) ->
             target_input_ st1 !! j = target_input_ st !! j))) in E.
  - rewrite length_zrange, Nat2Z.id in E. destruct E as (-> & E & Ef). split; [done|].
    split; [|done]. intros k tr Hk Hs. by destruct (E k tr Hk Hs) as (? & _ & ?).
  - split; [done|]. split; [|done]. intros k tr Hk. lia.
  - intros n x [idx st1] [idx2 st2] Hn (-> & Hprev & Hframe) Eb.
    apply lookup_zrange_Some in Hn as [-> Hn]. rewrite Z.add_0_l in Eb.
    apply Hbody in Eb. rewrite rank_S.
    destruct (slot n) as [tr|] eqn:Hslot.
    + apply emit_target_Done in Eb as (target & Ha & Ht & -> & Hoff & Hti).
      split.
      { cbn [mbind option_bind]. destruct (tr_next tr); destruct (decide _) as [Hd|Hd]; try lia.
        - exfalso. apply Hd. by eexists.
        - by destruct Hd. }
      split.
      * intros k tr' Hk Hs. destruct (decide (k = n)) as [->|Hne].
        -- rewrite Hslot in Hs. injection Hs as <-. split; [done|]. split; [lia|].
           exists target. rewrite Hti. split.
           ++ apply list_lookup_insert_eq. lia.
           ++ by rewrite lookupZ_of_nat in Ht.
        -- destruct (Hprev k tr' ltac:(lia) Hs) as (Ha' & Hoff' & target' & Hl & Ht').
           split; [done|]. split; [done|]. exists target'. split; [|done]. rewrite Hti.
           rewrite list_lookup_insert_ne; [done|].
           assert (target_offset cfg unroll_pos (Z.of_nat n) tr
                   <> target_offset cfg unroll_pos (Z.of_nat k) tr').
           { apply target_offset_inj;
               [split; [by eapply Hact|done]|split; [by eapply Hact|done]|lia]. }
           lia.
      * intros j Hj. rewrite Hti.
        rewrite list_lookup_insert_ne by (intros Heq; by apply (Hj n tr ltac:(lia) Hslot)).
        apply Hframe. intros k tr' Hk. apply Hj. lia.
    + injection Eb as -> ->. split.
      { cbn [mbind option_bind]. destruct (decide _) as [[? Hd]|]; [done|lia]. }
      split.
      * intros k tr' Hk Hs. destruct (decide (k = n)) as [->|Hne]; [congruence|].
        apply Hprev; [lia|done].
      * intros j Hj. apply Hframe. intros k tr' Hk. apply Hj. lia.
Qed.

(** *** Which frames reach the target clone *)

Lemma as_size_t_small z : 0 <= z < 18446744073709551616 -> as_size_t z = z.
Proof. intros Hz. unfold as_size_t. by rewrite Z.mod_small. Qed.

Lemma last_drop_lt {A} (l : list A) (m : nat) : (m < length l)%nat -> last (drop m l) = last l.
Proof.
  revert m. induction l as [|x l IH]; intros m Hm; [simpl in Hm; lia|].
  destruct m as [|m]; [done|]. cbn [drop]. simpl in Hm.
  rewrite IH by lia. destruct l; [simpl in Hm; lia|done].
Qed.

(** The transition UpdateRandom uses for batch slot [n] at unroll position [u]. *)
Definition random_slot (cfg : Config) (mem : list (list Transition))
    (ep_inds ep_starts : list Z) (u : Z) (n : nat) : option Transition :=
  ind ← ep_inds !! n;
  episode ← lookupZ mem ind;
  start ← ep_starts !! n;
  lookupZ episode (start + u + (frames_per_timestep_ cfg - 1)).

(** The transition UpdateSequential uses for batch slot [n] at time [t]. *)
Definition sequential_slot (mem : list (list Transition)) (ep_inds : list Z) (t : Z)
    (n : nat) : option Transition :=
  ind ← ep_inds !! n;
  episode ← lookupZ mem ind;
  lookupZ episode t.

(** The windows evaluated are those of the slots with a next frame, in
    slot order, and each ends with that next frame. *)
Definition windows_of (slot : nat -> option Transition) (batch_size : nat)
    (windows : list (list (list byte))) : Prop :=
  length windows = rank slot batch_size
  /\ forall (k : nat) tr next, (k < batch_size)%nat ->
       slot k = Some tr -> tr_next tr = Some next ->
       exists W, windows !! rank slot k = Some W /\ last W = Some next.

Lemma window_frames cfg episode first input_frames :
  1 <= frames_per_timestep_ cfg ->
  for_each (fun input_frames i =>
      tr ← vload episode (first + i);
      match tr_next tr with
      | Some next => Done (input_frames ++ [next])
      | None => Fatal Undefined
      end)
    (zrange 0 (frames_per_timestep_ cfg)) [] = Done input_frames ->
  exists tr, lookupZ episode (first + (frames_per_timestep_ cfg - 1)) = Some tr
    /\ last input_frames = tr_next tr /\ is_Some (tr_next tr).
Proof.
  intros Hfpt E.
  apply (for_each_invariant _
    (fun n frames => n = 0%nat \/
       exists tr, lookupZ episode (first + (Z.of_nat n - 1)) = Some tr
         /\ last frames = tr_next tr /\ is_Some (tr_next tr))) in E.
  - rewrite length_zrange in E. rewrite Z2Nat.id in E by lia.
    destruct E as [E|E]; [lia|done].
  - by left.
  - intros k x frames frames' Hk _ Eb. right.
    apply lookup_zrange_Some in Hk as [-> _]. rewrite Z.add_0_l in Eb.
    apply bind_Done in Eb as (tr & Etr & Eb). apply vload_lookupZ in Etr.
    exists tr. replace (Z.of_nat (S k) - 1) with (Z.of_nat k) by lia.
    split; [done|]. destruct (tr_next tr) as [next|]; [|done].
    injection Eb as <-. rewrite last_snoc. split; [done|]. by eexists.
Qed.

Lemma gather_windows_Done cfg mem ep_inds ep_starts u windows :
  1 <= frames_per_timestep_ cfg ->
  gather_windows cfg mem ep_inds ep_starts u = Done windows ->
  windows_of (random_slot cfg mem ep_inds ep_starts u) (length ep_inds) windows.
Proof.
  intros Hfpt E. set (slot := random_slot cfg mem ep_inds ep_starts u).
  apply (for_each_invariant _ (fun n vec => windows_of slot n vec)) in E.
  - by rewrite length_zrange, Nat2Z.id in E.
  - split; [done|]. intros k tr next Hk. lia.
  - intros n x vec vec' Hn [Hlen Hprev] Eb.
    apply lookup_zrange_Some in Hn as [-> Hn]. rewrite Z.add_0_l in Eb.
    apply bind_Done in Eb as (ind & Ei & Eb). apply vload_lookupZ in Ei.
    rewrite lookupZ_of_nat in Ei.
    apply bind_Done in Eb as (episode & Ee & Eb). apply vload_lookupZ in Ee.
    apply bind_Done in Eb as (start & Es & Eb). apply vload_lookupZ in Es.
    rewrite lookupZ_of_nat in Es.
    apply bind_Done in Eb as (u1 & _ & Eb).
    apply bind_Done in Eb as (last_tr & El & Eb). apply vload_lookupZ in El.
    assert (Hslot : slot n = Some last_tr).
    { unfold slot, random_slot. rewrite Ei. cbn [mbind option_bind]. rewrite Ee.
      cbn [mbind option_bind]. rewrite Es. done. }
    unfold windows_of. rewrite rank_S, Hslot. cbn [mbind option_bind].
    destruct (tr_next last_tr) as [next|] eqn:Hnext.
    + apply bind_Done in Eb as (input_frames & Ew & Eb). injection Eb as <-.
      apply window_frames in Ew as (tr & Htr & Hlast & _); [|done].
      replace (start + u + (frames_per_timestep_ cfg - 1)) with
        (start + u + (frames_per_timestep_ cfg - 1)) in El by done.
      rewrite El in Htr. injection Htr as <-. rewrite Hnext in Hlast.
      destruct (decide _) as [_|Hd]; [|by destruct Hd; eexists].
      split; [rewrite length_app; simpl; lia|].
      intros k tr' next' Hk Hs Hn'. destruct (decide (k = n)) as [->|Hne].
      * rewrite Hslot in Hs. injection Hs as <-. rewrite Hnext in Hn'. injection Hn' as <-.
        exists input_frames. split; [|done].
        rewrite <- Hlen. by rewrite lookup_app_r, Nat.sub_diag.
      * destruct (Hprev k tr' next' ltac:(lia) Hs Hn') as (W & HW & HlW).
        exists W. split; [|done]. by apply lookup_app_l_Some.
    + injection Eb as <-. destruct (decide _) as [[? Hd]|_]; [done|].
      split; [lia|]. intros k tr' next' Hk Hs Hn'.
      destruct (decide (k = n)) as [->|Hne]; [congruence|].
      apply (Hprev k tr' next'); [lia|done|done].
Qed.

Lemma random_targets_body cfg mem ep_inds ep_starts u avs (k : nat) acc acc' :
  (ind ← vload ep_inds (Z.of_nat k);
   episode ← vload mem ind;
   start ← vload ep_starts (Z.of_nat k);
   let ts := start + u + (frames_per_timestep_ cfg - 1) in
   _ ← CHECK (as_size_t ts <? Z.of_nat (length episode));
   transition ← vload episode ts;
   emit_target cfg u (Z.of_nat k) (u + (frames_per_timestep_ cfg - 1)) transition avs acc)
  = Done acc' ->
  match random_slot cfg mem ep_inds ep_starts u k with
  | Some tr =>
      emit_target cfg u (Z.of_nat k) (u + (frames_per_timestep_ cfg - 1)) tr avs acc
      = Done acc'
  | None => acc' = acc
  end.
Proof.
  intros Eb.
  apply bind_Done in Eb as (ind & Ei & Eb). apply vload_lookupZ in Ei.
  rewrite lookupZ_of_nat in Ei.
  apply bind_Done in Eb as (episode & Ee & Eb). apply vload_lookupZ in Ee.
  apply bind_Done in Eb as (start & Es & Eb). apply vload_lookupZ in Es.
  rewrite lookupZ_of_nat in Es. cbv zeta in Eb.
  apply bind_Done in Eb as (u1 & _ & Eb).
  apply bind_Done in Eb as (tr & El & Eb). apply vload_lookupZ in El.
  unfold random_slot. rewrite Ei. cbn [mbind option_bind]. rewrite Ee.
  cbn [mbind option_bind]. rewrite Es. cbn [mbind option_bind]. by rewrite El.
Qed.



(** The windows of a time step of UpdateSequential. *)

Lemma advance_windows_Done cfg mem ep_inds t past_frames active past_frames' :
  1 <= frames_per_timestep_ cfg < 18446744073709551616 ->
  0 <= t < 18446744073709551616 ->
  advance_windows cfg mem ep_inds t past_frames = Done (active, past_frames') ->
  forall k : nat, (k < length ep_inds)%nat ->
    exists frame_deque, past_frames' !! k = Some frame_deque
      /\ match sequential_slot mem ep_inds t k ≫= tr_next with
         | Some next => last frame_deque = Some next
         | None => frame_deque = []
         end.
Proof.
  intros Hfpt Ht E. set (slot := sequential_slot mem ep_inds t).
  apply (for_each_invariant _
    (fun n '(_, past) =>
       forall k : nat, (k < n)%nat ->
         exists frame_deque, past !! k = Some frame_deque
           /\ match slot k ≫= tr_next with
              | Some next => last frame_deque = Some next
              | None => frame_deque = []
              end)) in E.
  - by rewrite length_zrange, Nat2Z.id in E.
  - intros k Hk. lia.
  - intros n x [act past] [act' past'] Hn Hprev Eb.
    apply lookup_zrange_Some in Hn as [-> Hn]. rewrite Z.add_0_l in Eb.
    apply bind_Done in Eb as (ind & Ei & Eb). apply vload_lookupZ in Ei.
    rewrite lookupZ_of_nat in Ei.
    apply bind_Done in Eb as (episode & Ee & Eb). apply vload_lookupZ in Ee.
    apply bind_Done in Eb as (frame_deque & Ed & Eb).
    apply bind_Done in Eb as (next & En & Eb).
    assert (Hnext : slot n ≫= tr_next = next).
    { unfold slot, sequential_slot. rewrite Ei. cbn [mbind option_bind]. rewrite Ee.
      cbn [mbind option_bind]. rewrite as_size_t_small in En by done.
      destruct (Z.ltb_spec t (Z.of_nat (length episode))).
      - apply bind_Done in En as (tr & Etr & En). injection En as <-.
        apply vload_lookupZ in Etr. by rewrite Etr.
      - injection En as <-. unfold lookupZ.
        destruct (Z.leb_spec 0 t); [|done].
        rewrite lookup_ge_None_2 by lia. done. }
    assert (Hstore : exists dq, vstore past (Z.of_nat n) dq = Done past'
                       /\ match next with
                          | Some f => last dq = Some f
                          | None => dq = []
                          end).
    { destruct next as [frame|].
      - apply bind_Done in Eb as (p & Ep & Eb). injection Eb as _ <-.
        eexists. split; [exact Ep|]. unfold pop_front_while_longer.
        rewrite as_size_t_small by lia.
        rewrite last_drop_lt by (rewrite length_app; simpl; lia).
        by rewrite last_snoc.
      - apply bind_Done in Eb as (p & Ep & Eb). injection Eb as _ <-.
        by eexists. }
    destruct Hstore as (dq & Ev & Hdq). apply vstore_Done in Ev as [Hr ->].
    rewrite Nat2Z.id. intros k Hk. destruct (decide (k = n)) as [->|Hne].
    + exists dq. rewrite list_lookup_insert_eq by lia. split; [done|]. by rewrite Hnext.
    + rewrite list_lookup_insert_ne by done. apply Hprev. lia.
Qed.

Lemma collect_windows_Done cfg mem ep_inds t past_frames windows :
  (forall k : nat, (k < length ep_inds)%nat ->
     exists frame_deque, past_frames !! k = Some frame_deque
       /\ match sequential_slot mem ep_inds t k ≫= tr_next with
          | Some next => last frame_deque = Some next
          | None => frame_deque = []
          end) ->
  collect_windows cfg ep_inds past_frames = Done windows ->
  windows_of (sequential_slot mem ep_inds t) (length ep_inds) windows.
Proof.
  intros Hpast E. set (slot := sequential_slot mem ep_inds t) in *.
  apply (for_each_invariant _
    (fun n vec => windows_of slot n vec)) in E.
  - by rewrite length_zrange, Nat2Z.id in E.
  - split; [done|]. intros k tr next Hk. lia.
  - intros n x vec vec' Hn Hprev Eb.
    apply lookup_zrange_Some in Hn as [-> Hn]. rewrite Z.add_0_l in Eb.
    destruct Hprev as [Hlen Hwin].
    apply bind_Done in Eb as (frame_deque & Ed & Eb). apply vload_lookupZ in Ed.
    rewrite lookupZ_of_nat in Ed.
    destruct (Hpast n ltac:(lia)) as (dq & Hdq & Hm). rewrite Ed in Hdq.
    injection Hdq as <-.
    unfold windows_of. rewrite rank_S.
    destruct (slot n ≫= tr_next) as [next|] eqn:Hnext.
    + destruct (decide _) as [_|Hd]; [|by destruct Hd; eexists].
      destruct frame_deque as [|f0 fs]; [done|].
      apply bind_Done in Eb as (u1 & _ & Eb). injection Eb as <-.
      split; [rewrite length_app; simpl; lia|].
      intros k tr next' Hk Hs Hn'. destruct (decide (k = n)) as [->|Hne].
      * rewrite Hs in Hnext. cbn [mbind option_bind] in Hnext. rewrite Hn' in Hnext.
        injection Hnext as <-. exists (f0 :: fs). split; [|done].
        rewrite <- Hlen. by rewrite lookup_app_r, Nat.sub_diag.
      * destruct (Hwin k tr next' ltac:(lia) Hs Hn') as (W & HW & HlW).
        exists W. split; [|done]. by apply lookup_app_l_Some.
    + subst frame_deque. injection Eb as <-.
      destruct (decide _) as [[? Hd]|_]; [done|].
      split; [lia|]. intros k tr next' Hk Hs Hn'.
      destruct (decide (k = n)) as [->|Hne].
      * rewrite Hs in Hnext. cbn [mbind option_bind] in Hnext. congruence.
      * apply (Hwin k tr next'); [lia|done|done].
Qed.

Lemma sequential_targets_body cfg mem ep_inds i t avs (k : nat) acc acc' :
  0 <= t < 18446744073709551616 ->
  (ind ← vload ep_inds (Z.of_nat k);
   episode ← vload mem ind;
   if as_size_t t <? Z.of_nat (length episode) then
     transition ← vload episode t;
     emit_target cfg i (Z.of_nat k) i transition avs acc
   else Done acc) = Done acc' ->
  match sequential_slot mem ep_inds t k with
  | Some tr => emit_target cfg i (Z.of_nat k) i tr avs acc = Done acc'
  | None => acc' = acc
  end.
Proof.
  intros Ht Eb.
  apply bind_Done in Eb as (ind & Ei & Eb). apply vload_lookupZ in Ei.
  rewrite lookupZ_of_nat in Ei.
  apply bind_Done in Eb as (episode & Ee & Eb). apply vload_lookupZ in Ee.
  unfold sequential_slot. rewrite Ei. cbn [mbind option_bind]. rewrite Ee.
  cbn [mbind option_bind]. rewrite as_size_t_small in Eb by done.
  destruct (Z.ltb_spec t (Z.of_nat (length episode))).
  - apply bind_Done in Eb as (tr & Etr & Eb). apply vload_lookupZ in Etr. by rewrite Etr.
  - unfold lookupZ. destruct (Z.leb_spec 0 t); [|lia].
    rewrite lookup_ge_None_2 by lia. by injection Eb as <-.
Qed.

(** The transitions a time step of UpdateSequential trains on: none
    while the history is still filling. *)
Definition trained_slot (cfg : Config) (mem : list (list Transition)) (ep_inds : list Z)
    (t : Z) (n : nat) : option Transition :=
  if t <? frames_per_timestep_ cfg then None else sequential_slot mem ep_inds t n.

(** *** Offsets, episodes and actions *)

Lemma target_offset_apart cfg u u' (k k' : nat) tr tr' :
  0 <= minibatch_size_ cfg -> 0 <= u -> 0 <= u' ->
  Z.of_nat k < minibatch_size_ cfg -> Z.of_nat k' < minibatch_size_ cfg ->
  0 <= tr_action tr < kOutputCount -> 0 <= tr_action tr' < kOutputCount ->
  u <> u' ->
  Z.to_nat (target_offset cfg u (Z.of_nat k) tr)
    <> Z.to_nat (target_offset cfg u' (Z.of_nat k') tr').
Proof.
  unfold target_offset, offset, kOutputCount. intros Hmb Hu Hu' Hk Hk' Ha Ha' Hne.
  set (m := minibatch_size_ cfg) in *.
  assert (u * m + Z.of_nat k <> u' * m + Z.of_nat k') by nia.
  assert (0 <= u * m) by nia. assert (0 <= u' * m) by nia.
  lia.
Qed.

Lemma select_episodes_length cfg mem st :
  0 <= minibatch_size_ cfg < 18446744073709551616 ->
  Z.of_nat (length (fst (select_episodes cfg mem st))) <= minibatch_size_ cfg.
Proof.
  intros Hmb. unfold select_episodes.
  destruct (random_shuffle _ (libc_rand st)) as [ep_inds r]. cbn [fst].
  rewrite as_size_t_small by done.
  destruct (Z.ltb_spec (minibatch_size_ cfg) (Z.of_nat (length ep_inds))); [|done].
  rewrite length_take. lia.
Qed.

(** Every transition of the memory carries an action of the emulator's
    enumeration, which has no negative value. *)
Definition actions_ok (mem : list (list Transition)) : Prop :=
  Forall (Forall (fun tr => 0 <= tr_action tr)) mem.

Lemma lookupZ_elem_of {A} (l : list A) z x : lookupZ l z = Some x -> x ∈ l.
Proof.
  unfold lookupZ. destruct (0 <=? z); [|done]. apply list_elem_of_lookup_2.
Qed.

Lemma random_slot_action cfg mem ep_inds ep_starts u k tr :
  actions_ok mem -> random_slot cfg mem ep_inds ep_starts u k = Some tr -> 0 <= tr_action tr.
Proof.
  intros Hok Hs. unfold random_slot in Hs.
  destruct (ep_inds !! k) as [ind|]; [|done]. cbn [mbind option_bind] in Hs.
  destruct (lookupZ mem ind) as [episode|] eqn:Ee; [|done]. cbn [mbind option_bind] in Hs.
  destruct (ep_starts !! k) as [start|]; [|done]. cbn [mbind option_bind] in Hs.
  apply lookupZ_elem_of in Ee, Hs.
  unfold actions_ok in Hok. rewrite Forall_forall in Hok.
  specialize (Hok _ Ee). rewrite Forall_forall in Hok. by apply Hok.
Qed.

Lemma sequential_slot_action mem ep_inds t k tr :
  actions_ok mem -> sequential_slot mem ep_inds t k = Some tr -> 0 <= tr_action tr.
Proof.
  intros Hok Hs. unfold sequential_slot in Hs.
  destruct (ep_inds !! k) as [ind|]; [|done]. cbn [mbind option_bind] in Hs.
  destruct (lookupZ mem ind) as [episode|] eqn:Ee; [|done]. cbn [mbind option_bind] in Hs.
  apply lookupZ_elem_of in Ee, Hs.
  unfold actions_ok in Hok. rewrite Forall_forall in Hok.
  specialize (Hok _ Ee). rewrite Forall_forall in Hok. by apply Hok.
Qed.

(** *** When the greedy selection returns *)

(** A window as the callers build it: at least [frames_per_timestep_]
    frames, each a full [FrameData] array. *)
Definition window_ok (cfg : Config) (w : list (list byte)) : Prop :=
  frames_per_timestep_ cfg <= Z.of_nat (length w)
  /\ Forall (fun f => length f = Z.to_nat kCroppedFrameDataSize) w.

Lemma lookupZ_vload {A} (v : list A) idx x : lookupZ v idx = Some x -> vload v idx = Done x.
Proof.
  unfold lookupZ. destruct (Z.leb_spec 0 idx); [|done]. intros E.
  rewrite <- (Z2Nat.id idx) by done. by apply vload_lookup.
Qed.

Lemma copy_frame_Done frame v off :
  0 <= off -> off + Z.of_nat (length frame) <= Z.of_nat (length v) ->
  exists v', copy_frame frame v off = Done v' /\ length v' = length v.
Proof.
  intros Hoff Hle. unfold copy_frame.
  destruct (Z.leb_spec 0 off); [|lia].
  destruct (Z.leb_spec (off + Z.of_nat (length frame)) (Z.of_nat (length v))); [|lia].
  eexists. split; [done|].
  rewrite !length_app, length_take, length_map, length_drop. lia.
Qed.

Lemma stage_frames_total cfg frames_batch buf :
  0 <= frames_per_timestep_ cfg ->
  Z.of_nat (length frames_batch) * frames_per_timestep_ cfg * kCroppedFrameDataSize
    <= Z.of_nat (length buf) ->
  Forall (window_ok cfg) frames_batch ->
  exists frames, stage_frames cfg frames_batch buf = Done frames.
Proof.
  intros Hfpt Hbuf Hok. unfold stage_frames.
  destruct (for_each_total
    (fun buf n =>
       input_frames ← vload frames_batch n;
       for_each (fun buf i =>
           frame_data ← vload input_frames i;
           copy_frame frame_data buf
             (offset (frames_per_timestep_ cfg) kCroppedFrameSize kCroppedFrameSize n i 0 0))
         (zrange 0 (frames_per_timestep_ cfg)) buf)
    (fun _ b => length b = length buf)
    (zrange 0 (Z.of_nat (length frames_batch))) buf) as (frames & E & _); [done| |by eexists].
  intros k x b Hk Hb. apply lookup_zrange_Some in Hk as [-> Hk]. rewrite Z.add_0_l.
  rewrite Nat2Z.id in Hk.
  destruct (lookup_lt_is_Some_2 frames_batch k Hk) as [w Hw].
  rewrite (vload_lookup _ _ _ Hw). cbn [mbind outcome_bind].
  rewrite Forall_forall in Hok.
  destruct (Hok w (list_elem_of_lookup_2 _ _ _ Hw)) as [Hwl Hwf].
  destruct (for_each_total
    (fun buf i =>
       frame_data ← vload w i;
       copy_frame frame_data buf
         (offset (frames_per_timestep_ cfg) kCroppedFrameSize kCroppedFrameSize
                 (Z.of_nat k) i 0 0))
    (fun _ b' => length b' = length buf)
    (zrange 0 (frames_per_timestep_ cfg)) b) as (b' & E' & Hb'); [done| |by eexists].
  intros i y b2 Hi Hb2. apply lookup_zrange_Some in Hi as [-> Hi]. rewrite Z.add_0_l.
  destruct (lookup_lt_is_Some_2 w i ltac:(lia)) as [f Hf].
  rewrite (vload_lookup _ _ _ Hf). cbn [mbind outcome_bind].
  rewrite Forall_forall in Hwf. pose proof (Hwf f (list_elem_of_lookup_2 _ _ _ Hf)) as Hlen.
  destruct (copy_frame_Done f b2
              (offset (frames_per_timestep_ cfg) kCroppedFrameSize kCroppedFrameSize
                      (Z.of_nat k) (Z.of_nat i) 0 0)) as (v' & Ev & Hv').
  - unfold offset, kCroppedFrameSize. nia.
  - rewrite Hlen, Hb2.
    assert (Hsz : Z.of_nat (Z.to_nat kCroppedFrameDataSize) = 7056) by reflexivity.
    rewrite Hsz. change kCroppedFrameDataSize with 7056 in Hbuf.
    unfold offset, kCroppedFrameSize.
    assert (Z.of_nat k * frames_per_timestep_ cfg + Z.of_nat i + 1
            <= Z.of_nat (length frames_batch) * frames_per_timestep_ cfg) by nia.
    lia.
  - exists v'. split; [done|congruence].
Qed.

Lemma evaluate_actions_total q i actions :
  (forall a, f32_isnan (q i a) = false) ->
  evaluate_actions q i actions = Done (map (q i) actions).
Proof.
  intros Hq. induction actions as [|a actions IH]; [done|].
  cbn [evaluate_actions map]. rewrite Hq, IH. done.
Qed.

Lemma SelectActionGreedily_total cfg net frames_batch cont st the_net :
  deref net st = Done the_net ->
  0 <= frames_per_timestep_ cfg ->
  Z.of_nat (length frames_batch) <= as_size_t (minibatch_size_ cfg) ->
  Z.of_nat (length frames_batch) * frames_per_timestep_ cfg * kCroppedFrameDataSize
    <= Z.of_nat (length (frame_input_ st)) ->
  Forall (window_ok cfg) frames_batch ->
  legal_actions_ cfg <> [] ->
  (forall frames cont_in i a,
     f32_isnan (snd (ForwardPrefilled the_net frames cont_in) i a) = false) ->
  exists actions_and_values st',
    SelectActionGreedily cfg net frames_batch cont st = Done (actions_and_values, st').
Proof.
  intros Hd Hfpt Hmb Hbuf Hok Hlegal Hnum. unfold SelectActionGreedily.
  destruct frames_batch as [|fb0 fbs]; [by eexists _, _|].
  set (frames_batch := fb0 :: fbs) in *.
  rewrite Hd. cbn [mbind outcome_bind].
  destruct (Z.leb_spec (Z.of_nat (length frames_batch)) (as_size_t (minibatch_size_ cfg)));
    [|lia].
  cbn [CHECK mbind outcome_bind].
  destruct (stage_frames_total cfg frames_batch (fill (frame_input_ st) f32_zero))
    as [frames Es]; [done|by unfold fill; rewrite length_replicate|done|].
  rewrite Es. cbn [mbind outcome_bind].
  specialize (Hnum frames (fill (cont_input_ st) (f32_of_bool cont))).
  destruct (ForwardPrefilled the_net frames _) as [the_net' q]. cbn [snd] in Hnum.
  match goal with
  | |- context [for_each ?body ?l ?s] =>
      destruct (for_each_total body (fun _ _ => True) l s) as (results & Er & _); [done| |]
  end.
  - intros k x res _ _. rewrite evaluate_actions_total by done.
    cbn [mbind outcome_bind]. cbv zeta.
    change (map (q x) (legal_actions_ cfg)) with (q x <$> legal_actions_ cfg).
    assert (Hne : q x <$> legal_actions_ cfg <> []).
    { destruct (legal_actions_ cfg); done. }
    destruct (max_element_spec f32_ltb (fun v => f32_isnan v = false)
                f32_ltb_irrefl f32_ltb_trans f32_ltb_weak _ Hne)
      as (v & Hv & _).
    { apply Forall_forall. intros w Hw. apply list_elem_of_fmap in Hw as (a & -> & _). apply Hnum. }
    pose proof Hv as Ha. rewrite list_lookup_fmap in Ha.
    destruct (legal_actions_ cfg !! _) as [a|] eqn:Ea; [|done].
    rewrite (vload_lookup _ _ _ Ea). cbn [mbind outcome_bind].
    rewrite (vload_lookup _ _ _ Hv). cbn [mbind outcome_bind]. by eexists.
  - rewrite Er. cbn [mbind outcome_bind]. by eexists _, _.
Qed.

(** *** What reaches the engine *)

(** The floats of one batch item: the bytes of the first
    [frames_per_timestep_] frames of its window, frame after frame. *)
Definition item_floats (cfg : Config) (w : list (list byte)) : list float32 :=
  concat (map (map f32_of_uint8) (take (Z.to_nat (frames_per_timestep_ cfg)) w)).

(** A frame buffer of [size] floats in which a batch is staged: the
    items one after the other from the start, and zeros behind them. *)
Definition staged (cfg : Config) (frames_batch : list (list (list byte))) (size : nat)
  : list float32 :=
  let data := concat (map (item_floats cfg) frames_batch) in
  data ++ replicate (size - length data) f32_zero.

Lemma length_frame_floats (l : list (list byte)) :
  Forall (fun f => length f = Z.to_nat kCroppedFrameDataSize) l ->
  Z.of_nat (length (concat (map (map f32_of_uint8) l))) = Z.of_nat (length l) * 7056.
Proof.
  induction 1 as [|f l Hf Hl IH]; [done|].
  cbn [map concat length]. rewrite length_app, length_map, Hf, Nat2Z.inj_add.
  rewrite Z2Nat.id by done. change kCroppedFrameDataSize with 7056. lia.
Qed.

Lemma length_item_floats cfg w :
  0 <= frames_per_timestep_ cfg -> window_ok cfg w ->
  Z.of_nat (length (item_floats cfg w)) = frames_per_timestep_ cfg * 7056.
Proof.
  intros Hfpt [Hlen Hall]. unfold item_floats.
  rewrite length_frame_floats by (by apply Forall_take).
  rewrite length_take. lia.
Qed.

Lemma length_batch_floats cfg (ws : list (list (list byte))) :
  0 <= frames_per_timestep_ cfg -> Forall (window_ok cfg) ws ->
  Z.of_nat (length (concat (map (item_floats cfg) ws)))
  = Z.of_nat (length ws) * frames_per_timestep_ cfg * 7056.
Proof.
  intros Hfpt. induction 1 as [|w ws Hw Hws IH]; [done|].
  cbn [map concat length]. rewrite length_app, Nat2Z.inj_add, IH.
  rewrite length_item_floats by done. lia.
Qed.

Lemma copy_frame_zeros frame (A : list float32) (m : nat) off v' :
  off = Z.of_nat (length A) ->
  copy_frame frame (A ++ replicate m f32_zero) off = Done v' ->
  (length frame <= m)%nat
  /\ v' = (A ++ map f32_of_uint8 frame) ++ replicate (m - length frame) f32_zero.
Proof.
  intros -> E. unfold copy_frame in E.
  destruct (Z.leb_spec 0 (Z.of_nat (length A))); [|done].
  rewrite length_app, length_replicate in E.
  destruct (Z.leb_spec (Z.of_nat (length A) + Z.of_nat (length frame))
              (Z.of_nat (length A + m))); [|done].
  injection E as <-. split; [lia|].
  rewrite Nat2Z.id, take_app_length, drop_app_add, drop_replicate.
  by rewrite <- app_assoc.
Qed.

Lemma stage_window cfg (w : list (list byte)) n (A : list float32) (m : nat) buf' :
  0 <= frames_per_timestep_ cfg -> window_ok cfg w ->
  Z.of_nat (length A) = n * frames_per_timestep_ cfg * 7056 ->
  for_each (fun buf i =>
      frame_data ← vload w i;
      copy_frame frame_data buf
        (offset (frames_per_timestep_ cfg) kCroppedFrameSize kCroppedFrameSize n i 0 0))
    (zrange 0 (frames_per_timestep_ cfg)) (A ++ replicate m f32_zero) = Done buf' ->
  (length (item_floats cfg w) <= m)%nat
  /\ buf' = (A ++ item_floats cfg w) ++ replicate (m - length (item_floats cfg w)) f32_zero.
Proof.
  intros Hfpt [Hlen Hall] HA E.
  apply (for_each_invariant _
    (fun k buf =>
       let done := concat (map (map f32_of_uint8) (take k w)) in
       (length done <= m)%nat
       /\ buf = (A ++ done) ++ replicate (m - length done) f32_zero)) in E.
  - by rewrite length_zrange in E.
  - cbv zeta. rewrite take_0. cbn [map concat length].
    rewrite app_nil_r, Nat.sub_0_r. split; [lia|done].
  - intros k x buf buf1 Hk [Hle ->] Eb. cbv zeta.
    apply lookup_zrange_Some in Hk as [-> Hk]. rewrite Z.add_0_l in Eb.
    apply bind_Done in Eb as (frame & Ef & Eb).
    apply vload_Done in Ef as [_ Ef]. rewrite Nat2Z.id in Ef.
    assert (Hf : Z.of_nat (length frame) = 7056).
    { rewrite Forall_forall in Hall.
      rewrite (Hall frame) by (by apply list_elem_of_lookup_2 with k). done. }
    assert (Hd : Z.of_nat (length (concat (map (map f32_of_uint8) (take k w))))
                 = Z.of_nat k * 7056).
    { rewrite length_frame_floats by (by apply Forall_take).
      rewrite length_take. lia. }
    apply copy_frame_zeros in Eb as [Hm ->].
    + rewrite (take_S_r _ _ _ Ef), map_app, concat_app. cbn [map concat].
      rewrite app_nil_r, length_app, length_map.
      split; [lia|]. rewrite <- !app_assoc. do 3 f_equal. f_equal. lia.
    + rewrite length_app, Nat2Z.inj_add, HA, Hd.
      unfold offset, kCroppedFrameSize. lia.
Qed.

(** A batch of well-formed windows staged into a zeroed buffer. *)
Lemma stage_frames_staged cfg frames_batch (size : nat) frames :
  0 <= frames_per_timestep_ cfg -> Forall (window_ok cfg) frames_batch ->
  stage_frames cfg frames_batch (replicate size f32_zero) = Done frames ->
  frames = staged cfg frames_batch size.
Proof.
  intros Hfpt Hok E. unfold stage_frames in E.
  apply (for_each_invariant _
    (fun k buf =>
       let data := concat (map (item_floats cfg) (take k frames_batch)) in
       (length data <= size)%nat
       /\ buf = data ++ replicate (size - length data) f32_zero)) in E.
  - rewrite length_zrange, Nat2Z.id, firstn_all in E. by destruct E as [_ ->].
  - cbv zeta. rewrite take_0. cbn [map concat length app].
    split; [lia|]. by rewrite Nat.sub_0_r.
  - intros k x buf buf1 Hk [Hle ->] Eb. cbv zeta.
    apply lookup_zrange_Some in Hk as [-> Hk]. rewrite Z.add_0_l in Eb.
    apply bind_Done in Eb as (w & Ew & Eb).
    apply vload_Done in Ew as [_ Ew]. rewrite Nat2Z.id in Ew.
    assert (Hw : window_ok cfg w).
    { rewrite Forall_forall in Hok. by apply Hok, list_elem_of_lookup_2 with k. }
    apply (stage_window cfg w (Z.of_nat k) _ _ _ Hfpt Hw) in Eb as [Hm ->].
    + rewrite (take_S_r _ _ _ Ew), map_app, concat_app. cbn [map concat].
      rewrite app_nil_r, length_app. split; [lia|].
      by rewrite Nat.sub_add_distr.
    + rewrite length_batch_floats by (done || by apply Forall_take).
      rewrite length_take. rewrite Nat2Z.id in Hk. lia.
Qed.
Section Selection.
Context `{!RandomLaws}.

(** [count] successive draws of
    [std::uniform_int_distribution<int>(0, hi)(random_engine)]: the
    results and the engine they leave. *)
Fixpoint uniform_draws (hi : Z) (count : nat) (g : RandomEngine) : list Z * RandomEngine :=
  match count with
  | O => ([], g)
  | S count =>
      let '(r, g) := uniform_int 0 hi g in
      let '(rs, g) := uniform_draws hi count g in
      (r :: rs, g)
  end.

Lemma random_actions_loop cfg st (l : list Z) : forall actions0 g,
  legal_actions_ cfg <> [] ->
  Z.of_nat (length (legal_actions_ cfg)) <= INT_MAX ->
  let hi := Z.of_nat (length (legal_actions_ cfg)) - 1 in
  exists actions,
    for_each (fun '(actions, st) (_ : Z) =>
        let hi := wrap32 (as_size_t (Z.of_nat (length (legal_actions_ cfg)) - 1)) in
        if hi <? 0 then Fatal Undefined else
        let '(random_idx, g) := uniform_int 0 hi (random_engine st) in
        a ← vload (legal_actions_ cfg) random_idx;
        Done (actions ++ [a], set_random_engine g st))
      l (actions0, set_random_engine g st)
    = Done (actions0 ++ actions,
            set_random_engine (snd (uniform_draws hi (length l) g)) st)
    /\ Forall2 (fun r a => lookupZ (legal_actions_ cfg) r = Some a)
         (fst (uniform_draws hi (length l) g)) actions.
Proof.
  intros actions0 g Hne Hmax hi.
  assert (Hlen : (0 < length (legal_actions_ cfg))%nat).
  { destruct (legal_actions_ cfg); [done|simpl; lia]. }
  assert (Hhi : wrap32 (as_size_t (Z.of_nat (length (legal_actions_ cfg)) - 1)) = hi).
  { unfold as_size_t. rewrite Z.mod_small by (unfold INT_MAX in Hmax; lia).
    apply wrap32_id. unfold in_int, INT_MIN, INT_MAX in *. lia. }
  match goal with |- context [for_each ?b _ _] => set (body := b) end.
  revert actions0 g. induction l as [|x l IH]; intros actions0 g.
  - exists []. cbn [for_each length uniform_draws fst snd].
    rewrite app_nil_r. split; [by destruct st|constructor].
  - cbn [for_each length uniform_draws].
    pose proof (uniform_int_range 0 hi g ltac:(lia)) as Hr.
    destruct (uniform_int 0 hi g) as [r g1] eqn:Er. cbn [fst] in Hr.
    destruct (lookup_lt_is_Some_2 (legal_actions_ cfg) (Z.to_nat r)) as [a Ha]; [lia|].
    assert (Hl : lookupZ (legal_actions_ cfg) r = Some a).
    { unfold lookupZ. by destruct (Z.leb_spec 0 r); [|lia]. }
    assert (Hb : body (actions0, set_random_engine g st) x
                 = Done (actions0 ++ [a], set_random_engine g1 st)).
    { subst body. cbv beta iota zeta. rewrite Hhi.
      destruct (Z.ltb_spec hi 0); [lia|]. cbn [random_engine set_random_engine].
      rewrite Er, (lookupZ_vload _ _ _ Hl). done. }
    rewrite Hb. cbn [mbind outcome_bind].
    destruct (IH (actions0 ++ [a]) g1) as (actions & E & Hall).
    rewrite E. destruct (uniform_draws hi (length l) g1) as [rs g2].
    exists (a :: actions). cbn [fst snd] in *. rewrite <- app_assoc. split; [done|].
    by constructor.
Qed.

(** With epsilon = 1 the actions are the legal actions at the indices
    drawn, one draw per batch item, and only the random engine moves. *)
Lemma SelectActions_draws cfg frames_batch cont st :
  Z.of_nat (length frames_batch) <= as_size_t (minibatch_size_ cfg) ->
  legal_actions_ cfg <> [] ->
  Z.of_nat (length (legal_actions_ cfg)) <= INT_MAX ->
  let draws := uniform_draws (Z.of_nat (length (legal_actions_ cfg)) - 1)
                 (length frames_batch) (snd (uniform_real (random_engine st))) in
  exists actions,
    SelectActions cfg frames_batch 1 cont st
    = Done (actions, set_random_engine (snd draws) st)
    /\ Forall2 (fun r a => lookupZ (legal_actions_ cfg) r = Some a) (fst draws) actions.
Proof.
  intros Hsize Hne Hmax. cbv zeta. unfold SelectActions.
  change (CHECK ((1 <=? 1)%float && (0 <=? 1)%float)) with (Done tt).
  cbn [mbind outcome_bind].
  destruct (Z.leb_spec (Z.of_nat (length frames_batch)) (as_size_t (minibatch_size_ cfg)));
    [|lia].
  cbn [CHECK mbind outcome_bind].
  pose proof (draw_below_one (random_engine st)) as Hu.
  destruct (uniform_real (random_engine st)) as [u g]. cbn [fst snd] in *. rewrite Hu.
  destruct (random_actions_loop cfg st (zrange 0 (Z.of_nat (length frames_batch))) [] g
              Hne Hmax) as (actions & E & Hall).
  rewrite length_zrange, Nat2Z.id in E, Hall.
  exists actions. split; [exact E|exact Hall].
Qed.

(** With epsilon = 0 the test net makes one forward pass on the staged
    batch, and every action is the greedy one for its item. *)
Lemma SelectActions_greedy_total cfg frames_batch cont st :
  0 <= frames_per_timestep_ cfg ->
  Z.of_nat (length frames_batch) <= as_size_t (minibatch_size_ cfg) ->
  Z.of_nat (length frames_batch) * frames_per_timestep_ cfg * kCroppedFrameDataSize
    <= Z.of_nat (length (frame_input_ st)) ->
  Forall (window_ok cfg) frames_batch ->
  legal_actions_ cfg <> [] ->
  (forall frames cont_in i a,
     f32_isnan (snd (ForwardPrefilled (get_test_net (solver_ st)) frames cont_in) i a)
     = false) ->
  let frames := staged cfg frames_batch (length (frame_input_ st)) in
  let cont_in := replicate (length (cont_input_ st)) (f32_of_bool cont) in
  let q := snd (ForwardPrefilled (get_test_net (solver_ st)) frames cont_in) in
  exists actions st',
    SelectActions cfg frames_batch 0 cont st = Done (actions, st')
    /\ length actions = length frames_batch
    /\ trace st' = trace st ++ match frames_batch with
                               | [] => []
                               | _ => [Forward test_net_ frames cont_in]
                               end
    /\ forall (i : nat) a, actions !! i = Some a -> best_action cfg q (Z.of_nat i) a.
Proof.
  intros Hfpt Hmb Hbuf Hok Hlegal Hnum. cbv zeta.
  pose proof (draw_not_below_zero (random_engine st)) as Hu.
  destruct (uniform_real (random_engine st)) as [u g] eqn:Edraw. cbn [fst] in Hu.
  destruct (SelectActionGreedily_total cfg test_net_ frames_batch cont
              (set_random_engine g st) (get_test_net (solver_ st)))
    as (avs & st2 & Eg); [done..|].
  assert (Hlen : length avs = length frames_batch).
  { destruct (decide (frames_batch = [])) as [->|Hne]; [by injection Eg as <- <-|].
    by apply SelectActionGreedily_Done in Eg as (? & ? & ? & ? & _ & _ & _ & _ & ? & _). }
  assert (E : SelectActions cfg frames_batch 0 cont st = Done (map fst avs, st2)).
  { unfold SelectActions.
    change (CHECK ((0 <=? 1)%float && (0 <=? 0)%float)) with (Done tt).
    cbn [mbind outcome_bind].
    destruct (Z.leb_spec (Z.of_nat (length frames_batch)) (as_size_t (minibatch_size_ cfg)));
      [|lia].
    cbn [CHECK mbind outcome_bind]. rewrite Edraw, Hu, Eg. cbn [mbind outcome_bind].
    rewrite bool_decide_eq_true_2 by done. done. }
  exists (map fst avs), st2. split; [exact E|]. split; [by rewrite length_map|].
  destruct (decide (frames_batch = [])) as [->|Hne].
  - injection Eg as <- <-. cbn [trace set_random_engine map]. rewrite app_nil_r.
    split; [done|]. intros i a Hi. done.
  - apply SelectActionGreedily_Done in Eg
      as (the_net & frames & the_net' & q & Hd & Hs & Hf & -> & _ & Hq); [|done].
    cbn [deref solver_ set_random_engine] in Hd. injection Hd as <-.
    cbn [frame_input_ cont_input_ set_random_engine] in Hs, Hf. unfold fill in Hs, Hf.
    apply stage_frames_staged in Hs; [|done|done]. subst frames.
    rewrite Hf. cbn [snd]. split.
    + cbn [trace log assign set_buffers set_random_engine]. by destruct frames_batch.
    + intros i a Hi. change (map fst avs) with (fst <$> avs) in Hi.
      rewrite list_lookup_fmap in Hi. destruct (avs !! i) as [[a' v]|] eqn:Ei; [|done].
      injection Hi as <-. by apply (Hq i a' v).
Qed.


End Selection.



(** *** Sampling the start offsets *)

Section Sampling.
Context `{!RandomLaws}.

Lemma elem_of_zrange x count : x ∈ zrange 0 count -> 0 <= x < count.
Proof.
  intros Hx. apply list_elem_of_lookup_1 in Hx as [k Hk].
  apply lookup_zrange_Some in Hk as [-> Hk]. lia.
Qed.

Lemma select_episodes_elem cfg mem st ind :
  ind ∈ fst (select_episodes cfg mem st) ->
  exists episode, lookupZ mem ind = Some episode /\ episode ∈ mem.
Proof.
  unfold select_episodes.
  pose proof (random_shuffle_perm (zrange 0 (Z.of_nat (length mem))) (libc_rand st)) as Hp.
  destruct (random_shuffle _ (libc_rand st)) as [ep_inds r]. cbn [fst] in *.
  intros Hin.
  assert (Hin' : ind ∈ ep_inds).
  { destruct (_ <? _); [|done]. by eapply subseteq_take. }
  rewrite Hp in Hin'. apply elem_of_zrange in Hin'.
  destruct (lookup_lt_is_Some_2 mem (Z.to_nat ind)) as [episode He]; [lia|].
  exists episode. split; [|by eapply list_elem_of_lookup_2].
  unfold lookupZ. destruct (Z.leb_spec 0 ind); [done|lia].
Qed.

Lemma select_episodes_count cfg mem st :
  (length (fst (select_episodes cfg mem st)) <= length mem)%nat.
Proof.
  unfold select_episodes.
  pose proof (random_shuffle_perm (zrange 0 (Z.of_nat (length mem))) (libc_rand st)) as Hp.
  destruct (random_shuffle _ (libc_rand st)) as [ep_inds r]. cbn [fst] in *.
  apply Permutation_length in Hp. rewrite length_zrange, Nat2Z.id in Hp.
  destruct (_ <? _); [rewrite length_take|]; lia.
Qed.

(** With every stored episode long enough for a history window and an
    unroll window, the sampling returns, and the windows of every start
    lie inside their episode. *)
Lemma sample_starts_total cfg mem (ep_inds : list Z) st :
  Z.of_nat (length ep_inds) <= INT_MAX ->
  (forall ind, ind ∈ ep_inds -> exists episode,
     lookupZ mem ind = Some episode
     /\ frames_per_timestep_ cfg + unroll_ cfg - 1 <= Z.of_nat (length episode) <= INT_MAX) ->
  exists ep_starts st',
    sample_starts cfg mem ep_inds st = Done (ep_starts, st')
    /\ length ep_starts = length ep_inds
    /\ forall (k : nat) ind episode start,
         ep_inds !! k = Some ind -> lookupZ mem ind = Some episode ->
         ep_starts !! k = Some start ->
         0 <= start
         /\ start + (unroll_ cfg - 1) + (frames_per_timestep_ cfg - 1)
            < Z.of_nat (length episode).
Proof.
  intros Hn Hmem. unfold sample_starts.
  assert (Hw : wrap32 (Z.of_nat (length ep_inds)) = Z.of_nat (length ep_inds)).
  { apply wrap32_id. unfold in_int, INT_MIN, INT_MAX in *. lia. }
  rewrite Hw, Nat2Z.id.
  match goal with
  | |- context [for_each ?body ?l ?s] =>
      destruct (for_each_total body
        (fun n '(ep_starts, _) =>
           length ep_starts = length ep_inds
           /\ forall (k : nat) ind episode start, (k < n)%nat ->
                ep_inds !! k = Some ind -> lookupZ mem ind = Some episode ->
                ep_starts !! k = Some start ->
                0 <= start
                /\ start + (unroll_ cfg - 1) + (frames_per_timestep_ cfg - 1)
                   < Z.of_nat (length episode)) l s)
        as ([ep_starts st'] & E & Hlen & Hinv)
  end.
  - split; [by rewrite length_replicate|]. intros k ind episode start Hk. lia.
  - intros k x [ep_starts st1] Hk [Hlen Hprev].
    apply lookup_zrange_Some in Hk as [-> Hk]. rewrite Z.add_0_l. rewrite Nat2Z.id in Hk.
    destruct (lookup_lt_is_Some_2 ep_inds k Hk) as [ind Hind].
    rewrite (vload_lookup _ _ _ Hind). cbn [mbind outcome_bind].
    destruct (Hmem ind (list_elem_of_lookup_2 _ _ _ Hind)) as (episode & He & Hsize).
    rewrite (lookupZ_vload _ _ _ He). cbn [mbind outcome_bind]. cbv zeta.
    assert (Hws : wrap32 (Z.of_nat (length episode)) = Z.of_nat (length episode)).
    { apply wrap32_id. unfold in_int, INT_MIN, INT_MAX in *. lia. }
    rewrite Hws.
    set (last_valid_frame :=
           Z.of_nat (length episode) - 1 - (frames_per_timestep_ cfg - 1) - (unroll_ cfg - 1)).
    destruct (Z.ltb_spec last_valid_frame 0); [unfold last_valid_frame in *; lia|].
    pose proof (uniform_int_range 0 last_valid_frame (random_engine st1) ltac:(lia)) as Hr.
    destruct (uniform_int 0 last_valid_frame (random_engine st1)) as [start g].
    cbn [fst] in Hr. unfold vstore.
    destruct (Z.leb_spec 0 (Z.of_nat k)); [|lia].
    destruct (Z.ltb_spec (Z.of_nat k) (Z.of_nat (length ep_starts))); [|lia].
    cbn [andb mbind outcome_bind]. eexists. split; [reflexivity|]. cbv beta iota.
    split; [by rewrite length_insert|].
    intros j ind' episode' start' Hj Hi' He' Hs'. rewrite Nat2Z.id in Hs'.
    destruct (decide (j = k)) as [->|Hne].
    + rewrite list_lookup_insert_eq in Hs' by lia. injection Hs' as <-.
      rewrite Hind in Hi'. injection Hi' as <-. rewrite He in He'. injection He' as <-.
      unfold last_valid_frame in *. lia.
    + rewrite list_lookup_insert_ne in Hs' by done.
      apply (Hprev j ind' episode' start'); [lia|done..].
  - exists ep_starts, st'. split; [done|]. split; [done|].
    rewrite length_zrange, Nat2Z.id in Hinv.
    intros k ind episode start Hi. apply Hinv; [|done].
    by eapply lookup_lt_Some.
Qed.

(** C8 as the code has it: UpdateRandom samples without looking at the
    episode lengths.  When every stored episode holds at least
    [frames_per_timestep_ + unroll_ - 1] transitions, the sampling
    returns one start per selected episode, and a history window plus an
    unroll window from that start lies inside the episode. *)
Theorem sample_starts_in_bounds cfg mem st0 st :
  Z.of_nat (length mem) <= INT_MAX ->
  Forall (fun episode : list Transition =>
            frames_per_timestep_ cfg + unroll_ cfg - 1 <= Z.of_nat (length episode) <= INT_MAX)
         mem ->
  exists ep_starts st',
    sample_starts cfg mem (fst (select_episodes cfg mem st0)) st = Done (ep_starts, st')
    /\ length ep_starts = length (fst (select_episodes cfg mem st0))
    /\ forall (k : nat) ind episode start,
         fst (select_episodes cfg mem st0) !! k = Some ind ->
         lookupZ mem ind = Some episode ->
         ep_starts !! k = Some start ->
         0 <= start
         /\ start + (unroll_ cfg - 1) + (frames_per_timestep_ cfg - 1)
            < Z.of_nat (length episode).
Proof.
  intros Hn Hmem. apply sample_starts_total.
  - pose proof (select_episodes_count cfg mem st0). lia.
  - intros ind Hin. apply select_episodes_elem in Hin as (episode & He & Hin).
    exists episode. split; [done|]. rewrite Forall_forall in Hmem. by apply Hmem.
Qed.

End Sampling.



End Facts.

(** ** Further facts about the calls *)

Section Calls.
Context `{Caffe} `{Random}.

(** *** More on action selection *)

Lemma SelectActions_shape cfg frames_batch epsilon cont st actions st' :
  SelectActions cfg frames_batch epsilon cont st = Done (actions, st') ->
  length actions = length frames_batch
  /\ Forall (fun a => a ∈ legal_actions_ cfg) actions.
Proof.
  intros E. unfold SelectActions in E.
  apply bind_Done in E as (u1 & _ & E). apply bind_Done in E as (u2 & _ & E).
  destruct (uniform_real (random_engine st)) as [u g].
  destruct (u <? epsilon)%float.
  - apply (for_each_invariant _
      (fun k '(acts, _) =>
         length acts = k /\ Forall (fun a => a ∈ legal_actions_ cfg) acts)) in E.
    + by rewrite length_zrange, Nat2Z.id in E.
    + done.
    + intros k x [acts s] [acts' s'] _ [Hlen Hall] Eb. cbv zeta in Eb.
      destruct (_ <? 0); [done|].
      destruct (uniform_int 0 _ (random_engine s)) as [random_idx g'].
      apply bind_Done in Eb as (a & Ea & Eb). injection Eb as <- <-.
      apply vload_Done in Ea as [_ Ea].
      split; [rewrite length_app; simpl; lia|].
      apply Forall_app. split; [done|]. constructor; [|done].
      by eapply list_elem_of_lookup_2.
  - apply bind_Done in E as ([avs st2] & Eg & E).
    apply bind_Done in E as (u3 & Hc & E). injection E as <- <-.
    apply CHECK_Done, bool_decide_eq_true in Hc.
    split; [by rewrite length_map|].
    destruct (decide (frames_batch = [])) as [->|Hne].
    + injection Eg as <- <-. constructor.
    + apply SelectActionGreedily_Done in Eg as (? & ? & ? & q & _ & _ & _ & _ & _ & Hq);
        [|done].
      apply Forall_forall. intros a Ha.
      change (map fst avs) with (fst <$> avs) in Ha.
      apply list_elem_of_fmap in Ha as ([a' v] & -> & Hin).
      apply list_elem_of_lookup_1 in Hin as [k Hk].
      destruct (Hq k a' v Hk) as [_ (m & Hm & _)]. by eapply list_elem_of_lookup_2.
Qed.

(** X13: whatever epsilon is, a call of SelectActions that returns gives
    one action per batch item, and each is one of the legal actions. *)
Theorem SelectActions_legal cfg frames_batch epsilon cont st actions st' :
  SelectActions cfg frames_batch epsilon cont st = Done (actions, st') ->
  length actions = length frames_batch
  /\ Forall (fun a => a ∈ legal_actions_ cfg) actions.
Proof. exact (SelectActions_shape cfg frames_batch epsilon cont st actions st'). Qed.

(** [SelectAction]: the only action of a batch of one.
<<
  return SelectActions(InputFramesBatch{{frames}}, epsilon, cont)[0];
>> *)
Definition SelectAction (cfg : Config) (frames : list (list byte)) (epsilon : float)
    (cont : bool) (st : DQN) : outcome (Action * DQN) :=
  '(actions, st) ← SelectActions cfg [frames] epsilon cont st;
  a ← vload actions 0;
  Done (a, st).

(** X14: SelectAction never indexes an empty vector: it returns exactly
    when SelectActions returns on the batch of one, with the same state
    and the one action selected, which is a legal action. *)
Theorem SelectAction_single cfg frames epsilon cont st :
  match SelectActions cfg [frames] epsilon cont st with
  | Done (actions, st') =>
      exists a, actions = [a] /\ a ∈ legal_actions_ cfg
        /\ SelectAction cfg frames epsilon cont st = Done (a, st')
  | Fatal f => SelectAction cfg frames epsilon cont st = Fatal f
  end.
Proof.
  unfold SelectAction.
  destruct (SelectActions cfg [frames] epsilon cont st) as [[actions st']|f] eqn:E; [|done].
  apply SelectActions_shape in E as [Hlen Hall].
  destruct actions as [|a [|b actions]]; try done.
  exists a. split; [done|]. split; [by inversion Hall|done].
Qed.

Lemma as_size_t_nonneg z : 0 <= as_size_t z.
Proof. unfold as_size_t. apply Z.mod_pos_bound. lia. Qed.

Lemma for_each_skip {A S} (body : S -> A -> outcome S) l st :
  (forall x, x ∈ l -> body st x = Done st) -> for_each body l st = Done st.
Proof.
  induction l as [|x l IH]; intros Hskip; [done|]. cbn [for_each].
  rewrite Hskip by constructor. cbn [mbind outcome_bind].
  apply IH. intros y Hy. apply Hskip. by constructor.
Qed.

(** X15: on an empty batch SelectActions returns no action for every
    epsilon in [0, 1]: it draws once from the random engine and makes no
    call to the evaluation engine. *)
Theorem SelectActions_empty cfg epsilon cont st :
  (epsilon <=? 1)%float = true -> (0 <=? epsilon)%float = true ->
  SelectActions cfg [] epsilon cont st
  = Done ([], set_random_engine (snd (uniform_real (random_engine st))) st).
Proof.
  intros Hle Hge. unfold SelectActions. rewrite Hle, Hge.
  cbn [andb CHECK mbind outcome_bind length].
  destruct (Z.leb_spec (Z.of_nat 0) (as_size_t (minibatch_size_ cfg)));
    [|pose proof (as_size_t_nonneg (minibatch_size_ cfg)); lia].
  cbn [CHECK mbind outcome_bind].
  destruct (uniform_real (random_engine st)) as [u g]. cbn [snd].
  by destruct (u <? epsilon)%float.
Qed.

(** *** What the calls leave as it was *)

Definition is_solver_step (c : call) : bool :=
  match c with
  | SolverStep _ _ _ _ => true
  | Forward _ _ _ => false
  end.

(** The number of solver steps in a trace. *)
Definition solver_step_count (tr : list call) : Z :=
  Z.of_nat (length (List.filter is_solver_step tr)).

(** The staging buffers keep their sizes. *)
Definition same_shape (st st' : DQN) : Prop :=
  length (frame_input_ st') = length (frame_input_ st)
  /\ length (target_input_ st') = length (target_input_ st)
  /\ length (filter_input_ st') = length (filter_input_ st)
  /\ length (cont_input_ st') = length (cont_input_ st).

(** No solver step was made, and no buffer resized. *)
Definition quiet (st st' : DQN) : Prop :=
  same_shape st st' /\ solver_step_count (trace st') = solver_step_count (trace st).

Lemma solver_step_count_snoc tr c :
  solver_step_count (tr ++ [c])
  = solver_step_count tr + (if is_solver_step c then 1 else 0).
Proof.
  unfold solver_step_count. rewrite List.filter_app, length_app. cbn [List.filter].
  destruct (is_solver_step c); cbn [length]; lia.
Qed.

Lemma quiet_refl st : quiet st st.
Proof. by repeat split. Qed.

Lemma quiet_trans st1 st2 st3 : quiet st1 st2 -> quiet st2 st3 -> quiet st1 st3.
Proof.
  intros [(? & ? & ? & ?) ?] [(? & ? & ? & ?) ?]. repeat split; congruence.
Qed.

Lemma for_each_quiet {A} (body : DQN -> A -> outcome DQN) l st st' :
  (forall s x s', body s x = Done s' -> quiet s s') ->
  for_each body l st = Done st' -> quiet st st'.
Proof.
  intros Hbody E.
  refine (for_each_invariant body (fun _ s => quiet st s) l st st' _ _ E).
  - apply quiet_refl.
  - intros k x s s' _ Hs Eb. eapply quiet_trans; [done|]. by eapply Hbody.
Qed.

Lemma copy_frame_length frame v off v' :
  copy_frame frame v off = Done v' -> length v' = length v.
Proof.
  unfold copy_frame. destruct (Z.leb_spec 0 off); [|done].
  destruct (Z.leb_spec (off + Z.of_nat (length frame)) (Z.of_nat (length v))); [|done].
  intros [= <-]. rewrite !length_app, length_take, length_map, length_drop. lia.
Qed.

Lemma vstore_length {A} (v : list A) idx x v' : vstore v idx x = Done v' -> length v' = length v.
Proof. intros E. apply vstore_Done in E as [_ ->]. apply length_insert. Qed.

Lemma fill_length {A} (v : list A) x : length (fill v x) = length v.
Proof. apply length_replicate. Qed.

Lemma stage_frames_length cfg frames_batch buf frames :
  stage_frames cfg frames_batch buf = Done frames -> length frames = length buf.
Proof.
  intros E.
  refine (for_each_invariant _ (fun _ b => length b = length buf) _ _ _ _ _ E); [done|].
  intros k x b b' _ Hb Eb. apply bind_Done in Eb as (w & _ & Eb).
  refine (for_each_invariant _ (fun _ b => length b = length buf) _ _ _ _ _ Eb); [done|].
  intros i y b2 b2' _ Hb2 Ec. apply bind_Done in Ec as (f & _ & Ec).
  apply copy_frame_length in Ec. congruence.
Qed.

Lemma SelectActionGreedily_quiet cfg net frames_batch cont st avs st' :
  SelectActionGreedily cfg net frames_batch cont st = Done (avs, st') -> quiet st st'.
Proof.
  intros E. destruct (decide (frames_batch = [])) as [->|Hne].
  - injection E as <- <-. apply quiet_refl.
  - apply SelectActionGreedily_Done in E as (? & frames & ? & ? & _ & Es & _ & -> & _);
      [|done].
    apply stage_frames_length in Es. rewrite fill_length in Es.
    split.
    + unfold same_shape.
      destruct net;
        cbn [frame_input_ target_input_ filter_input_ cont_input_ log assign set_buffers];
        rewrite fill_length; done.
    + destruct net; cbn [trace log assign set_buffers];
        rewrite solver_step_count_snoc; cbn [is_solver_step]; lia.
Qed.

Lemma emit_target_quiet cfg slot n frame_idx transition avs idx st idx' st' :
  emit_target cfg slot n frame_idx transition avs (idx, st) = Done (idx', st') ->
  quiet st st'.
Proof.
  unfold emit_target. intros E.
  apply bind_Done in E as (? & _ & E). apply bind_Done in E as (? & _ & E).
  apply bind_Done in E as ([target idx1] & _ & E).
  apply bind_Done in E as (? & _ & E).
  apply bind_Done in E as (flt & Ef & E).
  apply bind_Done in E as (tgt & Et & E).
  apply bind_Done in E as (frames & Ec & E). apply Done_pair_inj in E as [<- <-].
  apply vstore_length in Ef, Et. apply copy_frame_length in Ec.
  by repeat split.
Qed.

Lemma targets_quiet {A} (body : Z * DQN -> A -> outcome (Z * DQN)) l acc acc' :
  (forall a x a', body a x = Done a' -> quiet (snd a) (snd a')) ->
  for_each body l acc = Done acc' -> quiet (snd acc) (snd acc').
Proof.
  intros Hbody E.
  refine (for_each_invariant body (fun _ a => quiet (snd acc) (snd a)) l acc acc' _ _ E).
  - apply quiet_refl.
  - intros k x a a' _ Ha Eb. eapply quiet_trans; [done|]. by eapply Hbody.
Qed.

Lemma random_unroll_quiet cfg mem ep_inds ep_starts st u st' :
  random_unroll cfg mem ep_inds ep_starts st u = Done st' -> quiet st st'.
Proof.
  unfold random_unroll. intros E.
  apply bind_Done in E as (windows & _ & E).
  apply bind_Done in E as ([avs st1] & Eg & E).
  apply bind_Done in E as ([idx st2] & Et & E).
  apply bind_Done in E as (? & _ & E). injection E as <-.
  apply SelectActionGreedily_quiet in Eg. eapply quiet_trans; [done|].
  unfold random_targets in Et. refine (targets_quiet _ _ (0, st1) (idx, st2) _ Et).
  intros [i s] slot [i' s'] Eb.
  apply bind_Done in Eb as (? & _ & Eb). apply bind_Done in Eb as (? & _ & Eb).
  apply bind_Done in Eb as (? & _ & Eb). cbv zeta in Eb.
  apply bind_Done in Eb as (? & _ & Eb). apply bind_Done in Eb as (? & _ & Eb).
  by eapply emit_target_quiet.
Qed.

Lemma sequential_step_quiet cfg mem ep_inds i t past_frames st active past_frames' st' :
  sequential_step cfg mem ep_inds i t past_frames st = Done (active, past_frames', st') ->
  quiet st st'.
Proof.
  unfold sequential_step. intros E.
  apply bind_Done in E as ([act past1] & _ & E).
  destruct (t <? frames_per_timestep_ cfg).
  { injection E as <- <- <-. apply quiet_refl. }
  apply bind_Done in E as (windows & _ & E).
  apply bind_Done in E as ([avs st1] & Eg & E).
  apply bind_Done in E as ([idx st2] & Et & E).
  apply bind_Done in E as (? & _ & E). injection E as <- <- <-.
  apply SelectActionGreedily_quiet in Eg. eapply quiet_trans; [done|].
  unfold sequential_targets in Et. refine (targets_quiet _ _ (0, st1) (idx, st2) _ Et).
  intros [j s] slot [j' s'] Eb.
  apply bind_Done in Eb as (? & _ & Eb). apply bind_Done in Eb as (episode & _ & Eb).
  destruct (_ <? _).
  - apply bind_Done in Eb as (? & _ & Eb). by eapply emit_target_quiet.
  - injection Eb as <- <-. apply quiet_refl.
Qed.

Lemma refresh_clone_quiet cfg st : quiet st (refresh_clone cfg st).
Proof.
  unfold refresh_clone. destruct (match clone st with Some _ => _ | None => _ end);
    exact (quiet_refl st).
Qed.

Lemma select_episodes_quiet cfg mem st : quiet st (snd (select_episodes cfg mem st)).
Proof.
  unfold select_episodes. destruct (random_shuffle _ _) as [ep_inds r]. exact (quiet_refl st).
Qed.

Lemma sample_starts_quiet cfg mem ep_inds st ep_starts st' :
  sample_starts cfg mem ep_inds st = Done (ep_starts, st') -> quiet st st'.
Proof.
  unfold sample_starts. intros E.
  refine (for_each_invariant _ (fun _ '(_, s) => quiet st s) _ _ _ _ _ E);
    [apply quiet_refl|].
  intros k x [starts s] [starts' s'] _ Hs Eb.
  apply bind_Done in Eb as (? & _ & Eb). apply bind_Done in Eb as (? & _ & Eb).
  cbv zeta in Eb. destruct (_ <? 0); [done|].
  destruct (uniform_int 0 _ (random_engine s)) as [start g].
  apply bind_Done in Eb as (? & _ & Eb). injection Eb as <- <-. exact Hs.
Qed.

Lemma copy_history_quiet cfg mem ep_inds ep_starts st st' :
  copy_history cfg mem ep_inds ep_starts st = Done st' -> quiet st st'.
Proof.
  apply for_each_quiet. intros s n s'. apply for_each_quiet. intros s2 i s2' Eb.
  apply bind_Done in Eb as (? & _ & Eb). apply bind_Done in Eb as (? & _ & Eb).
  apply bind_Done in Eb as (? & _ & Eb). apply bind_Done in Eb as (? & _ & Eb).
  apply bind_Done in Eb as (frames & Ec & Eb). injection Eb as <-.
  apply copy_frame_length in Ec. by repeat split.
Qed.

Lemma zero_first_cont_length cfg cont cont' :
  zero_first_cont cfg cont = Done cont' -> length cont' = length cont.
Proof.
  intros E.
  refine (for_each_invariant _ (fun _ c => length c = length cont) _ _ _ _ _ E); [done|].
  intros k x c c' _ Hc Eb. apply vstore_length in Eb. congruence.
Qed.

(** A training step: one more solver step, the buffers as they were. *)
Lemma train_step_count st :
  same_shape st (train_step st)
  /\ solver_step_count (trace (train_step st)) = solver_step_count (trace st) + 1.
Proof.
  split; [by repeat split|]. unfold train_step, log. cbn [trace set_solver].
  by rewrite solver_step_count_snoc.
Qed.

Lemma UpdateRandom_count cfg mem st n st' :
  UpdateRandom cfg mem st = Done (n, st') ->
  n = 1 /\ same_shape st st'
  /\ solver_step_count (trace st') = solver_step_count (trace st) + 1.
Proof.
  unfold UpdateRandom. intros E.
  apply bind_Done in E as (cont & Ec & E).
  apply zero_first_cont_length in Ec. rewrite fill_length in Ec.
  match type of E with context [select_episodes cfg mem ?s] => set (sa := s) in * end.
  assert (Ha : quiet st sa).
  { eapply quiet_trans; [apply (refresh_clone_quiet cfg)|].
    split; [|done]. unfold sa, same_shape.
    cbn [frame_input_ target_input_ filter_input_ cont_input_ set_buffers].
    by rewrite !fill_length. }
  pose proof (select_episodes_quiet cfg mem sa) as Hb.
  destruct (select_episodes cfg mem sa) as [ep_inds sb]. cbn [snd] in Hb.
  apply bind_Done in E as ([ep_starts sc] & Es & E). apply sample_starts_quiet in Es.
  apply bind_Done in E as (sd & Eu & E).
  apply (for_each_quiet _ _ _ _ (random_unroll_quiet cfg mem ep_inds ep_starts)) in Eu.
  apply bind_Done in E as (se & Eh & E). apply copy_history_quiet in Eh.
  apply bind_Done in E as (? & _ & E). injection E as <- <-.
  assert (Hq : quiet st se) by (do 4 (eapply quiet_trans; [|done]); done).
  destruct Hq as [Hshape Hcount]. destruct (train_step_count se) as [Hs1 Hc1].
  split; [done|]. split.
  - destruct Hshape as (? & ? & ? & ?), Hs1 as (? & ? & ? & ?). repeat split; congruence.
  - lia.
Qed.

Lemma sequential_window_count cfg mem ep_inds active t past_frames st active' t' past_frames' st' :
  sequential_window cfg mem ep_inds active t past_frames st
    = Done (active', t', past_frames', st') ->
  same_shape st st'
  /\ solver_step_count (trace st') = solver_step_count (trace st) + 1.
Proof.
  unfold sequential_window. intros E.
  apply bind_Done in E as (cont & Ec & E).
  assert (Hcont : length cont = length (cont_input_ st)).
  { destruct (t =? 0).
    - apply zero_first_cont_length in Ec. by rewrite fill_length in Ec.
    - injection Ec as <-. apply fill_length. }
  match type of E with context [set_buffers ?a ?b ?c cont st] =>
    set (sa := set_buffers a b c cont st) in * end.
  assert (Ha : quiet st sa).
  { split; [|done]. unfold sa, same_shape.
    cbn [frame_input_ target_input_ filter_input_ cont_input_ set_buffers].
    by rewrite !fill_length. }
  apply bind_Done in E as ([[act past1] sd] & Eu & E).
  apply Done_inj in E. injection E as <- <- <- <-.
  assert (Hq : quiet st sd).
  { eapply quiet_trans; [done|].
    refine (for_each_invariant _ (fun _ '(_, _, s) => quiet sa s) _ _ _ _ _ Eu);
      [apply quiet_refl|].
    intros k x [[a p] s] [[a' p'] s'] _ Hs Eb.
    eapply quiet_trans; [done|]. by eapply sequential_step_quiet. }
  destruct Hq as [Hshape Hcount]. destruct (train_step_count sd) as [Hs1 Hc1].
  split.
  - destruct Hshape as (? & ? & ? & ?), Hs1 as (? & ? & ? & ?). repeat split; congruence.
  - lia.
Qed.

Lemma sequential_loop_count cfg mem ep_inds fuel : forall active t update_step past_frames st n st',
  sequential_loop fuel cfg mem ep_inds active t update_step past_frames st = Done (n, st') ->
  same_shape st st' /\ update_step <= n
  /\ solver_step_count (trace st') = solver_step_count (trace st) + (n - update_step).
Proof.
  induction fuel as [|fuel IH]; intros active t update_step past_frames st n st' E;
    cbn [sequential_loop] in E; destruct active; try done;
    try (injection E as <- <-; split; [by repeat split|]; split; lia).
  apply bind_Done in E as ([[[act1 t1] past1] st1] & Ew & E).
  apply sequential_window_count in Ew as [Hs1 Hc1].
  apply IH in E as (Hs2 & Hle & Hc2).
  split; [|split; lia].
  destruct Hs1 as (? & ? & ? & ?), Hs2 as (? & ? & ? & ?). repeat split; congruence.
Qed.

Lemma UpdateSequential_count fuel cfg mem st n st' :
  UpdateSequential fuel cfg mem st = Done (n, st') ->
  same_shape st st' /\ 0 <= n
  /\ solver_step_count (trace st') = solver_step_count (trace st) + n.
Proof.
  unfold UpdateSequential. intros E.
  pose proof (refresh_clone_quiet cfg st) as Ha.
  pose proof (select_episodes_quiet cfg mem (refresh_clone cfg st)) as Hb.
  destruct (select_episodes cfg mem (refresh_clone cfg st)) as [ep_inds sb]. cbn [snd] in Hb.
  apply sequential_loop_count in E as (Hs & Hle & Hc).
  destruct (quiet_trans _ _ _ Ha Hb) as [Hs0 Hc0].
  split; [|split; lia].
  destruct Hs0 as (? & ? & ? & ?), Hs as (? & ? & ? & ?). repeat split; congruence.
Qed.

(** X16: what the updates return is the number of solver steps they made:
    UpdateRandom makes exactly one and returns 1, UpdateSequential
    returns the number of passes of its loop, each of which ends in one
    solver step. *)
Theorem update_counts_solver_steps cfg mem st n st' :
  (UpdateRandom cfg mem st = Done (n, st') ->
     n = 1 /\ solver_step_count (trace st') = solver_step_count (trace st) + 1)
  /\ (forall fuel, UpdateSequential fuel cfg mem st = Done (n, st') ->
        0 <= n /\ solver_step_count (trace st') = solver_step_count (trace st) + n).
Proof.
  split.
  - intros E. apply UpdateRandom_count in E. tauto.
  - intros fuel E. apply UpdateSequential_count in E. tauto.
Qed.

(** X17: no call resizes a staging buffer: after SelectActions,
    UpdateRandom and UpdateSequential each of the four buffers has the
    length it had. *)
Theorem buffers_keep_their_size cfg mem st :
  (forall frames_batch epsilon cont actions st',
     SelectActions cfg frames_batch epsilon cont st = Done (actions, st') -> same_shape st st')
  /\ (forall n st', UpdateRandom cfg mem st = Done (n, st') -> same_shape st st')
  /\ (forall fuel n st', UpdateSequential fuel cfg mem st = Done (n, st') -> same_shape st st').
Proof.
  split; [|split].
  - intros frames_batch epsilon cont actions st' E. unfold SelectActions in E.
    apply bind_Done in E as (? & _ & E). apply bind_Done in E as (? & _ & E).
    destruct (uniform_real (random_engine st)) as [u g].
    destruct (u <? epsilon)%float.
    + refine (for_each_invariant _ (fun _ '(_, s) => same_shape st s) _ _ _ _ _ E);
        [by repeat split|].
      intros k item [acts s] [acts' s'] _ Hs Eb. cbv zeta in Eb.
      destruct (_ <? 0); [done|].
      destruct (uniform_int 0 _ (random_engine s)) as [random_idx g'].
      apply bind_Done in Eb as (? & _ & Eb). injection Eb as <- <-. exact Hs.
    + apply bind_Done in E as ([avs st2] & Eg & E).
      apply bind_Done in E as (? & _ & E). injection E as <- <-.
      by apply SelectActionGreedily_quiet in Eg as [Hs _].
  - intros n st' E. apply UpdateRandom_count in E. tauto.
  - intros fuel n st' E. apply UpdateSequential_count in E. tauto.
Qed.

(** *** An empty replay memory *)

Section Empty.
Context `{!RandomLaws}.

Lemma select_episodes_empty cfg st : fst (select_episodes cfg [] st) = [].
Proof.
  unfold select_episodes. cbn [length].
  pose proof (random_shuffle_perm (zrange 0 (Z.of_nat 0)) (libc_rand st)) as Hp.
  destruct (random_shuffle _ (libc_rand st)) as [ep_inds r]. cbn [fst] in *.
  apply Permutation_nil_r in Hp. subst ep_inds. destruct (_ <? _); [apply take_nil|done].
Qed.

(** X18: with nothing in the replay memory UpdateSequential returns 0 at
    once: no pass of its loop, no forward pass and no solver step; the
    solver and the four staging buffers are as they were. *)
Theorem UpdateSequential_empty fuel cfg st :
  exists st', UpdateSequential fuel cfg [] st = Done (0, st')
    /\ trace st' = trace st /\ solver_ st' = solver_ st
    /\ frame_input_ st' = frame_input_ st /\ cont_input_ st' = cont_input_ st
    /\ target_input_ st' = target_input_ st /\ filter_input_ st' = filter_input_ st.
Proof.
  unfold UpdateSequential.
  pose proof (select_episodes_empty cfg (refresh_clone cfg st)) as He.
  assert (Hsnd : forall s, snd (select_episodes cfg [] s)
                           = set_libc_rand (libc_rand (snd (select_episodes cfg [] s))) s).
  { intros s. unfold select_episodes. by destruct (random_shuffle _ _). }
  specialize (Hsnd (refresh_clone cfg st)).
  destruct (select_episodes cfg [] (refresh_clone cfg st)) as [ep_inds sb].
  cbn [fst snd] in *. subst ep_inds. cbn [length negb Z.eqb Z.of_nat].
  exists sb. split; [by destruct fuel|]. rewrite Hsnd.
  unfold refresh_clone. by destruct (match clone st with Some _ => _ | None => _ end).
Qed.

(** X19: with nothing in the replay memory UpdateRandom still makes its
    solver step and returns 1.  The step is given frame, target and
    filter buffers that are all zero. *)
Theorem UpdateRandom_empty cfg st :
  0 <= minibatch_size_ cfg <= Z.of_nat (length (cont_input_ st)) ->
  (forall frames cont target filter,
     loss_ok (Step (solver_ st) frames cont target filter) = true) ->
  exists st' cont,
    UpdateRandom cfg [] st = Done (1, st')
    /\ trace st' = trace st
         ++ [SolverStep (fill (frame_input_ st) f32_zero) cont
                        (fill (target_input_ st) f32_zero) (fill (filter_input_ st) f32_zero)].
Proof.
  intros Hmb Hloss. unfold UpdateRandom.
  assert (Hq0 := refresh_clone_quiet cfg st).
  assert (Hsame : frame_input_ (refresh_clone cfg st) = frame_input_ st
                  /\ target_input_ (refresh_clone cfg st) = target_input_ st
                  /\ filter_input_ (refresh_clone cfg st) = filter_input_ st
                  /\ cont_input_ (refresh_clone cfg st) = cont_input_ st
                  /\ solver_ (refresh_clone cfg st) = solver_ st
                  /\ trace (refresh_clone cfg st) = trace st).
  { unfold refresh_clone. by destruct (match clone st with Some _ => _ | None => _ end). }
  destruct Hsame as (Hf & Ht & Hfl & Hc & Hs & Htr).
  set (s0 := refresh_clone cfg st) in *.
  destruct (for_each_total
              (fun cont n => vstore cont (offset (minibatch_size_ cfg) 1 1 0 n 0 0) f32_zero)
              (fun _ c => length c = length (cont_input_ st))
              (zrange 0 (minibatch_size_ cfg)) (fill (cont_input_ s0) f32_one))
    as (cont & Ec & _).
  - by rewrite fill_length, Hc.
  - intros k x c Hk Hlen. apply lookup_zrange_Some in Hk as [-> Hk].
    unfold vstore, offset.
    destruct (Z.leb_spec 0 (((0 * minibatch_size_ cfg + (0 + Z.of_nat k)) * 1 + 0) * 1 + 0));
      [|lia].
    destruct (Z.ltb_spec (((0 * minibatch_size_ cfg + (0 + Z.of_nat k)) * 1 + 0) * 1 + 0)
                (Z.of_nat (length c))); [|lia].
    cbn [andb]. eexists. split; [done|]. by rewrite length_insert.
  - unfold zero_first_cont. rewrite Ec. cbn [mbind outcome_bind].
    match goal with |- context [select_episodes cfg [] ?s] => set (sa := s) end.
    pose proof (select_episodes_empty cfg sa) as He.
    assert (Hsnd : snd (select_episodes cfg [] sa)
                   = set_libc_rand (libc_rand (snd (select_episodes cfg [] sa))) sa).
    { unfold select_episodes. by destruct (random_shuffle _ _). }
    destruct (select_episodes cfg [] sa) as [ep_inds sb]. cbn [fst snd] in *. subst ep_inds.
    assert (Ess : sample_starts cfg [] [] sb = Done ([], sb)) by reflexivity.
    rewrite Ess. cbn [mbind outcome_bind].
    rewrite (for_each_skip (random_unroll cfg [] [] []) _ sb) by reflexivity.
    cbn [mbind outcome_bind].
    assert (Ech : copy_history cfg [] [] [] sb = Done sb) by reflexivity.
    rewrite Ech. cbn [mbind outcome_bind].
    rewrite Hsnd. unfold train_step.
    cbn [solver_ set_solver log set_libc_rand frame_input_ cont_input_ target_input_
         filter_input_ trace].
    unfold sa. cbn [solver_ set_buffers frame_input_ cont_input_ target_input_ filter_input_
                    trace libc_rand].
    rewrite Hs, Hloss. cbn [CHECK mbind outcome_bind].
    eexists _, cont. split; [reflexivity|].
    cbn [trace log set_solver set_libc_rand set_buffers]. by rewrite Htr, Hf, Ht, Hfl.
Qed.

End Empty.

(** *** The loop of UpdateSequential ends *)

(** The length of the longest stored episode. *)
Definition longest (mem : list (list Transition)) : Z :=
  foldr (fun ep acc => Z.max (Z.of_nat (length ep)) acc) 0 mem.

Lemma longest_elem mem (ep : list Transition) :
  ep ∈ mem -> Z.of_nat (length ep) <= longest mem.
Proof.
  induction mem as [|ep' mem IH]; intros Hin; [by inversion Hin|].
  cbn [longest foldr]. fold (longest mem). inversion Hin; subst; [lia|].
  specialize (IH ltac:(done)). lia.
Qed.

Lemma longest_nonneg mem : 0 <= longest mem.
Proof. induction mem as [|ep mem IH]; cbn [longest foldr]; [done|]. fold (longest mem). lia. Qed.

(** Episodes are active at time [t] only if one of them is longer than [t]. *)
Lemma advance_windows_active cfg mem ep_inds t past_frames past_frames' :
  0 <= t < 18446744073709551616 ->
  advance_windows cfg mem ep_inds t past_frames = Done (true, past_frames') ->
  t < longest mem.
Proof.
  intros Ht E.
  assert (Hinv : true = true -> t < longest mem); [|by apply Hinv].
  refine (for_each_invariant _
            (fun _ '(act, _) => act = true -> t < longest mem) _ _ _ _ _ E); [done|].
  intros k x [act past] [act' past'] _ Hact Eb.
  apply bind_Done in Eb as (ind & _ & Eb).
  apply bind_Done in Eb as (episode & Ee & Eb).
  apply vload_lookupZ, lookupZ_elem_of, longest_elem in Ee.
  apply bind_Done in Eb as (deque & _ & Eb).
  apply bind_Done in Eb as (next & En & Eb).
  rewrite as_size_t_small in En by done.
  destruct (Z.ltb_spec t (Z.of_nat (length episode))) as [Hlt|Hge].
  - intros _. lia.
  - injection En as <-. apply bind_Done in Eb as (? & _ & Eb). by injection Eb as <- <-.
Qed.

Lemma sequential_window_active cfg mem ep_inds active t past_frames st
    active' t' past_frames' st' :
  1 <= unroll_ cfg -> 0 <= t -> t + unroll_ cfg < 18446744073709551616 ->
  sequential_window cfg mem ep_inds active t past_frames st
    = Done (active', t', past_frames', st') ->
  t' = t + unroll_ cfg /\ (active' = true -> t + unroll_ cfg - 1 < longest mem).
Proof.
  intros Hun Ht Hmax E. unfold sequential_window in E.
  apply bind_Done in E as (cont & _ & E).
  apply bind_Done in E as ([[act past1] sd] & Eu & E).
  apply Done_inj in E. injection E as <- <- <- <-. split; [lia|].
  assert (Hinv : Z.to_nat (unroll_ cfg) = 0%nat
                 \/ (act = true -> t + Z.of_nat (Z.to_nat (unroll_ cfg)) - 1 < longest mem)).
  { rewrite <- (length_zrange 0 (unroll_ cfg)).
    refine (for_each_invariant _
              (fun n '(a, _, _) =>
                 n = 0%nat \/ (a = true -> t + Z.of_nat n - 1 < longest mem))
              _ _ _ _ _ Eu); [by left|].
    intros k x [[a p] s] [[a' p'] s'] Hk _ Eb. right.
    apply lookup_zrange_Some in Hk as [-> Hk]. unfold sequential_step in Eb.
    apply bind_Done in Eb as ([a1 p1] & Ea & Eb).
    assert (a' = a1) as ->.
    { destruct (_ <? _); [by injection Eb as <- _ _|].
      apply bind_Done in Eb as (? & _ & Eb). apply bind_Done in Eb as ([? ?] & _ & Eb).
      apply bind_Done in Eb as ([? ?] & _ & Eb). apply bind_Done in Eb as (? & _ & Eb).
      by injection Eb as <- _ _. }
    intros ->. apply advance_windows_active in Ea; lia. }
  destruct Hinv as [Hz|Hinv]; [lia|]. intros Hact. specialize (Hinv Hact). lia.
Qed.

Lemma sequential_loop_stable cfg mem ep_inds fuel :
  forall fuel' active t update_step past_frames st,
  1 <= unroll_ cfg -> longest mem + unroll_ cfg < 18446744073709551616 ->
  0 <= t -> (active = true -> t <= longest mem) ->
  longest mem - t < Z.of_nat fuel -> (fuel <= fuel')%nat ->
  sequential_loop fuel' cfg mem ep_inds active t update_step past_frames st
  = sequential_loop fuel cfg mem ep_inds active t update_step past_frames st.
Proof.
  induction fuel as [|fuel IH];
    intros fuel' active t update_step past_frames st Hun Hmax Ht Hact Hfuel Hle.
  - destruct active; [specialize (Hact eq_refl); lia|]. by destruct fuel'.
  - destruct fuel' as [|fuel']; [lia|]. cbn [sequential_loop].
    destruct active; [|done]. specialize (Hact eq_refl).
    destruct (sequential_window cfg mem ep_inds true t past_frames st)
      as [[[[act1 t1] past1] st1]|f] eqn:Ew; [|done].
    cbn [mbind outcome_bind].
    apply sequential_window_active in Ew as [-> Hact1]; [|done|done|lia].
    apply IH; [done|done|lia| |lia|lia].
    intros Ha. specialize (Hact1 Ha). lia.
Qed.

(** No part of a pass runs out of fuel: only the [while] loop is bounded
    by it. *)
Definition halts {A} (m : outcome A) : Prop := m <> Fatal OutOfFuel.

Lemma halts_bind {A B} (m : outcome A) (k : A -> outcome B) :
  halts m -> (forall x, halts (k x)) -> halts (m ≫= k).
Proof.
  intros Hm Hk. destruct m as [x|f]; [apply Hk|]. intros E.
  cbn in E. injection E as ->. by apply Hm.
Qed.

Lemma halts_for_each {A S} (body : S -> A -> outcome S) l st :
  (forall s x, halts (body s x)) -> halts (for_each body l st).
Proof.
  intros Hb. revert st. induction l as [|x l IH]; intros st; [done|].
  cbn [for_each]. apply halts_bind; [apply Hb|apply IH].
Qed.

Lemma halts_CHECK b : halts (CHECK b).
Proof. by destruct b. Qed.

Lemma halts_vload {A} (v : list A) idx : halts (vload v idx).
Proof. unfold vload. destruct (_ && _); [|done]. by destruct (v !! _). Qed.

Lemma halts_vstore {A} (v : list A) idx x : halts (vstore v idx x).
Proof. unfold vstore. by destruct (_ && _). Qed.

Lemma halts_copy_frame frame v off : halts (copy_frame frame v off).
Proof. unfold copy_frame. by destruct (_ && _). Qed.

Lemma halts_evaluate_actions q i actions : halts (evaluate_actions q i actions).
Proof.
  induction actions as [|a actions IH]; [done|]. cbn [evaluate_actions].
  apply halts_bind; [apply halts_CHECK|]. intros _. apply halts_bind; [exact IH|done].
Qed.

Ltac halting :=
  repeat first
    [ apply halts_CHECK | apply halts_vload | apply halts_vstore | apply halts_copy_frame
    | apply halts_evaluate_actions
    | apply halts_bind; [|intros ?]
    | apply halts_for_each; intros ? ?
    | match goal with
      | |- halts (Done _) => done
      | |- halts (Fatal _) => done
      | |- halts (match ?x with _ => _ end) => destruct x
      | |- halts ((match ?x with _ => _ end) _) => destruct x; cbv beta
      end ].

Lemma halts_SelectActionGreedily cfg net frames_batch cont st :
  halts (SelectActionGreedily cfg net frames_batch cont st).
Proof.
  unfold SelectActionGreedily, deref, stage_frames. destruct frames_batch; [done|].
  halting.
Qed.

Lemma halts_emit_target cfg slot n frame_idx transition avs acc :
  halts (emit_target cfg slot n frame_idx transition avs acc).
Proof. unfold emit_target, bootstrap. halting. Qed.

Lemma halts_sequential_window cfg mem ep_inds active t past_frames st :
  halts (sequential_window cfg mem ep_inds active t past_frames st).
Proof.
  unfold sequential_window, zero_first_cont. apply halts_bind; [halting|]. intros cont.
  apply halts_bind; [|by intros [[? ?] ?]].
  apply halts_for_each. intros [[a p] s] i. unfold sequential_step.
  apply halts_bind; [unfold advance_windows; halting|]. intros [a1 p1].
  destruct (_ <? _); [done|].
  apply halts_bind; [unfold collect_windows; halting|]. intros pv.
  apply halts_bind; [apply halts_SelectActionGreedily|]. intros [avs s1].
  apply halts_bind; [|intros [idx s2]; halting].
  unfold sequential_targets. apply halts_for_each. intros acc n.
  apply halts_bind; [halting|]. intros ind. apply halts_bind; [halting|]. intros episode.
  destruct (_ <? _); [|done]. apply halts_bind; [halting|]. intros tr.
  apply halts_emit_target.
Qed.

Lemma sequential_loop_halts cfg mem ep_inds fuel :
  forall active t update_step past_frames st,
  1 <= unroll_ cfg -> longest mem + unroll_ cfg < 18446744073709551616 ->
  0 <= t -> (active = true -> t <= longest mem) ->
  longest mem - t < Z.of_nat fuel ->
  halts (sequential_loop fuel cfg mem ep_inds active t update_step past_frames st).
Proof.
  induction fuel as [|fuel IH];
    intros active t update_step past_frames st Hun Hmax Ht Hact Hfuel.
  - destruct active; [specialize (Hact eq_refl); lia|done].
  - cbn [sequential_loop]. destruct active; [|done]. specialize (Hact eq_refl).
    pose proof (halts_sequential_window cfg mem ep_inds true t past_frames st) as Hw.
    destruct (sequential_window cfg mem ep_inds true t past_frames st)
      as [[[[act1 t1] past1] st1]|f] eqn:Ew;
      [|intros E; cbn in E; injection E as ->; by apply Hw].
    cbn [mbind outcome_bind].
    apply sequential_window_active in Ew as [-> Hact1]; [|done|done|lia].
    apply IH; [done|done|lia| |lia].
    intros Ha. specialize (Hact1 Ha). lia.
Qed.

(** X20: with at least one step unrolled, the loop of UpdateSequential
    ends: a budget of one pass more than the longest stored episode has
    transitions is never used up, and a larger budget gives the same
    result.  Time stays within an int. *)
Theorem UpdateSequential_terminates (fuel fuel' : nat) cfg mem st :
  1 <= unroll_ cfg -> longest mem + unroll_ cfg < 2147483648 ->
  longest mem < Z.of_nat fuel -> (fuel <= fuel')%nat ->
  UpdateSequential fuel cfg mem st <> Fatal OutOfFuel
  /\ UpdateSequential fuel' cfg mem st = UpdateSequential fuel cfg mem st.
Proof.
  intros Hun Hmax Hfuel Hle. unfold UpdateSequential.
  destruct (select_episodes cfg mem (refresh_clone cfg st)) as [ep_inds sb].
  pose proof (longest_nonneg mem). split.
  - apply sequential_loop_halts; lia.
  - apply sequential_loop_stable; [done|lia|lia|lia|lia|done].
Qed.

(** *** UpdateRandom stays inside its buffers and episodes *)

(** A call whose behaviour is defined: it returns, or it stops at a
    CHECK that failed. *)
Definition defined {A} (m : outcome A) : Prop :=
  m = Fatal CheckFailed \/ exists x, m = Done x.

Lemma defined_Done {A} (x : A) : defined (Done x).
Proof. right. by exists x. Qed.

Lemma defined_CHECK b : defined (CHECK b).
Proof. destruct b; [apply defined_Done|by left]. Qed.

Lemma defined_bind {A B} (m : outcome A) (k : A -> outcome B) :
  defined m -> (forall x, m = Done x -> defined (k x)) -> defined (m ≫= k).
Proof. intros [->|[x ->]] Hk; [by left|by apply Hk]. Qed.

Lemma for_each_defined {A S} (body : S -> A -> outcome S) (P : nat -> S -> Prop) l :
  forall st0,
  P 0%nat st0 ->
  (forall k x s, l !! k = Some x -> P k s ->
     defined (body s x) /\ forall s', body s x = Done s' -> P (Datatypes.S k) s') ->
  defined (for_each body l st0)
  /\ forall st', for_each body l st0 = Done st' -> P (length l) st'.
Proof.
  revert P. induction l as [|x l IH]; intros P st0 Hinit Hstep.
  - split; [apply defined_Done|]. by intros st' [= <-].
  - destruct (Hstep 0%nat x st0) as [Hd Hs]; [done|done|]. cbn [for_each].
    destruct Hd as [E|[s1 E]]; rewrite E; [split; [by left|done]|].
    cbn [mbind outcome_bind].
    apply (IH (fun k => P (Datatypes.S k)) s1); [by apply Hs|].
    intros k y s Hk Hp. by apply (Hstep (Datatypes.S k)).
Qed.

(** The staging buffers have the sizes the constructor gives them. *)
Definition constructed (cfg : Config) (st : DQN) : Prop :=
  Z.of_nat (length (frame_input_ st))
  = minibatch_size_ cfg * frames_per_forward_ cfg * kCroppedFrameDataSize
  /\ Z.of_nat (length (target_input_ st)) = unroll_ cfg * minibatch_size_ cfg * kOutputCount
  /\ Z.of_nat (length (filter_input_ st)) = unroll_ cfg * minibatch_size_ cfg * kOutputCount
  /\ Z.of_nat (length (cont_input_ st)) = unroll_ cfg * minibatch_size_ cfg.

(** The sizes the constructor computes are representable as [int]. *)
Definition sizes_fit (cfg : Config) : Prop :=
  minibatch_size_ cfg * frames_per_forward_ cfg * kCroppedFrameDataSize <= INT_MAX
  /\ unroll_ cfg * minibatch_size_ cfg * kOutputCount <= INT_MAX.

Lemma constructed_same_shape cfg st st' :
  constructed cfg st -> same_shape st st' -> constructed cfg st'.
Proof.
  intros (Hf & Ht & Hfl & Hc) (Hf' & Ht' & Hfl' & Hc'). unfold constructed.
  by rewrite Hf', Ht', Hfl', Hc'.
Qed.

(** The buffers are as constructed and there is a target clone. *)
Definition ready (cfg : Config) (st : DQN) : Prop :=
  constructed cfg st /\ is_Some (clone st).

(** What the types and the way episodes are built guarantee of a stored
    episode, and that it holds a history window and an unroll window:
    frames are arrays of 7056 bytes, actions are not negative, and every
    transition but the last has a next frame. *)
Definition frame_ok (f : list byte) : Prop := length f = Z.to_nat kCroppedFrameDataSize.

Definition transition_ok (tr : Transition) : Prop :=
  frame_ok (tr_frame tr) /\ 0 <= tr_action tr
  /\ forall next, tr_next tr = Some next -> frame_ok next.

Definition episode_ok (cfg : Config) (episode : list Transition) : Prop :=
  frames_per_timestep_ cfg + unroll_ cfg - 1 <= Z.of_nat (length episode) <= INT_MAX
  /\ Forall transition_ok episode
  /\ forall (j : nat) tr, episode !! j = Some tr ->
       (Datatypes.S j < length episode)%nat -> is_Some (tr_next tr).

Definition memory_ok (cfg : Config) (mem : list (list Transition)) : Prop :=
  Z.of_nat (length mem) <= INT_MAX /\ Forall (episode_ok cfg) mem.

Lemma lookupZ_Some {A} (l : list A) z x :
  lookupZ l z = Some x -> 0 <= z < Z.of_nat (length l) /\ l !! Z.to_nat z = Some x.
Proof.
  unfold lookupZ. destruct (Z.leb_spec 0 z); [|done]. intros E.
  split; [|done]. apply lookup_lt_Some in E. lia.
Qed.

Lemma lookupZ_lt {A} (l : list A) z :
  0 <= z < Z.of_nat (length l) -> exists x, lookupZ l z = Some x.
Proof.
  intros Hz. unfold lookupZ. destruct (Z.leb_spec 0 z); [|lia].
  apply lookup_lt_is_Some_2. lia.
Qed.

Lemma vload_lt {A} (l : list A) z :
  0 <= z < Z.of_nat (length l) -> exists x, vload l z = Done x /\ lookupZ l z = Some x.
Proof.
  intros Hz. destruct (lookupZ_lt l z Hz) as [x Hx]. exists x.
  split; [by apply lookupZ_vload|done].
Qed.

Lemma vstore_lt {A} (l : list A) z x :
  0 <= z < Z.of_nat (length l) -> exists l', vstore l z x = Done l' /\ length l' = length l.
Proof.
  intros Hz. unfold vstore.
  destruct (Z.leb_spec 0 z); [|lia]. destruct (Z.ltb_spec z (Z.of_nat (length l))); [|lia].
  eexists. split; [done|]. by rewrite length_insert.
Qed.

Lemma evaluate_actions_defined q i actions : defined (evaluate_actions q i actions).
Proof.
  induction actions as [|a actions IH]; [apply defined_Done|]. cbn [evaluate_actions].
  apply defined_bind; [apply defined_CHECK|]. intros _ _.
  apply defined_bind; [exact IH|]. intros vs _. apply defined_Done.
Qed.

Lemma SelectActionGreedily_defined cfg net frames_batch cont st :
  (net = clone_net_ -> is_Some (clone st)) ->
  0 <= frames_per_timestep_ cfg ->
  (Z.of_nat (length frames_batch) <= as_size_t (minibatch_size_ cfg) ->
   Z.of_nat (length frames_batch) * frames_per_timestep_ cfg * kCroppedFrameDataSize
     <= Z.of_nat (length (frame_input_ st))) ->
  Forall (window_ok cfg) frames_batch ->
  legal_actions_ cfg <> [] ->
  defined (SelectActionGreedily cfg net frames_batch cont st).
Proof.
  intros Hc Hfpt Hbuf Hok Hlegal. unfold SelectActionGreedily.
  destruct frames_batch as [|fb0 fbs]; [apply defined_Done|].
  set (frames_batch := fb0 :: fbs) in *.
  assert (Hd : exists the_net, deref net st = Done the_net).
  { unfold deref. destruct net; [by eexists|]. destruct (Hc eq_refl) as [c ->]. by eexists. }
  destruct Hd as [the_net ->]. cbn [mbind outcome_bind].
  destruct (Z.leb_spec (Z.of_nat (length frames_batch)) (as_size_t (minibatch_size_ cfg)));
    [|by left].
  cbn [CHECK mbind outcome_bind].
  destruct (stage_frames_total cfg frames_batch (fill (frame_input_ st) f32_zero))
    as [frames Es]; [done|unfold fill; rewrite length_replicate; by apply Hbuf|done|].
  rewrite Es. cbn [mbind outcome_bind].
  destruct (ForwardPrefilled the_net frames _) as [the_net' q].
  apply defined_bind; [|intros; apply defined_Done].
  apply (for_each_defined _ (fun _ _ => True)); [done|].
  intros k x res _ _. split; [|done].
  destruct (evaluate_actions_defined q x (legal_actions_ cfg)) as [->|[q_values Eq]];
    [by left|].
  rewrite Eq. cbn [mbind outcome_bind]. cbv zeta.
  apply evaluate_actions_Done in Eq as [-> Hnum].
  change (map (q x) (legal_actions_ cfg)) with (q x <$> legal_actions_ cfg) in *.
  assert (Hne : q x <$> legal_actions_ cfg <> []).
  { destruct (legal_actions_ cfg); done. }
  destruct (max_element_spec f32_ltb (fun v => f32_isnan v = false)
              f32_ltb_irrefl f32_ltb_trans f32_ltb_weak _ Hne Hnum) as (v & Hv & _).
  pose proof Hv as Ha. rewrite list_lookup_fmap in Ha.
  destruct (legal_actions_ cfg !! _) as [a|] eqn:Ea; [|done].
  rewrite (vload_lookup _ _ _ Ea). cbn [mbind outcome_bind].
  rewrite (vload_lookup _ _ _ Hv). cbn [mbind outcome_bind]. apply defined_Done.
Qed.

Lemma SelectActionGreedily_ready cfg net frames_batch cont st avs st' :
  ready cfg st ->
  SelectActionGreedily cfg net frames_batch cont st = Done (avs, st') ->
  ready cfg st' /\ length avs = length frames_batch.
Proof.
  intros [Hcon Hcl] E.
  pose proof (SelectActionGreedily_quiet _ _ _ _ _ _ _ E) as [Hs _].
  destruct (decide (frames_batch = [])) as [->|Hne]; [by injection E as <- <-|].
  apply SelectActionGreedily_Done in E
    as (the_net & frames & the_net' & q & _ & _ & _ & -> & Hlen & _); [|done].
  split; [|done]. split; [by eapply constructed_same_shape|].
  destruct net; cbn; [exact Hcl|by eexists].
Qed.

Lemma emit_target_defined cfg slot n frame_idx transition avs idx st :
  (is_Some (tr_next transition) -> 0 <= idx < Z.of_nat (length avs)) ->
  transition_ok transition ->
  0 <= slot < unroll_ cfg -> 0 <= n < minibatch_size_ cfg ->
  0 <= frame_idx < frames_per_forward_ cfg ->
  constructed cfg st ->
  defined (emit_target cfg slot n frame_idx transition avs (idx, st)).
Proof.
  intros Hidx (Hframe & Hact & _) Hslot Hn Hfi (Hf & Ht & Hfl & _). unfold emit_target.
  destruct (Z.ltb_spec (tr_action transition) kOutputCount) as [Hlt|]; [|by left].
  cbn [CHECK mbind outcome_bind].
  apply defined_bind; [apply defined_CHECK|]. intros _ _.
  assert (Hb : exists r, bootstrap cfg transition avs idx = Done r).
  { unfold bootstrap. destruct (tr_next transition) as [next|]; [|by eexists].
    destruct (vload_lt avs idx) as (av & -> & _); [by apply Hidx|]. by eexists. }
  destruct Hb as [[target idx'] ->]. cbn [mbind outcome_bind].
  apply defined_bind; [apply defined_CHECK|]. intros _ _.
  unfold kOutputCount in *.
  assert (Hoff : 0 <= offset (minibatch_size_ cfg) 18 1 slot n (tr_action transition) 0
                 < unroll_ cfg * minibatch_size_ cfg * 18).
  { unfold offset. nia. }
  destruct (vstore_lt (filter_input_ st) _ f32_one ltac:(rewrite Hfl; exact Hoff))
    as (flt & -> & _).
  cbn [mbind outcome_bind].
  destruct (vstore_lt (target_input_ st) _ target ltac:(rewrite Ht; exact Hoff))
    as (tgt & -> & _).
  cbn [mbind outcome_bind].
  destruct (copy_frame_Done (tr_frame transition) (frame_input_ st)
              (offset (frames_per_forward_ cfg) kCroppedFrameSize kCroppedFrameSize
                      n frame_idx 0 0)) as (frames & -> & _).
  - unfold offset, kCroppedFrameSize. nia.
  - rewrite Hframe, Hf.
    assert (Hsz : Z.of_nat (Z.to_nat kCroppedFrameDataSize) = 7056) by reflexivity.
    rewrite Hsz. change kCroppedFrameDataSize with 7056.
    unfold offset, kCroppedFrameSize.
    assert (n * frames_per_forward_ cfg + frame_idx + 1
            <= minibatch_size_ cfg * frames_per_forward_ cfg) by nia.
    lia.
  - apply defined_Done.
Qed.

Lemma emit_target_ready cfg slot n frame_idx transition avs idx st idx' st' :
  ready cfg st ->
  emit_target cfg slot n frame_idx transition avs (idx, st) = Done (idx', st') ->
  ready cfg st'.
Proof.
  intros [Hcon Hcl] E.
  pose proof (emit_target_quiet _ _ _ _ _ _ _ _ _ _ E) as [Hs _].
  split; [by eapply constructed_same_shape|].
  unfold emit_target in E.
  apply bind_Done in E as (? & _ & E). apply bind_Done in E as (? & _ & E).
  apply bind_Done in E as ([target idx1] & _ & E).
  apply bind_Done in E as (? & _ & E).
  apply bind_Done in E as (flt & _ & E).
  apply bind_Done in E as (tgt & _ & E).
  apply bind_Done in E as (frames & _ & E). by injection E as _ <-.
Qed.

Lemma rank_mono slot (k n : nat) : (k <= n)%nat -> (rank slot k <= rank slot n)%nat.
Proof.
  induction 1 as [|n _ IH]; [done|]. rewrite rank_S. lia.
Qed.

(** The history window that ends at a transition with a next frame is
    made of [frames_per_timestep_] next frames. *)
Lemma window_defined cfg episode first last_tr :
  1 <= frames_per_timestep_ cfg -> episode_ok cfg episode -> 0 <= first ->
  lookupZ episode (first + (frames_per_timestep_ cfg - 1)) = Some last_tr ->
  is_Some (tr_next last_tr) ->
  exists input_frames,
    for_each (fun input_frames i =>
        tr ← vload episode (first + i);
        match tr_next tr with
        | Some next => Done (input_frames ++ [next])
        | None => Fatal Undefined
        end)
      (zrange 0 (frames_per_timestep_ cfg)) [] = Done input_frames
    /\ window_ok cfg input_frames.
Proof.
  intros Hfpt (_ & Hall & Hproper) Hfirst Hlast Hsome.
  apply lookupZ_Some in Hlast as [Hb Hlast].
  match goal with
  | |- context [for_each ?body ?l ?s] =>
      destruct (for_each_total body
        (fun n frames => length frames = n
           /\ Forall (fun f => length f = Z.to_nat kCroppedFrameDataSize) frames) l s)
        as (input_frames & E & Hlen & Hok)
  end.
  - done.
  - intros k x frames Hk [Hlen Hok].
    apply lookup_zrange_Some in Hk as [-> Hk]. rewrite Z.add_0_l.
    destruct (vload_lt episode (first + Z.of_nat k)) as (tr & -> & Htr); [lia|].
    cbn [mbind outcome_bind]. apply lookupZ_Some in Htr as [_ Htr].
    assert (Hn : is_Some (tr_next tr)).
    { destruct (decide (Z.of_nat k = frames_per_timestep_ cfg - 1)) as [Hk'|Hk'].
      - rewrite Hk' in Htr. rewrite Hlast in Htr. by injection Htr as <-.
      - apply (Hproper _ _ Htr). lia. }
    destruct Hn as [next Hnext]. rewrite Hnext. eexists. split; [done|].
    split; [rewrite length_app; simpl; lia|].
    apply Forall_app. split; [done|]. constructor; [|done].
    rewrite Forall_forall in Hall.
    destruct (Hall tr (list_elem_of_lookup_2 _ _ _ Htr)) as (_ & _ & Hnf). by apply Hnf.
  - exists input_frames. split; [done|]. split; [|done].
    rewrite Hlen, length_zrange. lia.
Qed.

(** The episodes selected and the starts sampled for them. *)
Definition batch_ok (cfg : Config) (mem : list (list Transition))
    (ep_inds ep_starts : list Z) : Prop :=
  length ep_starts = length ep_inds
  /\ Z.of_nat (length ep_inds) <= minibatch_size_ cfg
  /\ forall (k : nat) ind, ep_inds !! k = Some ind ->
       exists episode start,
         lookupZ mem ind = Some episode /\ episode_ok cfg episode
         /\ ep_starts !! k = Some start /\ 0 <= start
         /\ start + (unroll_ cfg - 1) + (frames_per_timestep_ cfg - 1)
            < Z.of_nat (length episode).

(** What the loops over the batch read for slot [k] at an offset [d]
    into the windows of its episode. *)
Lemma batch_slot cfg mem ep_inds ep_starts (k : nat) d :
  batch_ok cfg mem ep_inds ep_starts -> (k < length ep_inds)%nat ->
  0 <= d <= (unroll_ cfg - 1) + (frames_per_timestep_ cfg - 1) ->
  exists ind episode start tr,
    vload ep_inds (Z.of_nat k) = Done ind
    /\ vload mem ind = Done episode
    /\ vload ep_starts (Z.of_nat k) = Done start
    /\ episode_ok cfg episode /\ 0 <= start
    /\ start + (unroll_ cfg - 1) + (frames_per_timestep_ cfg - 1) < Z.of_nat (length episode)
    /\ vload episode (start + d) = Done tr
    /\ lookupZ episode (start + d) = Some tr
    /\ transition_ok tr
    /\ ep_inds !! k = Some ind /\ lookupZ mem ind = Some episode
    /\ ep_starts !! k = Some start.
Proof.
  intros (Hlen & _ & Hb) Hk Hd.
  destruct (lookup_lt_is_Some_2 ep_inds k Hk) as [ind Hind].
  destruct (Hb k ind Hind) as (episode & start & He & Hok & Hs & Hs0 & Hs1).
  destruct (vload_lt episode (start + d)) as (tr & Etr & Htr); [lia|].
  exists ind, episode, start, tr.
  split; [by apply vload_lookup|]. split; [by apply lookupZ_vload|].
  split; [by apply vload_lookup|]. split; [done|]. split; [done|]. split; [done|].
  split; [done|]. split; [done|]. split; [|done].
  destruct Hok as (_ & Hall & _). rewrite Forall_forall in Hall. apply Hall.
  apply lookupZ_Some in Htr as [_ Htr]. by eapply list_elem_of_lookup_2.
Qed.

Lemma gather_windows_defined cfg mem ep_inds ep_starts u :
  1 <= frames_per_timestep_ cfg -> 0 <= u < unroll_ cfg ->
  batch_ok cfg mem ep_inds ep_starts ->
  exists windows,
    gather_windows cfg mem ep_inds ep_starts u = Done windows
    /\ Forall (window_ok cfg) windows.
Proof.
  intros Hfpt Hu Hbatch. unfold gather_windows.
  match goal with
  | |- context [for_each ?body ?l ?s] =>
      destruct (for_each_total body (fun _ vec => Forall (window_ok cfg) vec) l s)
        as (windows & E & Hok); [done| |by exists windows]
  end.
  intros k x vec Hk Hvec. apply lookup_zrange_Some in Hk as [-> Hk]. rewrite Z.add_0_l.
  rewrite Nat2Z.id in Hk.
  destruct (batch_slot cfg mem ep_inds ep_starts k (u + (frames_per_timestep_ cfg - 1))
              Hbatch Hk ltac:(lia))
    as (ind & episode & start & tr & Ei & Ee & Es & Hep & Hs0 & Hs1 & Etr & Htr & _).
  rewrite Ei. cbn [mbind outcome_bind]. rewrite Ee. cbn [mbind outcome_bind].
  rewrite Es. cbn [mbind outcome_bind]. cbv zeta.
  pose proof Hep as [[_ Hmax] _]. unfold INT_MAX in Hmax.
  rewrite as_size_t_small by lia.
  destruct (Z.ltb_spec (start + u + (frames_per_timestep_ cfg - 1))
              (Z.of_nat (length episode))); [|lia].
  cbn [CHECK mbind outcome_bind].
  replace (start + (u + (frames_per_timestep_ cfg - 1)))
    with (start + u + (frames_per_timestep_ cfg - 1)) in * by lia.
  rewrite Etr. cbn [mbind outcome_bind].
  destruct (tr_next tr) as [next|] eqn:Hnext; [|by eexists].
  destruct (window_defined cfg episode (start + u) tr) as (input_frames & -> & Hw);
    [done|done|lia|done|by rewrite Hnext|].
  cbn [mbind outcome_bind]. eexists. split; [done|].
  apply Forall_app. split; [done|]. by constructor.
Qed.

Lemma random_targets_defined cfg mem ep_inds ep_starts u avs st :
  1 <= frames_per_timestep_ cfg -> 0 <= u < unroll_ cfg ->
  batch_ok cfg mem ep_inds ep_starts -> ready cfg st ->
  length avs = rank (random_slot cfg mem ep_inds ep_starts u) (length ep_inds) ->
  defined (random_targets cfg mem ep_inds ep_starts u avs st)
  /\ forall idx st', random_targets cfg mem ep_inds ep_starts u avs st = Done (idx, st') ->
       ready cfg st'.
Proof.
  intros Hfpt Hu Hbatch Hready Havs. unfold random_targets.
  set (slot := random_slot cfg mem ep_inds ep_starts u) in *.
  match goal with
  | |- context [for_each ?body ?l ?s] =>
      destruct (for_each_defined body
        (fun k '(idx, sk) => idx = Z.of_nat (rank slot k) /\ ready cfg sk) l s)
        as [Hd Hinv]
  end.
  - done.
  - intros k x [idx s] Hk [Hidx Hs].
    apply lookup_zrange_Some in Hk as [-> Hk]. rewrite Z.add_0_l. rewrite Nat2Z.id in Hk.
    destruct (batch_slot cfg mem ep_inds ep_starts k (u + (frames_per_timestep_ cfg - 1))
                Hbatch Hk ltac:(lia))
      as (ind & episode & start & tr & Ei & Ee & Es & Hep & Hs0 & Hs1 & Etr & Htr & Htok
          & Hi & He & Hst).
    rewrite Ei. cbn [mbind outcome_bind]. rewrite Ee. cbn [mbind outcome_bind].
    rewrite Es. cbn [mbind outcome_bind]. cbv zeta.
    pose proof Hep as [[_ Hmax] _]. unfold INT_MAX in Hmax.
    rewrite as_size_t_small by lia.
    destruct (Z.ltb_spec (start + u + (frames_per_timestep_ cfg - 1))
                (Z.of_nat (length episode))); [|lia].
    cbn [CHECK mbind outcome_bind].
    replace (start + (u + (frames_per_timestep_ cfg - 1)))
      with (start + u + (frames_per_timestep_ cfg - 1)) in * by lia.
    rewrite Etr. cbn [mbind outcome_bind].
    assert (Hslot : slot k = Some tr).
    { unfold slot, random_slot. rewrite Hi. cbn [mbind option_bind]. rewrite He.
      cbn [mbind option_bind]. rewrite Hst. done. }
    pose proof (rank_S slot k) as HS. rewrite Hslot in HS. cbn [mbind option_bind] in HS.
    pose proof (rank_mono slot (S k) (length ep_inds) ltac:(lia)) as Hm.
    destruct Hbatch as (_ & Hmb & _). split.
    + apply emit_target_defined; [|done|lia|lia|unfold frames_per_forward_; lia|apply Hs].
      intros Hsome. destruct (decide _) as [_|Hno]; [|done]. lia.
    + intros [idx' s'] E. split; [|by eapply emit_target_ready].
      apply emit_target_Done in E as (target & _ & _ & -> & _).
      destruct (tr_next tr) as [next|].
      * destruct (decide _) as [_|Hno]; [lia|]. destruct Hno. by eexists.
      * destruct (decide _) as [[? Hx]|_]; [done|lia].
  - split; [done|]. intros idx st' E. by destruct (Hinv _ E) as [_ Hr].
Qed.

Lemma random_unroll_defined cfg mem ep_inds ep_starts st u :
  1 <= frames_per_timestep_ cfg -> 0 <= u < unroll_ cfg ->
  0 <= minibatch_size_ cfg <= INT_MAX -> legal_actions_ cfg <> [] ->
  batch_ok cfg mem ep_inds ep_starts -> ready cfg st ->
  defined (random_unroll cfg mem ep_inds ep_starts st u)
  /\ forall st', random_unroll cfg mem ep_inds ep_starts st u = Done st' -> ready cfg st'.
Proof.
  intros Hfpt Hu Hmb Hlegal Hbatch Hready. unfold random_unroll.
  destruct (gather_windows_defined cfg mem ep_inds ep_starts u) as (windows & Eg & Hw);
    [done..|].
  rewrite Eg. cbn [mbind outcome_bind].
  apply gather_windows_Done in Eg as [Hlen _]; [|done].
  pose proof Hready as [Hcon Hcl].
  destruct (SelectActionGreedily_defined cfg clone_net_ windows (0 <? u) st) as [E|[[avs st1] E]];
    [done|lia| |done|done|rewrite E; split; [by left|done]|].
  { unfold INT_MAX in Hmb. rewrite as_size_t_small by lia. intros Hle.
    destruct Hcon as (-> & _). unfold frames_per_forward_.
    change kCroppedFrameDataSize with 7056. nia. }
  rewrite E. cbn [mbind outcome_bind].
  apply SelectActionGreedily_ready in E as [Hr1 Havs]; [|done].
  destruct (random_targets_defined cfg mem ep_inds ep_starts u avs st1) as [Hd Hinv];
    [done|done|done|done|congruence|].
  destruct Hd as [E|[[idx st2] E]]; rewrite E; [split; [by left|done]|].
  cbn [mbind outcome_bind]. specialize (Hinv _ _ E).
  destruct (_ =? _); cbn [CHECK mbind outcome_bind]; [|split; [by left|done]].
  split; [apply defined_Done|]. by intros st' [= <-].
Qed.

Lemma copy_history_defined cfg mem ep_inds ep_starts st :
  1 <= frames_per_timestep_ cfg -> 1 <= unroll_ cfg ->
  batch_ok cfg mem ep_inds ep_starts -> constructed cfg st ->
  exists st', copy_history cfg mem ep_inds ep_starts st = Done st'.
Proof.
  intros Hfpt Hun Hbatch Hcon. unfold copy_history.
  match goal with
  | |- context [for_each ?body ?l ?s] =>
      destruct (for_each_total body (fun _ sk => constructed cfg sk) l s)
        as (st' & E & _); [done| |by exists st']
  end.
  intros k x s1 Hk Hs1. apply lookup_zrange_Some in Hk as [-> Hk]. rewrite Z.add_0_l.
  rewrite Nat2Z.id in Hk.
  match goal with
  | |- context [for_each ?body ?l ?s] =>
      destruct (for_each_total body (fun _ sk => constructed cfg sk) l s)
        as (s2 & E & Hs2); [done| |by exists s2]
  end.
  intros i y s3 Hi Hs3. apply lookup_zrange_Some in Hi as [-> Hi]. rewrite Z.add_0_l.
  destruct (batch_slot cfg mem ep_inds ep_starts k (Z.of_nat i) Hbatch Hk ltac:(lia))
    as (ind & episode & start & tr & Ei & Ee & Es & Hep & Hs0 & Hs1' & Etr & Htr & Htok & _).
  rewrite Ei. cbn [mbind outcome_bind]. rewrite Ee. cbn [mbind outcome_bind].
  rewrite Es. cbn [mbind outcome_bind]. rewrite Etr. cbn [mbind outcome_bind].
  destruct Htok as (Hframe & _). destruct Hbatch as (_ & Hmb & _).
  pose proof Hs3 as (Hf & Ht & Hfl & Hc).
  destruct (copy_frame_Done (tr_frame tr) (frame_input_ s3)
              (offset (frames_per_forward_ cfg) kCroppedFrameSize kCroppedFrameSize
                      (Z.of_nat k) (Z.of_nat i) 0 0)) as (frames & -> & Hlen).
  - unfold offset, kCroppedFrameSize, frames_per_forward_. nia.
  - rewrite Hframe, Hf.
    assert (Hsz : Z.of_nat (Z.to_nat kCroppedFrameDataSize) = 7056) by reflexivity.
    rewrite Hsz. change kCroppedFrameDataSize with 7056.
    unfold offset, kCroppedFrameSize.
    assert (Z.of_nat k * frames_per_forward_ cfg + Z.of_nat i + 1
            <= minibatch_size_ cfg * frames_per_forward_ cfg)
      by (unfold frames_per_forward_; nia).
    lia.
  - cbn [mbind outcome_bind]. eexists. split; [done|].
    unfold constructed. cbn [frame_input_ target_input_ filter_input_ cont_input_ set_buffers].
    by rewrite Hlen.
Qed.

Lemma zero_first_cont_total cfg cont :
  1 <= unroll_ cfg -> 0 <= minibatch_size_ cfg ->
  Z.of_nat (length cont) = unroll_ cfg * minibatch_size_ cfg ->
  exists cont', zero_first_cont cfg cont = Done cont' /\ length cont' = length cont.
Proof.
  intros Hun Hmb Hlen. unfold zero_first_cont.
  match goal with
  | |- context [for_each ?body ?l ?s] =>
      destruct (for_each_total body (fun _ c => length c = length cont) l s)
        as (cont' & E & Hc); [done| |by exists cont']
  end.
  intros k x c Hk Hc. apply lookup_zrange_Some in Hk as [-> Hk]. rewrite Z.add_0_l.
  destruct (vstore_lt c (offset (minibatch_size_ cfg) 1 1 0 (Z.of_nat k) 0 0) f32_zero)
    as (c' & -> & Hc'); [unfold offset; rewrite Hc; nia|].
  exists c'. split; [done|congruence].
Qed.

Lemma sample_starts_clone cfg mem ep_inds st ep_starts st' :
  sample_starts cfg mem ep_inds st = Done (ep_starts, st') -> clone st' = clone st.
Proof.
  unfold sample_starts. intros E.
  refine (for_each_invariant _ (fun _ '(_, sk) => clone sk = clone st) _ _ _ _ _ E); [done|].
  intros k x [starts s1] [starts' s2] _ Hs Eb.
  apply bind_Done in Eb as (? & _ & Eb). apply bind_Done in Eb as (? & _ & Eb).
  cbv zeta in Eb. destruct (_ <? 0); [done|].
  destruct (uniform_int 0 _ (random_engine s1)) as [start g].
  apply bind_Done in Eb as (? & _ & Eb). injection Eb as <- <-. exact Hs.
Qed.


(** The episodes UpdateSequential selected, and the deques it keeps for
    them. *)
Definition picked (cfg : Config) (mem : list (list Transition)) (ep_inds : list Z) : Prop :=
  Z.of_nat (length ep_inds) <= minibatch_size_ cfg
  /\ forall (k : nat) ind, ep_inds !! k = Some ind ->
       exists episode, lookupZ mem ind = Some episode /\ Forall transition_ok episode.

Definition deques_ok (ep_inds : list Z) (past_frames : list (list (list byte))) : Prop :=
  length past_frames = length ep_inds /\ Forall (Forall frame_ok) past_frames.

Lemma advance_windows_total cfg mem ep_inds t past_frames :
  0 <= t < 18446744073709551616 ->
  picked cfg mem ep_inds -> deques_ok ep_inds past_frames ->
  exists active past_frames',
    advance_windows cfg mem ep_inds t past_frames = Done (active, past_frames')
    /\ deques_ok ep_inds past_frames'.
Proof.
  intros Ht [_ Hpick] Hdq. unfold advance_windows.
  match goal with
  | |- context [for_each ?body ?l ?s] =>
      destruct (for_each_total body (fun _ '(_, p) => deques_ok ep_inds p) l s)
        as ([active past'] & E & Hp); [done| |by exists active, past']
  end.
  intros k x [act past] Hk [Hlen Hall]. apply lookup_zrange_Some in Hk as [-> Hk].
  rewrite Z.add_0_l. rewrite Nat2Z.id in Hk.
  destruct (lookup_lt_is_Some_2 ep_inds k Hk) as [ind Hind].
  rewrite (vload_lookup _ _ _ Hind). cbn [mbind outcome_bind].
  destruct (Hpick k ind Hind) as (episode & He & Hep).
  rewrite (lookupZ_vload _ _ _ He). cbn [mbind outcome_bind].
  destruct (lookup_lt_is_Some_2 past k ltac:(lia)) as [frame_deque Hdeque].
  rewrite (vload_lookup _ _ _ Hdeque). cbn [mbind outcome_bind].
  rewrite as_size_t_small by done.
  assert (Hnext : exists next,
            (if t <? Z.of_nat (length episode)
             then tr ← vload episode t; Done (tr_next tr) else Done None) = Done next
            /\ forall frame, next = Some frame -> frame_ok frame).
  { destruct (Z.ltb_spec t (Z.of_nat (length episode))); [|by exists None].
    destruct (vload_lt episode t) as (tr & -> & Htr); [lia|]. cbn [mbind outcome_bind].
    exists (tr_next tr). split; [done|]. intros frame Hf.
    apply lookupZ_Some in Htr as [_ Htr]. rewrite Forall_forall in Hep.
    destruct (Hep tr (list_elem_of_lookup_2 _ _ _ Htr)) as (_ & _ & Hn). by apply Hn. }
  destruct Hnext as (next & -> & Hframe). cbn [mbind outcome_bind].
  assert (Hdeque_ok : Forall frame_ok frame_deque).
  { rewrite Forall_forall in Hall. apply Hall. by eapply list_elem_of_lookup_2. }
  destruct next as [frame|].
  - destruct (vstore_lt past (Z.of_nat k)
                (pop_front_while_longer (frames_per_timestep_ cfg) (frame_deque ++ [frame])))
      as (past' & E & Hlen'); [lia|].
    rewrite E. cbn [mbind outcome_bind]. eexists. split; [done|]. cbv beta iota.
    split; [congruence|]. apply vstore_Done in E as [_ ->]. apply Forall_insert; [done|].
    unfold pop_front_while_longer. apply Forall_drop, Forall_app. split; [done|].
    constructor; [by apply Hframe|done].
  - destruct (vstore_lt past (Z.of_nat k) []) as (past' & E & Hlen'); [lia|].
    rewrite E. cbn [mbind outcome_bind]. eexists. split; [done|]. cbv beta iota.
    split; [congruence|]. apply vstore_Done in E as [_ ->]. by apply Forall_insert.
Qed.

Lemma collect_windows_defined cfg ep_inds past_frames :
  0 <= frames_per_timestep_ cfg < 18446744073709551616 ->
  deques_ok ep_inds past_frames ->
  defined (collect_windows cfg ep_inds past_frames)
  /\ forall windows, collect_windows cfg ep_inds past_frames = Done windows ->
       Forall (window_ok cfg) windows.
Proof.
  intros Hfpt [Hlen Hall]. unfold collect_windows.
  match goal with
  | |- context [for_each ?body ?l ?s] =>
      destruct (for_each_defined body (fun _ vec => Forall (window_ok cfg) vec) l s)
        as [Hd Hinv]; [done| |by split]
  end.
  intros k x vec Hk Hvec. apply lookup_zrange_Some in Hk as [-> Hk].
  rewrite Z.add_0_l. rewrite Nat2Z.id in Hk.
  destruct (lookup_lt_is_Some_2 past_frames k ltac:(lia)) as [frame_deque Hdeque].
  rewrite (vload_lookup _ _ _ Hdeque). cbn [mbind outcome_bind].
  assert (Hdeque_ok : Forall frame_ok frame_deque).
  { rewrite Forall_forall in Hall. apply Hall. by eapply list_elem_of_lookup_2. }
  destruct frame_deque as [|f fs]; [split; [apply defined_Done|by intros ? [= <-]]|].
  rewrite as_size_t_small by done.
  destruct (Z.eqb_spec (Z.of_nat (length (f :: fs))) (frames_per_timestep_ cfg)) as [Heq|];
    cbn [CHECK mbind outcome_bind]; [|split; [by left|done]].
  split; [apply defined_Done|]. intros ? [= <-]. apply Forall_app. split; [done|].
  constructor; [|done]. split; [lia|done].
Qed.

Lemma sequential_targets_defined cfg mem ep_inds i t avs st :
  1 <= frames_per_timestep_ cfg -> 0 <= i < unroll_ cfg -> 0 <= t < 18446744073709551616 ->
  picked cfg mem ep_inds -> ready cfg st ->
  length avs = rank (sequential_slot mem ep_inds t) (length ep_inds) ->
  defined (sequential_targets cfg mem ep_inds i t avs st)
  /\ forall idx st', sequential_targets cfg mem ep_inds i t avs st = Done (idx, st') ->
       ready cfg st'.
Proof.
  intros Hfpt Hi Ht [Hmb Hpick] Hready Havs. unfold sequential_targets.
  set (slot := sequential_slot mem ep_inds t) in *.
  match goal with
  | |- context [for_each ?body ?l ?s] =>
      destruct (for_each_defined body
        (fun k '(idx, sk) => idx = Z.of_nat (rank slot k) /\ ready cfg sk) l s)
        as [Hd Hinv]
  end.
  - done.
  - intros k x [idx s1] Hk [Hidx Hs]. apply lookup_zrange_Some in Hk as [-> Hk].
    rewrite Z.add_0_l. rewrite Nat2Z.id in Hk.
    destruct (lookup_lt_is_Some_2 ep_inds k Hk) as [ind Hind].
    rewrite (vload_lookup _ _ _ Hind). cbn [mbind outcome_bind].
    destruct (Hpick k ind Hind) as (episode & He & Hep).
    rewrite (lookupZ_vload _ _ _ He). cbn [mbind outcome_bind].
    rewrite as_size_t_small by done.
    pose proof (rank_S slot k) as HS.
    pose proof (rank_mono slot (S k) (length ep_inds) ltac:(lia)) as Hm.
    assert (Hslot : slot k = lookupZ episode t).
    { unfold slot, sequential_slot. rewrite Hind. cbn [mbind option_bind]. by rewrite He. }
    rewrite Hslot in HS.
    destruct (Z.ltb_spec t (Z.of_nat (length episode))).
    + destruct (vload_lt episode t) as (tr & -> & Htr); [lia|]. cbn [mbind outcome_bind].
      rewrite Htr in HS. cbn [mbind option_bind] in HS.
      assert (Htok : transition_ok tr).
      { apply lookupZ_Some in Htr as [_ Htr]. rewrite Forall_forall in Hep.
        apply Hep. by eapply list_elem_of_lookup_2. }
      split.
      * apply emit_target_defined; [|done|lia|lia|unfold frames_per_forward_; lia|apply Hs].
        intros Hsome. destruct (decide _) as [_|Hno]; [|done]. lia.
      * intros [idx' s'] E. split; [|by eapply emit_target_ready].
        apply emit_target_Done in E as (target & _ & _ & -> & _).
        destruct (tr_next tr) as [next|].
        -- destruct (decide _) as [_|Hno]; [lia|]. destruct Hno. by eexists.
        -- destruct (decide _) as [[? Hx]|_]; [done|lia].
    + split; [apply defined_Done|]. intros ? [= <-]. split; [|done].
      assert (Hnone : lookupZ episode t = None).
      { unfold lookupZ. destruct (Z.leb_spec 0 t); [|done]. apply lookup_ge_None_2. lia. }
      rewrite Hnone in HS. cbn [mbind option_bind] in HS.
      destruct (decide _) as [[? Hx]|_]; [done|lia].
  - split; [done|]. intros idx st' E. by destruct (Hinv _ E) as [_ Hr].
Qed.


Lemma sequential_step_defined cfg mem ep_inds i t past_frames st :
  1 <= frames_per_timestep_ cfg <= INT_MAX -> 0 <= i < unroll_ cfg ->
  0 <= t < 18446744073709551616 ->
  0 <= minibatch_size_ cfg <= INT_MAX -> legal_actions_ cfg <> [] ->
  picked cfg mem ep_inds -> deques_ok ep_inds past_frames -> ready cfg st ->
  defined (sequential_step cfg mem ep_inds i t past_frames st)
  /\ forall active past_frames' st',
       sequential_step cfg mem ep_inds i t past_frames st = Done (active, past_frames', st') ->
       deques_ok ep_inds past_frames' /\ ready cfg st'.
Proof.
  intros Hfpt Hi Ht Hmb Hlegal Hpick Hdq Hready. unfold sequential_step. unfold INT_MAX in *.
  destruct (advance_windows_total cfg mem ep_inds t past_frames) as (act & past1 & Ea & Hdq1);
    [done..|].
  rewrite Ea. cbn [mbind outcome_bind].
  destruct (t <? frames_per_timestep_ cfg).
  { split; [apply defined_Done|]. by intros ? ? ? [= <- <- <-]. }
  destruct (collect_windows_defined cfg ep_inds past1) as [Hd Hw]; [lia|done|].
  destruct Hd as [E|[windows Ec]]; [rewrite E; split; [by left|done]|].
  specialize (Hw _ Ec). rewrite Ec. cbn [mbind outcome_bind].
  pose proof (collect_windows_Done cfg mem ep_inds t past1 windows
                (advance_windows_Done cfg mem ep_inds t past_frames act past1
                   ltac:(lia) Ht Ea) Ec) as [Hlen _].
  pose proof Hready as [Hcon Hcl].
  destruct (SelectActionGreedily_defined cfg clone_net_ windows (0 <? t) st)
    as [E|[[avs st1] E]]; [done|lia| |done|done|rewrite E; split; [by left|done]|].
  { rewrite as_size_t_small by lia. intros Hle.
    destruct Hcon as (-> & _). unfold frames_per_forward_.
    change kCroppedFrameDataSize with 7056. nia. }
  rewrite E. cbn [mbind outcome_bind].
  apply SelectActionGreedily_ready in E as [Hr1 Havs]; [|done].
  destruct (sequential_targets_defined cfg mem ep_inds i t avs st1) as [Hd Hinv];
    [lia|done|done|done|done|congruence|].
  destruct Hd as [E|[[idx st2] E]]; rewrite E; [split; [by left|done]|].
  cbn [mbind outcome_bind]. specialize (Hinv _ _ E).
  destruct (_ =? _); cbn [CHECK mbind outcome_bind]; [|split; [by left|done]].
  split; [apply defined_Done|]. by intros ? ? ? [= <- <- <-].
Qed.

Lemma sequential_window_defined cfg mem ep_inds active t past_frames st :
  1 <= unroll_ cfg -> 1 <= frames_per_timestep_ cfg <= INT_MAX ->
  0 <= t -> t + unroll_ cfg < 18446744073709551616 ->
  0 <= minibatch_size_ cfg <= INT_MAX -> legal_actions_ cfg <> [] ->
  picked cfg mem ep_inds -> deques_ok ep_inds past_frames -> ready cfg st ->
  defined (sequential_window cfg mem ep_inds active t past_frames st)
  /\ forall active' t' past_frames' st',
       sequential_window cfg mem ep_inds active t past_frames st
       = Done (active', t', past_frames', st') ->
       deques_ok ep_inds past_frames' /\ ready cfg st'.
Proof.
  intros Hun Hfpt Ht Hmax Hmb Hlegal Hpick Hdq [Hcon Hcl]. unfold sequential_window.
  assert (Hcont : exists cont,
            (if t =? 0 then zero_first_cont cfg (fill (cont_input_ st) f32_zero)
             else Done (fill (cont_input_ st) f32_zero)) = Done cont
            /\ length cont = length (cont_input_ st)).
  { destruct (t =? 0); [|eexists; split; [done|apply fill_length]].
    destruct (zero_first_cont_total cfg (fill (cont_input_ st) f32_zero))
      as (cont & E & Hlen); [done|lia|rewrite fill_length; apply Hcon|].
    exists cont. split; [done|]. by rewrite Hlen, fill_length. }
  destruct Hcont as (cont & -> & Hlen). cbn [mbind outcome_bind].
  set (st1 := set_buffers _ _ _ cont st).
  assert (Hr1 : ready cfg st1).
  { split; [|exact Hcl]. destruct Hcon as (Hf & Htg & Hfl & Hc). unfold constructed, st1.
    cbn [frame_input_ target_input_ filter_input_ cont_input_ set_buffers].
    by rewrite !fill_length, Hlen. }
  match goal with
  | |- context [for_each ?body ?l ?s] =>
      destruct (for_each_defined body
        (fun _ '(_, p, sk) => deques_ok ep_inds p /\ ready cfg sk) l s) as [Hd Hinv]
  end.
  - done.
  - intros k x [[a p] sk] Hk [Hp Hsk]. apply lookup_zrange_Some in Hk as [-> Hk].
    rewrite Z.add_0_l.
    destruct (sequential_step_defined cfg mem ep_inds (Z.of_nat k) (t + Z.of_nat k) p sk)
      as [Hd Hinv]; [done|lia|lia|done..|].
    split; [done|]. intros [[a' p'] s'] E. by apply (Hinv a' p' s').
  - destruct Hd as [E|[[[a p] s2] E]]; rewrite E; [split; [by left|done]|].
    cbn [mbind outcome_bind]. destruct (Hinv _ E) as [Hp [Hc2 Hcl2]].
    split; [apply defined_Done|]. intros ? ? ? ? [= <- <- <- <-]. split; [done|].
    split; [|exact Hcl2]. eapply constructed_same_shape; [done|apply train_step_count].
Qed.

Lemma sequential_loop_defined cfg mem ep_inds fuel :
  forall active t update_step past_frames st,
  1 <= unroll_ cfg -> 1 <= frames_per_timestep_ cfg <= INT_MAX ->
  longest mem + unroll_ cfg <= INT_MAX ->
  0 <= minibatch_size_ cfg <= INT_MAX -> legal_actions_ cfg <> [] ->
  picked cfg mem ep_inds -> deques_ok ep_inds past_frames -> ready cfg st ->
  0 <= t -> (active = true -> t <= longest mem) ->
  longest mem - t < Z.of_nat fuel ->
  defined (sequential_loop fuel cfg mem ep_inds active t update_step past_frames st).
Proof.
  induction fuel as [|fuel IH];
    intros active t update_step past_frames st Hun Hfpt Hlong Hmb Hlegal Hpick Hdq Hready
           Ht Hact Hfuel.
  - destruct active; [specialize (Hact eq_refl); lia|apply defined_Done].
  - cbn [sequential_loop]. destruct active; [|apply defined_Done]. specialize (Hact eq_refl).
    unfold INT_MAX in Hlong.
    destruct (sequential_window_defined cfg mem ep_inds true t past_frames st) as [Hd Hinv];
      [done|done|done|lia|done..|].
    destruct Hd as [E|[[[[act1 t1] past1] st1] E]]; rewrite E; [by left|].
    cbn [mbind outcome_bind]. destruct (Hinv _ _ _ _ E) as [Hdq1 Hr1].
    apply sequential_window_active in E as [-> Hact1]; [|done|done|lia].
    apply IH; [done..|lia| |lia]. intros Ha. specialize (Hact1 Ha). lia.
Qed.

Section Bounds.
Context `{!RandomLaws}.

(** X21: SelectActions has no undefined behaviour, whatever epsilon is,
    on a batch of windows of at least [frames_per_timestep_] frames of
    7056 bytes, with buffers of the sizes the constructor gives them and
    at least one legal action: it returns, or stops at one of its
    CHECKs. *)
Theorem SelectActions_in_bounds cfg frames_batch epsilon cont st :
  1 <= unroll_ cfg -> 0 <= frames_per_timestep_ cfg ->
  0 <= minibatch_size_ cfg <= INT_MAX ->
  legal_actions_ cfg <> [] -> Z.of_nat (length (legal_actions_ cfg)) <= INT_MAX ->
  sizes_fit cfg -> constructed cfg st ->
  Forall (window_ok cfg) frames_batch ->
  SelectActions cfg frames_batch epsilon cont st = Fatal CheckFailed
  \/ exists actions st', SelectActions cfg frames_batch epsilon cont st = Done (actions, st').
Proof.
  intros Hun Hfpt Hmb Hlegal Hmax _ Hcon Hok. unfold SelectActions.
  destruct (_ && _); [|by left]. cbn [CHECK mbind outcome_bind].
  unfold INT_MAX in *. rewrite (as_size_t_small (minibatch_size_ cfg)) by lia.
  destruct (Z.leb_spec (Z.of_nat (length frames_batch)) (minibatch_size_ cfg)) as [Hle|];
    [|by left].
  cbn [CHECK mbind outcome_bind].
  destruct (uniform_real (random_engine st)) as [u g].
  destruct (u <? epsilon)%float.
  - match goal with
    | |- context [for_each ?body ?l ?s] =>
        destruct (for_each_total body (fun _ _ => True) l s) as ([actions st'] & E & _);
          [done| |right; by exists actions, st']
    end.
    intros k x [acts s1] _ _. cbv zeta.
    assert (Hn : 0 < Z.of_nat (length (legal_actions_ cfg))).
    { destruct (legal_actions_ cfg); [done|simpl; lia]. }
    rewrite as_size_t_small by lia.
    rewrite wrap32_id by (unfold in_int, INT_MIN, INT_MAX; lia).
    destruct (Z.ltb_spec (Z.of_nat (length (legal_actions_ cfg)) - 1) 0); [lia|].
    pose proof (uniform_int_range 0 (Z.of_nat (length (legal_actions_ cfg)) - 1)
                  (random_engine s1) ltac:(lia)) as Hr.
    destruct (uniform_int 0 _ (random_engine s1)) as [random_idx g']. cbn [fst] in Hr.
    destruct (vload_lt (legal_actions_ cfg) random_idx) as (a & -> & _); [lia|].
    cbn [mbind outcome_bind]. by eexists.
  - destruct (SelectActionGreedily_defined cfg test_net_ frames_batch cont
                (set_random_engine g st)) as [E|[[avs st1] E]];
      [done|done| |done|done|rewrite E; by left|].
    { intros _. destruct Hcon as (Hf & _).
      cbn [frame_input_ set_random_engine]. rewrite Hf. unfold frames_per_forward_.
      change kCroppedFrameDataSize with 7056. nia. }
    rewrite E. cbn [mbind outcome_bind].
    destruct (bool_decide _); cbn [CHECK mbind outcome_bind]; [right; by eexists _, _|by left].
Qed.

(** X22: UpdateRandom has no undefined behaviour on a memory of
    well-formed episodes that each hold a history window and an unroll
    window, with buffers of the sizes the constructor gives them and at
    least one legal action: every index into an episode, into the batch
    of values and into the four staging buffers is in range, and no
    missing next frame is read.  The call returns 1, or stops at one of
    its CHECKs. *)
Theorem UpdateRandom_in_bounds cfg mem st :
  1 <= unroll_ cfg -> 1 <= frames_per_timestep_ cfg ->
  0 <= minibatch_size_ cfg <= INT_MAX -> legal_actions_ cfg <> [] ->
  sizes_fit cfg -> constructed cfg st -> memory_ok cfg mem ->
  UpdateRandom cfg mem st = Fatal CheckFailed
  \/ exists st', UpdateRandom cfg mem st = Done (1, st').
Proof.
  intros Hun Hfpt Hmb Hlegal _ Hcon [Hmem Heps]. unfold UpdateRandom.
  assert (Hr1 : ready cfg (refresh_clone cfg st)).
  { split; [eapply constructed_same_shape; [done|apply refresh_clone_quiet]|].
    unfold refresh_clone.
    destruct (clone st) as [c|] eqn:Ec; [destruct (_ <=? _)|];
      cbn [clone set_clone]; rewrite ?Ec; by eexists. }
  set (st1 := refresh_clone cfg st) in *. destruct Hr1 as [Hc1 Hcl1].
  destruct (zero_first_cont_total cfg (fill (cont_input_ st1) f32_one))
    as (cont & -> & Hcont); [done|lia|rewrite fill_length; apply Hc1|].
  cbn [mbind outcome_bind]. rewrite fill_length in Hcont.
  set (st2 := set_buffers _ _ _ cont st1).
  assert (Hr2 : ready cfg st2).
  { split; [|exact Hcl1]. destruct Hc1 as (Hf & Ht & Hfl & Hc). unfold constructed, st2.
    cbn [frame_input_ target_input_ filter_input_ cont_input_ set_buffers].
    by rewrite !fill_length, Hcont. }
  pose proof (select_episodes_elem cfg mem st2) as Hel.
  pose proof (select_episodes_length cfg mem st2 ltac:(unfold INT_MAX in Hmb; lia)) as Hlen.
  pose proof (select_episodes_quiet cfg mem st2) as [Hq3 _].
  assert (Hcl3 : clone (snd (select_episodes cfg mem st2)) = clone st2).
  { unfold select_episodes. by destruct (random_shuffle _ _). }
  destruct (select_episodes cfg mem st2) as [ep_inds st3]. cbn [fst snd] in *.
  assert (Hr3 : ready cfg st3).
  { split; [by eapply constructed_same_shape; [apply Hr2|]|]. rewrite Hcl3. apply Hr2. }
  assert (Hepisodes : forall ind, ind ∈ ep_inds ->
            exists episode, lookupZ mem ind = Some episode /\ episode_ok cfg episode).
  { intros ind Hin. destruct (Hel ind Hin) as (episode & He & Hin').
    exists episode. split; [done|]. rewrite Forall_forall in Heps. by apply Heps. }
  destruct (sample_starts_total cfg mem ep_inds st3) as (ep_starts & st4 & Es & Hls & Hstarts).
  { lia. }
  { intros ind Hin. destruct (Hepisodes ind Hin) as (episode & He & Hok & _).
    exists episode. split; [done|lia]. }
  rewrite Es. cbn [mbind outcome_bind].
  assert (Hr4 : ready cfg st4).
  { split.
    - eapply constructed_same_shape; [apply Hr3|]. by apply sample_starts_quiet in Es as [? _].
    - apply sample_starts_clone in Es. rewrite Es. apply Hr3. }
  assert (Hbatch : batch_ok cfg mem ep_inds ep_starts).
  { split; [done|]. split; [done|]. intros k ind Hk.
    destruct (Hepisodes ind (list_elem_of_lookup_2 _ _ _ Hk)) as (episode & He & Hok).
    destruct (lookup_lt_is_Some_2 ep_starts k) as [start Hs];
      [rewrite Hls; by eapply lookup_lt_Some|].
    exists episode, start. split; [done|]. split; [done|]. split; [done|].
    by apply (Hstarts k ind episode start). }
  destruct (for_each_defined (random_unroll cfg mem ep_inds ep_starts)
              (fun _ sk => ready cfg sk) (zrange 0 (unroll_ cfg)) st4) as [Hd Hinv].
  - done.
  - intros k x sk Hk Hsk. apply lookup_zrange_Some in Hk as [-> Hk]. rewrite Z.add_0_l.
    apply random_unroll_defined; [done|lia|done..].
  - destruct Hd as [E|[st5 E]]; rewrite E; [by left|]. cbn [mbind outcome_bind].
    destruct (Hinv _ E) as [Hc5 _].
    destruct (copy_history_defined cfg mem ep_inds ep_starts st5) as [st6 ->]; [done..|].
    cbn [mbind outcome_bind].
    destruct (loss_ok _); cbn [CHECK mbind outcome_bind]; [right; by eexists|by left].
Qed.

(** X23: UpdateSequential has no undefined behaviour on a memory of
    well-formed transitions, with buffers of the sizes the constructor
    gives them, at least one legal action and times that fit an int:
    every index into an episode, a deque, the batch of values and the
    four staging buffers is in range.  Within one pass more than the
    longest episode has transitions it returns, or stops at one of its
    CHECKs. *)
Theorem UpdateSequential_in_bounds fuel cfg mem st :
  1 <= unroll_ cfg -> 1 <= frames_per_timestep_ cfg <= INT_MAX ->
  0 <= minibatch_size_ cfg <= INT_MAX -> legal_actions_ cfg <> [] ->
  sizes_fit cfg -> constructed cfg st ->
  Forall (Forall transition_ok) mem ->
  longest mem + unroll_ cfg <= INT_MAX -> longest mem < Z.of_nat fuel ->
  UpdateSequential fuel cfg mem st = Fatal CheckFailed
  \/ exists n st', UpdateSequential fuel cfg mem st = Done (n, st').
Proof.
  intros Hun Hfpt Hmb Hlegal _ Hcon Hmem Hlong Hfuel.
  assert (Hdef : defined (UpdateSequential fuel cfg mem st));
    [|destruct Hdef as [E|[[n st'] E]]; [by left|right; by exists n, st']].
  unfold UpdateSequential.
  assert (Hr1 : ready cfg (refresh_clone cfg st)).
  { split; [eapply constructed_same_shape; [done|apply refresh_clone_quiet]|].
    unfold refresh_clone.
    destruct (clone st) as [c|] eqn:Ec; [destruct (_ <=? _)|];
      cbn [clone set_clone]; rewrite ?Ec; by eexists. }
  set (st1 := refresh_clone cfg st) in *.
  pose proof (select_episodes_elem cfg mem st1) as Hel.
  pose proof (select_episodes_length cfg mem st1 ltac:(unfold INT_MAX in Hmb; lia)) as Hlen.
  pose proof (select_episodes_quiet cfg mem st1) as [Hq2 _].
  assert (Hcl2 : clone (snd (select_episodes cfg mem st1)) = clone st1).
  { unfold select_episodes. by destruct (random_shuffle _ _). }
  destruct (select_episodes cfg mem st1) as [ep_inds st2]. cbn [fst snd] in *.
  pose proof (longest_nonneg mem).
  apply sequential_loop_defined; [done|done|done|done|done| | | |lia|lia|lia].
  - split; [done|]. intros k ind Hk.
    destruct (Hel ind (list_elem_of_lookup_2 _ _ _ Hk)) as (episode & He & Hin).
    exists episode. split; [done|]. rewrite Forall_forall in Hmem. by apply Hmem.
  - split; [apply length_replicate|]. apply Forall_replicate. constructor.
  - split; [by eapply constructed_same_shape; [apply Hr1|]|]. rewrite Hcl2. apply Hr1.
Qed.

End Bounds.

End Calls.

(** ** The training targets *)

Section Targets.
Context `{Caffe} `{Random}.

(** *** What the target clone is given *)

(** The next-state window of time step [ts] of an episode: the next
    frames of the [frames_per_timestep_] transitions that end with the
    one at [ts], oldest first. *)
Definition next_window (cfg : Config) (episode : list Transition) (ts : Z)
  : option (list (list byte)) :=
  mapM (fun i => lookupZ episode (ts - (frames_per_timestep_ cfg - 1) + i) ≫= tr_next)
       (zrange 0 (frames_per_timestep_ cfg)).

(** The episode and the time step that batch slot [n] trains on: in
    UpdateRandom at unroll position [u], in UpdateSequential at time [t]. *)
Definition random_pick (cfg : Config) (mem : list (list Transition))
    (ep_inds ep_starts : list Z) (u : Z) (n : nat) : option (list Transition * Z) :=
  ind ← ep_inds !! n;
  episode ← lookupZ mem ind;
  start ← ep_starts !! n;
  Some (episode, start + u + (frames_per_timestep_ cfg - 1)).

Definition sequential_pick (mem : list (list Transition)) (ep_inds : list Z) (t : Z)
    (n : nat) : option (list Transition * Z) :=
  ind ← ep_inds !! n;
  episode ← lookupZ mem ind;
  Some (episode, t).

(** The next-state window of a slot whose transition has a next frame. *)
Definition slot_window (cfg : Config) (pick : nat -> option (list Transition * Z)) (n : nat)
  : option (list (list byte)) :=
  '(episode, ts) ← pick n;
  tr ← lookupZ episode ts;
  _ ← tr_next tr;
  next_window cfg episode ts.

(** The batch to evaluate: the windows of the slots that have one, in
    slot order. *)
Definition batch_windows (cfg : Config) (pick : nat -> option (list Transition * Z))
    (batch_size : nat) : list (list (list byte)) :=
  omap (slot_window cfg pick) (seq 0 batch_size).

Definition random_batch (cfg : Config) (mem : list (list Transition))
    (ep_inds ep_starts : list Z) (u : Z) : list (list (list byte)) :=
  batch_windows cfg (random_pick cfg mem ep_inds ep_starts u) (length ep_inds).

(** UpdateSequential evaluates nothing while the history is filling. *)
Definition sequential_batch (cfg : Config) (mem : list (list Transition))
    (ep_inds : list Z) (t : Z) : list (list (list byte)) :=
  if t <? frames_per_timestep_ cfg then []
  else batch_windows cfg (sequential_pick mem ep_inds t) (length ep_inds).

(** One evaluation by the target clone [net], with frame and
    continuation buffers of [lf] and [lc] floats: none for an empty
    batch, otherwise a forward pass on the staged batch with every
    continuation flag at [cont].  It yields the net the pass leaves and
    the values it computed. *)
Definition clone_pass (cfg : Config) (lf lc : nat) (net : Net) (cont : bool)
    (windows : list (list (list byte))) : Net * (Z -> Z -> float32) :=
  match windows with
  | [] => (net, fun _ _ => f32_zero)
  | _ => ForwardPrefilled net (staged cfg windows lf) (replicate lc (f32_of_bool cont))
  end.

(** The clone after the evaluations of the batches [0 .. n-1], each one
    on the net the one before left; the flag is off at position 0 only. *)
Fixpoint clone_after (cfg : Config) (lf lc : nat) (batch : nat -> list (list (list byte)))
    (net : Net) (n : nat) : Net :=
  match n with
  | O => net
  | S m => fst (clone_pass cfg lf lc (clone_after cfg lf lc batch net m)
                  (0 <? Z.of_nat m) (batch m))
  end.

(** The values the clone computes for batch [n]. *)
Definition clone_values (cfg : Config) (lf lc : nat) (batch : nat -> list (list (list byte)))
    (net : Net) (n : nat) : Z -> Z -> float32 :=
  snd (clone_pass cfg lf lc (clone_after cfg lf lc batch net n) (0 <? Z.of_nat n) (batch n)).

(** [target] is the training target of [transition] when [Q] holds the
    values the target clone returned for [batch] and [window] is the
    next-state window of the transition: the reward of a terminal
    transition; otherwise the window is item [r] of the batch, and the
    target is the reward plus gamma times the value of the greedy action
    for item [r], summed in [double] and rounded to [float]. *)
Definition bootstrapped (cfg : Config) (Q : Z -> Z -> float32)
    (batch : list (list (list byte))) (window : option (list (list byte))) (r : nat)
    (transition : Transition) (target : float32) : Prop :=
  match tr_next transition with
  | None => target = tr_reward transition
  | Some _ => exists w a,
      window = Some w /\ batch !! r = Some w
      /\ best_action cfg Q (Z.of_nat r) a
      /\ target = narrow (widen (tr_reward transition)
                          + gamma_ cfg * widen (Q (Z.of_nat r) a))%float
  end.

(** The target buffers of the solver steps of a trace, in order. *)
Definition solver_targets (tr : list call) : list (list float32) :=
  omap (fun c => match c with
                 | SolverStep _ _ target _ => Some target
                 | Forward _ _ _ => None
                 end) tr.

(** Every next frame of the memory is a full [FrameData] array. *)
Definition next_frames_ok (mem : list (list Transition)) : Prop :=
  Forall (Forall (fun tr => forall next, tr_next tr = Some next ->
                    length next = Z.to_nat kCroppedFrameDataSize)) mem.

(** *** The batches *)

Lemma random_slot_pick cfg mem ep_inds ep_starts u n :
  random_slot cfg mem ep_inds ep_starts u n
  = '(episode, ts) ← random_pick cfg mem ep_inds ep_starts u n; lookupZ episode ts.
Proof.
  unfold random_slot, random_pick.
  destruct (ep_inds !! n) as [ind|]; [|done]. cbn [mbind option_bind].
  destruct (lookupZ mem ind) as [episode|]; [|done]. cbn [mbind option_bind].
  by destruct (ep_starts !! n).
Qed.

Lemma sequential_slot_pick mem ep_inds t n :
  sequential_slot mem ep_inds t n
  = '(episode, ts) ← sequential_pick mem ep_inds t n; lookupZ episode ts.
Proof.
  unfold sequential_slot, sequential_pick.
  destruct (ep_inds !! n) as [ind|]; [|done]. cbn [mbind option_bind].
  by destruct (lookupZ mem ind).
Qed.

Lemma batch_windows_S cfg pick n :
  batch_windows cfg pick (S n)
  = batch_windows cfg pick n ++ match slot_window cfg pick n with
                                | Some w => [w]
                                | None => []
                                end.
Proof.
  unfold batch_windows. rewrite seq_S, omap_app. simpl.
  by destruct (slot_window cfg pick n).
Qed.

(** The batch has one window per slot with a next frame. *)
Lemma length_batch_windows cfg pick (slot : nat -> option Transition) n :
  (forall k, (k < n)%nat ->
     is_Some (slot_window cfg pick k) <-> is_Some (slot k ≫= tr_next)) ->
  length (batch_windows cfg pick n) = rank slot n.
Proof.
  induction n as [|n IH]; intros Hs; [done|].
  rewrite batch_windows_S, length_app, rank_S, IH by (intros k Hk; apply Hs; lia).
  f_equal. specialize (Hs n ltac:(lia)).
  destruct (slot_window cfg pick n) as [w|], (decide (is_Some (slot n ≫= tr_next))) as [Hd|Hd];
    try done.
  - exfalso. apply Hd, Hs. by eexists.
  - apply Hs in Hd as [? ?]. done.
Qed.

Lemma next_window_ok cfg mem episode ts w :
  0 <= frames_per_timestep_ cfg -> next_frames_ok mem -> episode ∈ mem ->
  next_window cfg episode ts = Some w -> window_ok cfg w.
Proof.
  intros Hfpt Hok Hin Hw. unfold next_window in Hw.
  pose proof (length_mapM _ _ _ Hw) as Hlen. rewrite length_zrange in Hlen.
  apply mapM_Some in Hw. split; [lia|].
  apply Forall_forall. intros f Hf.
  apply list_elem_of_lookup_1 in Hf as [j Hj].
  destruct (Forall2_lookup_r _ _ _ _ _ Hw Hj) as (i & _ & Hi).
  destruct (lookupZ episode _) as [tr|] eqn:Etr; [|done]. cbn [mbind option_bind] in Hi.
  apply lookupZ_elem_of in Etr.
  unfold next_frames_ok in Hok. rewrite Forall_forall in Hok. specialize (Hok _ Hin).
  rewrite Forall_forall in Hok. by apply (Hok tr).
Qed.

Lemma batch_windows_ok cfg mem pick n :
  0 <= frames_per_timestep_ cfg -> next_frames_ok mem ->
  (forall k episode ts, pick k = Some (episode, ts) -> episode ∈ mem) ->
  Forall (window_ok cfg) (batch_windows cfg pick n).
Proof.
  intros Hfpt Hok Hpick. induction n as [|n IH]; [constructor|].
  rewrite batch_windows_S. apply Forall_app. split; [done|].
  destruct (slot_window cfg pick n) as [w|] eqn:Ew; [|constructor].
  constructor; [|constructor]. unfold slot_window in Ew.
  destruct (pick n) as [[episode ts]|] eqn:Ep; [|done]. cbn [mbind option_bind] in Ew.
  destruct (lookupZ episode ts) as [tr|]; [|done]. cbn [mbind option_bind] in Ew.
  destruct (tr_next tr); [|done]. cbn [mbind option_bind] in Ew.
  eapply next_window_ok; [done|done| |exact Ew]. by eapply Hpick.
Qed.

Lemma random_pick_elem cfg mem ep_inds ep_starts u k episode ts :
  random_pick cfg mem ep_inds ep_starts u k = Some (episode, ts) -> episode ∈ mem.
Proof.
  unfold random_pick. destruct (ep_inds !! k) as [ind|]; [|done]. cbn [mbind option_bind].
  destruct (lookupZ mem ind) as [e|] eqn:Ee; [|done]. cbn [mbind option_bind].
  destruct (ep_starts !! k); [|done]. cbn [mbind option_bind].
  intros [= <- _]. by eapply lookupZ_elem_of.
Qed.

Lemma sequential_pick_elem mem ep_inds t k episode ts :
  sequential_pick mem ep_inds t k = Some (episode, ts) -> episode ∈ mem.
Proof.
  unfold sequential_pick. destruct (ep_inds !! k) as [ind|]; [|done]. cbn [mbind option_bind].
  destruct (lookupZ mem ind) as [e|] eqn:Ee; [|done]. cbn [mbind option_bind].
  intros [= <- _]. by eapply lookupZ_elem_of.
Qed.

(** The loop that builds a window makes the window of its last time step. *)
Lemma window_loop episode first (l : list Z) : forall acc input_frames,
  for_each (fun input_frames i =>
      tr ← vload episode (first + i);
      match tr_next tr with
      | Some next => Done (input_frames ++ [next])
      | None => Fatal Undefined
      end) l acc = Done input_frames ->
  exists fs, input_frames = acc ++ fs
    /\ Forall2 (fun i f => lookupZ episode (first + i) ≫= tr_next = Some f) l fs.
Proof.
  induction l as [|i l IH]; intros acc input_frames E; cbn [for_each] in E.
  - injection E as <-. exists []. by rewrite app_nil_r.
  - apply bind_Done in E as (acc1 & Eb & E).
    apply bind_Done in Eb as (tr & Etr & Eb). apply vload_lookupZ in Etr.
    destruct (tr_next tr) as [next|] eqn:En; [|done]. injection Eb as <-.
    apply IH in E as (fs & -> & Hfs). exists (next :: fs).
    rewrite <- app_assoc. split; [done|]. constructor; [|done].
    rewrite Etr. done.
Qed.

Lemma window_exact cfg episode first input_frames :
  for_each (fun input_frames i =>
      tr ← vload episode (first + i);
      match tr_next tr with
      | Some next => Done (input_frames ++ [next])
      | None => Fatal Undefined
      end) (zrange 0 (frames_per_timestep_ cfg)) [] = Done input_frames ->
  next_window cfg episode (first + (frames_per_timestep_ cfg - 1)) = Some input_frames.
Proof.
  intros E. apply window_loop in E as (fs & -> & Hfs). cbn [app].
  apply mapM_Some. eapply Forall2_impl; [exact Hfs|].
  intros i f Hf. cbv beta in *.
  by replace (first + (frames_per_timestep_ cfg - 1) - (frames_per_timestep_ cfg - 1) + i)
    with (first + i) by lia.
Qed.

(** A slot has a window only if its transition has a next frame. *)
Lemma slot_window_next cfg pick n :
  is_Some (slot_window cfg pick n) ->
  is_Some (('(episode, ts) ← pick n; lookupZ episode ts) ≫= tr_next).
Proof.
  unfold slot_window. destruct (pick n) as [[episode ts]|]; [|by intros [? ?]].
  cbn [mbind option_bind]. destruct (lookupZ episode ts) as [tr|]; [|by intros [? ?]].
  cbn [mbind option_bind]. destruct (tr_next tr); [by eexists|by intros [? ?]].
Qed.

(** The window of a slot is the item of the batch at the slot's rank. *)
Lemma batch_windows_lookup cfg pick (slot : nat -> option Transition) n :
  (forall k, (k < n)%nat ->
     is_Some (slot_window cfg pick k) <-> is_Some (slot k ≫= tr_next)) ->
  forall k w, (k < n)%nat -> slot_window cfg pick k = Some w ->
    batch_windows cfg pick n !! rank slot k = Some w.
Proof.
  induction n as [|n IH]; intros Hs k w Hk Hw; [lia|].
  rewrite batch_windows_S. destruct (decide (k = n)) as [->|Hne].
  - rewrite Hw. rewrite <- (length_batch_windows cfg pick slot n)
      by (intros j Hj; apply Hs; lia).
    by rewrite lookup_app_r, Nat.sub_diag.
  - apply lookup_app_l_Some. apply IH; [intros j Hj; apply Hs; lia|lia|done].
Qed.

Lemma gather_windows_exact cfg mem ep_inds ep_starts u windows :
  gather_windows cfg mem ep_inds ep_starts u = Done windows ->
  windows = random_batch cfg mem ep_inds ep_starts u
  /\ forall k, (k < length ep_inds)%nat ->
       is_Some (slot_window cfg (random_pick cfg mem ep_inds ep_starts u) k)
       <-> is_Some (random_slot cfg mem ep_inds ep_starts u k ≫= tr_next).
Proof.
  intros E. unfold random_batch.
  set (pick := random_pick cfg mem ep_inds ep_starts u).
  apply (for_each_invariant _
    (fun n vec => vec = batch_windows cfg pick n
       /\ forall k, (k < n)%nat ->
            is_Some (random_slot cfg mem ep_inds ep_starts u k ≫= tr_next) ->
            is_Some (slot_window cfg pick k))) in E.
  - rewrite length_zrange, Nat2Z.id in E. destruct E as [-> Hs]. split; [done|].
    intros k Hk. split; [|by apply Hs].
    intros Hw. rewrite random_slot_pick. by apply (slot_window_next cfg pick).
  - split; [done|]. intros k Hk. lia.
  - intros n x vec vec' Hn [-> Hprev] Eb.
    apply lookup_zrange_Some in Hn as [-> Hn]. rewrite Z.add_0_l in Eb.
    apply bind_Done in Eb as (ind & Ei & Eb). apply vload_lookupZ in Ei.
    rewrite lookupZ_of_nat in Ei.
    apply bind_Done in Eb as (episode & Ee & Eb). apply vload_lookupZ in Ee.
    apply bind_Done in Eb as (start & Es & Eb). apply vload_lookupZ in Es.
    rewrite lookupZ_of_nat in Es.
    apply bind_Done in Eb as (u1 & _ & Eb).
    apply bind_Done in Eb as (last_tr & El & Eb). apply vload_lookupZ in El.
    assert (Hpick : pick n = Some (episode, start + u + (frames_per_timestep_ cfg - 1))).
    { unfold pick, random_pick. rewrite Ei. cbn [mbind option_bind]. rewrite Ee.
      cbn [mbind option_bind]. by rewrite Es. }
    assert (Hwin : slot_window cfg pick n
                   = (_ ← tr_next last_tr;
                      next_window cfg episode (start + u + (frames_per_timestep_ cfg - 1)))).
    { unfold slot_window. rewrite Hpick. cbn [mbind option_bind]. by rewrite El. }
    rewrite batch_windows_S, Hwin.
    destruct (tr_next last_tr) as [next|] eqn:Hnext; cbn [mbind option_bind].
    + apply bind_Done in Eb as (input_frames & Ew & Eb). injection Eb as <-.
      apply window_exact in Ew. rewrite Ew. split; [done|].
      intros k Hk Hsome. destruct (decide (k = n)) as [->|Hne].
      * rewrite Hwin. cbn [mbind option_bind]. rewrite Ew. by eexists.
      * apply Hprev; [lia|done].
    + injection Eb as <-. rewrite app_nil_r. split; [done|].
      intros k Hk Hsome. destruct (decide (k = n)) as [->|Hne].
      * exfalso. rewrite random_slot_pick in Hsome. fold pick in Hsome.
        rewrite Hpick in Hsome. cbn [mbind option_bind] in Hsome.
        rewrite El in Hsome. cbn [mbind option_bind] in Hsome. rewrite Hnext in Hsome.
        by destruct Hsome.
      * apply Hprev; [lia|done].
Qed.

(** *** What a step leaves as it was *)

(** The target clone and the targets handed to the solver so far. *)
Definition steady (st st' : DQN) : Prop :=
  clone st' = clone st /\ solver_targets (trace st') = solver_targets (trace st).

Lemma steady_refl st : steady st st.
Proof. done. Qed.

Lemma steady_trans st1 st2 st3 : steady st1 st2 -> steady st2 st3 -> steady st1 st3.
Proof. intros [? ?] [? ?]. split; congruence. Qed.

Lemma solver_targets_snoc tr c :
  solver_targets (tr ++ [c])
  = solver_targets tr ++ match c with
                         | SolverStep _ _ target _ => [target]
                         | Forward _ _ _ => []
                         end.
Proof. unfold solver_targets. rewrite omap_app. by destruct c. Qed.

Lemma emit_target_steady cfg slot n frame_idx transition avs idx st idx' st' :
  emit_target cfg slot n frame_idx transition avs (idx, st) = Done (idx', st') ->
  steady st st'.
Proof.
  unfold emit_target. intros E.
  apply bind_Done in E as (? & _ & E). apply bind_Done in E as (? & _ & E).
  apply bind_Done in E as ([target idx1] & _ & E).
  apply bind_Done in E as (? & _ & E).
  apply bind_Done in E as (flt & Ef & E).
  apply bind_Done in E as (tgt & Et & E).
  apply bind_Done in E as (frames & Ec & E). apply Done_pair_inj in E as [<- <-].
  done.
Qed.

Lemma targets_steady {A} (body : Z * DQN -> A -> outcome (Z * DQN)) l acc acc' :
  (forall a x a', body a x = Done a' -> steady (snd a) (snd a')) ->
  for_each body l acc = Done acc' -> steady (snd acc) (snd acc').
Proof.
  intros Hbody E.
  refine (for_each_invariant body (fun _ a => steady (snd acc) (snd a)) l acc acc' _ _ E).
  - apply steady_refl.
  - intros k x a a' _ Ha Eb. eapply steady_trans; [done|]. by eapply Hbody.
Qed.

Lemma random_targets_steady cfg mem ep_inds ep_starts u avs st idx st' :
  random_targets cfg mem ep_inds ep_starts u avs st = Done (idx, st') -> steady st st'.
Proof.
  unfold random_targets. intros Et.
  refine (targets_steady _ _ (0, st) (idx, st') _ Et).
  intros [i s] slot [i' s'] Eb.
  apply bind_Done in Eb as (? & _ & Eb). apply bind_Done in Eb as (? & _ & Eb).
  apply bind_Done in Eb as (? & _ & Eb). cbv zeta in Eb.
  apply bind_Done in Eb as (? & _ & Eb). apply bind_Done in Eb as (? & _ & Eb).
  by eapply emit_target_steady.
Qed.

Lemma sequential_targets_steady cfg mem ep_inds i t avs st idx st' :
  sequential_targets cfg mem ep_inds i t avs st = Done (idx, st') -> steady st st'.
Proof.
  unfold sequential_targets. intros Et.
  refine (targets_steady _ _ (0, st) (idx, st') _ Et).
  intros [j s] slot [j' s'] Eb.
  apply bind_Done in Eb as (? & _ & Eb). apply bind_Done in Eb as (episode & _ & Eb).
  destruct (_ <? _).
  - apply bind_Done in Eb as (? & _ & Eb). by eapply emit_target_steady.
  - injection Eb as <- <-. apply steady_refl.
Qed.

(** One evaluation by the target clone is the pass [clone_pass]
    describes: the net it runs on is the clone, the frames are the
    staged batch. *)
Lemma SelectActionGreedily_clone cfg windows cont st avs st1 net :
  0 <= frames_per_timestep_ cfg -> Forall (window_ok cfg) windows ->
  clone st = Some net ->
  SelectActionGreedily cfg clone_net_ windows cont st = Done (avs, st1) ->
  let pass := clone_pass cfg (length (frame_input_ st)) (length (cont_input_ st))
                net cont windows in
  clone st1 = Some (fst pass)
  /\ solver_targets (trace st1) = solver_targets (trace st)
  /\ target_input_ st1 = target_input_ st
  /\ forall (k : nat) a v, avs !! k = Some (a, v) ->
       v = snd pass (Z.of_nat k) a /\ best_action cfg (snd pass) (Z.of_nat k) a.
Proof.
  intros Hfpt Hok Hc E. cbv zeta.
  destruct (decide (windows = [])) as [->|Hne].
  - injection E as <- <-. cbn [clone_pass fst snd]. by repeat split.
  - apply SelectActionGreedily_Done in E
      as (the_net & frames & the_net' & q & Hd & Hs & Hf & -> & _ & Hq); [|done].
    cbn [deref] in Hd. rewrite Hc in Hd. injection Hd as <-.
    unfold fill in Hs, Hf. apply stage_frames_staged in Hs; [|done|done]. subst frames.
    assert (Hp : clone_pass cfg (length (frame_input_ st)) (length (cont_input_ st))
                   net cont windows = (the_net', q)).
    { unfold clone_pass. by destruct windows. }
    rewrite Hp. cbn [fst snd]. split; [done|]. split.
    + cbn [trace log assign set_buffers]. rewrite solver_targets_snoc. apply app_nil_r.
    + split; [done|]. exact Hq.
Qed.

(** The targets of one unroll position of UpdateRandom. *)
Lemma random_unroll_exact cfg mem ep_inds ep_starts st u st' net :
  1 <= frames_per_timestep_ cfg -> next_frames_ok mem -> actions_ok mem ->
  clone st = Some net ->
  random_unroll cfg mem ep_inds ep_starts st u = Done st' ->
  let slot := random_slot cfg mem ep_inds ep_starts u in
  let pick := random_pick cfg mem ep_inds ep_starts u in
  let batch := random_batch cfg mem ep_inds ep_starts u in
  let pass := clone_pass cfg (length (frame_input_ st)) (length (cont_input_ st))
                net (0 <? u) batch in
  clone st' = Some (fst pass)
  /\ solver_targets (trace st') = solver_targets (trace st)
  /\ step_targets cfg slot (length ep_inds) u
       (fun k tr target =>
          bootstrapped cfg (snd pass) batch (slot_window cfg pick k) (rank slot k) tr target)
       (target_input_ st) (target_input_ st').
Proof.
  intros Hfpt Hok Hact Hc E slot pick batch pass. unfold random_unroll in E.
  apply bind_Done in E as (windows & Ew & E).
  apply bind_Done in E as ([avs st1] & Eg & E).
  apply bind_Done in E as ([idx st2] & Et & E).
  apply bind_Done in E as (u1 & _ & E). injection E as <-.
  apply gather_windows_exact in Ew as [-> Hiff]. fold batch pick slot in Eg, Hiff.
  assert (Hwok : Forall (window_ok cfg) batch).
  { apply (batch_windows_ok cfg mem); [lia|done|].
    intros k episode ts. apply random_pick_elem. }
  apply (SelectActionGreedily_clone cfg batch (0 <? u) st avs st1 net) in Eg
    as (Hc1 & Hs1 & Ht1 & Hq); [|lia|done|done].
  fold pass in Hc1, Hq.
  pose proof (random_targets_steady _ _ _ _ _ _ _ _ _ Et) as [Hc2 Hs2].
  split; [congruence|]. split; [congruence|].
  unfold random_targets in Et.
  apply (targets_loop cfg slot u (fun _ => u + (frames_per_timestep_ cfg - 1)) avs) in Et
    as [_ Ht]; [| |intros k tr; by apply random_slot_action].
  - rewrite Ht1 in Ht. revert Ht. apply step_targets_weaken.
    intros k tr target Hk Hs Htg. unfold is_target, bootstrapped in *.
    destruct (tr_next tr) as [next|] eqn:Hnext; [|done].
    destruct Htg as (qv & Hqv & ->).
    destruct (avs !! rank slot k) as [[a v]|] eqn:Ea; [|done].
    injection Hqv as ->. destruct (Hq _ _ _ Ea) as [-> Hbest].
    assert (Hsome : is_Some (slot_window cfg pick k)).
    { apply Hiff; [done|]. rewrite Hs. cbn [mbind option_bind]. by eexists. }
    destruct Hsome as [w Hw]. exists w, a. split; [done|]. split; [|done].
    by apply (batch_windows_lookup cfg pick slot (length ep_inds) Hiff).
  - intros k acc acc' Eb. by apply random_targets_body.
Qed.

(** A loop over the unroll positions whose passes each write the targets
    of their own position leaves all of them in the buffer. *)
Lemma unroll_loop_inv {S : Type} (dqn : S -> DQN) (step : S -> Z -> outcome S) cfg
    (slot : Z -> nat -> option Transition) (batch_size : nat)
    (R : Z -> nat -> Transition -> float32 -> Prop) (I : nat -> S -> Prop) unroll s0 s' :
  0 <= minibatch_size_ cfg -> Z.of_nat batch_size <= minibatch_size_ cfg ->
  (forall u k tr, slot u k = Some tr -> 0 <= tr_action tr) ->
  I 0%nat s0 ->
  (forall (n : nat) s s1, Z.of_nat n < unroll -> I n s -> step s (Z.of_nat n) = Done s1 ->
     I (Datatypes.S n) s1
     /\ step_targets cfg (slot (Z.of_nat n)) batch_size (Z.of_nat n) (R (Z.of_nat n))
          (target_input_ (dqn s)) (target_input_ (dqn s1))) ->
  for_each step (zrange 0 unroll) s0 = Done s' ->
  I (Z.to_nat unroll) s'
  /\ forall u (k : nat) tr, 0 <= u < unroll -> (k < batch_size)%nat -> slot u k = Some tr ->
       exists target,
         target_input_ (dqn s') !! Z.to_nat (target_offset cfg u (Z.of_nat k) tr) = Some target
         /\ R u k tr target.
Proof.
  intros Hmb Hbatch Hact Hinit Hstep E.
  assert (Hinv : I (length (zrange 0 unroll)) s' /\ forall u (k : nat) tr,
             0 <= u < Z.of_nat (length (zrange 0 unroll)) -> (k < batch_size)%nat ->
             slot u k = Some tr ->
             tr_action tr < kOutputCount
             /\ exists target,
                  target_input_ (dqn s') !! Z.to_nat (target_offset cfg u (Z.of_nat k) tr)
                    = Some target
                  /\ R u k tr target);
    [|rewrite length_zrange in Hinv; destruct Hinv as [HI Hinv]; split; [done|];
      intros u k tr Hu Hk Hs; by destruct (Hinv u k tr ltac:(lia) Hk Hs) as [_ ?]].
  refine (for_each_invariant step
    (fun n s =>
       I n s /\
       forall u (k : nat) tr, 0 <= u < Z.of_nat n -> (k < batch_size)%nat ->
         slot u k = Some tr ->
         tr_action tr < kOutputCount
         /\ exists target,
              target_input_ (dqn s) !! Z.to_nat (target_offset cfg u (Z.of_nat k) tr)
                = Some target
              /\ R u k tr target) _ s0 s' _ _ E).
  - split; [done|]. intros u k tr Hu. lia.
  - intros n x s s1 Hn [HI Hprev] Eb.
    apply lookup_zrange_Some in Hn as [-> Hn]. rewrite Z.add_0_l in Eb.
    assert (Hx : Z.of_nat n < unroll) by lia.
    destruct (Hstep _ _ _ Hx HI Eb) as [HI1 [Hw Hf]]. split; [done|].
    intros u k tr Hu Hk Hs. destruct (decide (u = Z.of_nat n)) as [->|Hne].
    + by apply Hw.
    + destruct (Hprev u k tr ltac:(lia) Hk Hs) as (Ha & target & Hl & HR).
      split; [done|]. exists target. split; [|done]. rewrite Hf; [done|].
      intros k' tr' Hk' Hs'. destruct (Hw k' tr' Hk' Hs') as [Ha' _].
      apply target_offset_apart; try lia.
      * split; [by eapply Hact|done].
      * split; [by eapply Hact|done].
Qed.

(** Two runs of a loop whose states are related stay related. *)
Lemma for_each_rel {A S1 S2} (R : S1 -> S2 -> Prop)
    (body1 : S1 -> A -> outcome S1) (body2 : S2 -> A -> outcome S2) l :
  (forall s1 s2 x s1', R s1 s2 -> body1 s1 x = Done s1' ->
     exists s2', body2 s2 x = Done s2' /\ R s1' s2') ->
  forall s1 s2 s1', R s1 s2 -> for_each body1 l s1 = Done s1' ->
    exists s2', for_each body2 l s2 = Done s2' /\ R s1' s2'.
Proof.
  intros Hstep. induction l as [|x l IH]; intros s1 s2 s1' HR E; cbn [for_each] in *.
  - injection E as <-. by exists s2.
  - apply bind_Done in E as (s1a & Eb & E).
    destruct (Hstep _ _ _ _ HR Eb) as (s2a & -> & HRa). cbn [mbind outcome_bind].
    by eapply IH.
Qed.

(** The starts sampled depend on the state through the random engine only. *)
Lemma sample_starts_engine cfg mem ep_inds s1 s2 ep_starts s1' :
  random_engine s1 = random_engine s2 ->
  sample_starts cfg mem ep_inds s1 = Done (ep_starts, s1') ->
  exists s2', sample_starts cfg mem ep_inds s2 = Done (ep_starts, s2').
Proof.
  intros Hg E. unfold sample_starts in *.
  eapply (for_each_rel (fun a b => fst a = fst b /\ random_engine (snd a) = random_engine (snd b)))
    with (s2 := (replicate (Z.to_nat (wrap32 (Z.of_nat (length ep_inds)))) 0, s2))
    in E as ([starts2 s2'] & E2 & Hs & _); [| |done].
  - cbn [fst] in Hs. subst starts2. exists s2'. exact E2.
  - intros [st1 a1] [st2 a2] n [st1' a1'] [Hst Ha] Eb. cbn [fst snd] in *. subst st2.
    apply bind_Done in Eb as (ind & -> & Eb). cbn [mbind outcome_bind].
    apply bind_Done in Eb as (episode & -> & Eb). cbn [mbind outcome_bind].
    cbv zeta in *. destruct (_ <? 0); [done|]. rewrite <- Ha.
    destruct (uniform_int 0 _ (random_engine a1)) as [start g].
    apply bind_Done in Eb as (starts & -> & Eb). cbn [mbind outcome_bind].
    injection Eb as <- <-. eexists. split; [reflexivity|]. done.
Qed.

(** *** UpdateRandom *)

(** The target buffer the solver step of UpdateRandom received.  With
    [net] the target clone as the call starts using it, [ep_inds] the
    episodes selected and [ep_starts] the starts sampled, the clone
    evaluates for each unroll position the batch of the next-state
    windows of that position, one position after the other; the buffer
    the solver step is given holds, for every unroll position [u] and
    batch slot [k], at the offset of the transition's action, the
    target of that transition. *)
Definition random_targets_ok (cfg : Config) (mem : list (list Transition))
    (st st' : DQN) : Prop :=
  exists net ep_starts st1,
    let ep_inds := fst (select_episodes cfg mem st) in
    let batch (u : nat) := random_batch cfg mem ep_inds ep_starts (Z.of_nat u) in
    let Q := clone_values cfg (length (frame_input_ st)) (length (cont_input_ st))
               batch net in
    clone (refresh_clone cfg st) = Some net
    /\ sample_starts cfg mem ep_inds st = Done (ep_starts, st1)
    /\ last (trace st')
       = Some (SolverStep (frame_input_ st') (cont_input_ st') (target_input_ st')
                 (filter_input_ st'))
    /\ forall (u k : nat) tr, Z.of_nat u < unroll_ cfg -> (k < length ep_inds)%nat ->
         random_slot cfg mem ep_inds ep_starts (Z.of_nat u) k = Some tr ->
         exists target,
           target_input_ st' !! Z.to_nat (target_offset cfg (Z.of_nat u) (Z.of_nat k) tr)
             = Some target
           /\ bootstrapped cfg (Q u) (batch u)
                (slot_window cfg (random_pick cfg mem ep_inds ep_starts (Z.of_nat u)) k)
                (rank (random_slot cfg mem ep_inds ep_starts (Z.of_nat u)) k) tr target.

Lemma refresh_clone_Some cfg st : is_Some (clone (refresh_clone cfg st)).
Proof.
  unfold refresh_clone. destruct (clone st) as [n|] eqn:Ec.
  - destruct (_ <=? _); cbn [clone set_clone]; rewrite ?Ec; by eexists.
  - cbn [clone set_clone]. by eexists.
Qed.

Lemma refresh_clone_fields cfg st :
  random_engine (refresh_clone cfg st) = random_engine st
  /\ libc_rand (refresh_clone cfg st) = libc_rand st
  /\ frame_input_ (refresh_clone cfg st) = frame_input_ st
  /\ cont_input_ (refresh_clone cfg st) = cont_input_ st
  /\ trace (refresh_clone cfg st) = trace st.
Proof.
  unfold refresh_clone.
  by destruct (match clone st with Some _ => _ | None => _ end).
Qed.

Lemma UpdateRandom_exact cfg mem st n st' :
  1 <= frames_per_timestep_ cfg ->
  0 <= minibatch_size_ cfg < 18446744073709551616 ->
  actions_ok mem -> next_frames_ok mem ->
  UpdateRandom cfg mem st = Done (n, st') ->
  random_targets_ok cfg mem st st'.
Proof.
  intros Hfpt Hmb Hact Hok E. unfold UpdateRandom in E.
  destruct (refresh_clone_Some cfg st) as [net Hnet].
  apply bind_Done in E as (cont & Ec & E).
  apply zero_first_cont_length in Ec. rewrite fill_length in Ec.
  match type of E with context [select_episodes cfg mem ?s] => set (sa := s) in * end.
  assert (Hsel : fst (select_episodes cfg mem sa) = fst (select_episodes cfg mem st)).
  { assert (Hl : libc_rand sa = libc_rand st).
    { unfold sa, refresh_clone. destruct (clone st); [destruct (_ <=? _)|]; reflexivity. }
    unfold select_episodes. rewrite Hl. by destruct (random_shuffle _ _). }
  pose proof (select_episodes_length cfg mem sa Hmb) as Hlen.
  assert (Hsb : clone (snd (select_episodes cfg mem sa)) = Some net
                /\ random_engine (snd (select_episodes cfg mem sa)) = random_engine st
                /\ length (frame_input_ (snd (select_episodes cfg mem sa)))
                   = length (frame_input_ st)
                /\ length (cont_input_ (snd (select_episodes cfg mem sa)))
                   = length (cont_input_ st)).
  { unfold select_episodes. destruct (random_shuffle _ _) as [e r]. unfold sa.
    cbn [snd clone random_engine frame_input_ cont_input_ set_libc_rand set_buffers].
    rewrite fill_length, Ec.
    destruct (refresh_clone_fields cfg st) as (-> & _ & -> & -> & _). done. }
  destruct (select_episodes cfg mem sa) as [ep_inds sb]. cbn [fst snd] in Hsel, Hlen, Hsb.
  destruct Hsb as (Hcb & Hgb & Hfb & Hcob). subst ep_inds.
  set (ep_inds := fst (select_episodes cfg mem st)) in *.
  apply bind_Done in E as ([ep_starts sc] & Es & E).
  destruct (sample_starts_engine _ _ _ _ st _ _ Hgb Es) as [st1 Est].
  pose proof (sample_starts_clone _ _ _ _ _ _ Es) as Hcc.
  pose proof (sample_starts_quiet _ _ _ _ _ _ Es) as [(Hfc & _ & _ & Hcoc) _].
  apply bind_Done in E as (sd & Eu & E).
  apply bind_Done in E as (se & Eh & E).
  apply bind_Done in E as (u1 & _ & E). injection E as <- <-.
  assert (Hh : target_input_ se = target_input_ sd).
  { apply (for_each_invariant _ (fun _ s => target_input_ s = target_input_ sd)) in Eh;
      [done|done|].
    intros k x s s' _ Hs Eb.
    apply (for_each_invariant _ (fun _ s => target_input_ s = target_input_ sd)) in Eb;
      [done|done|].
    intros k2 x2 s2 s2' _ Hs2 Eb2.
    apply bind_Done in Eb2 as (? & _ & Eb2). apply bind_Done in Eb2 as (? & _ & Eb2).
    apply bind_Done in Eb2 as (? & _ & Eb2). apply bind_Done in Eb2 as (? & _ & Eb2).
    apply bind_Done in Eb2 as (? & _ & Eb2). by injection Eb2 as <-. }
  exists net, ep_starts, st1. cbv zeta. split; [done|]. split; [done|].
  split; [unfold train_step, log; cbn [trace target_input_ set_solver]; apply last_snoc|].
  change (target_input_ (train_step se)) with (target_input_ se). rewrite Hh.
  set (lf := length (frame_input_ st)). set (lc := length (cont_input_ st)).
  set (batch := fun u : nat => random_batch cfg mem ep_inds ep_starts (Z.of_nat u)).
  destruct (unroll_loop_inv (fun s => s) (random_unroll cfg mem ep_inds ep_starts) cfg
           (random_slot cfg mem ep_inds ep_starts) (length ep_inds)
           (fun u k tr target =>
              bootstrapped cfg (clone_values cfg lf lc batch net (Z.to_nat u))
                (batch (Z.to_nat u))
                (slot_window cfg (random_pick cfg mem ep_inds ep_starts u) k)
                (rank (random_slot cfg mem ep_inds ep_starts u) k) tr target)
           (fun n s => clone s = Some (clone_after cfg lf lc batch net n)
                       /\ length (frame_input_ s) = lf /\ length (cont_input_ s) = lc)
           (unroll_ cfg) sc sd) as [_ Hall]; [lia|done| | | |done|].
  - intros u k tr. by apply random_slot_action.
  - cbn [clone_after]. unfold lf, lc. split; [congruence|]. split; congruence.
  - intros m s s1 Hm (Hcs & Hfs & Hcos) Eb.
    pose proof (random_unroll_quiet _ _ _ _ _ _ _ Eb) as [(Hf1 & _ & _ & Hco1) _].
    apply (random_unroll_exact cfg mem ep_inds ep_starts s (Z.of_nat m) s1 _ Hfpt Hok Hact Hcs)
      in Eb as (Hc1 & _ & Hst).
    rewrite Hfs, Hcos in Hc1, Hst. rewrite Nat2Z.id. split; [|exact Hst].
    split; [exact Hc1|]. split; congruence.
  - intros u k tr Hu Hk Hs.
    destruct (Hall (Z.of_nat u) k tr ltac:(lia) Hk Hs) as (target & Hl & Hb).
    rewrite Nat2Z.id in Hb. by exists target.
Qed.

(** *** UpdateSequential *)

(** What a deque holds when time [t] begins: the next frames of the
    time steps just before [t], at most [frames_per_timestep_] of them,
    oldest first. *)
Definition segment (cfg : Config) (episode : list Transition) (t : Z)
    (frame_deque : list (list byte)) : Prop :=
  Z.of_nat (length frame_deque) <= frames_per_timestep_ cfg
  /\ forall (j : nat) f, frame_deque !! j = Some f ->
       lookupZ episode (t - Z.of_nat (length frame_deque) + Z.of_nat j) ≫= tr_next = Some f.

Definition history (cfg : Config) (mem : list (list Transition)) (ep_inds : list Z) (t : Z)
    (past_frames : list (list (list byte))) : Prop :=
  forall (k : nat) ind, ep_inds !! k = Some ind ->
    exists frame_deque, past_frames !! k = Some frame_deque
      /\ forall episode, lookupZ mem ind = Some episode -> segment cfg episode t frame_deque.

Lemma segment_push cfg episode t frame_deque frame :
  1 <= frames_per_timestep_ cfg < 18446744073709551616 ->
  segment cfg episode t frame_deque ->
  lookupZ episode t ≫= tr_next = Some frame ->
  segment cfg episode (t + 1)
    (pop_front_while_longer (frames_per_timestep_ cfg) (frame_deque ++ [frame])).
Proof.
  intros Hfpt [Hlen Hseg] Hnext. unfold pop_front_while_longer.
  rewrite as_size_t_small by lia. rewrite length_app. cbn [length].
  set (d := Z.to_nat (Z.of_nat (length frame_deque + 1) - frames_per_timestep_ cfg)).
  assert (Hd : (d <= length frame_deque)%nat) by lia.
  split; [rewrite length_drop, length_app; cbn [length]; lia|].
  intros j f Hj. rewrite lookup_drop in Hj.
  rewrite length_drop, length_app. cbn [length].
  apply lookup_app_Some in Hj as [Hj|[Hge Hj]].
  - pose proof (lookup_lt_Some _ _ _ Hj).
    rewrite <- (Hseg _ _ Hj). do 2 f_equal. lia.
  - destruct (d + j - length frame_deque)%nat eqn:Hz; [|by destruct n].
    injection Hj as <-. rewrite <- Hnext. do 2 f_equal. lia.
Qed.

Lemma segment_nil cfg episode t : 0 <= frames_per_timestep_ cfg -> segment cfg episode t [].
Proof. intros Hfpt. split; [cbn; lia|]. intros j f Hj. done. Qed.

Lemma advance_windows_history cfg mem ep_inds t past_frames active past_frames' :
  1 <= frames_per_timestep_ cfg < 18446744073709551616 ->
  0 <= t < 18446744073709551616 ->
  history cfg mem ep_inds t past_frames ->
  advance_windows cfg mem ep_inds t past_frames = Done (active, past_frames') ->
  history cfg mem ep_inds (t + 1) past_frames'.
Proof.
  intros Hfpt Ht Hhist E.
  apply (for_each_invariant _
    (fun n '(_, past) =>
       forall (k : nat) ind, ep_inds !! k = Some ind ->
         exists frame_deque, past !! k = Some frame_deque
           /\ forall episode, lookupZ mem ind = Some episode ->
                segment cfg episode (if (k <? n)%nat then t + 1 else t) frame_deque)) in E.
  - rewrite length_zrange, Nat2Z.id in E. intros k ind Hk.
    destruct (E k ind Hk) as (D & HD & Hseg). exists D. split; [done|].
    apply lookup_lt_Some in Hk. by destruct (Nat.ltb_spec k (length ep_inds)); [|lia].
  - intros k ind Hk. exact (Hhist k ind Hk).
  - intros n x [act past] [act' past'] Hn Hprev Eb.
    apply lookup_zrange_Some in Hn as [-> Hn]. rewrite Z.add_0_l in Eb.
    apply bind_Done in Eb as (ind & Ei & Eb). apply vload_lookupZ in Ei.
    rewrite lookupZ_of_nat in Ei.
    apply bind_Done in Eb as (episode & Ee & Eb). apply vload_lookupZ in Ee.
    apply bind_Done in Eb as (frame_deque & Ed & Eb). apply vload_lookupZ in Ed.
    rewrite lookupZ_of_nat in Ed.
    apply bind_Done in Eb as (next & En & Eb).
    assert (Hnext : lookupZ episode t ≫= tr_next = next).
    { rewrite as_size_t_small in En by done.
      destruct (Z.ltb_spec t (Z.of_nat (length episode))).
      - apply bind_Done in En as (tr & Etr & En). injection En as <-.
        apply vload_lookupZ in Etr. by rewrite Etr.
      - injection En as <-. unfold lookupZ.
        destruct (Z.leb_spec 0 t); [|done].
        rewrite lookup_ge_None_2 by lia. done. }
    destruct (Hprev n ind Ei) as (D & HD & Hseg). rewrite Ed in HD. injection HD as <-.
    specialize (Hseg episode Ee). rewrite Nat.ltb_irrefl in Hseg.
    assert (Hstore : exists dq, vstore past (Z.of_nat n) dq = Done past'
                       /\ segment cfg episode (t + 1) dq).
    { destruct next as [frame|].
      - apply bind_Done in Eb as (p & Ep & Eb). injection Eb as _ <-.
        eexists. split; [exact Ep|]. by apply segment_push.
      - apply bind_Done in Eb as (p & Ep & Eb). injection Eb as _ <-.
        eexists. split; [exact Ep|]. apply segment_nil. lia. }
    destruct Hstore as (dq & Ev & Hdq). apply vstore_Done in Ev as [Hr ->].
    rewrite Nat2Z.id. intros k ind' Hk. destruct (decide (k = n)) as [->|Hne].
    + exists dq. rewrite list_lookup_insert_eq by lia. split; [done|].
      intros episode' Ee'. rewrite Hk in Ei. injection Ei as ->.
      rewrite Ee in Ee'. injection Ee' as <-.
      by destruct (Nat.ltb_spec n (S n)); [|lia].
    + rewrite list_lookup_insert_ne by done.
      destruct (Hprev k ind' Hk) as (D & HD & HsegD). exists D. split; [done|].
      intros episode' Ee'. specialize (HsegD episode' Ee').
      destruct (Nat.ltb_spec k n), (Nat.ltb_spec k (S n)); try done; lia.
Qed.

Lemma segment_window cfg episode t frame_deque :
  0 <= frames_per_timestep_ cfg ->
  segment cfg episode (t + 1) frame_deque ->
  Z.of_nat (length frame_deque) = frames_per_timestep_ cfg ->
  next_window cfg episode t = Some frame_deque.
Proof.
  intros Hfpt [_ Hseg] Hlen. unfold next_window. apply mapM_Some.
  apply Forall2_same_length_lookup. split; [rewrite length_zrange; lia|].
  intros j x f Hx Hf. apply lookup_zrange_Some in Hx as [-> _].
  rewrite <- (Hseg _ _ Hf). do 2 f_equal. lia.
Qed.

Lemma sequential_slot_None_window cfg mem ep_inds t k :
  sequential_slot mem ep_inds t k ≫= tr_next = None ->
  slot_window cfg (sequential_pick mem ep_inds t) k = None.
Proof.
  intros Hn. destruct (slot_window cfg _ k) as [w|] eqn:Ew; [|done].
  assert (Hs : is_Some (slot_window cfg (sequential_pick mem ep_inds t) k)) by (by eexists).
  apply slot_window_next in Hs. rewrite <- sequential_slot_pick, Hn in Hs. by destruct Hs.
Qed.

Lemma collect_windows_exact cfg mem ep_inds t past_frames windows :
  1 <= frames_per_timestep_ cfg < 18446744073709551616 ->
  history cfg mem ep_inds (t + 1) past_frames ->
  (forall k : nat, (k < length ep_inds)%nat ->
     exists frame_deque, past_frames !! k = Some frame_deque
       /\ match sequential_slot mem ep_inds t k ≫= tr_next with
          | Some next => last frame_deque = Some next
          | None => frame_deque = []
          end) ->
  collect_windows cfg ep_inds past_frames = Done windows ->
  windows = batch_windows cfg (sequential_pick mem ep_inds t) (length ep_inds)
  /\ forall k, (k < length ep_inds)%nat ->
       is_Some (slot_window cfg (sequential_pick mem ep_inds t) k)
       <-> is_Some (sequential_slot mem ep_inds t k ≫= tr_next).
Proof.
  intros Hfpt Hhist Hpast E.
  set (pick := sequential_pick mem ep_inds t). set (slot := sequential_slot mem ep_inds t) in *.
  apply (for_each_invariant _
    (fun n vec => vec = batch_windows cfg pick n
       /\ forall k, (k < n)%nat -> is_Some (slot k ≫= tr_next) ->
            is_Some (slot_window cfg pick k))) in E.
  - rewrite length_zrange, Nat2Z.id in E. destruct E as [-> Hs]. split; [done|].
    intros k Hk. split; [|by apply Hs].
    intros Hw. unfold slot. rewrite sequential_slot_pick.
    by apply (slot_window_next cfg pick).
  - split; [done|]. intros k Hk. lia.
  - intros n x vec vec' Hn [-> Hprev] Eb.
    apply lookup_zrange_Some in Hn as [-> Hn]. rewrite Z.add_0_l in Eb.
    rewrite Nat2Z.id in Hn.
    apply bind_Done in Eb as (frame_deque & Ed & Eb). apply vload_lookupZ in Ed.
    rewrite lookupZ_of_nat in Ed.
    destruct (Hpast n Hn) as (dq & Hdq & Hm). rewrite Ed in Hdq. injection Hdq as <-.
    rewrite batch_windows_S.
    destruct (slot n ≫= tr_next) as [next|] eqn:Hnext.
    + destruct frame_deque as [|f0 fs]; [done|].
      apply bind_Done in Eb as (u1 & Hc & Eb). injection Eb as <-.
      apply CHECK_Done, Z.eqb_eq in Hc. rewrite as_size_t_small in Hc by lia.
      assert (Hw : slot_window cfg pick n = Some (f0 :: fs)).
      { unfold slot, sequential_slot in Hnext. unfold slot_window, pick, sequential_pick.
        destruct (ep_inds !! n) as [ind|] eqn:Ei; [|done]. cbn [mbind option_bind] in *.
        destruct (lookupZ mem ind) as [episode|] eqn:Ee; [|done].
        cbn [mbind option_bind] in *.
        destruct (lookupZ episode t) as [tr|]; [|done]. cbn [mbind option_bind] in *.
        rewrite Hnext. cbn [mbind option_bind].
        destruct (Hhist n ind Ei) as (D & HD & Hseg). rewrite Ed in HD. injection HD as <-.
        apply segment_window; [lia|by apply Hseg|done]. }
      rewrite Hw. split; [done|].
      intros k Hk Hsome. destruct (decide (k = n)) as [->|Hne]; [by eexists|].
      apply Hprev; [lia|done].
    + subst frame_deque. injection Eb as <-.
      assert (Hw : slot_window cfg pick n = None)
        by (by apply sequential_slot_None_window).
      rewrite Hw, app_nil_r. split; [done|].
      intros k Hk Hsome. destruct (decide (k = n)) as [->|Hne].
      * rewrite Hnext in Hsome. by destruct Hsome.
      * apply Hprev; [lia|done].
Qed.

(** The targets of one time step of UpdateSequential. *)
Lemma sequential_step_exact cfg mem ep_inds i t past_frames st active past_frames' st' net :
  1 <= frames_per_timestep_ cfg < 18446744073709551616 ->
  0 <= t < 18446744073709551616 ->
  next_frames_ok mem -> actions_ok mem ->
  history cfg mem ep_inds t past_frames -> clone st = Some net ->
  sequential_step cfg mem ep_inds i t past_frames st = Done (active, past_frames', st') ->
  let slot := sequential_slot mem ep_inds t in
  let pick := sequential_pick mem ep_inds t in
  let batch := sequential_batch cfg mem ep_inds t in
  let pass := clone_pass cfg (length (frame_input_ st)) (length (cont_input_ st))
                net (0 <? t) batch in
  history cfg mem ep_inds (t + 1) past_frames'
  /\ clone st' = Some (fst pass)
  /\ solver_targets (trace st') = solver_targets (trace st)
  /\ step_targets cfg (trained_slot cfg mem ep_inds t) (length ep_inds) i
       (fun k tr target =>
          bootstrapped cfg (snd pass) batch (slot_window cfg pick k) (rank slot k) tr target)
       (target_input_ st) (target_input_ st').
Proof.
  intros Hfpt Ht Hok Hact Hhist Hc E slot pick batch pass. unfold sequential_step in E.
  apply bind_Done in E as ([act past1] & Ea & E).
  pose proof (advance_windows_history _ _ _ _ _ _ _ Hfpt Ht Hhist Ea) as Hhist1.
  split; [|].
  { destruct (_ <? _); [by injection E as _ <- _|].
    apply bind_Done in E as (? & _ & E). apply bind_Done in E as ([? ?] & _ & E).
    apply bind_Done in E as ([? ?] & _ & E). apply bind_Done in E as (? & _ & E).
    by injection E as _ <- _. }
  unfold trained_slot. subst pass batch. unfold sequential_batch.
  destruct (Z.ltb_spec t (frames_per_timestep_ cfg)).
  { injection E as <- <- <-. cbn [clone_pass fst snd]. split; [done|]. split; [done|].
    apply step_targets_none. }
  change (fun n => sequential_slot mem ep_inds t n) with slot. cbv iota. fold pick.
  set (batch := batch_windows cfg pick (length ep_inds)).
  set (pass := clone_pass _ _ _ _ _ _).
  apply bind_Done in E as (windows & Ew & E).
  apply bind_Done in E as ([avs st1] & Eg & E).
  apply bind_Done in E as ([idx st2] & Et & E).
  apply bind_Done in E as (u1 & _ & E). injection E as <- <- <-.
  pose proof (advance_windows_Done _ _ _ _ _ _ _ Hfpt Ht Ea) as Hpast.
  apply (collect_windows_exact cfg mem ep_inds t _ _ Hfpt Hhist1 Hpast) in Ew as [-> Hiff].
  fold pick batch slot in Eg, Hiff.
  assert (Hwok : Forall (window_ok cfg) batch).
  { apply (batch_windows_ok cfg mem); [lia|done|].
    intros k episode ts. apply sequential_pick_elem. }
  apply (SelectActionGreedily_clone cfg batch (0 <? t) st avs st1 net) in Eg
    as (Hc1 & Hs1 & Ht1 & Hq); [|lia|done|done].
  fold pass in Hc1, Hq.
  pose proof (sequential_targets_steady _ _ _ _ _ _ _ _ _ Et) as [Hc2 Hs2].
  split; [congruence|]. split; [congruence|].
  unfold sequential_targets in Et.
  apply (targets_loop cfg slot i (fun _ => i) avs) in Et
    as [_ HT]; [| |intros k tr; by apply sequential_slot_action].
  - rewrite Ht1 in HT. revert HT. apply step_targets_weaken.
    intros k tr target Hk Hs Htg. unfold is_target, bootstrapped in *.
    destruct (tr_next tr) as [next|] eqn:Hnext; [|done].
    destruct Htg as (qv & Hqv & ->).
    destruct (avs !! rank slot k) as [[a v]|] eqn:Ea'; [|done].
    injection Hqv as ->. destruct (Hq _ _ _ Ea') as [-> Hbest].
    assert (Hsome : is_Some (slot_window cfg pick k)).
    { apply Hiff; [done|]. rewrite Hs. cbn [mbind option_bind]. by eexists. }
    destruct Hsome as [w Hw]. exists w, a. split; [done|]. split; [|done].
    by apply (batch_windows_lookup cfg pick slot (length ep_inds) Hiff).
  - intros k acc acc' Eb. apply sequential_targets_body; [lia|exact Eb].
Qed.

(** One pass of the loop of UpdateSequential, begun at time [T]. *)
Lemma sequential_window_exact cfg mem ep_inds (lf lc : nat) net0 active (T : nat)
    past_frames st active' t' past_frames' st' :
  let batch := fun n : nat => sequential_batch cfg mem ep_inds (Z.of_nat n) in
  1 <= frames_per_timestep_ cfg < 18446744073709551616 ->
  0 <= minibatch_size_ cfg -> Z.of_nat (length ep_inds) <= minibatch_size_ cfg ->
  Z.of_nat T + unroll_ cfg < 18446744073709551616 ->
  next_frames_ok mem -> actions_ok mem ->
  history cfg mem ep_inds (Z.of_nat T) past_frames ->
  clone st = Some (clone_after cfg lf lc batch net0 T) ->
  length (frame_input_ st) = lf -> length (cont_input_ st) = lc ->
  sequential_window cfg mem ep_inds active (Z.of_nat T) past_frames st
    = Done (active', t', past_frames', st') ->
  let T' := (T + Z.to_nat (unroll_ cfg))%nat in
  t' = Z.of_nat T'
  /\ history cfg mem ep_inds (Z.of_nat T') past_frames'
  /\ clone st' = Some (clone_after cfg lf lc batch net0 T')
  /\ length (frame_input_ st') = lf /\ length (cont_input_ st') = lc
  /\ solver_targets (trace st') = solver_targets (trace st) ++ [target_input_ st']
  /\ forall (i k : nat) tr, Z.of_nat i < unroll_ cfg -> (k < length ep_inds)%nat ->
       frames_per_timestep_ cfg <= Z.of_nat (T + i) ->
       sequential_slot mem ep_inds (Z.of_nat (T + i)) k = Some tr ->
       exists target,
         target_input_ st' !! Z.to_nat (target_offset cfg (Z.of_nat i) (Z.of_nat k) tr)
           = Some target
         /\ bootstrapped cfg (clone_values cfg lf lc batch net0 (T + i)) (batch (T + i)%nat)
              (slot_window cfg (sequential_pick mem ep_inds (Z.of_nat (T + i))) k)
              (rank (sequential_slot mem ep_inds (Z.of_nat (T + i))) k) tr target.
Proof.
  intros batch Hfpt Hmb Hlen Hmax Hok Hact Hhist Hc Hlf Hlc E T'.
  unfold sequential_window in E.
  apply bind_Done in E as (cont & Ec & E).
  assert (Hcont : length cont = lc).
  { rewrite <- Hlc. destruct (_ =? 0).
    - apply zero_first_cont_length in Ec. by rewrite fill_length in Ec.
    - injection Ec as <-. apply fill_length. }
  match type of E with context [set_buffers ?a ?b ?c cont st] =>
    set (sa := set_buffers a b c cont st) in * end.
  apply bind_Done in E as ([[act past1] sd] & Eu & E).
  apply Done_inj in E. injection E as <- <- <- <-.
  destruct (unroll_loop_inv (fun s : bool * list (list (list byte)) * DQN => snd s)
           (fun '(_, past_frames, st) i =>
              sequential_step cfg mem ep_inds i (Z.of_nat T + i) past_frames st) cfg
           (fun i => trained_slot cfg mem ep_inds (Z.of_nat T + i)) (length ep_inds)
           (fun i k tr target =>
              bootstrapped cfg (clone_values cfg lf lc batch net0 (T + Z.to_nat i))
                (batch (T + Z.to_nat i)%nat)
                (slot_window cfg (sequential_pick mem ep_inds (Z.of_nat T + i)) k)
                (rank (sequential_slot mem ep_inds (Z.of_nat T + i)) k) tr target)
           (fun n '(_, past, s) =>
              history cfg mem ep_inds (Z.of_nat (T + n)) past
              /\ clone s = Some (clone_after cfg lf lc batch net0 (T + n))
              /\ length (frame_input_ s) = lf /\ length (cont_input_ s) = lc
              /\ solver_targets (trace s) = solver_targets (trace st))
           (unroll_ cfg) (active, past_frames, sa) (act, past1, sd))
    as [(Hh1 & Hc1 & Hf1 & Hco1 & Hs1) Hall]; [done|done| | | |done|].
  - intros u k' tr'. unfold trained_slot. destruct (_ <? _); [done|].
    by apply sequential_slot_action.
  - rewrite Nat.add_0_r. split; [done|]. split; [done|]. unfold sa.
    cbn [frame_input_ cont_input_ trace set_buffers]. rewrite fill_length. done.
  - intros n [[a p] s] [[a1 p1] s1] Hn (Hh & Hcs & Hfs & Hcos & Hss) Eb. cbn [snd].
    pose proof (sequential_step_quiet _ _ _ _ _ _ _ _ _ _ Eb) as [(Hfq & _ & _ & Hcoq) _].
    replace (Z.of_nat T + Z.of_nat n) with (Z.of_nat (T + n)) in * by lia.
    apply (sequential_step_exact cfg mem ep_inds (Z.of_nat n) (Z.of_nat (T + n)) p s a1 p1 s1
             _ Hfpt ltac:(lia) Hok Hact Hh Hcs) in Eb as (Hh' & Hc' & Hs' & Hst).
    rewrite Hfs, Hcos in Hc', Hst. rewrite Nat2Z.id.
    replace (Z.of_nat (T + n) + 1) with (Z.of_nat (T + S n)) in Hh' by lia.
    replace (T + S n)%nat with (S (T + n)) by lia.
    split; [|exact Hst].
    split; [by replace (S (T + n)) with (T + S n)%nat by lia|].
    split; [exact Hc'|]. split; [congruence|]. split; congruence.
  - split; [lia|]. split; [exact Hh1|]. split; [exact Hc1|].
    cbn [frame_input_ cont_input_ target_input_ train_step log set_solver].
    split; [done|]. split; [done|]. split.
    + cbn [trace train_step log set_solver]. rewrite solver_targets_snoc. by rewrite Hs1.
    + intros i k tr Hi Hk Hge Hs.
      destruct (Hall (Z.of_nat i) k tr ltac:(lia) Hk) as (target & Hl & Hb).
      { unfold trained_slot. replace (Z.of_nat T + Z.of_nat i) with (Z.of_nat (T + i)) by lia.
        by destruct (Z.ltb_spec (Z.of_nat (T + i)) (frames_per_timestep_ cfg)); [lia|]. }
      rewrite Nat2Z.id in Hb.
      replace (Z.of_nat T + Z.of_nat i) with (Z.of_nat (T + i)) in Hb by lia.
      by exists target.
Qed.

(** The [while] loop from time [T] on: every pass hands its targets to
    the solver. *)
Lemma sequential_loop_exact cfg mem ep_inds (lf lc : nat) net0 fuel :
  let batch := fun n : nat => sequential_batch cfg mem ep_inds (Z.of_nat n) in
  1 <= frames_per_timestep_ cfg < 18446744073709551616 ->
  1 <= unroll_ cfg -> longest mem + unroll_ cfg < 18446744073709551616 ->
  0 <= minibatch_size_ cfg -> Z.of_nat (length ep_inds) <= minibatch_size_ cfg ->
  next_frames_ok mem -> actions_ok mem ->
  forall active (T : nat) update_step past_frames st n st',
  history cfg mem ep_inds (Z.of_nat T) past_frames ->
  clone st = Some (clone_after cfg lf lc batch net0 T) ->
  length (frame_input_ st) = lf -> length (cont_input_ st) = lc ->
  (active = true -> Z.of_nat T <= longest mem) ->
  sequential_loop fuel cfg mem ep_inds active (Z.of_nat T) update_step past_frames st
    = Done (n, st') ->
  update_step <= n
  /\ exists bufs,
       solver_targets (trace st') = solver_targets (trace st) ++ bufs
       /\ Z.of_nat (length bufs) = n - update_step
       /\ forall (p i k : nat) tr, (p < length bufs)%nat -> Z.of_nat i < unroll_ cfg ->
            (k < length ep_inds)%nat ->
            let t := (T + p * Z.to_nat (unroll_ cfg) + i)%nat in
            frames_per_timestep_ cfg <= Z.of_nat t ->
            sequential_slot mem ep_inds (Z.of_nat t) k = Some tr ->
            exists buf target,
              bufs !! p = Some buf
              /\ buf !! Z.to_nat (target_offset cfg (Z.of_nat i) (Z.of_nat k) tr) = Some target
              /\ bootstrapped cfg (clone_values cfg lf lc batch net0 t) (batch t)
                   (slot_window cfg (sequential_pick mem ep_inds (Z.of_nat t)) k)
                   (rank (sequential_slot mem ep_inds (Z.of_nat t)) k) tr target.
Proof.
  intros batch Hfpt Hun Hmax Hmb Hlen Hok Hact.
  induction fuel as [|fuel IH];
    intros active T update_step past_frames st n st' Hhist Hc Hlf Hlc Hactive E;
    cbn [sequential_loop] in E; destruct active; try done;
    try (injection E as <- <-; split; [lia|]; exists []; rewrite app_nil_r;
         split; [done|]; split; [cbn; lia|]; intros p i k tr Hp; cbn in Hp; lia).
  specialize (Hactive eq_refl).
  apply bind_Done in E as ([[[act1 t1] past1] st1] & Ew & E).
  apply (sequential_window_exact cfg mem ep_inds lf lc net0) in Ew as Hw;
    [|done|done|done|lia|done|done|done|done|done|done].
  cbv zeta in Hw. destruct Hw as (-> & Hh1 & Hc1 & Hf1 & Hco1 & Hs1 & Hall1).
  apply sequential_window_active in Ew as [_ Hact1]; [|done|lia|lia].
  apply IH in E as (Hle & bufs & Hs2 & Hlb & Hall2); [|done|done|done|done|].
  2:{ intros Ha. specialize (Hact1 Ha). lia. }
  split; [lia|]. exists (target_input_ st1 :: bufs).
  split; [rewrite Hs2, Hs1, <- app_assoc; done|]. split; [cbn [length]; lia|].
  intros p i k tr Hp Hi Hk t Hge Hs. destruct p as [|p].
  - subst t. cbn [Nat.mul] in *. rewrite Nat.add_0_r in *.
    destruct (Hall1 i k tr Hi Hk Hge Hs) as (target & Hl & Hb).
    exists (target_input_ st1), target. done.
  - cbn [length] in Hp.
    assert (Ht : t = (T + Z.to_nat (unroll_ cfg) + p * Z.to_nat (unroll_ cfg) + i)%nat)
      by (subst t; lia).
    rewrite Ht in *. clear Ht.
    destruct (Hall2 p i k tr ltac:(lia) Hi Hk Hge Hs) as (buf & target & Hb & Hl & Hbo).
    exists buf, target. done.
Qed.

(** The target buffers the solver steps of UpdateSequential received.
    With [net] the target clone as the call starts using it and
    [ep_inds] the episodes selected, the clone evaluates at each time
    step from [frames_per_timestep_] on the batch of the next-state
    windows of that time, one time step after the other.  The call makes
    [n] solver steps; pass [p] of the loop covers the time steps
    [p * unroll_ + i], and the buffer its solver step is given holds,
    for every batch slot [k] with a transition at that time, at the
    offset of the transition's action, the target of that transition. *)
Definition sequential_targets_ok (cfg : Config) (mem : list (list Transition))
    (st : DQN) (n : Z) (st' : DQN) : Prop :=
  exists net,
    let ep_inds := fst (select_episodes cfg mem st) in
    let batch (t : nat) := sequential_batch cfg mem ep_inds (Z.of_nat t) in
    let Q := clone_values cfg (length (frame_input_ st)) (length (cont_input_ st))
               batch net in
    let before := length (solver_targets (trace st)) in
    clone (refresh_clone cfg st) = Some net
    /\ length (solver_targets (trace st')) = (before + Z.to_nat n)%nat
    /\ forall (p i k : nat) tr, Z.of_nat p < n -> Z.of_nat i < unroll_ cfg ->
         (k < length ep_inds)%nat ->
         let t := (p * Z.to_nat (unroll_ cfg) + i)%nat in
         frames_per_timestep_ cfg <= Z.of_nat t ->
         sequential_slot mem ep_inds (Z.of_nat t) k = Some tr ->
         exists buf target,
           solver_targets (trace st') !! (before + p)%nat = Some buf
           /\ buf !! Z.to_nat (target_offset cfg (Z.of_nat i) (Z.of_nat k) tr) = Some target
           /\ bootstrapped cfg (Q t) (batch t)
                (slot_window cfg (sequential_pick mem ep_inds (Z.of_nat t)) k)
                (rank (sequential_slot mem ep_inds (Z.of_nat t)) k) tr target.

Lemma UpdateSequential_exact fuel cfg mem st n st' :
  1 <= frames_per_timestep_ cfg < 18446744073709551616 ->
  1 <= unroll_ cfg -> longest mem + unroll_ cfg < 18446744073709551616 ->
  0 <= minibatch_size_ cfg < 18446744073709551616 ->
  next_frames_ok mem -> actions_ok mem ->
  UpdateSequential fuel cfg mem st = Done (n, st') ->
  sequential_targets_ok cfg mem st n st'.
Proof.
  intros Hfpt Hun Hmax Hmb Hok Hact E. unfold UpdateSequential in E.
  destruct (refresh_clone_Some cfg st) as [net Hnet].
  destruct (refresh_clone_fields cfg st) as (_ & Hl & Hf & Hco & Htr).
  assert (Hsel : fst (select_episodes cfg mem (refresh_clone cfg st))
                 = fst (select_episodes cfg mem st)).
  { unfold select_episodes. rewrite Hl. by destruct (random_shuffle _ _). }
  pose proof (select_episodes_length cfg mem (refresh_clone cfg st) Hmb) as Hlen.
  assert (Hsb : let sb := snd (select_episodes cfg mem (refresh_clone cfg st)) in
                clone sb = Some net /\ frame_input_ sb = frame_input_ st
                /\ cont_input_ sb = cont_input_ st /\ trace sb = trace st).
  { unfold select_episodes. destruct (random_shuffle _ _) as [e r].
    cbn [snd clone frame_input_ cont_input_ trace set_libc_rand]. done. }
  destruct (select_episodes cfg mem (refresh_clone cfg st)) as [ep_inds sb].
  cbn [fst snd] in Hsel, Hlen, Hsb. destruct Hsb as (Hcb & Hfb & Hcob & Htb). subst ep_inds.
  set (ep_inds := fst (select_episodes cfg mem st)) in *.
  assert (Hhist : history cfg mem ep_inds (Z.of_nat 0) (replicate (length ep_inds) [])).
  { intros k ind Hk. exists []. split.
    - apply lookup_replicate_2. by apply lookup_lt_Some in Hk.
    - intros episode _. apply segment_nil. lia. }
  destruct (sequential_loop_exact cfg mem ep_inds (length (frame_input_ st))
              (length (cont_input_ st)) net fuel Hfpt Hun Hmax (proj1 Hmb) Hlen Hok Hact
              _ 0%nat _ _ _ _ _ Hhist Hcb (f_equal length Hfb) (f_equal length Hcob)
              (fun _ => longest_nonneg mem) E) as (Hle & bufs & Hs & Hlb & Hall).
  exists net. cbv zeta. split; [done|]. rewrite Htb in Hs. rewrite Z.sub_0_r in Hlb.
  split; [rewrite Hs, length_app; lia|].
  intros p i k tr Hp Hi Hk Hge Hsl.
  destruct (Hall p i k tr ltac:(lia) Hi Hk Hge Hsl) as (buf & target & Hb & Ht & Hbo).
  exists buf, target. split; [|done].
  rewrite Hs, lookup_app_r by lia. by replace (_ + p - _)%nat with p by lia.
Qed.


End Targets.

(** ** A small engine to run the agent on

    The nets are counters of the forward passes made; every net values
    actions 2 and 4 at 0.75 and the others at 0.25.  The random sources
    return the low end of every range and leave the order alone. *)

Definition sample_caffe : Caffe := {|
  Net := Z;
  Solver := Z * Z;
  ForwardPrefilled := fun net _ _ =>
    (net + 1, fun _ a => if (a =? 2) || (a =? 4) then narrow 0.75 else narrow 0.25);
  Step := fun s _ _ _ _ => (fst s + 1, snd s);
  solver_iter := fst;
  loss_ok := fun _ => true;
  get_test_net := snd;
  set_test_net := fun s n => (fst s, n);
  CopyTrainedLayers := fun n _ => n
|}.

Definition sample_random : Random := {|
  RandomEngine := unit;
  LibcRand := unit;
  uniform_real := fun g => (0.5%float, g);
  uniform_int := fun a _ g => (a, g);
  random_shuffle := fun l g => (l, g)
|}.

Lemma sample_random_laws : @RandomLaws sample_random.
Proof.
  split.
  - intros g. split; reflexivity.
  - intros a b g Hab. cbn. lia.
  - intros l g. reflexivity.
Qed.

#[local] Existing Instances sample_caffe sample_random sample_random_laws.

(** The members as the constructor leaves them. *)
Definition new_DQN (cfg : Config) : DQN :=
  let zeros n := replicate (Z.to_nat n) f32_zero in
  mkDQN (zeros (minibatch_size_ cfg * frames_per_forward_ cfg * kCroppedFrameDataSize))
        (zeros (unroll_ cfg * minibatch_size_ cfg * kOutputCount))
        (zeros (unroll_ cfg * minibatch_size_ cfg * kOutputCount))
        (zeros (unroll_ cfg * minibatch_size_ cfg))
        (0, 0) None 0 tt tt [].

Definition frame_of (b : byte) : list byte := replicate (Z.to_nat kCroppedFrameDataSize) b.

(** Two steps unrolled, one episode per batch, one frame per step, six
    legal actions, discount 0.5. *)
Definition sample_cfg : Config := mkConfig 2 1 1 [0; 1; 2; 3; 4; 5] 100 0.5 10.

(** An episode of three transitions; the last one is terminal. *)
Definition sample_episode : list Transition :=
  [mkTransition (frame_of x01) 2 (narrow 0.5) (Some (frame_of x02));
   mkTransition (frame_of x02) 5 f32_zero (Some (frame_of x03));
   mkTransition (frame_of x03) 1 f32_one None].

(** An episode of one transition. *)
Definition short_episode : list Transition :=
  [mkTransition (frame_of x03) 1 f32_one None].

(** The continuation buffers and the target buffers of the solver steps made. *)
Definition solver_steps (o : outcome (Z * DQN)) : list (list float32 * list float32) :=
  match o with
  | Done (_, st) =>
      omap (fun c => match c with
                     | SolverStep _ cont target _ => Some (cont, target)
                     | Forward _ _ _ => None
                     end) (trace st)
  | Fatal _ => []
  end.

Definition result_of {A : Type} (o : outcome A) (d : A) : A :=
  match o with
  | Done x => x
  | Fatal _ => d
  end.

(** What a call returned, without the state. *)
Definition returned {A B : Type} (o : outcome (A * B)) : option A :=
  match o with
  | Done (x, _) => Some x
  | Fatal _ => None
  end.

Example SelectActions_sample :
  returned (SelectActions sample_cfg [[frame_of x01]] 0 true (new_DQN sample_cfg))
  = Some [2].
Proof. vm_compute. reflexivity. Qed.

Lemma sample_actions_ok : actions_ok [sample_episode].
Proof. repeat constructor; cbn; lia. Qed.

Definition is_done {A : Type} (o : outcome A) : bool :=
  match o with
  | Done _ => true
  | Fatal _ => false
  end.

Lemma is_done_Done {A} (o : outcome A) : is_done o = true -> exists x, o = Done x.
Proof. destruct o; [by eexists|done]. Qed.

Lemma sample_next_frames_ok : next_frames_ok [sample_episode].
Proof.
  repeat constructor; intros next [= <-]; apply length_replicate.
Qed.


(** The batches of the sample run: UpdateRandom evaluates the next frame of
    the first transition, then that of the second; UpdateSequential
    evaluates at time 1 the next frame of the second transition and
    nothing at time 2, where the episode ends. *)
Example training_batches_sample :
  random_batch sample_cfg [sample_episode] [0] [0] 0 = [[frame_of x02]]
  /\ random_batch sample_cfg [sample_episode] [0] [0] 1 = [[frame_of x03]]
  /\ sequential_batch sample_cfg [sample_episode] [0] 1 = [[frame_of x03]]
  /\ sequential_batch sample_cfg [sample_episode] [0] 2 = [].
Proof. repeat split; vm_compute; reflexivity. Qed.


Lemma sample_starts_in_bounds_witness :
  exists ep_starts st',
    sample_starts sample_cfg [sample_episode]
      (fst (select_episodes sample_cfg [sample_episode] (new_DQN sample_cfg)))
      (new_DQN sample_cfg) = Done (ep_starts, st')
    /\ length ep_starts
       = length (fst (select_episodes sample_cfg [sample_episode] (new_DQN sample_cfg)))
    /\ forall (k : nat) ind episode start,
         fst (select_episodes sample_cfg [sample_episode] (new_DQN sample_cfg)) !! k = Some ind ->
         lookupZ [sample_episode] ind = Some episode ->
         ep_starts !! k = Some start ->
         0 <= start
         /\ start + (unroll_ sample_cfg - 1) + (frames_per_timestep_ sample_cfg - 1)
            < Z.of_nat (length episode).
Proof.
  apply (sample_starts_in_bounds sample_cfg [sample_episode]).
  - vm_compute. discriminate.
  - repeat constructor; vm_compute; discriminate.
Defined.

(** C8 as stated fails on an episode shorter than the two windows: the
    bounds handed to the distribution are inverted, and nothing signals
    that no episode is eligible. *)
Lemma UpdateRandom_short_episode :
  UpdateRandom sample_cfg [short_episode] (new_DQN sample_cfg) = Fatal Undefined.
Proof. reflexivity. Qed.

(** C2, on one episode of three transitions with two steps unrolled:
    the first solver step (time steps 0 and 1) is given the flag 1 at
    both steps, the second (time steps 2 and 3) the flag 0 at both.  The
    buffer is cleared at the start of every pass, and then holds what
    the last evaluation of the target clone wrote into it. *)
Theorem UpdateSequential_cont_flags :
  let run := UpdateSequential 10 sample_cfg [sample_episode] (new_DQN sample_cfg) in
  returned run = Some 2
  /\ map fst (solver_steps run) = [[f32_one; f32_one]; [f32_zero; f32_zero]].
Proof. split; reflexivity. Qed.

(** The same memory through UpdateRandom: the target of the first
    transition is 0.5 + 0.5 * 0.75, that of the second 0 + 0.5 * 0.75. *)
Example UpdateRandom_sample :
  map (fun '(_, target) => (target !! 2%nat, target !! 23%nat))
      (solver_steps (UpdateRandom sample_cfg [sample_episode] (new_DQN sample_cfg)))
  = [(Some (narrow 0.875), Some (narrow 0.375))].
Proof. reflexivity. Qed.

(** ** The facts about the calls, on the small engine *)

Lemma SelectActions_legal_witness :
  exists actions st',
    SelectActions sample_cfg [[frame_of x01]] 0 true (new_DQN sample_cfg) = Done (actions, st')
    /\ length actions = length [[frame_of x01]]
    /\ Forall (fun a => a ∈ legal_actions_ sample_cfg) actions.
Proof.
  destruct (is_done_Done
              (SelectActions sample_cfg [[frame_of x01]] 0 true (new_DQN sample_cfg)))
    as ([actions st'] & E); [reflexivity|].
  exists actions, st'. split; [exact E|].
  exact (SelectActions_legal _ _ _ _ _ _ _ E).
Defined.

(** The greedy choice of the small engine, through SelectAction. *)
Example SelectAction_sample :
  returned (SelectAction sample_cfg [frame_of x01] 0 true (new_DQN sample_cfg)) = Some 2.
Proof. reflexivity. Qed.

Lemma SelectActions_empty_witness :
  SelectActions sample_cfg [] 0.5 true (new_DQN sample_cfg)
  = Done ([], set_random_engine
                (snd (uniform_real (random_engine (new_DQN sample_cfg))))
                (new_DQN sample_cfg)).
Proof. apply SelectActions_empty; reflexivity. Defined.

Lemma update_counts_solver_steps_witness :
  exists n st',
    UpdateSequential 10 sample_cfg [sample_episode] (new_DQN sample_cfg) = Done (n, st')
    /\ 0 <= n
    /\ solver_step_count (trace st') = solver_step_count (trace (new_DQN sample_cfg)) + n.
Proof.
  destruct (is_done_Done
              (UpdateSequential 10 sample_cfg [sample_episode] (new_DQN sample_cfg)))
    as ([n st'] & E); [reflexivity|].
  exists n, st'. split; [exact E|].
  exact (proj2 (update_counts_solver_steps sample_cfg [sample_episode]
                  (new_DQN sample_cfg) n st') 10%nat E).
Defined.

Lemma buffers_keep_their_size_witness :
  exists n st',
    UpdateRandom sample_cfg [sample_episode] (new_DQN sample_cfg) = Done (n, st')
    /\ same_shape (new_DQN sample_cfg) st'.
Proof.
  destruct (is_done_Done (UpdateRandom sample_cfg [sample_episode] (new_DQN sample_cfg)))
    as ([n st'] & E); [reflexivity|].
  exists n, st'. split; [exact E|].
  exact (proj1 (proj2 (buffers_keep_their_size sample_cfg [sample_episode]
                         (new_DQN sample_cfg))) n st' E).
Defined.

Lemma UpdateSequential_empty_witness :
  exists st',
    UpdateSequential 10 sample_cfg [] (new_DQN sample_cfg) = Done (0, st')
    /\ trace st' = trace (new_DQN sample_cfg)
    /\ solver_ st' = solver_ (new_DQN sample_cfg)
    /\ frame_input_ st' = frame_input_ (new_DQN sample_cfg)
    /\ cont_input_ st' = cont_input_ (new_DQN sample_cfg)
    /\ target_input_ st' = target_input_ (new_DQN sample_cfg)
    /\ filter_input_ st' = filter_input_ (new_DQN sample_cfg).
Proof. exact (UpdateSequential_empty 10 sample_cfg (new_DQN sample_cfg)). Defined.

Lemma UpdateRandom_empty_witness :
  exists st' cont,
    UpdateRandom sample_cfg [] (new_DQN sample_cfg) = Done (1, st')
    /\ trace st'
       = trace (new_DQN sample_cfg)
         ++ [SolverStep (fill (frame_input_ (new_DQN sample_cfg)) f32_zero) cont
                        (fill (target_input_ (new_DQN sample_cfg)) f32_zero)
                        (fill (filter_input_ (new_DQN sample_cfg)) f32_zero)].
Proof.
  apply (UpdateRandom_empty sample_cfg (new_DQN sample_cfg)).
  - vm_compute. split; discriminate.
  - reflexivity.
Defined.

Lemma UpdateSequential_terminates_witness :
  UpdateSequential 4 sample_cfg [sample_episode] (new_DQN sample_cfg) <> Fatal OutOfFuel
  /\ UpdateSequential 10 sample_cfg [sample_episode] (new_DQN sample_cfg)
     = UpdateSequential 4 sample_cfg [sample_episode] (new_DQN sample_cfg).
Proof.
  apply (UpdateSequential_terminates 4 10 sample_cfg [sample_episode] (new_DQN sample_cfg)).
  - vm_compute. discriminate.
  - vm_compute. reflexivity.
  - vm_compute. reflexivity.
  - lia.
Defined.

Lemma sample_constructed : constructed sample_cfg (new_DQN sample_cfg).
Proof. repeat split; vm_compute; reflexivity. Qed.

Lemma sample_sizes_fit : sizes_fit sample_cfg.
Proof. split; vm_compute; discriminate. Qed.

Lemma sample_transitions_ok : Forall transition_ok sample_episode.
Proof.
  assert (Hf : forall b, frame_ok (frame_of b)) by (intros b; apply length_replicate).
  repeat constructor; cbn [tr_frame tr_action tr_next sample_episode]; try apply Hf; try lia;
    intros next [= <-]; apply Hf.
Qed.

Lemma sample_memory_ok : memory_ok sample_cfg [sample_episode].
Proof.
  split; [vm_compute; discriminate|]. constructor; [|constructor].
  split; [split; vm_compute; discriminate|]. split; [exact sample_transitions_ok|].
  intros [|[|[|j]]] tr Hl Hlt; simpl in Hlt; try lia; injection Hl as <-; by eexists.
Qed.

Lemma SelectActions_in_bounds_witness :
  SelectActions sample_cfg [[frame_of x01]] 0.5 true (new_DQN sample_cfg) = Fatal CheckFailed
  \/ exists actions st',
       SelectActions sample_cfg [[frame_of x01]] 0.5 true (new_DQN sample_cfg)
       = Done (actions, st').
Proof.
  apply SelectActions_in_bounds.
  - vm_compute. discriminate.
  - vm_compute. discriminate.
  - split; vm_compute; discriminate.
  - discriminate.
  - vm_compute. discriminate.
  - exact sample_sizes_fit.
  - exact sample_constructed.
  - constructor; [|constructor]. split; [vm_compute; discriminate|].
    constructor; [|constructor]. apply length_replicate.
Defined.

Lemma UpdateRandom_in_bounds_witness :
  UpdateRandom sample_cfg [sample_episode] (new_DQN sample_cfg) = Fatal CheckFailed
  \/ exists st', UpdateRandom sample_cfg [sample_episode] (new_DQN sample_cfg) = Done (1, st').
Proof.
  apply UpdateRandom_in_bounds.
  - vm_compute. discriminate.
  - vm_compute. discriminate.
  - split; vm_compute; discriminate.
  - discriminate.
  - exact sample_sizes_fit.
  - exact sample_constructed.
  - exact sample_memory_ok.
Defined.

Lemma UpdateSequential_in_bounds_witness :
  UpdateSequential 4 sample_cfg [sample_episode] (new_DQN sample_cfg) = Fatal CheckFailed
  \/ exists n st',
       UpdateSequential 4 sample_cfg [sample_episode] (new_DQN sample_cfg) = Done (n, st').
Proof.
  apply UpdateSequential_in_bounds.
  - vm_compute. discriminate.
  - split; vm_compute; discriminate.
  - split; vm_compute; discriminate.
  - discriminate.
  - exact sample_sizes_fit.
  - exact sample_constructed.
  - constructor; [exact sample_transitions_ok|constructor].
  - vm_compute. discriminate.
  - vm_compute. reflexivity.
Defined.

End Agent.
